(** * LBRY transaction library: a shallow embedding and its properties

    This development embeds [lbry/blockchain/transaction.py] (transactions,
    inputs, outputs, the wire codec, the signature pre-image, the claim
    accessors and the balance accessors) and the block-file query of
    [lbry/blockchain/database.py].

    Python objects that are mutated through references (inputs and outputs
    attached by [_add], the caches of a transaction) live in an explicit
    [Store]; locations are list indices and allocation appends.  Exceptions
    are values of the [result] type. *)

From Stdlib Require Import ZArith List Lia Bool Sorted.
From Stdlib.Strings Require Import Byte.
From stdpp Require Import base tactics option list strings gmap.

Local Open Scope Z_scope.

(** ** Exceptions *)

Inductive error : Type :=
  | Malformed                    (* byte stream exhausted *)
  | StructError                  (* struct.pack outside the format's range *)
  | ValueError (msg : string)
  | AssertionError
  | KeyError (key : string)
  | IndexError
  | TypeError
  | AttributeError
  | OperationalError (msg : string)   (* raised by sqlite3 while a statement runs *)
  | InvalidLocation.             (* a reference into the store that was never allocated *)

Inductive result (A : Type) : Type :=
  | Ok (a : A)
  | Err (e : error).
Arguments Ok {A} a.
Arguments Err {A} e.

#[global] Instance result_ret : MRet result := fun A a => Ok a.

#[global] Instance result_bind : MBind result := fun A B k m =>
  match m with
  | Ok a => k a
  | Err e => Err e
  end.

Definition is_ok {A} (r : result A) : bool :=
  match r with Ok _ => true | Err _ => false end.

Definition of_option {A} (e : error) (o : option A) : result A :=
  match o with Some a => Ok a | None => Err e end.

(** ** Bytes and fixed-width integers *)

Abbreviation bytes := (list byte).

#[global] Instance byte_eq_decision : EqDecision byte := Byte.byte_eq_dec.

Definition byte_of_Z (z : Z) : byte :=
  match Byte.of_N (Z.to_N (z mod 256)) with
  | Some b => b
  | None => x00
  end.

Definition Z_of_byte (b : byte) : Z := Z.of_N (Byte.to_N b).

(** [n] bytes of [v], least significant first (struct formats [<H], [<I], [<Q]). *)
Fixpoint le_bytes (n : nat) (v : Z) : bytes :=
  match n with
  | O => []
  | S n' => byte_of_Z v :: le_bytes n' (v / 256)
  end.

Fixpoint le_value (bs : bytes) : Z :=
  match bs with
  | [] => 0
  | b :: bs' => Z_of_byte b + 256 * le_value bs'
  end.

(** Most significant first (struct format [>I]). *)
Definition be_bytes (n : nat) (v : Z) : bytes := rev (le_bytes n v).

Definition in_range (n : nat) (v : Z) : bool :=
  (0 <=? v) && (v <? 256 ^ Z.of_nat n).

(** [struct.Struct(fmt).pack(v)]: raises outside the range of the format. *)
Definition pack_le (n : nat) (v : Z) : result bytes :=
  if in_range n v then Ok (le_bytes n v) else Err StructError.

Definition pack_be (n : nat) (v : Z) : result bytes :=
  if in_range n v then Ok (be_bytes n v) else Err StructError.

(** ** Byte stream codec *)

(** Modelled from the spec: [BCDataStream] (lbry/blockchain/bcd_data_stream.py
    is not among the sources).  Section 4.1: little-endian fixed-width
    integers, compact-size varints with thresholds 0xFD, 0xFFFF, 0xFFFFFFFF,
    length-prefixed byte strings, a cursor, and failure with Malformed when a
    read exceeds the input.  The buffer is kept as the bytes before the cursor
    and the bytes from the cursor on. *)
Record BCDataStream : Type := mkStream {
  consumed : bytes;
  remaining : bytes
}.

Definition new_stream (data : bytes) : BCDataStream :=
  {| consumed := []; remaining := data |}.

Definition get_bytes (s : BCDataStream) : bytes := consumed s ++ remaining s.

Definition tell (s : BCDataStream) : Z := Z.of_nat (length (consumed s)).

Definition read (size : nat) (s : BCDataStream) : result (bytes * BCDataStream) :=
  if (size <=? length (remaining s))%nat
  then Ok (take size (remaining s),
           {| consumed := consumed s ++ take size (remaining s);
              remaining := drop size (remaining s) |})
  else Err Malformed.

Definition write (data : bytes) (s : BCDataStream) : result BCDataStream :=
  Ok {| consumed := consumed s ++ data;
        remaining := drop (length data) (remaining s) |}.

Definition read_uint (n : nat) (s : BCDataStream) : result (Z * BCDataStream) :=
  '(bs, s) ← read n s;
  Ok (le_value bs, s).

Definition write_uint (n : nat) (v : Z) (s : BCDataStream) : result BCDataStream :=
  bs ← pack_le n v;
  write bs s.

Definition read_uint8 := read_uint 1.
Definition read_uint16 := read_uint 2.
Definition read_uint32 := read_uint 4.
Definition read_uint64 := read_uint 8.
Definition write_uint8 := write_uint 1.
Definition write_uint16 := write_uint 2.
Definition write_uint32 := write_uint 4.
Definition write_uint64 := write_uint 8.

Definition read_compact_size (s : BCDataStream) : result (Z * BCDataStream) :=
  '(size, s) ← read_uint8 s;
  if size <? 253 then Ok (size, s)
  else if size =? 253 then read_uint16 s
  else if size =? 254 then read_uint32 s
  else read_uint64 s.

Definition write_compact_size (size : Z) (s : BCDataStream) : result BCDataStream :=
  if size <? 253 then write_uint8 size s
  else if size <=? 0xFFFF then
    s ← write_uint8 253 s; write_uint16 size s
  else if size <=? 0xFFFFFFFF then
    s ← write_uint8 254 s; write_uint32 size s
  else
    s ← write_uint8 255 s; write_uint64 size s.

Definition read_string (s : BCDataStream) : result (bytes * BCDataStream) :=
  '(size, s) ← read_compact_size s;
  read (Z.to_nat size) s.

Definition write_string (b : bytes) (s : BCDataStream) : result BCDataStream :=
  s ← write_compact_size (Z.of_nat (length b)) s;
  write b s.

(** ** External collaborators *)

(** Modelled from the spec: the hash primitives of lbry/crypto/hash.py
    (section 4.2), pure functions on bytes that the library only calls. *)
Class Hashes : Type := {
  sha256 : bytes -> bytes;
  hash160 : bytes -> bytes
}.

(** [binascii.hexlify(b).decode()]: two lowercase hexadecimal digits per byte. *)
Definition hex_digit (n : Z) : Ascii.ascii :=
  if n <? 10 then Ascii.ascii_of_N (Z.to_N (48 + n))
  else Ascii.ascii_of_N (Z.to_N (87 + n)).

Fixpoint hexlify (b : bytes) : string :=
  match b with
  | [] => EmptyString
  | x :: b' =>
      String (hex_digit (Z_of_byte x / 16))
        (String (hex_digit (Z_of_byte x mod 16)) (hexlify b'))
  end.

(** Modelled from the spec: the claim payload of lbry/schema/claim.py
    (section 1): the library touches the byte form, the fields
    [signing_channel_hash] and [signature], [to_message_bytes()] and the flag
    [unsigned_payload]. *)
Module Claim.
Record t : Type := mk {
  message : bytes;
  signing_channel_hash : option bytes;
  signature : option bytes;
  unsigned_payload : option bytes
}.

Definition to_message_bytes (c : t) : bytes := message c.

Definition set_signing_channel_hash (h : bytes) (c : t) : t :=
  {| message := message c; signing_channel_hash := Some h;
     signature := signature c; unsigned_payload := unsigned_payload c |}.

Definition set_signature (sig : bytes) (c : t) : t :=
  {| message := message c; signing_channel_hash := signing_channel_hash c;
     signature := Some sig; unsigned_payload := unsigned_payload c |}.

(** The signed -> unsigned transition of section 4.6. *)
Definition clear_signature (c : t) : t :=
  {| message := message c; signing_channel_hash := None;
     signature := None; unsigned_payload := unsigned_payload c |}.
End Claim.

(** Modelled from the spec: the entries of an output script's value map
    (section 6.2): bytes, a parsed claim, or a parsed purchase. *)
Inductive script_value : Type :=
  | VBytes (b : bytes)
  | VClaim (c : Claim.t)
  | VPurchase (p : bytes).

(** Modelled from the spec: the script variants of section 6.2 and 9. *)
Inductive Template : Type :=
  | PayPubKeyHash
  | ClaimName
  | UpdateClaim
  | SupportClaim
  | ReturnData
  | OtherScript.

#[global] Instance Template_eq_decision : EqDecision Template.
Proof. solve_decision. Defined.

(** Modelled from the spec: the script and claim codecs of
    lbry/blockchain/script.py and lbry/schema (sections 1 and 6.2), opaque to
    the library: disassembly of script bytes into a tagged value map,
    assembly of the bytes from a value map, parsing of a claim payload, and
    the deterministic ECDSA signer of a channel key. *)
Class Codecs : Type := {
  disassemble : bytes -> Template * gmap string script_value;
  assemble : Template -> gmap string script_value -> bytes;
  claim_from_bytes : bytes -> result Claim.t;
  sign_digest_deterministic : bytes -> bytes -> bytes
}.

(** Modelled from the spec: [InputScript], of which the library reads the
    source bytes only. *)
Module InputScript.
Record t : Type := mk { source : bytes }.
End InputScript.

(** Modelled from the spec: [OutputScript] (section 6.2): source bytes, the
    offset within the enclosing transaction, the variant tag and the value
    map; [generate] rebuilds the source from the value map. *)
Module OutputScript.
Record t : Type := mk {
  source : bytes;
  offset : Z;
  template : Template;
  values : gmap string script_value
}.

Definition is_pay_pubkey_hash (s : t) : bool := bool_decide (template s = PayPubKeyHash).
Definition is_claim_name (s : t) : bool := bool_decide (template s = ClaimName).
Definition is_update_claim (s : t) : bool := bool_decide (template s = UpdateClaim).
Definition is_support_claim (s : t) : bool := bool_decide (template s = SupportClaim).
Definition is_return_data (s : t) : bool := bool_decide (template s = ReturnData).
Definition is_claim_involved (s : t) : bool :=
  is_claim_name s || is_update_claim s || is_support_claim s.

Definition set_values (v : gmap string script_value) (s : t) : t :=
  {| source := source s; offset := offset s; template := template s; values := v |}.

Definition parse `{Codecs} (src : bytes) (off : Z) : t :=
  {| source := src; offset := off;
     template := fst (disassemble src); values := snd (disassemble src) |}.

Definition generate `{Codecs} (s : t) : t :=
  {| source := assemble (template s) (values s); offset := offset s;
     template := template s; values := values s |}.
End OutputScript.

(** ** Transaction references *)

Definition tx_loc := nat.
Definition in_loc := nat.
Definition out_loc := nat.

Definition NULL_HASH32 : bytes := replicate 32 x00.

(** Modelled from the spec: [TXRefImmutable] of lbry/blockchain/hash.py
    (section 3): hash and height fixed at construction, id the hex of the
    reversed hash, null when the hash is the all-zero 32-byte hash. *)
Module TXRefImmutable.
Record t : Type := mk {
  _id : string;
  _hash : bytes;
  _height : Z
}.

Definition from_hash (tx_hash : bytes) (height : Z) : t :=
  {| _id := hexlify (rev tx_hash); _hash := tx_hash; _height := height |}.

Definition hash (r : t) : bytes := _hash r.
Definition is_null (r : t) : bool := bool_decide (hash r = NULL_HASH32).
End TXRefImmutable.

(** The caches of a [TXRefMutable]; the transaction it belongs to is the one
    that holds it. *)
Module TXRefMutable.
Record t : Type := mk {
  _id : option string;
  _hash : option bytes
}.

Definition reset (r : t) : t := {| _id := None; _hash := None |}.
End TXRefMutable.

(** A reference to a [TXRef] object: an immutable one, or the mutable ref of
    the transaction at a location of the store. *)
Inductive TXRef : Type :=
  | RefImmutable (r : TXRefImmutable.t)
  | RefMutable (tx : tx_loc).

(** [TXORef] and [TXORefResolvable]: [txo] is [None] for the former.  The
    ref of the spent transaction is represented by the hash and height it
    reports. *)
Module TXORef.
Record t : Type := mk {
  tx_ref : TXRefImmutable.t;
  position : Z;
  txo : option out_loc
}.

Definition hash (r : t) : result bytes :=
  p ← pack_le 4 (position r);
  Ok (TXRefImmutable.hash (tx_ref r) ++ p).

Definition is_null (r : t) : bool := TXRefImmutable.is_null (tx_ref r).
End TXORef.

(** ** Inputs, outputs, transactions *)

Module Input.
(** What the constructor receives as [script]: a parsed redeem script, or the
    raw bytes of a coinbase. *)
Inductive script_arg : Type :=
  | Parsed (s : InputScript.t)
  | Raw (b : bytes).

Record t : Type := mk {
  tx_ref : option TXRef;
  position : option Z;
  txo_ref : TXORef.t;
  sequence : Z;
  coinbase : option script_arg;
  script : option script_arg
}.

Definition attach (r : TXRef) (p : Z) (i : t) : t :=
  {| tx_ref := Some r; position := Some p; txo_ref := txo_ref i;
     sequence := sequence i; coinbase := coinbase i; script := script i |}.
End Input.

Module Output.
Record t : Type := mk {
  tx_ref : option TXRef;
  position : option Z;
  amount : Z;
  script : OutputScript.t;
  is_internal_transfer : option bool;
  is_spent : option bool;
  is_my_output : option bool;
  is_my_input : option bool;
  sent_supports : option Z;
  sent_tips : option Z;
  received_tips : option Z;
  channel : option out_loc;
  private_key : option bytes;
  purchase : option out_loc;
  purchased_claim : option out_loc;
  purchase_receipt : option out_loc;
  reposted_claim : option out_loc;
  claims : option (list out_loc);
  meta : gmap string bytes
}.

Definition attach (r : TXRef) (p : Z) (o : t) : t :=
  {| tx_ref := Some r; position := Some p; amount := amount o; script := script o;
     is_internal_transfer := is_internal_transfer o; is_spent := is_spent o;
     is_my_output := is_my_output o; is_my_input := is_my_input o;
     sent_supports := sent_supports o; sent_tips := sent_tips o;
     received_tips := received_tips o; channel := channel o;
     private_key := private_key o; purchase := purchase o;
     purchased_claim := purchased_claim o; purchase_receipt := purchase_receipt o;
     reposted_claim := reposted_claim o; claims := claims o; meta := meta o |}.

Definition set_script (s : OutputScript.t) (o : t) : t :=
  {| tx_ref := tx_ref o; position := position o; amount := amount o; script := s;
     is_internal_transfer := is_internal_transfer o; is_spent := is_spent o;
     is_my_output := is_my_output o; is_my_input := is_my_input o;
     sent_supports := sent_supports o; sent_tips := sent_tips o;
     received_tips := received_tips o; channel := channel o;
     private_key := private_key o; purchase := purchase o;
     purchased_claim := purchased_claim o; purchase_receipt := purchase_receipt o;
     reposted_claim := reposted_claim o; claims := claims o; meta := meta o |}.

Definition set_channel (c : option out_loc) (o : t) : t :=
  {| tx_ref := tx_ref o; position := position o; amount := amount o; script := script o;
     is_internal_transfer := is_internal_transfer o; is_spent := is_spent o;
     is_my_output := is_my_output o; is_my_input := is_my_input o;
     sent_supports := sent_supports o; sent_tips := sent_tips o;
     received_tips := received_tips o; channel := c;
     private_key := private_key o; purchase := purchase o;
     purchased_claim := purchased_claim o; purchase_receipt := purchase_receipt o;
     reposted_claim := reposted_claim o; claims := claims o; meta := meta o |}.
End Output.

Module Transaction.
Record t : Type := mk {
  _raw : option bytes;
  _raw_sans_segwit : option bytes;
  is_segwit_flag : Z;
  witnesses : list bytes;
  ref : TXRefMutable.t;
  version : Z;
  locktime : Z;
  _inputs : list in_loc;
  _outputs : list out_loc;
  is_verified : bool;
  height : Z;
  position : Z;
  _day : option Z
}.

Definition set__raw (v : option bytes) (x : t) : t :=
  {| _raw := v; _raw_sans_segwit := _raw_sans_segwit x;
     is_segwit_flag := is_segwit_flag x; witnesses := witnesses x; ref := ref x;
     version := version x; locktime := locktime x; _inputs := _inputs x;
     _outputs := _outputs x; is_verified := is_verified x; height := height x;
     position := position x; _day := _day x |}.

Definition set__raw_sans_segwit (v : option bytes) (x : t) : t :=
  {| _raw := _raw x; _raw_sans_segwit := v;
     is_segwit_flag := is_segwit_flag x; witnesses := witnesses x; ref := ref x;
     version := version x; locktime := locktime x; _inputs := _inputs x;
     _outputs := _outputs x; is_verified := is_verified x; height := height x;
     position := position x; _day := _day x |}.

Definition set_is_segwit_flag (v : Z) (x : t) : t :=
  {| _raw := _raw x; _raw_sans_segwit := _raw_sans_segwit x;
     is_segwit_flag := v; witnesses := witnesses x; ref := ref x;
     version := version x; locktime := locktime x; _inputs := _inputs x;
     _outputs := _outputs x; is_verified := is_verified x; height := height x;
     position := position x; _day := _day x |}.

Definition set_witnesses (v : list bytes) (x : t) : t :=
  {| _raw := _raw x; _raw_sans_segwit := _raw_sans_segwit x;
     is_segwit_flag := is_segwit_flag x; witnesses := v; ref := ref x;
     version := version x; locktime := locktime x; _inputs := _inputs x;
     _outputs := _outputs x; is_verified := is_verified x; height := height x;
     position := position x; _day := _day x |}.

Definition set_ref (v : TXRefMutable.t) (x : t) : t :=
  {| _raw := _raw x; _raw_sans_segwit := _raw_sans_segwit x;
     is_segwit_flag := is_segwit_flag x; witnesses := witnesses x; ref := v;
     version := version x; locktime := locktime x; _inputs := _inputs x;
     _outputs := _outputs x; is_verified := is_verified x; height := height x;
     position := position x; _day := _day x |}.

Definition set_version (v : Z) (x : t) : t :=
  {| _raw := _raw x; _raw_sans_segwit := _raw_sans_segwit x;
     is_segwit_flag := is_segwit_flag x; witnesses := witnesses x; ref := ref x;
     version := v; locktime := locktime x; _inputs := _inputs x;
     _outputs := _outputs x; is_verified := is_verified x; height := height x;
     position := position x; _day := _day x |}.

Definition set_locktime (v : Z) (x : t) : t :=
  {| _raw := _raw x; _raw_sans_segwit := _raw_sans_segwit x;
     is_segwit_flag := is_segwit_flag x; witnesses := witnesses x; ref := ref x;
     version := version x; locktime := v; _inputs := _inputs x;
     _outputs := _outputs x; is_verified := is_verified x; height := height x;
     position := position x; _day := _day x |}.

Definition set__inputs (v : list in_loc) (x : t) : t :=
  {| _raw := _raw x; _raw_sans_segwit := _raw_sans_segwit x;
     is_segwit_flag := is_segwit_flag x; witnesses := witnesses x; ref := ref x;
     version := version x; locktime := locktime x; _inputs := v;
     _outputs := _outputs x; is_verified := is_verified x; height := height x;
     position := position x; _day := _day x |}.

Definition set__outputs (v : list out_loc) (x : t) : t :=
  {| _raw := _raw x; _raw_sans_segwit := _raw_sans_segwit x;
     is_segwit_flag := is_segwit_flag x; witnesses := witnesses x; ref := ref x;
     version := version x; locktime := locktime x; _inputs := _inputs x;
     _outputs := v; is_verified := is_verified x; height := height x;
     position := position x; _day := _day x |}.
End Transaction.

(** ** The store of objects *)

Record Store : Type := mkStore {
  txs : list Transaction.t;
  ins : list Input.t;
  outs : list Output.t
}.

Definition empty_store : Store := {| txs := []; ins := []; outs := [] |}.

Definition get_tx (σ : Store) (t : tx_loc) : result Transaction.t :=
  of_option InvalidLocation (txs σ !! t).
Definition get_in (σ : Store) (l : in_loc) : result Input.t :=
  of_option InvalidLocation (ins σ !! l).
Definition get_out (σ : Store) (l : out_loc) : result Output.t :=
  of_option InvalidLocation (outs σ !! l).

Definition set_tx (σ : Store) (t : tx_loc) (x : Transaction.t) : Store :=
  {| txs := <[t := x]> (txs σ); ins := ins σ; outs := outs σ |}.
Definition set_in (σ : Store) (l : in_loc) (x : Input.t) : Store :=
  {| txs := txs σ; ins := <[l := x]> (ins σ); outs := outs σ |}.
Definition set_out (σ : Store) (l : out_loc) (x : Output.t) : Store :=
  {| txs := txs σ; ins := ins σ; outs := <[l := x]> (outs σ) |}.

Definition alloc_tx (σ : Store) (x : Transaction.t) : tx_loc * Store :=
  (length (txs σ), {| txs := txs σ ++ [x]; ins := ins σ; outs := outs σ |}).
Definition alloc_in (σ : Store) (x : Input.t) : in_loc * Store :=
  (length (ins σ), {| txs := txs σ; ins := ins σ ++ [x]; outs := outs σ |}).
Definition alloc_out (σ : Store) (x : Output.t) : out_loc * Store :=
  (length (outs σ), {| txs := txs σ; ins := ins σ; outs := outs σ ++ [x] |}).

(** Objects built one after the other, as a list comprehension does. *)
Fixpoint alloc_ins (σ : Store) (xs : list Input.t) : list in_loc * Store :=
  match xs with
  | [] => ([], σ)
  | x :: xs' =>
      let '(l, σ) := alloc_in σ x in
      let '(ls, σ) := alloc_ins σ xs' in
      (l :: ls, σ)
  end.

Fixpoint alloc_outs (σ : Store) (xs : list Output.t) : list out_loc * Store :=
  match xs with
  | [] => ([], σ)
  | x :: xs' =>
      let '(l, σ) := alloc_out σ x in
      let '(ls, σ) := alloc_outs σ xs' in
      (l :: ls, σ)
  end.

(** ** Loops *)

(** [for x in xs: s = f(x, s)], stopping at the first exception. *)
Fixpoint for_each {A S : Type} (f : A -> S -> result S) (xs : list A) (s : S)
  : result S :=
  match xs with
  | [] => Ok s
  | x :: xs' => s ← f x s; for_each f xs' s
  end.

(** [[f(stream) for _ in range(n)]]. *)
Fixpoint read_many {A : Type} (f : BCDataStream -> result (A * BCDataStream))
  (n : nat) (stream : BCDataStream) : result (list A * BCDataStream) :=
  match n with
  | O => Ok ([], stream)
  | S n' =>
      '(x, stream) ← f stream;
      '(xs, stream) ← read_many f n' stream;
      Ok (x :: xs, stream)
  end.

Fixpoint enumerate_from {A : Type} (n : nat) (xs : list A) : list (nat * A) :=
  match xs with
  | [] => []
  | x :: xs' => (n, x) :: enumerate_from (S n) xs'
  end.

Definition enumerate {A : Type} (xs : list A) : list (nat * A) := enumerate_from 0 xs.

Section Operations.
Context `{Hashes} `{Codecs}.

(** ** Input *)

Definition Input_new (txo_ref : TXORef.t) (script : Input.script_arg) (sequence : Z)
  (tx_ref : option TXRef) (position : option Z) : Input.t :=
  {| Input.tx_ref := tx_ref;
     Input.position := position;
     Input.txo_ref := txo_ref;
     Input.sequence := sequence;
     Input.coinbase := if TXORef.is_null txo_ref then Some script else None;
     Input.script := if negb (TXORef.is_null txo_ref) then Some script else None |}.

Definition Input_is_coinbase (self : Input.t) : bool :=
  match Input.coinbase self with Some _ => true | None => false end.

Definition beef : bytes := [x62; x65; x65; x66].

Definition Input_create_coinbase : Input.t :=
  let tx_ref := TXRefImmutable.from_hash NULL_HASH32 0 in
  let txo_ref := TXORef.mk tx_ref 0 None in
  Input_new txo_ref (Input.Raw beef) 0xFFFFFFFF None None.

Definition Input_amount (σ : Store) (self : Input.t) : result Z :=
  match TXORef.txo (Input.txo_ref self) with
  | None => Err (ValueError "Cannot resolve output to get amount.")
  | Some l => o ← get_out σ l; Ok (Output.amount o)
  end.

Definition Input_is_my_input (σ : Store) (self : Input.t) : result (option bool) :=
  match TXORef.txo (Input.txo_ref self) with
  | None => Ok (Some false)
  | Some l => o ← get_out σ l; Ok (Output.is_my_output o)
  end.

Definition Input_deserialize_from (stream : BCDataStream)
  : result (Input.t * BCDataStream) :=
  '(h, stream) ← read 32 stream;
  let tx_ref := TXRefImmutable.from_hash h (-1) in
  '(position, stream) ← read_uint32 stream;
  '(script, stream) ← read_string stream;
  '(sequence, stream) ← read_uint32 stream;
  Ok (Input_new (TXORef.mk tx_ref position None)
        (if negb (TXRefImmutable.is_null tx_ref)
         then Input.Parsed (InputScript.mk script) else Input.Raw script)
        sequence None None,
      stream).

Definition Input_serialize_to (self : Input.t) (alternate_script : option bytes)
  (stream : BCDataStream) : result BCDataStream :=
  stream ← write (TXRefImmutable.hash (TXORef.tx_ref (Input.txo_ref self))) stream;
  stream ← write_uint32 (TXORef.position (Input.txo_ref self)) stream;
  stream ←
    match alternate_script with
    | Some alt => write_string alt stream
    | None =>
        if Input_is_coinbase self then
          match Input.coinbase self with
          | Some (Input.Raw b) => write_string b stream
          | _ => Err TypeError
          end
        else
          match Input.script self with
          | Some (Input.Parsed sc) => write_string (InputScript.source sc) stream
          | _ => Err AttributeError
          end
    end;
  write_uint32 (Input.sequence self) stream.

(** ** Output *)

Definition Output_new (amount : Z) (script : OutputScript.t) : Output.t :=
  {| Output.tx_ref := None; Output.position := None;
     Output.amount := amount; Output.script := script;
     Output.is_internal_transfer := None; Output.is_spent := None;
     Output.is_my_output := None; Output.is_my_input := None;
     Output.sent_supports := None; Output.sent_tips := None;
     Output.received_tips := None; Output.channel := None;
     Output.private_key := None; Output.purchase := None;
     Output.purchased_claim := None; Output.purchase_receipt := None;
     Output.reposted_claim := None; Output.claims := None; Output.meta := ∅ |}.

Definition Output_deserialize_from (transaction_offset : Z) (stream : BCDataStream)
  : result (Output.t * BCDataStream) :=
  '(amount, stream) ← read_uint64 stream;
  '(len, stream) ← read_compact_size stream;
  let offset := tell stream - transaction_offset in
  '(src, stream) ← read (Z.to_nat len) stream;
  Ok (Output_new amount (OutputScript.parse src offset), stream).

Definition Output_serialize_to (self : Output.t) (alternate_script : option bytes)
  (stream : BCDataStream) : result BCDataStream :=
  stream ← write_uint64 (Output.amount self) stream;
  write_string (OutputScript.source (Output.script self)) stream.

Definition Output_is_claim (self : Output.t) : bool :=
  OutputScript.is_claim_name (Output.script self)
  || OutputScript.is_update_claim (Output.script self).

Definition Output_is_support (self : Output.t) : bool :=
  OutputScript.is_support_claim (Output.script self).

(** ** Transaction: construction, caches, serialization *)

Definition Transaction_init (raw : option bytes) (version locktime : Z)
  (is_verified : bool) (height position : Z) (julian_day : option Z)
  : Transaction.t :=
  {| Transaction._raw := raw;
     Transaction._raw_sans_segwit := None;
     Transaction.is_segwit_flag := 0;
     Transaction.witnesses := [];
     Transaction.ref := TXRefMutable.mk None None;
     Transaction.version := version;
     Transaction.locktime := locktime;
     Transaction._inputs := [];
     Transaction._outputs := [];
     Transaction.is_verified := is_verified;
     Transaction.height := height;
     Transaction.position := position;
     Transaction._day := julian_day |}.

Definition _serialize (σ : Store) (t : tx_loc) (with_inputs sans_segwit : bool)
  : result bytes :=
  self ← get_tx σ t;
  let stream := new_stream [] in
  stream ← write_uint32 (Transaction.version self) stream;
  stream ←
    (if with_inputs then
       stream ← write_compact_size (Z.of_nat (length (Transaction._inputs self))) stream;
       for_each (fun l stream => txin ← get_in σ l; Input_serialize_to txin None stream)
         (Transaction._inputs self) stream
     else Ok stream);
  stream ← write_compact_size (Z.of_nat (length (Transaction._outputs self))) stream;
  stream ←
    for_each (fun l stream => txout ← get_out σ l; Output_serialize_to txout None stream)
      (Transaction._outputs self) stream;
  stream ← write_uint32 (Transaction.locktime self) stream;
  Ok (get_bytes stream).

Definition signature_hash_type (hash_type : Z) : Z := hash_type.

Definition _serialize_for_signature (σ : Store) (t : tx_loc) (signing_input : Z)
  : result bytes :=
  self ← get_tx σ t;
  let stream := new_stream [] in
  stream ← write_uint32 (Transaction.version self) stream;
  stream ← write_compact_size (Z.of_nat (length (Transaction._inputs self))) stream;
  stream ←
    for_each (fun '(i, l) stream =>
        txin ← get_in σ l;
        if signing_input =? Z.of_nat i then
          match TXORef.txo (Input.txo_ref txin) with
          | None => Err AssertionError
          | Some lo =>
              txo ← get_out σ lo;
              Input_serialize_to txin
                (Some (OutputScript.source (Output.script txo))) stream
          end
        else Input_serialize_to txin (Some []) stream)
      (enumerate (Transaction._inputs self)) stream;
  stream ← write_compact_size (Z.of_nat (length (Transaction._outputs self))) stream;
  stream ←
    for_each (fun l stream => txout ← get_out σ l; Output_serialize_to txout None stream)
      (Transaction._outputs self) stream;
  stream ← write_uint32 (Transaction.locktime self) stream;
  stream ← write_uint32 (signature_hash_type 1) stream;
  Ok (get_bytes stream).

Definition Transaction_raw (σ : Store) (t : tx_loc) : result (bytes * Store) :=
  self ← get_tx σ t;
  match Transaction._raw self with
  | Some r => Ok (r, σ)
  | None =>
      r ← _serialize σ t true false;
      Ok (r, set_tx σ t (Transaction.set__raw (Some r) self))
  end.

Definition Transaction_raw_sans_segwit (σ : Store) (t : tx_loc)
  : result (bytes * Store) :=
  self ← get_tx σ t;
  if negb (Transaction.is_segwit_flag self =? 0) then
    match Transaction._raw_sans_segwit self with
    | Some r => Ok (r, σ)
    | None =>
        r ← _serialize σ t true true;
        Ok (r, set_tx σ t (Transaction.set__raw_sans_segwit (Some r) self))
    end
  else Transaction_raw σ t.

Definition TXRefMutable_hash (σ : Store) (t : tx_loc) : result (bytes * Store) :=
  self ← get_tx σ t;
  match TXRefMutable._hash (Transaction.ref self) with
  | Some h => Ok (h, σ)
  | None =>
      '(r, σ) ← Transaction_raw_sans_segwit σ t;
      self ← get_tx σ t;
      let h := sha256 (sha256 r) in
      Ok (h, set_tx σ t
               (Transaction.set_ref
                  (TXRefMutable.mk (TXRefMutable._id (Transaction.ref self)) (Some h))
                  self))
  end.

Definition TXRefMutable_id (σ : Store) (t : tx_loc) : result (string * Store) :=
  self ← get_tx σ t;
  match TXRefMutable._id (Transaction.ref self) with
  | Some i => Ok (i, σ)
  | None =>
      '(h, σ) ← TXRefMutable_hash σ t;
      self ← get_tx σ t;
      let i := hexlify (rev h) in
      Ok (i, set_tx σ t
               (Transaction.set_ref
                  (TXRefMutable.mk (Some i) (TXRefMutable._hash (Transaction.ref self)))
                  self))
  end.

Definition TXRef_hash (σ : Store) (r : TXRef) : result (bytes * Store) :=
  match r with
  | RefImmutable r => Ok (TXRefImmutable.hash r, σ)
  | RefMutable t => TXRefMutable_hash σ t
  end.

Definition Transaction_hash (σ : Store) (t : tx_loc) : result (bytes * Store) :=
  TXRefMutable_hash σ t.

Definition Transaction_id (σ : Store) (t : tx_loc) : result (string * Store) :=
  TXRefMutable_id σ t.

Definition _reset (σ : Store) (t : tx_loc) : result Store :=
  self ← get_tx σ t;
  let self := Transaction.set__raw None self in
  let self := Transaction.set__raw_sans_segwit None self in
  let self := Transaction.set_ref (TXRefMutable.reset (Transaction.ref self)) self in
  Ok (set_tx σ t self).

(** ** Transaction: attaching inputs and outputs *)

(** Which list of the transaction [_add] receives as [existing_ios]. *)
Inductive io_list : Type := InputsList | OutputsList.

#[global] Instance io_list_eq_decision : EqDecision io_list.
Proof. solve_decision. Defined.

Definition existing_ios (k : io_list) (self : Transaction.t) : list nat :=
  match k with
  | InputsList => Transaction._inputs self
  | OutputsList => Transaction._outputs self
  end.

(** [txio.tx_ref = r; txio.position = p], on the object the reference names. *)
Definition attach_io (k : io_list) (σ : Store) (txio : nat) (r : TXRef) (p : Z)
  : result Store :=
  match k with
  | InputsList => x ← get_in σ txio; Ok (set_in σ txio (Input.attach r p x))
  | OutputsList => x ← get_out σ txio; Ok (set_out σ txio (Output.attach r p x))
  end.

(** [existing_ios.append(txio)]. *)
Definition append_io (k : io_list) (txio : nat) (self : Transaction.t) : Transaction.t :=
  match k with
  | InputsList => Transaction.set__inputs (Transaction._inputs self ++ [txio]) self
  | OutputsList => Transaction.set__outputs (Transaction._outputs self ++ [txio]) self
  end.

Definition _add_step (k : io_list) (t : tx_loc) (txio : nat) (σ : Store) : result Store :=
  self ← get_tx σ t;
  σ ← attach_io k σ txio (RefMutable t) (Z.of_nat (length (existing_ios k self)));
  Ok (set_tx σ t (append_io k txio self)).

Definition _add (σ : Store) (t : tx_loc) (k : io_list) (new_ios : list nat)
  (reset : bool) : result Store :=
  σ ← for_each (_add_step k t) new_ios σ;
  if reset then _reset σ t else Ok σ.

Definition add_inputs (σ : Store) (t : tx_loc) (inputs : list in_loc) : result Store :=
  _add σ t InputsList inputs true.

Definition add_outputs (σ : Store) (t : tx_loc) (outputs : list out_loc) : result Store :=
  _add σ t OutputsList outputs true.

(** [tx.inputs[i]] and [tx.outputs[i]] through the read-only views. *)
Definition Transaction_inputs (σ : Store) (t : tx_loc) : result (list in_loc) :=
  self ← get_tx σ t; Ok (Transaction._inputs self).

Definition Transaction_outputs (σ : Store) (t : tx_loc) : result (list out_loc) :=
  self ← get_tx σ t; Ok (Transaction._outputs self).

(** ** Transaction: deserialization *)

Definition read_witness_item (stream : BCDataStream) : result (bytes * BCDataStream) :=
  '(len, stream) ← read_compact_size stream;
  read (Z.to_nat len) stream.

Definition read_witness_stack (stream : BCDataStream)
  : result (list bytes * BCDataStream) :=
  '(n, stream) ← read_compact_size stream;
  read_many read_witness_item (Z.to_nat n) stream.

Definition Transaction_deserialize (σ : Store) (t : tx_loc)
  (stream : option BCDataStream) : result (Store * option BCDataStream) :=
  self ← get_tx σ t;
  match (match stream with
         | Some s => Some s
         | None => new_stream <$> Transaction._raw self
         end) with
  | None => Ok (σ, None)
  | Some stream =>
      let start := tell stream in
      '(version, stream) ← read_uint32 stream;
      let σ := set_tx σ t (Transaction.set_version version self) in
      '(input_count, stream) ← read_compact_size stream;
      '(σ, input_count, stream) ←
        (if input_count =? 0 then
           '(flag, stream) ← read_uint8 stream;
           self ← get_tx σ t;
           let σ := set_tx σ t (Transaction.set_is_segwit_flag flag self) in
           '(input_count, stream) ← read_compact_size stream;
           Ok (σ, input_count, stream)
         else Ok (σ, input_count, stream));
      '(inputs, stream) ← read_many Input_deserialize_from (Z.to_nat input_count) stream;
      let '(ls, σ) := alloc_ins σ inputs in
      σ ← _add σ t InputsList ls false;
      '(output_count, stream) ← read_compact_size stream;
      '(outputs, stream) ←
        read_many (Output_deserialize_from start) (Z.to_nat output_count) stream;
      let '(ls, σ) := alloc_outs σ outputs in
      σ ← _add σ t OutputsList ls false;
      self ← get_tx σ t;
      '(σ, stream) ←
        (if negb (Transaction.is_segwit_flag self =? 0) then
           '(stacks, stream) ← read_many read_witness_stack (Z.to_nat input_count) stream;
           Ok (set_tx σ t (Transaction.set_witnesses (concat stacks) self), stream)
         else Ok (σ, stream));
      '(locktime, stream) ← read_uint32 stream;
      self ← get_tx σ t;
      Ok (set_tx σ t (Transaction.set_locktime locktime self), Some stream)
  end.

(** [Transaction(raw=..., version=..., ...)]. *)
Definition Transaction_new (σ : Store) (raw : option bytes) (version locktime : Z)
  (is_verified : bool) (height position : Z) (julian_day : option Z)
  : result (tx_loc * Store) :=
  let '(t, σ) :=
    alloc_tx σ (Transaction_init raw version locktime is_verified height position julian_day) in
  match raw with
  | Some _ => '(σ, _) ← Transaction_deserialize σ t None; Ok (t, σ)
  | None => Ok (t, σ)
  end.

(** ** Transaction: sums and balances *)

Definition Transaction_input_sum (σ : Store) (t : tx_loc) : result Z :=
  self ← get_tx σ t;
  for_each (fun l acc =>
      i ← get_in σ l;
      match TXORef.txo (Input.txo_ref i) with
      | Some _ => a ← Input_amount σ i; Ok (acc + a)
      | None => Ok acc
      end)
    (Transaction._inputs self) 0.



Definition net_balance_input (σ : Store) (l : in_loc) (balance : Z) : result Z :=
  txi ← get_in σ l;
  match TXORef.txo (Input.txo_ref txi) with
  | None => Ok balance
  | Some _ =>
      mine ← Input_is_my_input σ txi;
      match mine with
      | Some true => a ← Input_amount σ txi; Ok (balance - a)
      | None =>
          Err (ValueError
                 "Cannot access net_account_balance if inputs do not have is_my_input set properly.")
      | Some false => Ok balance
      end
  end.

Definition net_balance_output (σ : Store) (l : out_loc) (balance : Z) : result Z :=
  txo ← get_out σ l;
  match Output.is_my_output txo with
  | Some true => Ok (balance + Output.amount txo)
  | None =>
      Err (ValueError
             "Cannot access net_account_balance if outputs do not have is_my_output set properly.")
  | Some false => Ok balance
  end.

Definition Transaction_net_account_balance (σ : Store) (t : tx_loc) : result Z :=
  self ← get_tx σ t;
  balance ← for_each (net_balance_input σ) (Transaction._inputs self) 0;
  for_each (net_balance_output σ) (Transaction._outputs self) balance.

(** ** Output: claim accessors *)

Definition Output_claim_hash (σ : Store) (self : Output.t)
  : result (script_value * Store) :=
  if OutputScript.is_claim_name (Output.script self) then
    r ← of_option AttributeError (Output.tx_ref self);
    '(h, σ) ← TXRef_hash σ r;
    p ← of_option StructError (Output.position self);
    p ← pack_be 4 p;
    Ok (VBytes (hash160 (h ++ p)), σ)
  else if OutputScript.is_update_claim (Output.script self)
          || OutputScript.is_support_claim (Output.script self) then
    v ← of_option (KeyError "claim_id")
          (OutputScript.values (Output.script self) !! "claim_id");
    Ok (v, σ)
  else Err (ValueError "No claim_id associated.").

Definition Output_claim_id (σ : Store) (self : Output.t) : result (string * Store) :=
  '(v, σ) ← Output_claim_hash σ self;
  match v with
  | VBytes h => Ok (hexlify (rev h), σ)
  | _ => Err TypeError
  end.

(** Writes a claim object back into the value map of the output at [l]. *)
Definition store_claim (σ : Store) (l : out_loc) (c : Claim.t) : result Store :=
  self ← get_out σ l;
  let script := Output.script self in
  let values := <["claim" := VClaim c]> (OutputScript.values script) in
  Ok (set_out σ l (Output.set_script (OutputScript.set_values values script) self)).

(** The [claim] property: the payload is decoded on first use and kept in the
    value map. *)
Definition Output_claim (σ : Store) (l : out_loc) : result (Claim.t * Store) :=
  self ← get_out σ l;
  if Output_is_claim self then
    v ← of_option (KeyError "claim") (OutputScript.values (Output.script self) !! "claim");
    match v with
    | VClaim c => Ok (c, σ)
    | VBytes b => c ← claim_from_bytes b; σ ← store_claim σ l c; Ok (c, σ)
    | VPurchase _ => Err TypeError
    end
  else Err (ValueError "Only claim name and claim update have the claim payload.").

(** [self.tx_ref.tx.inputs[0].txo_ref.hash]. *)
Definition first_input_hash (σ : Store) (self : Output.t) : result bytes :=
  r ← of_option AttributeError (Output.tx_ref self);
  match r with
  | RefImmutable _ => Err AttributeError
  | RefMutable t =>
      tx ← get_tx σ t;
      l ← of_option IndexError (Transaction._inputs tx !! 0%nat);
      txi ← get_in σ l;
      TXORef.hash (Input.txo_ref txi)
  end.

Definition Output_sign (σ : Store) (l : out_loc) (channel : out_loc)
  (first_input_id : option bytes) : result Store :=
  (* self.channel = channel *)
  self ← get_out σ l;
  let σ := set_out σ l (Output.set_channel (Some channel) self) in
  (* self.claim.signing_channel_hash = channel.claim_hash *)
  ch ← get_out σ channel;
  '(v, σ) ← Output_claim_hash σ ch;
  '(c, σ) ← Output_claim σ l;
  h ← match v with VBytes h => Ok h | _ => Err TypeError end;
  σ ← store_claim σ l (Claim.set_signing_channel_hash h c);
  (* the digest *)
  self ← get_out σ l;
  first ←
    match first_input_id with
    | Some (b :: bs) => Ok (b :: bs)
    | _ => first_input_hash σ self
    end;
  '(c, σ) ← Output_claim σ l;
  sch ← of_option TypeError (Claim.signing_channel_hash c);
  '(c, σ) ← Output_claim σ l;
  let digest := sha256 (first ++ sch ++ Claim.to_message_bytes c) in
  (* self.claim.signature = channel.private_key.sign_digest_deterministic(...) *)
  ch ← get_out σ channel;
  key ← of_option AttributeError (Output.private_key ch);
  let sig := sign_digest_deterministic key digest in
  '(c, σ) ← Output_claim σ l;
  σ ← store_claim σ l (Claim.set_signature sig c);
  (* self.script.generate() *)
  self ← get_out σ l;
  Ok (set_out σ l (Output.set_script (OutputScript.generate (Output.script self)) self)).

Definition Output_clear_signature (σ : Store) (l : out_loc) : result Store :=
  self ← get_out σ l;
  let σ := set_out σ l (Output.set_channel None self) in
  '(c, σ) ← Output_claim σ l;
  store_claim σ l (Claim.clear_signature c).

End Operations.

(** ** Block-index query facade *)

(** A row of the table [block_info], with the columns the queries name;
    the columns hold integers and, for [hash], bytes (no NULL). *)
Module BlockInfo.
Record row : Type := mk {
  file : Z;
  hash : bytes;
  txcount : Z;
  height : Z;
  status : Z;
  datapos : Z
}.
End BlockInfo.

(** A row of the result of [get_block_files]. *)
Module BlockFile.
Record row : Type := mk {
  file_number : Z;
  blocks : Z;
  txs : Z;
  max_height : Z
}.
End BlockFile.

(** [WHERE status&1 AND status&4], extended by [AND file = ? AND height > ?]
    when the arguments are bound. *)
Definition where_clause (args : option (Z * Z)) (r : BlockInfo.row) : bool :=
  negb (Z.land (BlockInfo.status r) 1 =? 0)
  && negb (Z.land (BlockInfo.status r) 4 =? 0)
  && match args with
     | Some (file_number, above_height) =>
         (BlockInfo.file r =? file_number) && (above_height <? BlockInfo.height r)
     | None => true
     end.

(** The keys of [GROUP BY file ORDER BY file ASC]: each once, ascending. *)
Fixpoint insert_key (k : Z) (ks : list Z) : list Z :=
  match ks with
  | [] => [k]
  | k' :: ks' =>
      if k <? k' then k :: ks
      else if k =? k' then ks
      else k' :: insert_key k ks'
  end.

Definition group_keys (rows : list BlockInfo.row) : list Z :=
  foldr (fun r acc => insert_key (BlockInfo.file r) acc) [] rows.

Definition sum_Z (l : list Z) : Z := foldr Z.add 0 l.

Definition max_Z (l : list Z) : Z :=
  match l with
  | [] => 0
  | x :: l' => foldr Z.max x l'
  end.

(** A value of SQLite's storage class INTEGER: a signed 64-bit integer. *)
Definition int64 (z : Z) : bool := (- 2 ^ 63 <=? z) && (z <? 2 ^ 63).

(** SQLite's [SUM] over integers: the rows of the group are added one by
    one to a signed 64-bit accumulator, and the statement raises
    [integer overflow] as soon as an addition leaves the 64-bit range.  The
    rows are added in the order of the table; the query does not fix the
    order, which makes a difference only for values of both signs. *)
Fixpoint sqlite_sum_from (acc : Z) (values : list Z) : result Z :=
  match values with
  | [] => Ok acc
  | v :: values' =>
      if int64 (acc + v) then sqlite_sum_from (acc + v) values'
      else Err (OperationalError "integer overflow")
  end.

Definition sqlite_sum (values : list Z) : result Z := sqlite_sum_from 0 values.

(** [SELECT file, COUNT(hash), SUM(txcount), MAX(height)] over one group. *)
Definition aggregate (f : Z) (group : list BlockInfo.row) : result BlockFile.row :=
  txs ← sqlite_sum (BlockInfo.txcount <$> group);
  Ok {| BlockFile.file_number := f;
        BlockFile.blocks := Z.of_nat (length group);
        BlockFile.txs := txs;
        BlockFile.max_height := max_Z (BlockInfo.height <$> group) |}.

(** The rows of the groups, in the order of the keys; the first group whose
    sum overflows makes the statement raise. *)
Fixpoint aggregate_groups (keys : list Z) (selected : list BlockInfo.row)
  : result (list BlockFile.row) :=
  match keys with
  | [] => Ok []
  | f :: keys' =>
      row ← aggregate f (List.filter (fun r => BlockInfo.file r =? f) selected);
      rows ← aggregate_groups keys' selected;
      Ok (row :: rows)
  end.

Definition sync_get_block_files (block_info : list BlockInfo.row)
  (file_number above_height : option Z) : result (list BlockFile.row) :=
  let args :=
    match file_number, above_height with
    | Some f, Some h => Some (f, h)
    | _, _ => None
    end in
  let selected := List.filter (where_clause args) block_info in
  aggregate_groups (group_keys selected) selected.

(** * Vocabulary of the properties *)

(** ** Wire encodings *)

(** The bytes [enc], whatever precedes and follows them, are read by [rd] as
    a value satisfying [P], and the reader stops right after them. *)
Definition decodes {A : Type} (rd : BCDataStream -> result (A * BCDataStream))
  (enc : bytes) (P : A -> Prop) : Prop :=
  forall c rest, exists v,
    rd (mkStream c (enc ++ rest)) = Ok (v, mkStream (c ++ enc) rest) /\ P v.

(** A stream opened for writing went from [s] to [s'] by appending [enc]. *)
Definition appended (s s' : BCDataStream) (enc : bytes) : Prop :=
  s' = mkStream (consumed s ++ enc) [].

(** The bytes [write_compact_size] produces for a size. *)
Definition compact_size_bytes (size : Z) : bytes :=
  if size <? 253 then le_bytes 1 size
  else if size <=? 0xFFFF then le_bytes 1 253 ++ le_bytes 2 size
  else if size <=? 0xFFFFFFFF then le_bytes 1 254 ++ le_bytes 4 size
  else le_bytes 1 255 ++ le_bytes 8 size.

(** ** The serialized fields *)

(** The script or coinbase bytes an input puts on the wire. *)
Definition Input_script_bytes (i : Input.t) : option bytes :=
  if Input_is_coinbase i then
    match Input.coinbase i with
    | Some (Input.Raw b) => Some b
    | _ => None
    end
  else
    match Input.script i with
    | Some (Input.Parsed sc) => Some (InputScript.source sc)
    | _ => None
    end.

(** Previous-tx hash, previous-output position, script or coinbase bytes,
    sequence. *)
Definition Input_wire_fields (i : Input.t) : bytes * Z * option bytes * Z :=
  (TXRefImmutable.hash (TXORef.tx_ref (Input.txo_ref i)),
   TXORef.position (Input.txo_ref i),
   Input_script_bytes i,
   Input.sequence i).

(** Amount and script bytes. *)
Definition Output_wire_fields (o : Output.t) : Z * bytes :=
  (Output.amount o, OutputScript.source (Output.script o)).

(** Version, locktime, and the serialized fields of the inputs and of the
    outputs, in order. *)
Definition Transaction_wire_fields (σ : Store) (t : tx_loc)
  : option (Z * Z * list (bytes * Z * option bytes * Z) * list (Z * bytes)) :=
  self ← txs σ !! t;
  inputs ← mapM (fun l => Input_wire_fields <$> ins σ !! l) (Transaction._inputs self);
  outputs ← mapM (fun l => Output_wire_fields <$> outs σ !! l) (Transaction._outputs self);
  Some (Transaction.version self, Transaction.locktime self, inputs, outputs).

(** The previous-tx hash of the input at [l] has 32 bytes. *)
Definition length_is_32 (σ : Store) (l : in_loc) : Prop :=
  match ins σ !! l with
  | Some i => length (TXRefImmutable.hash (TXORef.tx_ref (Input.txo_ref i))) = 32%nat
  | None => True
  end.

(** The transaction has at least one input, and the previous-tx hash of each
    of its inputs has 32 bytes. *)
Definition has_inputs (σ : Store) (t : tx_loc) : bool :=
  match txs σ !! t with
  | Some self => negb (bool_decide (Transaction._inputs self = []))
  | None => false
  end.

Definition hashes_32 (σ : Store) (t : tx_loc) : bool :=
  match txs σ !! t with
  | Some self =>
      forallb (fun l =>
          match ins σ !! l with
          | Some i =>
              Nat.eqb (length (TXRefImmutable.hash (TXORef.tx_ref (Input.txo_ref i)))) 32
          | None => true
          end)
        (Transaction._inputs self)
  | None => true
  end.

(** ** Effects of attaching on the store *)

(** The store after [txio.tx_ref = r; txio.position = p] on an allocated
    object. *)
Definition attach_store (k : io_list) (σ : Store) (l : nat) (r : TXRef) (p : Z) : Store :=
  match k with
  | InputsList =>
      {| txs := txs σ; ins := alter (Input.attach r p) l (ins σ); outs := outs σ |}
  | OutputsList =>
      {| txs := txs σ; ins := ins σ; outs := alter (Output.attach r p) l (outs σ) |}
  end.

Definition allocated (k : io_list) (σ : Store) (l : nat) : Prop :=
  match k with
  | InputsList => (l < length (ins σ))%nat
  | OutputsList => (l < length (outs σ))%nat
  end.

Definition set_existing (k : io_list) (v : list nat) (self : Transaction.t) : Transaction.t :=
  match k with
  | InputsList => Transaction.set__inputs v self
  | OutputsList => Transaction.set__outputs v self
  end.

(** The store after attaching the objects [new] at positions [base],
    [base + 1], ... in turn. *)
Fixpoint attach_all (k : io_list) (t : tx_loc) (base : nat) (new : list nat) (σ : Store)
  : Store :=
  match new with
  | [] => σ
  | l :: new' =>
      attach_all k t (S base) new' (attach_store k σ l (RefMutable t) (Z.of_nat base))
  end.

(** ** Position consistency *)

(** The owner and position recorded in the input or output at [l]. *)
Definition io_attrs (k : io_list) (σ : Store) (l : nat) : option (option TXRef * option Z) :=
  match k with
  | InputsList => (fun i => (Input.tx_ref i, Input.position i)) <$> ins σ !! l
  | OutputsList => (fun o => (Output.tx_ref o, Output.position o)) <$> outs σ !! l
  end.

(** [tx.inputs[i].position == i and tx.inputs[i].tx_ref is tx.ref] for
    every index (and the same for outputs). *)
Definition consistent (k : io_list) (σ : Store) (t : tx_loc) : Prop :=
  forall self i l,
    txs σ !! t = Some self -> existing_ios k self !! i = Some l ->
    io_attrs k σ l = Some (Some (RefMutable t), Some (Z.of_nat i)).

Inductive call : Type :=
  | AddInputs (inputs : list in_loc)
  | AddOutputs (outputs : list out_loc).

Definition run_call (t : tx_loc) (c : call) (σ : Store) : result Store :=
  match c with
  | AddInputs inputs => add_inputs σ t inputs
  | AddOutputs outputs => add_outputs σ t outputs
  end.

Definition run_calls (σ : Store) (t : tx_loc) (cs : list call) : result Store :=
  for_each (run_call t) cs σ.

(** The objects a sequence of calls adds to one of the two lists, in order. *)
Fixpoint added (k : io_list) (cs : list call) : list nat :=
  match cs with
  | [] => []
  | AddInputs inputs :: cs' =>
      match k with InputsList => inputs ++ added k cs' | OutputsList => added k cs' end
  | AddOutputs outputs :: cs' =>
      match k with InputsList => added k cs' | OutputsList => outputs ++ added k cs' end
  end.

Definition caches_reset (self : Transaction.t) : Prop :=
  Transaction._raw self = None
  /\ Transaction._raw_sans_segwit self = None
  /\ TXRefMutable._id (Transaction.ref self) = None
  /\ TXRefMutable._hash (Transaction.ref self) = None.

(** ** Wire layout *)

(** A length-prefixed byte string. *)
Definition string_bytes (b : bytes) : bytes :=
  compact_size_bytes (Z.of_nat (length b)) ++ b.

(** An input on the wire, with [script] in its script field. *)
Definition Input_bytes (script : bytes) (i : Input.t) : bytes :=
  TXRefImmutable.hash (TXORef.tx_ref (Input.txo_ref i))
  ++ le_bytes 4 (TXORef.position (Input.txo_ref i))
  ++ string_bytes script
  ++ le_bytes 4 (Input.sequence i).

Definition Output_bytes (o : Output.t) : bytes :=
  le_bytes 8 (Output.amount o) ++ string_bytes (OutputScript.source (Output.script o)).

(** Version, compact-size input count, inputs, compact-size output count,
    outputs, locktime. *)
Definition Transaction_bytes (version locktime : Z) (inputs outputs : list bytes) : bytes :=
  le_bytes 4 version
  ++ compact_size_bytes (Z.of_nat (length inputs)) ++ concat inputs
  ++ compact_size_bytes (Z.of_nat (length outputs)) ++ concat outputs
  ++ le_bytes 4 locktime.

(** The bytes of the input at [l] in the canonical serialization. *)
Definition canonical_input_bytes (σ : Store) (l : in_loc) : option bytes :=
  i ← ins σ !! l;
  b ← Input_script_bytes i;
  Some (Input_bytes b i).

(** The bytes of the input at index [j] in the pre-image for signing input
    [signing_input]: the script field holds the previous output's script
    source for the signing input and the empty byte string for the others. *)
Definition preimage_input_bytes (σ : Store) (signing_input : nat) (jl : nat * in_loc)
  : option bytes :=
  i ← ins σ !! jl.2;
  if decide (jl.1 = signing_input) then
    lo ← TXORef.txo (Input.txo_ref i);
    prev ← outs σ !! lo;
    Some (Input_bytes (OutputScript.source (Output.script prev)) i)
  else Some (Input_bytes [] i).

Definition output_bytes_at (σ : Store) (l : out_loc) : option bytes :=
  Output_bytes <$> outs σ !! l.

(** ** Serializable transactions *)

(** The input at [l] exists, holds the kind of script its coinbase status
    asks for, and its fields fit their wire widths. *)
Definition input_ok (σ : Store) (l : in_loc) : Prop :=
  exists i b,
    ins σ !! l = Some i
    /\ Input_script_bytes i = Some b
    /\ in_range 4 (TXORef.position (Input.txo_ref i)) = true
    /\ in_range 4 (Input.sequence i) = true
    /\ 0 <= Z.of_nat (length b) < 2 ^ 64.

Definition output_ok (σ : Store) (l : out_loc) : Prop :=
  exists o,
    outs σ !! l = Some o
    /\ in_range 8 (Output.amount o) = true
    /\ 0 <= Z.of_nat (length (OutputScript.source (Output.script o))) < 2 ^ 64.

Definition serializable (σ : Store) (self : Transaction.t) : Prop :=
  in_range 4 (Transaction.version self) = true
  /\ in_range 4 (Transaction.locktime self) = true
  /\ 0 <= Z.of_nat (length (Transaction._inputs self)) < 2 ^ 64
  /\ 0 <= Z.of_nat (length (Transaction._outputs self)) < 2 ^ 64
  /\ Forall (input_ok σ) (Transaction._inputs self)
  /\ Forall (output_ok σ) (Transaction._outputs self).

(** The canonical bytes of a transaction, from the layout. *)
Definition canonical_bytes (σ : Store) (self : Transaction.t) : option bytes :=
  inputs ← mapM (canonical_input_bytes σ) (Transaction._inputs self);
  outputs ← mapM (output_bytes_at σ) (Transaction._outputs self);
  Some (Transaction_bytes (Transaction.version self) (Transaction.locktime self)
          inputs outputs).

(** The pre-image for a signing input, from the layout: the canonical layout
    with the script fields replaced, followed by the sighash type. *)
Definition preimage_bytes (σ : Store) (self : Transaction.t) (signing_input : nat)
  : option bytes :=
  inputs ← mapM (preimage_input_bytes σ signing_input)
              (enumerate (Transaction._inputs self));
  outputs ← mapM (output_bytes_at σ) (Transaction._outputs self);
  Some (Transaction_bytes (Transaction.version self) (Transaction.locktime self)
          inputs outputs ++ le_bytes 4 1).

(** ** Raw bytes and caches *)

(** [tx.raw == tx.raw_sans_segwit], the two properties read in this order. *)
Definition raw_equals_raw_sans_segwit (σ : Store) (t : tx_loc) : result bool :=
  '(r1, σ) ← Transaction_raw σ t;
  '(r2, σ) ← Transaction_raw_sans_segwit σ t;
  Ok (bool_decide (r1 = r2)).

(** ** Amounts of the inputs *)

(** The output an input spends, when its reference resolves. *)
Definition spent_output (σ : Store) (l : in_loc) : option Output.t :=
  i ← ins σ !! l;
  lo ← TXORef.txo (Input.txo_ref i);
  outs σ !! lo.

(** The amounts of the inputs whose reference resolves, in order; the
    others contribute nothing. *)
Definition resolved_amounts (σ : Store) (ls : list in_loc) : list Z :=
  omap (fun l => Output.amount <$> spent_output σ l) ls.

(** Every input is allocated, and so is the output of every reference that
    resolves. *)
Definition no_dangling (σ : Store) (ls : list in_loc) : bool :=
  forallb (fun l =>
      match ins σ !! l with
      | Some i =>
          match TXORef.txo (Input.txo_ref i) with
          | Some lo => bool_decide (is_Some (outs σ !! lo))
          | None => true
          end
      | None => false
      end) ls.

(** The input at [l] is not an allocated input whose reference is
    unresolved. *)
Definition resolves (σ : Store) (l : in_loc) : bool :=
  match ins σ !! l with
  | Some i => bool_decide (is_Some (TXORef.txo (Input.txo_ref i)))
  | None => true
  end.

(** ** Block files *)




(** ** Signing *)

(** Between two stores, no output other than the one at [l] changed. *)
Definition other_outputs_kept (l : out_loc) (σ σ' : Store) : Prop :=
  forall l', l' <> l -> outs σ' !! l' = outs σ !! l'.

(** The script bytes of the output are the ones its value map assembles to. *)
Definition script_is_current `{Codecs} (o : Output.t) : Prop :=
  OutputScript.source (Output.script o)
  = assemble (OutputScript.template (Output.script o))
      (OutputScript.values (Output.script o)).

(** The claim held in the value map of the output. *)
Definition held_claim (o : Output.t) : option Claim.t :=
  match OutputScript.values (Output.script o) !! "claim" with
  | Some (VClaim c) => Some c
  | _ => None
  end.

(** * Concrete data

    Stand-ins for the external collaborators and a few stores, to evaluate
    the definitions on.  No property of the hash functions, of the script
    codec or of the signer is used anywhere. *)

Definition example_hashes : Hashes :=
  {| sha256 := fun b => take 32 (b ++ replicate 32 x00);
     hash160 := fun b => take 20 (b ++ replicate 20 x00) |}.

(** A script codec whose script bytes are the claim message followed by the
    signing channel hash and the signature, when there are any. *)
Definition example_codecs : Codecs :=
  {| disassemble := fun _ => (OtherScript, ∅);
     assemble := fun _ values =>
       match values !! "claim" with
       | Some (VClaim c) =>
           Claim.message c
           ++ default [] (Claim.signing_channel_hash c)
           ++ default [] (Claim.signature c)
       | Some (VBytes b) => b
       | _ => []
       end;
     claim_from_bytes := fun b => Ok (Claim.mk b None None None);
     sign_digest_deterministic := fun key digest => take 8 (key ++ digest) |}.

Definition fresh_tx : Transaction.t := Transaction_init None 1 0 false (-2) (-1) None.

Definition pay_output (amount : Z) : Output.t :=
  Output_new amount (OutputScript.mk [x76; xa9] 0 PayPubKeyHash ∅).

(** One transaction, not yet given its inputs and outputs, and two inputs
    and two outputs not yet attached. *)
Definition detached_store : Store :=
  {| txs := [fresh_tx];
     ins := [Input_create_coinbase; Input_create_coinbase];
     outs := [pay_output 5000000000; pay_output 7] |}.

(** A coinbase transaction: one coinbase input, one output. *)
Definition coinbase_store : Store :=
  {| txs := [Transaction.set__outputs [0%nat] (Transaction.set__inputs [0%nat] fresh_tx)];
     ins := [Input.attach (RefMutable 0%nat) 0 Input_create_coinbase];
     outs := [Output.attach (RefMutable 0%nat) 0 (pay_output 5000000000)] |}.

Definition coinbase_raw : bytes :=
  Eval vm_compute in
    match _serialize coinbase_store 0%nat true false with
    | Ok r => r
    | Err _ => []
    end.

(** A transaction without inputs, with one output of amount 0 and an empty
    script. *)
Definition no_input_store : Store :=
  {| txs := [Transaction.set__outputs [0%nat] fresh_tx];
     ins := [];
     outs := [Output.attach (RefMutable 0%nat) 0
                (Output_new 0 (OutputScript.mk [] 0 OtherScript ∅))] |}.

Definition no_input_raw : bytes :=
  Eval vm_compute in
    match _serialize no_input_store 0%nat true false with
    | Ok r => r
    | Err _ => []
    end.

(** Segwit wire bytes: version 1, marker 0, flag 1, one input spending
    output 0 of the transaction with hash 11..11, one output of amount 1,
    one witness stack holding the item aa, locktime 0. *)
Definition segwit_raw : bytes :=
  [x01; x00; x00; x00; x00; x01; x01]
  ++ replicate 32 x11 ++ [x00; x00; x00; x00; x00; xff; xff; xff; xff]
  ++ [x01; x01; x00; x00; x00; x00; x00; x00; x00; x00]
  ++ [x01; x01; xaa]
  ++ [x00; x00; x00; x00].

(** The coinbase transaction with its segwit flag set and empty caches. *)
Definition flagged_store : Store :=
  {| txs := [Transaction.set_is_segwit_flag 1
               (Transaction.set__outputs [0%nat] (Transaction.set__inputs [0%nat] fresh_tx))];
     ins := [Input.attach (RefMutable 0%nat) 0 Input_create_coinbase];
     outs := [Output.attach (RefMutable 0%nat) 0 (pay_output 5000000000)] |}.

(** A transaction with two inputs: input 0 spends the output at location 0,
    input 1 does not resolve; its own output is at location 1.  The spent
    output carries no [is_my_output] annotation. *)
Definition spending_store : Store :=
  {| txs := [Transaction.set__outputs [1%nat]
               (Transaction.set__inputs [0%nat; 1%nat] fresh_tx)];
     ins := [Input.attach (RefMutable 0%nat) 0
               (Input_new (TXORef.mk (TXRefImmutable.from_hash (replicate 32 x11) 0)
                             0 (Some 0%nat))
                  (Input.Parsed (InputScript.mk [x01; x02])) 0xFFFFFFFF None None);
             Input.attach (RefMutable 0%nat) 1
               (Input_new (TXORef.mk (TXRefImmutable.from_hash (replicate 32 x22) 0)
                             3 None)
                  (Input.Parsed (InputScript.mk [x03])) 0xFFFFFFFF None None)];
     outs := [pay_output 10; Output.attach (RefMutable 0%nat) 0 (pay_output 9)] |}.

Definition spending_raw : bytes :=
  Eval vm_compute in
    match _serialize spending_store 0%nat true false with
    | Ok r => r
    | Err _ => []
    end.

(** A claim-name output attached at position 0 of the transaction at 0. *)
Definition claim_name_output : Output.t :=
  Output.attach (RefMutable 0%nat) 0
    (Output_new 1 (OutputScript.mk [x01] 0 ClaimName
                     {["claim" := VClaim (Claim.mk [xc1] None None None)]})).

(** A channel with a private key (output 1, of the transaction at 1) and an
    unsigned claim (output 0, of the transaction at 0, which has one
    input). *)
Definition signing_store : Store :=
  {| txs := [Transaction.set__outputs [0%nat] (Transaction.set__inputs [0%nat] fresh_tx);
             Transaction.set__outputs [1%nat] fresh_tx];
     ins := [Input.attach (RefMutable 0%nat) 0 Input_create_coinbase];
     outs := [claim_name_output;
              Output.mk (Some (RefMutable 1%nat)) (Some 0) 1
                (OutputScript.mk [xc2] 0 ClaimName
                   {["claim" := VClaim (Claim.mk [xc2] None None None)]})
                None None None None None None None None (Some [x2a])
                None None None None None ∅] |}.

(** Four rows of [block_info]: two valid blocks in file 1, one block of file 1
    whose status lacks bit 2, one valid block in file 0. *)
(** Two blocks of one file whose transaction counts add up to 2^63. *)
Definition overflowing_block_info : list BlockInfo.row :=
  [ BlockInfo.mk 1 [x0a] (2 ^ 62) 100 5 0;
    BlockInfo.mk 1 [x0b] (2 ^ 62) 101 5 8 ].

Definition example_block_info : list BlockInfo.row :=
  [ BlockInfo.mk 1 [x0a] 3 100 5 0;
    BlockInfo.mk 1 [x0b] 4 101 7 8;
    BlockInfo.mk 1 [x0c] 9 102 1 16;
    BlockInfo.mk 0 [x0d] 2 50 13 0 ].

(** * Further operations of the library *)

(** Modelled from the spec: the ledger (section 1), an external
    configuration of which the library reads the fee per byte, the fee per
    name character and the address encoding. *)
Record Ledger : Type := mkLedger {
  fee_per_byte : Z;
  fee_per_name_char : Z;
  hash160_to_address : bytes -> string
}.

(** Modelled from the spec: [Base58.decode] of lbry/crypto/base58.py, a
    function from strings to bytes that fails on strings outside the
    alphabet. *)
Class Base58 : Type := {
  Base58_decode : string -> result bytes
}.

(** The truth value Python gives an optional flag: only [True] is true. *)
Definition truthy (b : option bool) : bool :=
  match b with Some true => true | _ => false end.

(** The truth value of an optional byte string: [None] and [b''] are false. *)
Definition truthy_bytes (b : option bytes) : bool :=
  match b with Some (_ :: _) => true | _ => false end.

(** ** Output: annotations *)

Definition Output_update_annotations (σ : Store) (l : out_loc)
  (annotated : option out_loc) : result Store :=
  self ← get_out σ l;
  match annotated with
  | None =>
      Ok (set_out σ l
            {| Output.tx_ref := Output.tx_ref self;
               Output.position := Output.position self;
               Output.amount := Output.amount self;
               Output.script := Output.script self;
               Output.is_internal_transfer := None;
               Output.is_spent := None;
               Output.is_my_output := None;
               Output.is_my_input := None;
               Output.sent_supports := None;
               Output.sent_tips := None;
               Output.received_tips := None;
               Output.channel := None;
               Output.private_key := None;
               Output.purchase := Output.purchase self;
               Output.purchased_claim := Output.purchased_claim self;
               Output.purchase_receipt := Output.purchase_receipt self;
               Output.reposted_claim := Output.reposted_claim self;
               Output.claims := Output.claims self;
               Output.meta := Output.meta self |})
  | Some la =>
      annotated ← get_out σ la;
      Ok (set_out σ l
            {| Output.tx_ref := Output.tx_ref self;
               Output.position := Output.position self;
               Output.amount := Output.amount self;
               Output.script := Output.script self;
               Output.is_internal_transfer := Output.is_internal_transfer annotated;
               Output.is_spent := Output.is_spent annotated;
               Output.is_my_output := Output.is_my_output annotated;
               Output.is_my_input := Output.is_my_input annotated;
               Output.sent_supports := Output.sent_supports annotated;
               Output.sent_tips := Output.sent_tips annotated;
               Output.received_tips := Output.received_tips annotated;
               Output.channel := Output.channel annotated;
               Output.private_key := Output.private_key annotated;
               Output.purchase := Output.purchase self;
               Output.purchased_claim := Output.purchased_claim self;
               Output.purchase_receipt := Output.purchase_receipt self;
               Output.reposted_claim := Output.reposted_claim self;
               Output.claims := Output.claims self;
               Output.meta := Output.meta self |})
  end.

(** ** Output: address *)

Definition Output_pubkey_hash (self : Output.t) : result script_value :=
  of_option (KeyError "pubkey_hash")
    (OutputScript.values (Output.script self) !! "pubkey_hash").

Definition Output_get_address (ledger : Ledger) (self : Output.t) : result string :=
  v ← Output_pubkey_hash self;
  match v with
  | VBytes h => Ok (hash160_to_address ledger h)
  | _ => Err TypeError
  end.

(** ** Transaction: status by height *)

Definition Transaction_is_broadcast (self : Transaction.t) : bool :=
  -2 <? Transaction.height self.

Definition Transaction_is_mempool (self : Transaction.t) : bool :=
  (Transaction.height self =? -1) || (Transaction.height self =? 0).

Definition Transaction_is_confirmed (self : Transaction.t) : bool :=
  0 <? Transaction.height self.

(** ** Sizes and fees *)

(** [InputOutput.size]: the object is serialized into a new stream and the
    bytes are counted. *)
Definition InputOutput_size (serialize_to : BCDataStream -> result BCDataStream)
  : result Z :=
  stream ← serialize_to (new_stream []);
  Ok (Z.of_nat (length (get_bytes stream))).

Definition Input_size (self : Input.t) : result Z :=
  InputOutput_size (Input_serialize_to self None).

Definition Output_size (self : Output.t) : result Z :=
  InputOutput_size (Output_serialize_to self None).

Definition Input_get_fee (ledger : Ledger) (self : Input.t) : result Z :=
  size ← Input_size self;
  Ok (size * fee_per_byte ledger).

Definition Output_get_fee (ledger : Ledger) (self : Output.t) : result Z :=
  name_fee ←
    (if OutputScript.is_claim_name (Output.script self) then
       v ← of_option (KeyError "claim_name")
             (OutputScript.values (Output.script self) !! "claim_name");
       match v with
       | VBytes name => Ok (Z.of_nat (length name) * fee_per_name_char ledger)
       | _ => Err TypeError
       end
     else Ok 0);
  size ← Output_size self;
  Ok (Z.max name_fee (size * fee_per_byte ledger)).

Section MoreOperations.
Context `{Hashes} `{Codecs} `{Base58}.

Definition Transaction_size (σ : Store) (t : tx_loc) : result (Z * Store) :=
  '(r, σ) ← Transaction_raw σ t;
  Ok (Z.of_nat (length r), σ).

Definition Transaction_base_size (σ : Store) (t : tx_loc) : result (Z * Store) :=
  '(size, σ) ← Transaction_size σ t;
  self ← get_tx σ t;
  inputs ←
    for_each (fun l acc => txi ← get_in σ l; s ← Input_size txi; Ok (acc + s))
      (Transaction._inputs self) 0;
  outputs ←
    for_each (fun l acc => txo ← get_out σ l; s ← Output_size txo; Ok (acc + s))
      (Transaction._outputs self) 0;
  Ok (size - inputs - outputs, σ).

Definition Transaction_get_base_fee (ledger : Ledger) (σ : Store) (t : tx_loc)
  : result (Z * Store) :=
  '(size, σ) ← Transaction_base_size σ t;
  Ok (size * fee_per_byte ledger, σ).

Definition Transaction_get_effective_input_sum (ledger : Ledger) (σ : Store) (t : tx_loc)
  : result Z :=
  self ← get_tx σ t;
  for_each (fun l acc =>
      txi ← get_in σ l;
      amount ← Input_amount σ txi;
      fee ← Input_get_fee ledger txi;
      Ok (acc + (amount - fee)))
    (Transaction._inputs self) 0.

(** ** Transaction: the inputs and outputs of the wallet

    The generators are run to their end; what they yield is the list of
    the objects, in order. *)

Fixpoint filterM {A : Type} (p : A -> result bool) (xs : list A) : result (list A) :=
  match xs with
  | [] => Ok []
  | x :: xs' =>
      b ← p x;
      ys ← filterM p xs';
      Ok (if (b : bool) then x :: ys else ys)
  end.

Definition Transaction_my_inputs (σ : Store) (t : tx_loc) : result (list in_loc) :=
  inputs ← Transaction_inputs σ t;
  filterM (fun l : in_loc =>
      txi ← get_in σ l;
      match TXORef.txo (Input.txo_ref txi) with
      | None => Ok false
      | Some lo => txo ← get_out σ lo; Ok (truthy (Output.is_my_output txo))
      end)
    inputs.

Definition _filter_my_outputs (σ : Store) (t : tx_loc) (f : OutputScript.t -> bool)
  : result (list out_loc) :=
  outputs ← Transaction_outputs σ t;
  filterM (fun l : out_loc =>
      txo ← get_out σ l;
      Ok (truthy (Output.is_my_output txo) && f (Output.script txo)))
    outputs.

Definition _filter_other_outputs (σ : Store) (t : tx_loc) (f : OutputScript.t -> bool)
  : result (list out_loc) :=
  outputs ← Transaction_outputs σ t;
  filterM (fun l : out_loc =>
      txo ← get_out σ l;
      Ok (negb (truthy (Output.is_my_output txo)) && f (Output.script txo)))
    outputs.

Definition Transaction_my_update_outputs (σ : Store) (t : tx_loc) :=
  _filter_my_outputs σ t OutputScript.is_update_claim.

Definition Transaction_my_support_outputs (σ : Store) (t : tx_loc) :=
  _filter_my_outputs σ t OutputScript.is_support_claim.

Definition Transaction_other_support_outputs (σ : Store) (t : tx_loc) :=
  _filter_other_outputs σ t OutputScript.is_support_claim.

(** The inner loop of [my_abandon_outputs]: [abandon.claim_id] is compared
    with the [claim_id] of each update in turn, up to the first match. *)
Fixpoint is_update_of (σ : Store) (abandon : out_loc) (updates : list out_loc)
  : result (bool * Store) :=
  match updates with
  | [] => Ok (false, σ)
  | l :: updates' =>
      a ← get_out σ abandon;
      '(abandon_id, σ) ← Output_claim_id σ a;
      update ← get_out σ l;
      '(update_id, σ) ← Output_claim_id σ update;
      if String.eqb abandon_id update_id then Ok (true, σ)
      else is_update_of σ abandon updates'
  end.

Definition my_abandon_step (t : tx_loc) (l : in_loc) (acc : list out_loc * Store)
  : result (list out_loc * Store) :=
  let '(yielded, σ) := acc in
  txi ← get_in σ l;
  match TXORef.txo (Input.txo_ref txi) with
  | None => Ok (yielded, σ)
  | Some la =>
      abandon ← get_out σ la;
      if truthy (Output.is_my_output abandon)
         && OutputScript.is_claim_involved (Output.script abandon) then
        '(is_update, σ) ←
          (if OutputScript.is_claim_name (Output.script abandon)
              || OutputScript.is_update_claim (Output.script abandon) then
             updates ← Transaction_my_update_outputs σ t;
             is_update_of σ la updates
           else Ok (false, σ));
        if negb is_update then Ok (yielded ++ [la], σ) else Ok (yielded, σ)
      else Ok (yielded, σ)
  end.

Definition Transaction_my_abandon_outputs (σ : Store) (t : tx_loc)
  : result (list out_loc * Store) :=
  inputs ← Transaction_inputs σ t;
  for_each (my_abandon_step t) inputs ([], σ).

(** ** Output: the digest a signature is checked against *)

Definition Output_get_signature_digest (ledger : Ledger) (σ : Store) (l : out_loc)
  : result (bytes * Store) :=
  '(c, σ) ← Output_claim σ l;
  if truthy_bytes (Claim.unsigned_payload c) then
    self ← get_out σ l;
    address ← Output_get_address ledger self;
    decoded ← Base58_decode address;
    '(c, σ) ← Output_claim σ l;
    payload ← of_option TypeError (Claim.unsigned_payload c);
    '(c, σ) ← Output_claim σ l;
    sch ← of_option TypeError (Claim.signing_channel_hash c);
    Ok (sha256 (decoded ++ payload ++ rev sch), σ)
  else
    self ← get_out σ l;
    first ← first_input_hash σ self;
    '(c, σ) ← Output_claim σ l;
    sch ← of_option TypeError (Claim.signing_channel_hash c);
    '(c, σ) ← Output_claim σ l;
    Ok (sha256 (first ++ sch ++ Claim.to_message_bytes c), σ).

End MoreOperations.

(** ** Block-index query facade: the blocks of a file *)

(** A row of the result of [get_blocks_in_file]. *)
Module BlockRow.
Record row : Type := mk {
  data_offset : Z;
  height : Z;
  block_hash : bytes;
  txs : Z
}.
End BlockRow.




(** ** Block-index query facade: opening and closing

    The calls of one task, each awaited before the next.  What
    [sqlite3.connect] and the ATTACH statement do is outside the library:
    the outcome of [sync_open] is a parameter of [open]. *)

Inductive Connection : Type := SqliteConnection.
Inductive ThreadPoolExecutor : Type := Executor (max_workers : Z).

Module BlockchainDB.
Record t : Type := mk {
  connection : option Connection;
  executor : option ThreadPoolExecutor
}.
End BlockchainDB.

Inductive db_error : Type :=
  | AlreadyOpen                 (* AssertionError: Database is already open. *)
  | SqliteError.                (* raised by sqlite3 *)

Inductive open_outcome : Type :=
  | Connects                    (* connect and ATTACH succeed *)
  | ConnectFails                (* sqlite3.connect raises *)
  | AttachFails.                (* connect succeeds, ATTACH raises *)

Definition BlockchainDB_init : BlockchainDB.t :=
  {| BlockchainDB.connection := None; BlockchainDB.executor := None |}.

Definition sync_open (outcome : open_outcome) (self : BlockchainDB.t)
  : BlockchainDB.t * option db_error :=
  match outcome with
  | ConnectFails => (self, Some SqliteError)
  | AttachFails =>
      ({| BlockchainDB.connection := Some SqliteConnection;
          BlockchainDB.executor := BlockchainDB.executor self |}, Some SqliteError)
  | Connects =>
      ({| BlockchainDB.connection := Some SqliteConnection;
          BlockchainDB.executor := BlockchainDB.executor self |}, None)
  end.

Definition BlockchainDB_open (outcome : open_outcome) (self : BlockchainDB.t)
  : BlockchainDB.t * option db_error :=
  match BlockchainDB.executor self with
  | Some _ => (self, Some AlreadyOpen)
  | None =>
      sync_open outcome
        {| BlockchainDB.connection := BlockchainDB.connection self;
           BlockchainDB.executor := Some (Executor 1) |}
  end.

Definition sync_close (self : BlockchainDB.t) : BlockchainDB.t :=
  {| BlockchainDB.connection := None;
     BlockchainDB.executor := BlockchainDB.executor self |}.

Definition BlockchainDB_close (self : BlockchainDB.t) : BlockchainDB.t :=
  match BlockchainDB.executor self with
  | Some _ =>
      let self :=
        match BlockchainDB.connection self with
        | Some _ => sync_close self
        | None => self
        end in
      {| BlockchainDB.connection := BlockchainDB.connection self;
         BlockchainDB.executor := None |}
  | None => self
  end.

(** * Vocabulary of the further properties *)

(** The number of bytes [write_compact_size] produces for a size. *)
Definition compact_size_length (size : Z) : Z :=
  if size <? 253 then 1
  else if size <=? 0xFFFF then 3
  else if size <=? 0xFFFFFFFF then 5
  else 9.

(** ** Caches *)

(** A transaction with its four caches emptied. *)
Definition uncached (x : Transaction.t) : Transaction.t :=
  Transaction.set_ref (TXRefMutable.reset (Transaction.ref x))
    (Transaction.set__raw_sans_segwit None (Transaction.set__raw None x)).

(** From [x] to [y] nothing changed but caches that were empty and now hold
    a value. *)
Definition caches_filled (x y : Transaction.t) : Prop :=
  uncached y = uncached x
  /\ (forall r, Transaction._raw x = Some r -> Transaction._raw y = Some r)
  /\ (forall r, Transaction._raw_sans_segwit x = Some r ->
        Transaction._raw_sans_segwit y = Some r)
  /\ (forall h, TXRefMutable._hash (Transaction.ref x) = Some h ->
        TXRefMutable._hash (Transaction.ref y) = Some h)
  /\ (forall i, TXRefMutable._id (Transaction.ref x) = Some i ->
        TXRefMutable._id (Transaction.ref y) = Some i).

(** Between two stores the inputs and the outputs are the same objects and
    the transactions differ by caches that were filled. *)
Definition only_caches_filled (σ σ' : Store) : Prop :=
  ins σ' = ins σ /\ outs σ' = outs σ /\ Forall2 caches_filled (txs σ) (txs σ').

(** ** Values of the cached properties *)

(** What a read of [raw] returns, as a function of the store: the cached
    bytes, or the serialization when none are cached. *)
Definition raw_value (σ : Store) (t : tx_loc) : result bytes :=
  self ← get_tx σ t;
  match Transaction._raw self with
  | Some r => Ok r
  | None => _serialize σ t true false
  end.

(** What a read of [raw_sans_segwit] returns. *)
Definition raw_sans_segwit_value (σ : Store) (t : tx_loc) : result bytes :=
  self ← get_tx σ t;
  if negb (Transaction.is_segwit_flag self =? 0) then
    match Transaction._raw_sans_segwit self with
    | Some r => Ok r
    | None => _serialize σ t true true
    end
  else raw_value σ t.

(** What a read of [hash] returns: the cached hash, or the double SHA-256 of
    what [raw_sans_segwit] returns. *)
Definition hash_value `{Hashes} (σ : Store) (t : tx_loc) : result bytes :=
  self ← get_tx σ t;
  match TXRefMutable._hash (Transaction.ref self) with
  | Some h => Ok h
  | None => r ← raw_sans_segwit_value σ t; Ok (sha256 (sha256 r))
  end.

(** The cache [new] is the cache [old], or [old] was empty and [new] holds
    the value [v] that a read returns. *)
Definition filled_by_read {A : Type} (v : result A) (old new : option A) : Prop :=
  new = old \/ (old = None /\ exists a, v = Ok a /\ new = Some a).

(** In both stores the reads of [raw], [raw_sans_segwit] and [hash] return
    the same, for every transaction. *)
Definition same_values `{Hashes} (σ σ' : Store) : Prop :=
  forall t,
    raw_value σ' t = raw_value σ t
    /\ raw_sans_segwit_value σ' t = raw_sans_segwit_value σ t
    /\ hash_value σ' t = hash_value σ t.

(** Every cached serialization of the transaction is the serialization of
    its current content: nothing that [_serialize] reads was changed since
    the bytes were cached, and no other bytes were put in their place. *)
Definition caches_current (σ : Store) (t : tx_loc) : Prop :=
  forall self, txs σ !! t = Some self ->
    (forall r, Transaction._raw self = Some r -> _serialize σ t true false = Ok r)
    /\ (forall r, Transaction._raw_sans_segwit self = Some r ->
          _serialize σ t true true = Ok r).

(** The cached properties of a transaction. *)
Inductive cached_property : Type := RawBytes | RawSansSegwit | TxHash | TxId.

(** One read of a cached property of the transaction at [t]; the value is
    dropped, the store with the caches it filled is kept. *)
Definition read_property `{Hashes} (σ : Store) (read : tx_loc * cached_property)
  : result Store :=
  match read with
  | (t, RawBytes) => '(_, σ) ← Transaction_raw σ t; Ok σ
  | (t, RawSansSegwit) => '(_, σ) ← Transaction_raw_sans_segwit σ t; Ok σ
  | (t, TxHash) => '(_, σ) ← Transaction_hash σ t; Ok σ
  | (t, TxId) => '(_, σ) ← Transaction_id σ t; Ok σ
  end.

(** A sequence of reads, each on the store the one before left. *)
Definition read_properties `{Hashes} (reads : list (tx_loc * cached_property))
  (σ : Store) : result Store :=
  for_each (fun read σ => read_property σ read) reads σ.

(** ** Annotations and balances *)

(** The annotations [update_annotations] writes. *)
Definition annotations (o : Output.t)
  : option bool * option bool * option bool * option bool
    * option Z * option Z * option Z * option out_loc * option bytes :=
  (Output.is_internal_transfer o, Output.is_spent o, Output.is_my_output o,
   Output.is_my_input o, Output.sent_supports o, Output.sent_tips o,
   Output.received_tips o, Output.channel o, Output.private_key o).

(** What [update_annotations] leaves alone. *)
Definition unannotated (o : Output.t)
  : option TXRef * option Z * Z * OutputScript.t
    * option out_loc * option out_loc * option out_loc * option out_loc
    * option (list out_loc) * gmap string bytes :=
  (Output.tx_ref o, Output.position o, Output.amount o, Output.script o,
   Output.purchase o, Output.purchased_claim o, Output.purchase_receipt o,
   Output.reposted_claim o, Output.claims o, Output.meta o).

(** The amounts of the outputs marked as the wallet's own. *)
Definition own_output_amounts (σ : Store) (ls : list out_loc) : list Z :=
  omap (fun l =>
      o ← outs σ !! l;
      if truthy (Output.is_my_output o) then Some (Output.amount o) else None) ls.

(** The amounts of the outputs that the inputs spend and that are marked as
    the wallet's own. *)
Definition own_input_amounts (σ : Store) (ls : list in_loc) : list Z :=
  omap (fun l =>
      o ← spent_output σ l;
      if truthy (Output.is_my_output o) then Some (Output.amount o) else None) ls.

(** The output exists and its [is_my_output] is set. *)
Definition annotated_output (σ : Store) (l : out_loc) : bool :=
  match outs σ !! l with
  | Some o => bool_decide (is_Some (Output.is_my_output o))
  | None => false
  end.

(** The input exists and, when its reference resolves, the output it spends
    exists and its [is_my_output] is set. *)
Definition annotated_input (σ : Store) (l : in_loc) : bool :=
  match ins σ !! l with
  | Some i =>
      match TXORef.txo (Input.txo_ref i) with
      | Some lo => annotated_output σ lo
      | None => true
      end
  | None => false
  end.

(** ** Outputs of the wallet *)

(** The output at [l] is a support marked as the wallet's own. *)
Definition own_support (σ : Store) (l : out_loc) : bool :=
  match outs σ !! l with
  | Some o => truthy (Output.is_my_output o)
              && OutputScript.is_support_claim (Output.script o)
  | None => false
  end.

(** The output at [l] is a support not marked as the wallet's own:
    [is_my_output] is [False] or was never set. *)
Definition other_support (σ : Store) (l : out_loc) : bool :=
  match outs σ !! l with
  | Some o => negb (truthy (Output.is_my_output o))
              && OutputScript.is_support_claim (Output.script o)
  | None => false
  end.

Definition support_at (σ : Store) (l : out_loc) : bool :=
  match outs σ !! l with
  | Some o => OutputScript.is_support_claim (Output.script o)
  | None => false
  end.

(** The output at [l] is an update marked as the wallet's own. *)
Definition own_update (σ : Store) (l : out_loc) : bool :=
  match outs σ !! l with
  | Some o => truthy (Output.is_my_output o)
              && OutputScript.is_update_claim (Output.script o)
  | None => false
  end.

(** The output the input at [l] spends, when the reference resolves to an
    output marked as the wallet's own whose script involves a claim. *)
Definition spent_own_claim (σ : Store) (l : in_loc) : option out_loc :=
  i ← ins σ !! l;
  lo ← TXORef.txo (Input.txo_ref i);
  o ← outs σ !! lo;
  if truthy (Output.is_my_output o)
     && OutputScript.is_claim_involved (Output.script o)
  then Some lo else None.

Definition all_allocated (σ : Store) (ls : list out_loc) : bool :=
  forallb (fun l => bool_decide (is_Some (outs σ !! l))) ls.

(** ** Deserialization in two phases *)

(** What [deserialize] reads from the stream: the version, the segwit flag
    when the marker is there, the inputs and outputs as built by their
    [deserialize_from], the witness items when the flag is set, and the
    locktime. *)
Record parsed : Type := mkParsed {
  p_version : Z;
  p_flag : option Z;
  p_inputs : list Input.t;
  p_outputs : list Output.t;
  p_witnesses : option (list bytes);
  p_locktime : Z
}.

(** The reads of [deserialize], in its order, without the store; [flag0] is
    the segwit flag the transaction holds before the call. *)
Definition parse_transaction `{Codecs} (flag0 : Z) (stream : BCDataStream)
  : result (parsed * BCDataStream) :=
  let start := tell stream in
  '(version, stream) ← read_uint32 stream;
  '(input_count, stream) ← read_compact_size stream;
  '(flag, input_count, stream) ←
    (if input_count =? 0 then
       '(flag, stream) ← read_uint8 stream;
       '(input_count, stream) ← read_compact_size stream;
       Ok (Some flag, input_count, stream)
     else Ok (None, input_count, stream));
  '(inputs, stream) ← read_many Input_deserialize_from (Z.to_nat input_count) stream;
  '(output_count, stream) ← read_compact_size stream;
  '(outputs, stream) ←
    read_many (Output_deserialize_from start) (Z.to_nat output_count) stream;
  '(witnesses, stream) ←
    (if negb (default flag0 flag =? 0) then
       '(stacks, stream) ← read_many read_witness_stack (Z.to_nat input_count) stream;
       Ok (Some (concat stacks), stream)
     else Ok (None, stream));
  '(locktime, stream) ← read_uint32 stream;
  Ok (mkParsed version flag inputs outputs witnesses locktime, stream).

(** The bytes hold a whole transaction: every read of [deserialize] on a
    new transaction finds all the bytes it asks for.  Bytes that end early
    are a different matter, as a stream that hands out what is left of them
    leaves fields of the transaction unset. *)
Definition complete_bytes `{Codecs} (raw : bytes) : Prop :=
  exists p stream, parse_transaction 0 (new_stream raw) = Ok (p, stream).

(** The transaction [x] after what was read is written into it and the new
    inputs and outputs, allocated at [ls_in] and [ls_out], are appended. *)
Definition installed_tx (x : Transaction.t) (p : parsed) (ls_in : list in_loc)
  (ls_out : list out_loc) : Transaction.t :=
  {| Transaction._raw := Transaction._raw x;
     Transaction._raw_sans_segwit := Transaction._raw_sans_segwit x;
     Transaction.is_segwit_flag := default (Transaction.is_segwit_flag x) (p_flag p);
     Transaction.witnesses := default (Transaction.witnesses x) (p_witnesses p);
     Transaction.ref := Transaction.ref x;
     Transaction.version := p_version p;
     Transaction.locktime := p_locktime p;
     Transaction._inputs := Transaction._inputs x ++ ls_in;
     Transaction._outputs := Transaction._outputs x ++ ls_out;
     Transaction.is_verified := Transaction.is_verified x;
     Transaction.height := Transaction.height x;
     Transaction.position := Transaction.position x;
     Transaction._day := Transaction._day x |}.

(** The store after [deserialize]: the parsed inputs and outputs are new
    objects, attached to the transaction at the positions that follow the
    ones it had. *)
Definition install (σ : Store) (t : tx_loc) (x : Transaction.t) (p : parsed) : Store :=
  {| txs :=
       <[t := installed_tx x p (seq (length (ins σ)) (length (p_inputs p)))
                (seq (length (outs σ)) (length (p_outputs p)))]> (txs σ);
     ins :=
       ins σ ++ imap (fun j => Input.attach (RefMutable t)
                                (Z.of_nat (length (Transaction._inputs x) + j)))
                  (p_inputs p);
     outs :=
       outs σ ++ imap (fun j => Output.attach (RefMutable t)
                                  (Z.of_nat (length (Transaction._outputs x) + j)))
                   (p_outputs p) |}.

(** ** Wire layout of the fields *)

(** Previous-tx hash, position, script or coinbase bytes and sequence of an
    input, on the wire. *)
Definition input_fields_bytes (f : bytes * Z * bytes * Z) : bytes :=
  let '(h, position, script, sequence) := f in
  h ++ le_bytes 4 position ++ string_bytes script ++ le_bytes 4 sequence.

Definition output_fields_bytes (f : Z * bytes) : bytes :=
  let '(amount, script) := f in
  le_bytes 8 amount ++ string_bytes script.

Definition input_fields_fit (f : bytes * Z * bytes * Z) : Prop :=
  let '(h, position, script, sequence) := f in
  length h = 32%nat /\ in_range 4 position = true /\ in_range 4 sequence = true
  /\ Z.of_nat (length script) < 2 ^ 64.

Definition output_fields_fit (f : Z * bytes) : Prop :=
  let '(amount, script) := f in
  in_range 8 amount = true /\ Z.of_nat (length script) < 2 ^ 64.

(** The fields of an input as [Input_wire_fields] gives them, the script
    bytes being there. *)
Definition with_script (f : bytes * Z * bytes * Z) : bytes * Z * option bytes * Z :=
  let '(h, position, script, sequence) := f in (h, position, Some script, sequence).

(** A witness stack on the wire: the number of items, then each item
    length-prefixed. *)
Definition witness_stack_bytes (stack : list bytes) : bytes :=
  compact_size_bytes (Z.of_nat (length stack)) ++ concat (string_bytes <$> stack).

Definition witness_stack_fits (stack : list bytes) : Prop :=
  Z.of_nat (length stack) < 2 ^ 64
  /\ Forall (fun item => Z.of_nat (length item) < 2 ^ 64) stack.

(** The layout without witness data. *)
Definition fields_bytes (version locktime : Z) (inputs : list (bytes * Z * bytes * Z))
  (outputs : list (Z * bytes)) : bytes :=
  Transaction_bytes version locktime (input_fields_bytes <$> inputs)
    (output_fields_bytes <$> outputs).

(** The layout with witness data: marker 0, flag, inputs, outputs, one
    witness stack per input, locktime. *)
Definition segwit_fields_bytes (version flag locktime : Z)
  (inputs : list (bytes * Z * bytes * Z)) (outputs : list (Z * bytes))
  (stacks : list (list bytes)) : bytes :=
  le_bytes 4 version ++ le_bytes 1 0 ++ le_bytes 1 flag
  ++ compact_size_bytes (Z.of_nat (length inputs))
  ++ concat (input_fields_bytes <$> inputs)
  ++ compact_size_bytes (Z.of_nat (length outputs))
  ++ concat (output_fields_bytes <$> outputs)
  ++ concat (witness_stack_bytes <$> stacks)
  ++ le_bytes 4 locktime.

(** The fields of an input that [serialize_to] can write: position and
    sequence fit 32 bits and the script length fits 64 bits. *)
Definition input_fields_writable (f : bytes * Z * bytes * Z) : Prop :=
  let '(h, position, script, sequence) := f in
  in_range 4 position = true /\ in_range 4 sequence = true
  /\ Z.of_nat (length script) < 2 ^ 64.

(** ** Streams and offsets *)

(** The stream [s'] is the stream [s] after some more bytes were read. *)
Definition advanced (s s' : BCDataStream) : Prop :=
  exists bs, consumed s' = consumed s ++ bs /\ remaining s = bs ++ remaining s'.

(** The script bytes of the output are found in [data] at the offset its
    script records. *)
Definition script_at (data : bytes) (o : Output.t) : Prop :=
  0 <= OutputScript.offset (Output.script o)
  /\ take (length (OutputScript.source (Output.script o)))
       (drop (Z.to_nat (OutputScript.offset (Output.script o))) data)
     = OutputScript.source (Output.script o).

(** ** Blocks of a file *)


(** ** Opening and closing the database *)

Inductive db_call : Type :=
  | DbOpen (outcome : open_outcome)
  | DbClose.

Definition db_run (c : db_call) (self : BlockchainDB.t) : BlockchainDB.t :=
  match c with
  | DbOpen outcome => fst (BlockchainDB_open outcome self)
  | DbClose => BlockchainDB_close self
  end.

(** A connection is held only while there is an executor. *)
Definition db_invariant (self : BlockchainDB.t) : Prop :=
  BlockchainDB.executor self = None -> BlockchainDB.connection self = None.

(** * Concrete data for the further properties *)

Definition example_ledger : Ledger :=
  {| fee_per_byte := 50; fee_per_name_char := 200000;
     hash160_to_address := fun _ => EmptyString |}.

Definition example_base58 : Base58 := {| Base58_decode := fun _ => Ok [] |}.

(** An output with the given ownership mark. *)
Definition marked_output (amount : Z) (script : OutputScript.t) (mine : option bool)
  : Output.t :=
  {| Output.tx_ref := None; Output.position := None;
     Output.amount := amount; Output.script := script;
     Output.is_internal_transfer := None; Output.is_spent := None;
     Output.is_my_output := mine; Output.is_my_input := None;
     Output.sent_supports := None; Output.sent_tips := None;
     Output.received_tips := None; Output.channel := None;
     Output.private_key := None; Output.purchase := None;
     Output.purchased_claim := None; Output.purchase_receipt := None;
     Output.reposted_claim := None; Output.claims := None; Output.meta := ∅ |}.

(** An input spending the output at [lo], or with a reference that does not
    resolve. *)
Definition spending_input (lo : option out_loc) : Input.t :=
  Input_new (TXORef.mk (TXRefImmutable.from_hash (replicate 32 x11) 0) 0 lo)
    (Input.Parsed (InputScript.mk [x01; x02])) 0xFFFFFFFF None None.

(** The coinbase transaction and, at location 1, a new transaction
    object. *)
Definition stream_store : Store :=
  {| txs := txs coinbase_store ++ [fresh_tx];
     ins := ins coinbase_store;
     outs := outs coinbase_store |}.

(** A claim-name output whose payload is still in its byte form. *)
Definition undecoded_store : Store :=
  {| txs := [Transaction.set__outputs [0%nat] fresh_tx];
     ins := [];
     outs := [Output.attach (RefMutable 0%nat) 0
                (Output_new 1 (OutputScript.mk [x01] 0 ClaimName
                                 {["claim" := VBytes [xc1]]}))] |}.

Definition signing_raw : bytes :=
  Eval vm_compute in
    match _serialize signing_store 0%nat true false with
    | Ok r => r
    | Err _ => []
    end.

(** The store of the unsigned claim and its channel, the raw bytes of the
    claim's transaction being cached. *)
Definition cached_signing_store : Store :=
  {| txs := [Transaction.set__raw (Some signing_raw)
               (Transaction.set__outputs [0%nat] (Transaction.set__inputs [0%nat] fresh_tx));
             Transaction.set__outputs [1%nat] fresh_tx];
     ins := ins signing_store;
     outs := outs signing_store |}.

(** A transaction with two inputs, of which the first spends an output of
    the wallet (amount 10) and the second does not resolve, and two
    outputs, one of the wallet (amount 6) and one of somebody else
    (amount 3). *)
Definition annotated_store : Store :=
  {| txs := [Transaction.set__outputs [1%nat; 2%nat]
               (Transaction.set__inputs [0%nat; 1%nat] fresh_tx)];
     ins := [spending_input (Some 0%nat); spending_input None];
     outs := [marked_output 10 (OutputScript.mk [x76] 0 PayPubKeyHash ∅) (Some true);
              marked_output 6 (OutputScript.mk [x76] 0 PayPubKeyHash ∅) (Some true);
              marked_output 3 (OutputScript.mk [x76] 0 PayPubKeyHash ∅) (Some false)] |}.

(** A transaction with three outputs: a support of the wallet, a support
    whose ownership was never set, and a payment of the wallet. *)
Definition support_store : Store :=
  {| txs := [Transaction.set__outputs [0%nat; 1%nat; 2%nat] fresh_tx];
     ins := [];
     outs := [marked_output 1 (OutputScript.mk [xb8] 0 SupportClaim ∅) (Some true);
              marked_output 2 (OutputScript.mk [xb8] 0 SupportClaim ∅) None;
              marked_output 3 (OutputScript.mk [x76] 0 PayPubKeyHash ∅) (Some true)] |}.

(** A transaction that spends an update (output 0) and a support (output 1)
    of the wallet, both of the claim 0a, and whose own outputs are an
    update of the claim 0a (output 2), marked by [mine], and a payment
    (output 3). *)
Definition abandon_store (mine : option bool) : Store :=
  {| txs := [Transaction.set__outputs [2%nat; 3%nat]
               (Transaction.set__inputs [0%nat; 1%nat] fresh_tx)];
     ins := [spending_input (Some 0%nat); spending_input (Some 1%nat)];
     outs := [marked_output 1 (OutputScript.mk [xb7] 0 UpdateClaim
                                 {["claim_id" := VBytes [x0a]]}) (Some true);
              marked_output 1 (OutputScript.mk [xb8] 0 SupportClaim
                                 {["claim_id" := VBytes [x0a]]}) (Some true);
              marked_output 1 (OutputScript.mk [xb7] 0 UpdateClaim
                                 {["claim_id" := VBytes [x0a]]}) mine;
              marked_output 5 (OutputScript.mk [x76] 0 PayPubKeyHash ∅) (Some true)] |}.

(** A claim of the wallet, made by a transaction whose hash was never
    read. *)
Definition claim_output : Output.t :=
  Output.attach (RefMutable 0%nat) 0
    (marked_output 1 (OutputScript.mk [xb5] 0 ClaimName ∅) (Some true)).

Definition claiming_store : Store :=
  {| txs := [Transaction.set__outputs [0%nat] fresh_tx];
     ins := [];
     outs := [claim_output] |}.

Definition claim_output_hash : bytes :=
  Eval vm_compute in
    match Output_claim_hash (H := example_hashes) claiming_store claim_output with
    | Ok (VBytes h, _) => h
    | _ => []
    end.

(** The claiming transaction and, at location 1, a transaction that spends
    the claim and carries it on with an update. *)
Definition continued_claim_store : Store :=
  {| txs := txs claiming_store
            ++ [Transaction.set__outputs [1%nat]
                  (Transaction.set__inputs [0%nat] fresh_tx)];
     ins := [spending_input (Some 0%nat)];
     outs := [claim_output;
              marked_output 1 (OutputScript.mk [xb7] 0 UpdateClaim
                                 {["claim_id" := VBytes claim_output_hash]})
                (Some true)] |}.

(** The fields of the transaction that [segwit_raw] holds. *)
Definition segwit_inputs : list (bytes * Z * bytes * Z) :=
  [(replicate 32 x11, 0, [], 0xFFFFFFFF)].

Definition segwit_outputs : list (Z * bytes) := [(1, [])].

(** * Properties *)

(** ** The result monad *)

Lemma bind_Ok {A B} (m : result A) (k : A -> result B) (b : B) :
  m ≫= k = Ok b -> exists a, m = Ok a /\ k a = Ok b.
Proof. destruct m as [a|e]; simpl; [eauto | discriminate]. Qed.

Lemma of_option_Ok {A} (e : error) (o : option A) (a : A) :
  of_option e o = Ok a -> o = Some a.
Proof. destruct o; simpl; congruence. Qed.

(** Splits a hypothesis [x ← m; k = Ok b] into its successful steps. *)
Ltac inv_bind H :=
  let a := fresh "a" in
  let Ha := fresh "Ha" in
  apply bind_Ok in H; destruct H as (a & Ha & H).

Tactic Notation "inv_bind_as" hyp(H) ident(a) ident(Ha) :=
  apply bind_Ok in H; destruct H as (a & Ha & H).

(** ** Fixed-width integers *)

Lemma Z_of_byte_of_Z (z : Z) : Z_of_byte (byte_of_Z z) = z mod 256.
Proof.
  unfold Z_of_byte, byte_of_Z.
  assert (Hm : 0 <= z mod 256 < 256) by (apply Z.mod_pos_bound; lia).
  destruct (Byte.of_N (Z.to_N (z mod 256))) as [b|] eqn:E.
  - apply Byte.to_of_N in E. rewrite E. lia.
  - apply Byte.of_N_None_iff in E. lia.
Qed.

Lemma in_range_spec (n : nat) (v : Z) :
  in_range n v = true <-> 0 <= v < 256 ^ Z.of_nat n.
Proof. unfold in_range. rewrite andb_true_iff. lia. Qed.

Lemma length_le_bytes (n : nat) (v : Z) : length (le_bytes n v) = n.
Proof. revert v. induction n as [|n IH]; intros v; simpl; [done | by rewrite IH]. Qed.

Lemma le_value_le_bytes (n : nat) (v : Z) :
  0 <= v < 256 ^ Z.of_nat n -> le_value (le_bytes n v) = v.
Proof.
  revert v. induction n as [|n IH]; intros v Hv.
  - simpl in *. lia.
  - cbn [le_bytes le_value]. rewrite Z_of_byte_of_Z, IH.
    + pose proof (Z.div_mod v 256). lia.
    + rewrite Nat2Z.inj_succ, Z.pow_succ_r in Hv by lia.
      split; [apply Z.div_pos; lia | apply Z.div_lt_upper_bound; lia].
Qed.

Lemma pack_le_Ok (n : nat) (v : Z) (bs : bytes) :
  pack_le n v = Ok bs -> in_range n v = true /\ bs = le_bytes n v.
Proof. unfold pack_le. destruct (in_range n v); [intros [= <-]; done | discriminate]. Qed.

(** ** Reading back what was written *)

#[local] Arguments le_bytes : simpl never.

Lemma read_app (c enc rest : bytes) :
  read (length enc) (mkStream c (enc ++ rest)) = Ok (enc, mkStream (c ++ enc) rest).
Proof.
  unfold read. cbn [remaining consumed].
  rewrite take_app_length, drop_app_length.
  destruct (Nat.leb_spec (length enc) (length (enc ++ rest))) as [_|Hlt]; [done|].
  rewrite length_app in Hlt. lia.
Qed.

Lemma write_fresh (data : bytes) (s s' : BCDataStream) :
  write data s = Ok s' -> remaining s = [] ->
  s' = mkStream (consumed s ++ data) [].
Proof. unfold write. intros [= <-] ->. by rewrite drop_nil. Qed.

Lemma write_uint_spec (n : nat) (v : Z) (s s' : BCDataStream) :
  write_uint n v s = Ok s' -> remaining s = [] ->
  in_range n v = true /\ appended s s' (le_bytes n v).
Proof.
  unfold write_uint. intros Hw Hr. inv_bind Hw.
  apply pack_le_Ok in Ha as [Hrange ->]. split; [done|].
  by apply write_fresh.
Qed.

Lemma read_uint_le_bytes (n : nat) (v : Z) :
  in_range n v = true ->
  forall c rest,
    read_uint n (mkStream c (le_bytes n v ++ rest))
    = Ok (v, mkStream (c ++ le_bytes n v) rest).
Proof.
  intros Hv c rest. unfold read_uint.
  rewrite <- (length_le_bytes n v) at 1. rewrite read_app. simpl.
  rewrite le_value_le_bytes; [done | by apply in_range_spec].
Qed.

Lemma write_compact_size_spec (size : Z) (s s' : BCDataStream) :
  write_compact_size size s = Ok s' -> remaining s = [] ->
  0 <= size < 2 ^ 64 /\ appended s s' (compact_size_bytes size).
Proof.
  unfold write_compact_size, compact_size_bytes, appended.
  unfold write_uint8, write_uint16, write_uint32, write_uint64.
  intros Hw Hr.
  repeat case_match.
  - apply write_uint_spec in Hw as [Hv ->]; [|done].
    apply in_range_spec in Hv. split; [lia | done].
  - inv_bind Hw. apply write_uint_spec in Ha as [_ ->]; [|done].
    apply write_uint_spec in Hw as [Hv ->]; [|done].
    apply in_range_spec in Hv. cbn [consumed]. rewrite <- app_assoc. split; [lia | done].
  - inv_bind Hw. apply write_uint_spec in Ha as [_ ->]; [|done].
    apply write_uint_spec in Hw as [Hv ->]; [|done].
    apply in_range_spec in Hv. cbn [consumed]. rewrite <- app_assoc. split; [lia | done].
  - inv_bind Hw. apply write_uint_spec in Ha as [_ ->]; [|done].
    apply write_uint_spec in Hw as [Hv ->]; [|done].
    apply in_range_spec in Hv. cbn [consumed]. rewrite <- app_assoc.
    change (256 ^ Z.of_nat 8) with (2 ^ 64) in Hv. split; [lia | done].
Qed.

Lemma read_compact_size_bytes (size : Z) :
  0 <= size < 2 ^ 64 ->
  forall c rest,
    read_compact_size (mkStream c (compact_size_bytes size ++ rest))
    = Ok (size, mkStream (c ++ compact_size_bytes size) rest).
Proof.
  intros Hs c rest. unfold read_compact_size, compact_size_bytes.
  unfold read_uint8, read_uint16, read_uint32, read_uint64.
  destruct (Z.ltb_spec size 253) as [H1|H1].
  - rewrite read_uint_le_bytes by (apply in_range_spec; simpl; lia).
    simpl. destruct (Z.ltb_spec size 253); [done | lia].
  - destruct (Z.leb_spec size 0xFFFF) as [H2|H2];
      [|destruct (Z.leb_spec size 0xFFFFFFFF) as [H3|H3]];
      rewrite <- ?app_assoc, read_uint_le_bytes by done;
      cbn [mbind result_bind Z.ltb Z.eqb Z.compare Pos.compare Pos.compare_cont];
      rewrite read_uint_le_bytes by (apply in_range_spec; simpl; lia);
      by rewrite <- app_assoc.
Qed.

Lemma write_string_spec (b : bytes) (s s' : BCDataStream) :
  write_string b s = Ok s' -> remaining s = [] ->
  0 <= Z.of_nat (length b) < 2 ^ 64
  /\ appended s s' (string_bytes b)
  /\ forall c rest,
       read_string (mkStream c (string_bytes b ++ rest))
       = Ok (b, mkStream (c ++ string_bytes b) rest).
Proof.
  unfold write_string, string_bytes. intros Hw Hr. inv_bind Hw.
  apply write_compact_size_spec in Ha as [Hlen ->]; [|done].
  apply write_fresh in Hw; [|done]. cbn [consumed] in Hw.
  split; [done|]. split.
  - unfold appended. by rewrite app_assoc.
  - intros c rest. unfold read_string.
    rewrite <- app_assoc, read_compact_size_bytes by done. simpl.
    rewrite Nat2Z.id, read_app. by rewrite <- app_assoc.
Qed.

Lemma read_string_bytes (b : bytes) :
  0 <= Z.of_nat (length b) < 2 ^ 64 ->
  forall c rest,
    read_string (mkStream c (string_bytes b ++ rest))
    = Ok (b, mkStream (c ++ string_bytes b) rest).
Proof.
  intros Hlen c rest. unfold read_string, string_bytes.
  rewrite <- app_assoc, read_compact_size_bytes by done. simpl.
  rewrite Nat2Z.id, read_app. by rewrite <- app_assoc.
Qed.

Ltac step := cbn [mbind result_bind].

(** ** Inputs and outputs on the wire *)

Lemma Input_script_written (i : Input.t) (s s' : BCDataStream) :
  (if Input_is_coinbase i then
     match Input.coinbase i with
     | Some (Input.Raw b) => write_string b s
     | _ => Err TypeError
     end
   else
     match Input.script i with
     | Some (Input.Parsed sc) => write_string (InputScript.source sc) s
     | _ => Err AttributeError
     end) = Ok s' ->
  exists b, Input_script_bytes i = Some b /\ write_string b s = Ok s'.
Proof.
  unfold Input_script_bytes.
  destruct (Input_is_coinbase i).
  - destruct (Input.coinbase i) as [[sc|b]|]; try discriminate. eauto.
  - destruct (Input.script i) as [[sc|b]|]; try discriminate. eauto.
Qed.

Lemma Input_new_wire_fields (h : bytes) (pos seq : Z) (b : bytes) :
  let tx_ref := TXRefImmutable.from_hash h (-1) in
  Input_wire_fields
    (Input_new (TXORef.mk tx_ref pos None)
       (if negb (TXRefImmutable.is_null tx_ref)
        then Input.Parsed (InputScript.mk b) else Input.Raw b) seq None None)
  = (h, pos, Some b, seq).
Proof.
  intros tx_ref. unfold Input_wire_fields, Input_script_bytes, Input_is_coinbase, Input_new.
  unfold TXORef.is_null.
  cbn [Input.txo_ref Input.coinbase Input.script Input.sequence TXORef.tx_ref
       TXORef.position].
  destruct (TXRefImmutable.is_null tx_ref); reflexivity.
Qed.

(** What [serialize_to] appends, with or without an alternate script. *)
Lemma Input_serialize_to_appended (i : Input.t) (alt : option bytes)
  (s s' : BCDataStream) :
  Input_serialize_to i alt s = Ok s' -> remaining s = [] ->
  exists b,
    match alt with Some a => Some a | None => Input_script_bytes i end = Some b
    /\ appended s s' (Input_bytes b i)
    /\ in_range 4 (TXORef.position (Input.txo_ref i)) = true
    /\ in_range 4 (Input.sequence i) = true
    /\ 0 <= Z.of_nat (length b) < 2 ^ 64.
Proof.
  unfold Input_serialize_to, write_uint32. intros Hw Hr.
  inv_bind Hw. apply write_fresh in Ha; [|done]. subst a.
  inv_bind Hw. apply write_uint_spec in Ha as [Hpos ->]; [|done].
  inv_bind Hw.
  assert (exists b, match alt with Some a => Some a | None => Input_script_bytes i end
                    = Some b /\ write_string b
                         (mkStream ((consumed s ++ TXRefImmutable.hash
                                       (TXORef.tx_ref (Input.txo_ref i)))
                                    ++ le_bytes 4 (TXORef.position (Input.txo_ref i))) [])
                       = Ok a) as (b & Hb & Hwb).
  { destruct alt as [alt|]; [by exists alt | by apply Input_script_written]. }
  apply write_string_spec in Hwb as (Hlen & -> & _); [|done].
  apply write_uint_spec in Hw as [Hseq ->]; [|done].
  exists b. repeat split; try done; try lia.
  unfold appended, Input_bytes. cbn [consumed]. by rewrite <- !app_assoc.
Qed.

Lemma Input_bytes_decodes (i : Input.t) (b : bytes) :
  length (TXRefImmutable.hash (TXORef.tx_ref (Input.txo_ref i))) = 32%nat ->
  in_range 4 (TXORef.position (Input.txo_ref i)) = true ->
  in_range 4 (Input.sequence i) = true ->
  0 <= Z.of_nat (length b) < 2 ^ 64 ->
  decodes Input_deserialize_from (Input_bytes b i)
    (fun i' => Input_wire_fields i'
               = (TXRefImmutable.hash (TXORef.tx_ref (Input.txo_ref i)),
                  TXORef.position (Input.txo_ref i), Some b, Input.sequence i)).
Proof.
  intros Hlen Hpos Hseq Hb c rest. eexists. split.
  - unfold Input_deserialize_from, read_uint32, Input_bytes.
    rewrite <- Hlen, <- !app_assoc, read_app. step.
    rewrite read_uint_le_bytes by done. step.
    rewrite <- ?app_assoc, read_string_bytes by done. step.
    rewrite <- ?app_assoc, read_uint_le_bytes by done. step.
    rewrite <- ?app_assoc. reflexivity.
  - apply Input_new_wire_fields.
Qed.

Lemma Output_serialize_to_appended (o : Output.t) (alt : option bytes)
  (s s' : BCDataStream) :
  Output_serialize_to o alt s = Ok s' -> remaining s = [] ->
  appended s s' (Output_bytes o)
  /\ in_range 8 (Output.amount o) = true
  /\ 0 <= Z.of_nat (length (OutputScript.source (Output.script o))) < 2 ^ 64.
Proof.
  unfold Output_serialize_to, write_uint64. intros Hw Hr.
  inv_bind Hw. apply write_uint_spec in Ha as [Hamount ->]; [|done].
  apply write_string_spec in Hw as (Hlen & -> & _); [|done].
  repeat split; try done; try lia.
  unfold appended, Output_bytes. cbn [consumed]. by rewrite <- !app_assoc.
Qed.

Lemma Output_bytes_decodes `{Codecs} (o : Output.t) (start : Z) :
  in_range 8 (Output.amount o) = true ->
  0 <= Z.of_nat (length (OutputScript.source (Output.script o))) < 2 ^ 64 ->
  decodes (Output_deserialize_from start) (Output_bytes o)
    (fun o' => Output_wire_fields o' = Output_wire_fields o).
Proof.
  intros Hamount Hlen c rest. eexists. split.
  - unfold Output_deserialize_from, read_uint64, Output_bytes, string_bytes.
    rewrite <- ?app_assoc, read_uint_le_bytes by done. step.
    rewrite <- ?app_assoc, read_compact_size_bytes by done. step.
    rewrite Nat2Z.id, read_app. step.
    rewrite <- ?app_assoc. reflexivity.
  - reflexivity.
Qed.

(** ** Lists on the wire *)

Lemma read_many_decodes {A B} (rd : BCDataStream -> result (A * BCDataStream))
  (R : A -> B -> Prop) (encs : list bytes) (xs : list B) :
  Forall2 (fun enc x => decodes rd enc (fun x' => R x' x)) encs xs ->
  decodes (read_many rd (length xs)) (concat encs) (fun xs' => Forall2 R xs' xs).
Proof.
  induction 1 as [|enc x encs xs Hd _ IH]; intros c rest.
  - exists []. split; [|constructor]. simpl. by rewrite app_nil_r.
  - destruct (Hd c (concat encs ++ rest)) as (x' & Hx' & HR).
    destruct (IH (c ++ enc) rest) as (xs' & Hxs' & HRs).
    exists (x' :: xs'). split; [|by constructor].
    cbn [length read_many concat]. rewrite <- app_assoc, Hx'. step.
    rewrite Hxs'. step. by rewrite <- app_assoc.
Qed.

Lemma for_each_appended {A} (wr : A -> BCDataStream -> result BCDataStream)
  (enc_of : A -> option bytes) (Q : A -> bytes -> Prop) (ls : list A) :
  (forall l s s', l ∈ ls -> wr l s = Ok s' -> remaining s = [] ->
     exists enc, enc_of l = Some enc /\ appended s s' enc /\ Q l enc) ->
  forall s s', for_each wr ls s = Ok s' -> remaining s = [] ->
  exists encs,
    mapM enc_of ls = Some encs /\ appended s s' (concat encs) /\ Forall2 Q ls encs.
Proof.
  induction ls as [|l ls IH]; intros Hwr s s' Hw Hr.
  - injection Hw as <-. exists []. split; [done|]. split; [|constructor].
    unfold appended. simpl. rewrite app_nil_r. by destruct s; simpl in *; subst.
  - cbn [for_each] in Hw. inv_bind Hw.
    destruct (Hwr l s a) as (enc & Henc & Happ & HQ); [left | done | done |].
    destruct (IH (fun l0 s0 s0' Hin => Hwr l0 s0 s0' (list_elem_of_further _ _ _ Hin)) a s')
      as (encs & Hencs & Happs & HQs); [done | by rewrite Happ |].
    exists (enc :: encs). split; [|split].
    + simpl. rewrite Henc. simpl. by rewrite Hencs.
    + unfold appended in *. subst. cbn [consumed concat]. by rewrite app_assoc.
    + by constructor.
Qed.

Lemma mapM_of_Forall2 {A B C} (f : A -> B) (g : C -> option B)
  (xs : list A) (ls : list C) :
  Forall2 (fun x l => g l = Some (f x)) xs ls -> mapM g ls = Some (f <$> xs).
Proof.
  induction 1 as [|x l xs ls Hx _ IH]; [done|].
  simpl. rewrite Hx. simpl. by rewrite IH.
Qed.

(** ** Writers succeed on values that fit *)

Lemma write_uint_fits (n : nat) (v : Z) (s : BCDataStream) :
  in_range n v = true -> remaining s = [] ->
  write_uint n v s = Ok (mkStream (consumed s ++ le_bytes n v) []).
Proof.
  intros Hv Hr. unfold write_uint, pack_le, write. rewrite Hv, Hr. step.
  by rewrite drop_nil.
Qed.

Lemma write_compact_size_fits (size : Z) (s : BCDataStream) :
  0 <= size < 2 ^ 64 -> remaining s = [] ->
  write_compact_size size s = Ok (mkStream (consumed s ++ compact_size_bytes size) []).
Proof.
  intros Hs Hr. unfold write_compact_size, compact_size_bytes.
  unfold write_uint8, write_uint16, write_uint32, write_uint64.
  destruct (Z.ltb_spec size 253) as [H1|H1].
  - apply write_uint_fits; [apply in_range_spec; simpl; lia | done].
  - destruct (Z.leb_spec size 0xFFFF) as [H2|H2];
      [|destruct (Z.leb_spec size 0xFFFFFFFF) as [H3|H3]];
      rewrite write_uint_fits by done; step;
      rewrite write_uint_fits by (done || apply in_range_spec; simpl; lia);
      cbn [consumed]; by rewrite <- app_assoc.
Qed.

Lemma write_string_fits (b : bytes) (s : BCDataStream) :
  0 <= Z.of_nat (length b) < 2 ^ 64 -> remaining s = [] ->
  write_string b s = Ok (mkStream (consumed s ++ string_bytes b) []).
Proof.
  intros Hb Hr. unfold write_string, string_bytes.
  rewrite write_compact_size_fits by done. step.
  unfold write. cbn [consumed remaining]. by rewrite drop_nil, <- app_assoc.
Qed.

Lemma Input_serialize_to_alternate (i : Input.t) (alt : bytes) (s : BCDataStream) :
  in_range 4 (TXORef.position (Input.txo_ref i)) = true ->
  in_range 4 (Input.sequence i) = true ->
  0 <= Z.of_nat (length alt) < 2 ^ 64 ->
  remaining s = [] ->
  Input_serialize_to i (Some alt) s = Ok (mkStream (consumed s ++ Input_bytes alt i) []).
Proof.
  intros Hpos Hseq Hlen Hr. unfold Input_serialize_to, write_uint32, Input_bytes.
  unfold write at 1. rewrite Hr, drop_nil. step.
  rewrite write_uint_fits by done. step.
  rewrite write_string_fits by done. step.
  rewrite write_uint_fits by done. cbn [consumed].
  by rewrite <- !app_assoc.
Qed.

Lemma Output_serialize_to_fits (o : Output.t) (alt : option bytes) (s : BCDataStream) :
  in_range 8 (Output.amount o) = true ->
  0 <= Z.of_nat (length (OutputScript.source (Output.script o))) < 2 ^ 64 ->
  remaining s = [] ->
  Output_serialize_to o alt s = Ok (mkStream (consumed s ++ Output_bytes o) []).
Proof.
  intros Hamount Hlen Hr. unfold Output_serialize_to, write_uint64, Output_bytes.
  rewrite write_uint_fits by done. step.
  rewrite write_string_fits by done. cbn [consumed].
  by rewrite <- !app_assoc.
Qed.

Lemma for_each_fits {A} (wr : A -> BCDataStream -> result BCDataStream)
  (enc_of : A -> option bytes) (ls : list A) :
  (forall x, x ∈ ls ->
     exists enc, enc_of x = Some enc /\
       forall s, remaining s = [] -> wr x s = Ok (mkStream (consumed s ++ enc) [])) ->
  exists encs, mapM enc_of ls = Some encs /\
    forall s, remaining s = [] ->
      for_each wr ls s = Ok (mkStream (consumed s ++ concat encs) []).
Proof.
  induction ls as [|x ls IH]; intros Hwr.
  - exists []. split; [done|]. intros s Hr. simpl. rewrite app_nil_r.
    by destruct s; simpl in *; subst.
  - destruct (Hwr x) as (enc & Henc & Hx); [left|].
    destruct IH as (encs & Hencs & Hls).
    { intros y Hy. apply Hwr. by right. }
    exists (enc :: encs). split.
    + simpl. rewrite Henc. simpl. by rewrite Hencs.
    + intros s Hr. cbn [for_each]. rewrite Hx by done. step.
      rewrite Hls by done. cbn [consumed concat]. by rewrite <- app_assoc.
Qed.

(** ** The store *)

Lemma get_tx_Ok (σ : Store) (t : tx_loc) (x : Transaction.t) :
  get_tx σ t = Ok x <-> txs σ !! t = Some x.
Proof. unfold get_tx. destruct (txs σ !! t); simpl; split; congruence. Qed.

Lemma get_in_Ok (σ : Store) (l : in_loc) (x : Input.t) :
  get_in σ l = Ok x <-> ins σ !! l = Some x.
Proof. unfold get_in. destruct (ins σ !! l); simpl; split; congruence. Qed.

Lemma get_out_Ok (σ : Store) (l : out_loc) (x : Output.t) :
  get_out σ l = Ok x <-> outs σ !! l = Some x.
Proof. unfold get_out. destruct (outs σ !! l); simpl; split; congruence. Qed.

Lemma set_tx_id (σ : Store) (t : tx_loc) (x : Transaction.t) :
  txs σ !! t = Some x -> set_tx σ t x = σ.
Proof. intros Hx. destruct σ. unfold set_tx. simpl in *. by rewrite list_insert_id. Qed.

Lemma set_tx_set_tx (σ : Store) (t : tx_loc) (x y : Transaction.t) :
  set_tx (set_tx σ t x) t y = set_tx σ t y.
Proof. unfold set_tx. simpl. by rewrite list_insert_insert_eq. Qed.

Lemma lookup_set_tx (σ : Store) (t : tx_loc) (x y : Transaction.t) :
  txs σ !! t = Some x -> txs (set_tx σ t y) !! t = Some y.
Proof.
  intros Hx. unfold set_tx. simpl. apply list_lookup_insert_eq.
  by apply lookup_lt_Some in Hx.
Qed.

Lemma insert_alter {A} (f : A -> A) (h : list A) (l : nat) (x : A) :
  h !! l = Some x -> <[l := f x]> h = alter f l h.
Proof.
  intros Hx. apply list_eq. intros j.
  destruct (decide (j = l)) as [->|Hne].
  - rewrite list_lookup_insert_eq by (by apply lookup_lt_Some in Hx).
    by rewrite list_lookup_alter_eq, Hx.
  - by rewrite list_lookup_insert_ne, list_lookup_alter_ne.
Qed.

(** ** Attaching *)

Lemma attach_io_Ok (k : io_list) (σ : Store) (l : nat) (r : TXRef) (p : Z) :
  allocated k σ l -> attach_io k σ l r p = Ok (attach_store k σ l r p).
Proof.
  destruct k; unfold allocated, attach_io, attach_store; intros Hl;
    apply lookup_lt_is_Some in Hl as [x Hx].
  - rewrite (proj2 (get_in_Ok σ l x) Hx). simpl. unfold set_in.
    by rewrite (insert_alter _ _ _ _ Hx).
  - rewrite (proj2 (get_out_Ok σ l x) Hx). simpl. unfold set_out.
    by rewrite (insert_alter _ _ _ _ Hx).
Qed.

Lemma attach_store_txs k σ l r p : txs (attach_store k σ l r p) = txs σ.
Proof. by destruct k. Qed.

Lemma attach_store_allocated k k' σ l r p l' :
  allocated k' (attach_store k σ l r p) l' <-> allocated k' σ l'.
Proof. destruct k, k'; unfold allocated; simpl; by rewrite ?length_alter. Qed.

Lemma attach_store_set_tx k σ l r p t x :
  attach_store k (set_tx σ t x) l r p = set_tx (attach_store k σ l r p) t x.
Proof. by destruct k. Qed.

Lemma set_tx_allocated k σ t x l : allocated k (set_tx σ t x) l <-> allocated k σ l.
Proof. by destruct k. Qed.

Lemma _add_step_Ok (k : io_list) (t : tx_loc) (l : nat) (σ : Store) (self : Transaction.t) :
  txs σ !! t = Some self -> allocated k σ l ->
  _add_step k t l σ
  = Ok (set_tx (attach_store k σ l (RefMutable t)
                  (Z.of_nat (length (existing_ios k self))))
          t (append_io k l self)).
Proof.
  intros Ht Hl. unfold _add_step.
  rewrite (proj2 (get_tx_Ok σ t self) Ht). step.
  by rewrite attach_io_Ok.
Qed.

Lemma attach_all_set_tx k t base new σ t' x :
  attach_all k t base new (set_tx σ t' x) = set_tx (attach_all k t base new σ) t' x.
Proof.
  revert base σ. induction new as [|l new IH]; intros base σ; [done|].
  simpl. by rewrite attach_store_set_tx, IH.
Qed.

Lemma attach_all_txs k t base new σ : txs (attach_all k t base new σ) = txs σ.
Proof.
  revert base σ. induction new as [|l new IH]; intros base σ; [done|].
  simpl. by rewrite IH, attach_store_txs.
Qed.

Lemma attach_all_allocated k k' t base new σ l :
  allocated k' (attach_all k t base new σ) l <-> allocated k' σ l.
Proof.
  revert base σ. induction new as [|l0 new IH]; intros base σ; [done|].
  simpl. by rewrite IH, attach_store_allocated.
Qed.

Lemma set_existing_id k self : set_existing k (existing_ios k self) self = self.
Proof. by destruct k, self. Qed.

Lemma set_existing_append_io k v l self :
  set_existing k v (append_io k l self) = set_existing k v self.
Proof. by destruct k. Qed.

Lemma existing_append_io k l self :
  existing_ios k (append_io k l self) = existing_ios k self ++ [l].
Proof. by destruct k. Qed.

Lemma for_each_add_step (k : io_list) (t : tx_loc) (new : list nat) :
  forall (σ : Store) (self : Transaction.t),
    txs σ !! t = Some self -> Forall (allocated k σ) new ->
    for_each (_add_step k t) new σ
    = Ok (set_tx (attach_all k t (length (existing_ios k self)) new σ) t
            (set_existing k (existing_ios k self ++ new) self)).
Proof.
  induction new as [|l new IH]; intros σ self Ht Hall.
  - simpl. by rewrite app_nil_r, set_existing_id, set_tx_id.
  - apply Forall_cons in Hall as [Hl Hall].
    cbn [for_each]. rewrite (_add_step_Ok k t l σ self Ht Hl). step.
    rewrite (IH _ (append_io k l self)).
    + rewrite existing_append_io, length_app, Nat.add_1_r, <- app_assoc.
      cbn [app attach_all].
      by rewrite attach_all_set_tx, set_tx_set_tx, set_existing_append_io.
    + apply lookup_set_tx with self. by rewrite attach_store_txs.
    + eapply Forall_impl; [exact Hall|]. intros l' Hl'.
      by apply set_tx_allocated, attach_store_allocated.
Qed.

Lemma Input_attach_wire_fields r p i :
  Input_wire_fields (Input.attach r p i) = Input_wire_fields i.
Proof. reflexivity. Qed.

Lemma Output_attach_wire_fields r p o :
  Output_wire_fields (Output.attach r p o) = Output_wire_fields o.
Proof. reflexivity. Qed.

Lemma lookup_alter_fmap {A B} (f : A -> A) (g : A -> B) (h : list A) (l l' : nat) :
  (forall x, g (f x) = g x) -> g <$> alter f l h !! l' = g <$> h !! l'.
Proof.
  intros Hg. destruct (decide (l = l')) as [->|Hne].
  - rewrite list_lookup_alter_eq. destruct (h !! l'); simpl; [by rewrite Hg | done].
  - by rewrite list_lookup_alter_ne.
Qed.

Lemma attach_all_ins_wire k t base new σ l :
  Input_wire_fields <$> ins (attach_all k t base new σ) !! l
  = Input_wire_fields <$> ins σ !! l.
Proof.
  revert base σ. induction new as [|l0 new IH]; intros base σ; [done|].
  cbn [attach_all]. rewrite IH. destruct k; [|done].
  cbn [attach_store ins]. apply lookup_alter_fmap, Input_attach_wire_fields.
Qed.

Lemma attach_all_outs_wire k t base new σ l :
  Output_wire_fields <$> outs (attach_all k t base new σ) !! l
  = Output_wire_fields <$> outs σ !! l.
Proof.
  revert base σ. induction new as [|l0 new IH]; intros base σ; [done|].
  cbn [attach_all]. rewrite IH. destruct k; [done|].
  cbn [attach_store outs]. apply lookup_alter_fmap, Output_attach_wire_fields.
Qed.

(** ** Allocation *)

Lemma alloc_ins_eq (xs : list Input.t) (σ : Store) :
  alloc_ins σ xs
  = (seq (length (ins σ)) (length xs),
     {| txs := txs σ; ins := ins σ ++ xs; outs := outs σ |}).
Proof.
  revert σ. induction xs as [|x xs IH]; intros σ.
  - simpl. rewrite app_nil_r. by destruct σ.
  - cbn [alloc_ins alloc_in]. rewrite IH. cbn [txs ins outs length seq].
    by rewrite length_app, Nat.add_1_r, <- app_assoc.
Qed.

Lemma alloc_outs_eq (xs : list Output.t) (σ : Store) :
  alloc_outs σ xs
  = (seq (length (outs σ)) (length xs),
     {| txs := txs σ; ins := ins σ; outs := outs σ ++ xs |}).
Proof.
  revert σ. induction xs as [|x xs IH]; intros σ.
  - simpl. rewrite app_nil_r. by destruct σ.
  - cbn [alloc_outs alloc_out]. rewrite IH. cbn [txs ins outs length seq].
    by rewrite length_app, Nat.add_1_r, <- app_assoc.
Qed.

Lemma mapM_lookup_seq {A B} (f : A -> B) (xs h : list A) (g : nat -> option B) :
  (forall l, g l = f <$> (h ++ xs) !! l) ->
  mapM g (seq (length h) (length xs)) = Some (f <$> xs).
Proof.
  revert h. induction xs as [|x xs IH]; intros h Hg; [done|].
  cbn [length seq mapM]. rewrite Hg, list_lookup_middle by done. simpl.
  replace (S (length h)) with (length (h ++ [x])) by (rewrite length_app; simpl; lia).
  rewrite (IH (h ++ [x])); [done|].
  intros l. by rewrite Hg, <- app_assoc.
Qed.

Lemma Forall2_fmap_eq {A B} (f : A -> B) (xs : list A) (ys : list B) :
  Forall2 (fun x y => f x = y) xs ys -> f <$> xs = ys.
Proof. induction 1 as [|x y xs ys Hxy _ IH]; [done|]. cbn [fmap list_fmap]. by rewrite Hxy, IH. Qed.

Lemma _add_Ok (k : io_list) (t : tx_loc) (new : list nat) (σ : Store)
  (self : Transaction.t) (reset : bool) :
  txs σ !! t = Some self -> Forall (allocated k σ) new ->
  let σ' := set_tx (attach_all k t (length (existing_ios k self)) new σ) t
              (set_existing k (existing_ios k self ++ new) self) in
  _add σ t k new reset = if reset then _reset σ' t else Ok σ'.
Proof.
  intros Ht Hall σ'. unfold _add.
  rewrite (for_each_add_step k t new σ self Ht Hall). done.
Qed.

(** ** Canonical serialization and its inverse *)

Section Roundtrip.
Context `{Hashes} `{Codecs}.

Lemma Forall2_Forall_fst {A B} (P : A -> Prop) (ls : list A) (ks : list B) :
  Forall2 (fun l _ => P l) ls ks -> Forall P ls.
Proof. induction 1; constructor; auto. Qed.

(** A successful [_serialize] wrote the canonical layout of a serializable
    transaction. *)
Lemma _serialize_Ok (σ : Store) (t : tx_loc) (sans_segwit : bool) (raw : bytes) :
  _serialize σ t true sans_segwit = Ok raw ->
  exists self,
    txs σ !! t = Some self /\ serializable σ self /\ canonical_bytes σ self = Some raw.
Proof.
  unfold _serialize, write_uint32. intros Hs.
  inv_bind_as Hs self Hself. apply get_tx_Ok in Hself.
  inv_bind Hs. apply write_uint_spec in Ha as [Hversion ->]; [|done].
  inv_bind_as Hs s_in Hs_in. inv_bind Hs_in.
  apply write_compact_size_spec in Ha as [Hnin ->]; [|done].
  eapply (for_each_appended _ (canonical_input_bytes σ) (fun l _ => input_ok σ l))
    in Hs_in as (encs_in & Hencs_in & -> & HQ_in); [| |done].
  2:{ intros l s s' Hl Hw Hr. inv_bind_as Hw i Hi. apply get_in_Ok in Hi.
      apply Input_serialize_to_appended in Hw
        as (b & Hb & Happ & Hpos & Hseq & Hlenb); [|done].
      exists (Input_bytes b i). unfold canonical_input_bytes. rewrite Hi. simpl.
      rewrite Hb. simpl. split; [done|]. split; [done|].
      by exists i, b. }
  inv_bind Hs. apply write_compact_size_spec in Ha as [Hnout ->]; [|done].
  inv_bind_as Hs s_out Hs_out.
  eapply (for_each_appended _ (output_bytes_at σ) (fun l _ => output_ok σ l))
    in Hs_out as (encs_out & Hencs_out & -> & HQ_out); [| |done].
  2:{ intros l s s' Hl Hw Hr. inv_bind_as Hw o Ho. apply get_out_Ok in Ho.
      apply Output_serialize_to_appended in Hw as (Happ & Hamount & Hlen); [|done].
      exists (Output_bytes o). unfold output_bytes_at. rewrite Ho.
      split; [done|]. split; [done|]. by exists o. }
  inv_bind Hs. apply write_uint_spec in Ha as [Hlocktime ->]; [|done].
  injection Hs as <-.
  exists self. split; [done|]. split.
  - apply Forall2_Forall_fst in HQ_in. apply Forall2_Forall_fst in HQ_out.
    unfold serializable. repeat split; try done; lia.
  - unfold canonical_bytes. rewrite Hencs_in. simpl. rewrite Hencs_out. simpl.
    unfold get_bytes, Transaction_bytes. cbn [consumed remaining new_stream].
    rewrite <- (length_mapM _ _ _ Hencs_in), <- (length_mapM _ _ _ Hencs_out).
    by rewrite app_nil_r, <- !app_assoc.
Qed.

Lemma inputs_fit (σ : Store) (ls : list in_loc) :
  Forall (input_ok σ) ls ->
  exists encs, mapM (canonical_input_bytes σ) ls = Some encs /\
    forall s, remaining s = [] ->
      for_each (fun l stream => txin ← get_in σ l; Input_serialize_to txin None stream) ls s
      = Ok (mkStream (consumed s ++ concat encs) []).
Proof.
  intros Hok. apply for_each_fits. intros l Hl.
  rewrite Forall_forall in Hok. destruct (Hok l Hl) as (i & b & Hi & Hb & Hpos & Hseq & Hlen).
  exists (Input_bytes b i). split.
  - unfold canonical_input_bytes. rewrite Hi. simpl. by rewrite Hb.
  - intros s Hr. rewrite (proj2 (get_in_Ok σ l i) Hi). step.
    unfold Input_serialize_to, write_uint32, Input_bytes.
    unfold write at 1. rewrite Hr, drop_nil. step.
    rewrite write_uint_fits by done. step.
    assert (Hscript :
      (if Input_is_coinbase i then
         match Input.coinbase i with
         | Some (Input.Raw b) => Some b
         | _ => None
         end
       else
         match Input.script i with
         | Some (Input.Parsed sc) => Some (InputScript.source sc)
         | _ => None
         end) = Some b) by exact Hb.
    destruct (Input_is_coinbase i).
    + destruct (Input.coinbase i) as [[sc|b']|]; try discriminate.
      injection Hscript as ->.
      rewrite write_string_fits by done. step.
      rewrite write_uint_fits by done. cbn [consumed]. by rewrite <- !app_assoc.
    + destruct (Input.script i) as [[sc|b']|]; try discriminate.
      injection Hscript as <-.
      rewrite write_string_fits by done. step.
      rewrite write_uint_fits by done. cbn [consumed]. by rewrite <- !app_assoc.
Qed.

Lemma outputs_fit (σ : Store) (ls : list out_loc) :
  Forall (output_ok σ) ls ->
  exists encs, mapM (output_bytes_at σ) ls = Some encs /\
    forall s, remaining s = [] ->
      for_each (fun l stream => txout ← get_out σ l; Output_serialize_to txout None stream)
        ls s
      = Ok (mkStream (consumed s ++ concat encs) []).
Proof.
  intros Hok. apply for_each_fits. intros l Hl.
  rewrite Forall_forall in Hok. destruct (Hok l Hl) as (o & Ho & Hamount & Hlen).
  exists (Output_bytes o). split.
  - unfold output_bytes_at. by rewrite Ho.
  - intros s Hr. rewrite (proj2 (get_out_Ok σ l o) Ho). step.
    by apply Output_serialize_to_fits.
Qed.

(** Conversely, a serializable transaction is serialized, to its canonical
    layout. *)
Lemma _serialize_fits (σ : Store) (t : tx_loc) (sans_segwit : bool)
  (self : Transaction.t) :
  txs σ !! t = Some self -> serializable σ self ->
  exists raw, canonical_bytes σ self = Some raw
              /\ _serialize σ t true sans_segwit = Ok raw.
Proof.
  intros Hself (Hversion & Hlocktime & Hnin & Hnout & Hin & Hout).
  destruct (inputs_fit σ _ Hin) as (encs_in & Hencs_in & Hwr_in).
  destruct (outputs_fit σ _ Hout) as (encs_out & Hencs_out & Hwr_out).
  eexists. split.
  - unfold canonical_bytes. rewrite Hencs_in. simpl. rewrite Hencs_out. reflexivity.
  - unfold _serialize, write_uint32.
    rewrite (proj2 (get_tx_Ok σ t self) Hself). step.
    rewrite write_uint_fits by done. step.
    rewrite write_compact_size_fits by done. step.
    rewrite Hwr_in by done. step.
    rewrite write_compact_size_fits by done. step.
    rewrite Hwr_out by done. step.
    rewrite write_uint_fits by done. step.
    unfold get_bytes, Transaction_bytes. cbn [consumed remaining new_stream].
    rewrite <- (length_mapM _ _ _ Hencs_in), <- (length_mapM _ _ _ Hencs_out).
    by rewrite app_nil_r, <- !app_assoc.
Qed.

Lemma canonical_input_decodes (σ : Store) (l : in_loc) (enc : bytes) :
  input_ok σ l -> length_is_32 σ l -> canonical_input_bytes σ l = Some enc ->
  decodes Input_deserialize_from enc
    (fun i' => Input_wire_fields <$> ins σ !! l = Some (Input_wire_fields i')).
Proof.
  intros (i & b & Hi & Hb & Hpos & Hseq & Hlen) H32.
  unfold canonical_input_bytes, length_is_32 in *. rewrite Hi in *. simpl.
  rewrite Hb. simpl. intros [= <-] c rest.
  destruct (Input_bytes_decodes i b H32 Hpos Hseq Hlen c rest) as (i' & Hrd & Hw').
  exists i'. split; [done|]. rewrite Hw'. unfold Input_wire_fields. by rewrite Hb.
Qed.

Lemma canonical_output_decodes (σ : Store) (l : out_loc) (enc : bytes) (start : Z) :
  output_ok σ l -> output_bytes_at σ l = Some enc ->
  decodes (Output_deserialize_from start) enc
    (fun o' => Output_wire_fields <$> outs σ !! l = Some (Output_wire_fields o')).
Proof.
  intros (o & Ho & Hamount & Hlen).
  unfold output_bytes_at. rewrite Ho. simpl. intros [= <-] c rest.
  destruct (Output_bytes_decodes o start Hamount Hlen c rest) as (o' & Hrd & Hw').
  exists o'. split; [done|]. by rewrite Hw'.
Qed.

Lemma Forall2_decodes {A} (P : A -> Prop) (enc_of : A -> option bytes)
  (Q : bytes -> A -> Prop) (ls : list A) (encs : list bytes) :
  (forall l enc, P l -> enc_of l = Some enc -> Q enc l) ->
  Forall P ls -> mapM enc_of ls = Some encs -> Forall2 Q encs ls.
Proof.
  intros HPQ HP Hencs. apply mapM_Some in Hencs.
  induction Hencs as [|l enc ls encs Hl _ IH]; [constructor|].
  apply Forall_cons in HP as [HPl HP]. constructor; auto.
Qed.

Lemma get_tx_set_tx (σ : Store) (t : tx_loc) (x : Transaction.t) :
  (t < length (txs σ))%nat -> get_tx (set_tx σ t x) t = Ok x.
Proof. intros Ht. apply get_tx_Ok. unfold set_tx. simpl. by apply list_lookup_insert_eq. Qed.

Lemma hashes_32_Forall (σ : Store) (t : tx_loc) (self : Transaction.t) :
  txs σ !! t = Some self -> hashes_32 σ t = true ->
  Forall (length_is_32 σ) (Transaction._inputs self).
Proof.
  unfold hashes_32, length_is_32. intros -> Hall.
  apply Forall_forall. intros l Hl.
  rewrite forallb_forall in Hall. specialize (Hall l).
  destruct (ins σ !! l); [|done].
  apply Nat.eqb_eq, Hall. by apply list_elem_of_In.
Qed.

(** C1 (amended). For a transaction with at least one input whose
    previous-tx hashes have 32 bytes, the bytes a successful [_serialize]
    produces are deserialized, by the constructor, into a transaction equal
    on every serialized field: version, locktime, the inputs (previous-tx
    hash, position, script or coinbase bytes, sequence) and the outputs
    (amount, script bytes). *)
Theorem roundtrip_with_inputs (σ : Store) (t : tx_loc) (raw : bytes)
  (version locktime : Z) (is_verified : bool) (height position : Z)
  (julian_day : option Z) :
  _serialize σ t true false = Ok raw ->
  has_inputs σ t = true ->
  hashes_32 σ t = true ->
  exists t' σ' fields,
    Transaction_new σ (Some raw) version locktime is_verified height position julian_day
    = Ok (t', σ')
    /\ Transaction_wire_fields σ t = Some fields
    /\ Transaction_wire_fields σ' t' = Some fields.
Proof.
  intros Hs Hne H32.
  destruct (_serialize_Ok σ t false raw Hs)
    as (self & Hself & (Hv & Hl & Hnin & Hnout & Hin & Hout) & Hraw).
  unfold canonical_bytes in Hraw.
  destruct (mapM (canonical_input_bytes σ) _) as [encs_in|] eqn:Hencs_in; [|done].
  destruct (mapM (output_bytes_at σ) _) as [encs_out|] eqn:Hencs_out; [|done].
  injection Hraw as <-.
  unfold has_inputs in Hne. rewrite Hself in Hne.
  apply negb_true_iff, bool_decide_eq_false in Hne.
  pose proof (hashes_32_Forall σ t self Hself H32) as H32'.
  assert (Hdec_in :
    decodes (read_many Input_deserialize_from (length (Transaction._inputs self)))
      (concat encs_in)
      (fun is' => Forall2 (fun i' l => Input_wire_fields <$> ins σ !! l
                                       = Some (Input_wire_fields i'))
                    is' (Transaction._inputs self))).
  { apply read_many_decodes.
    apply (Forall2_decodes (fun l => input_ok σ l /\ length_is_32 σ l)
             (canonical_input_bytes σ)); [| |done].
    - intros l enc [Hok Hlen]. by apply canonical_input_decodes.
    - apply Forall_and. by split. }
  assert (Hdec_out :
    decodes (read_many (Output_deserialize_from 0) (length (Transaction._outputs self)))
      (concat encs_out)
      (fun os' => Forall2 (fun o' l => Output_wire_fields <$> outs σ !! l
                                       = Some (Output_wire_fields o'))
                    os' (Transaction._outputs self))).
  { apply read_many_decodes.
    apply (Forall2_decodes (output_ok σ) (output_bytes_at σ)); [|done|done].
    intros l enc Hok. by apply canonical_output_decodes. }
  apply length_mapM in Hencs_in as Hlen_in.
  apply length_mapM in Hencs_out as Hlen_out.
  unfold Transaction_bytes. rewrite <- Hlen_in, <- Hlen_out.
  set (enc_in := concat encs_in) in *. set (enc_out := concat encs_out) in *.
  unfold Transaction_new, alloc_tx.
  set (init := Transaction_init _ _ _ _ _ _ _).
  set (t' := length (txs σ)).
  unfold Transaction_deserialize.
  match goal with |- context [get_tx ?s t'] => set (σ1 := s) end.
  assert (Hinit : get_tx σ1 t' = Ok init).
  { apply get_tx_Ok. subst σ1 t'. simpl. by apply list_lookup_middle. }
  rewrite Hinit. step. cbn [Transaction._raw init Transaction_init fmap option_fmap option_map].
  unfold new_stream, tell. cbn [consumed length]. unfold read_uint32, read_uint8.
  rewrite read_uint_le_bytes by done. step.
  rewrite read_compact_size_bytes by done. step.
  destruct (Z.eqb_spec (Z.of_nat (length (Transaction._inputs self))) 0) as [Hz|_].
  { destruct (Transaction._inputs self); [done | simpl in Hz; lia]. }
  step. rewrite Nat2Z.id.
  match goal with |- context [read_many _ _ (mkStream ?c (enc_in ++ ?r))] =>
    destruct (Hdec_in c r) as (is' & -> & His') end.
  step. change (Z.of_nat 0) with 0.
  assert (Ht1 : (t' < length (txs σ1))%nat).
  { subst σ1 t'. simpl. rewrite length_app. simpl. lia. }
  (* the inputs: allocation, then _add *)
  rewrite alloc_ins_eq. step.
  set (tx1 := Transaction.set_version (Transaction.version self) init).
  match goal with |- context [_add ?s t' InputsList ?ls false] =>
    set (σ2 := s); set (ls_in := ls) end.
  assert (Htx2 : txs σ2 !! t' = Some tx1).
  { subst σ2. cbn [txs set_tx]. by apply list_lookup_insert_eq. }
  rewrite (_add_Ok InputsList t' ls_in σ2 tx1 false Htx2).
  2:{ subst ls_in σ2. apply Forall_forall. intros l Hseq%elem_of_seq.
      unfold allocated. subst σ1. cbn [ins set_tx] in *. rewrite length_app. lia. }
  step.
  match goal with |- context [alloc_outs ?s _] => set (σ3 := s) end.
  rewrite read_compact_size_bytes by done. step. rewrite Nat2Z.id.
  match goal with |- context [read_many _ _ (mkStream ?c (enc_out ++ ?r))] =>
    destruct (Hdec_out c r) as (os' & -> & Hos') end.
  step.
  (* the outputs *)
  rewrite alloc_outs_eq. step.
  set (tx3 := set_existing InputsList (existing_ios InputsList tx1 ++ ls_in) tx1) in *.
  match goal with |- context [_add ?s t' OutputsList ?ls false] =>
    set (σ4 := s); set (ls_out := ls) end.
  assert (Htx4 : txs σ4 !! t' = Some tx3).
  { subst σ4 σ3. cbn [txs set_tx]. apply list_lookup_insert_eq.
    rewrite attach_all_txs. by apply lookup_lt_Some in Htx2. }
  rewrite (_add_Ok OutputsList t' ls_out σ4 tx3 false Htx4).
  2:{ subst ls_out σ4. apply Forall_forall. intros l Hseq%elem_of_seq.
      unfold allocated. cbn [outs] in *. rewrite length_app. lia. }
  step.
  set (tx5 := set_existing OutputsList (existing_ios OutputsList tx3 ++ ls_out) tx3) in *.
  match goal with |- context [get_tx ?s t'] => set (σ5 := s) end.
  assert (Ht5 : (t' < length (txs σ5))%nat).
  { subst σ5. cbn [txs set_tx]. rewrite length_insert, attach_all_txs.
    by apply lookup_lt_Some in Htx4. }
  assert (Hget5 : get_tx σ5 t' = Ok tx5).
  { subst σ5. apply get_tx_set_tx. rewrite attach_all_txs.
    by apply lookup_lt_Some in Htx4. }
  rewrite Hget5. step.
  change (Transaction.is_segwit_flag tx5) with 0. cbn [Z.eqb negb]. step.
  rewrite <- (app_nil_r (le_bytes 4 (Transaction.locktime self))).
  rewrite read_uint_le_bytes by done. step.
  rewrite Hget5. step.
  eexists t', _, (Transaction.version self, Transaction.locktime self,
                  Input_wire_fields <$> is', Output_wire_fields <$> os').
  split; [reflexivity|]. split.
  - unfold Transaction_wire_fields. rewrite Hself. simpl.
    rewrite (mapM_of_Forall2 Input_wire_fields _ is' _ His'). simpl.
    by rewrite (mapM_of_Forall2 Output_wire_fields _ os' _ Hos').
  - unfold Transaction_wire_fields.
    cbn [txs set_tx]. rewrite list_lookup_insert_eq by done. simpl.
    rewrite (mapM_lookup_seq Input_wire_fields is' (ins σ)).
    2:{ intros l. subst σ5. cbn [ins set_tx]. rewrite attach_all_ins_wire.
        subst σ4 σ3. cbn [ins set_tx]. by rewrite attach_all_ins_wire. }
    simpl.
    rewrite (mapM_lookup_seq Output_wire_fields os' (outs σ3)).
    2:{ intros l. subst σ5. cbn [outs set_tx]. rewrite attach_all_outs_wire.
        by subst σ4. }
    done.
Qed.

End Roundtrip.

(** ** The signature pre-image *)

Lemma enumerate_from_lookup {A} (xs : list A) (n j : nat) (x : A) :
  (j, x) ∈ enumerate_from n xs -> (n <= j)%nat /\ xs !! (j - n)%nat = Some x.
Proof.
  revert n. induction xs as [|y xs IH]; intros n Hin; simpl in Hin.
  - by apply elem_of_nil in Hin.
  - apply elem_of_cons in Hin as [[= -> ->]|Hin].
    + split; [lia|]. by rewrite Nat.sub_diag.
    + apply IH in Hin as [Hle Hx]. split; [lia|].
      replace (j - n)%nat with (S (j - S n)) by lia. done.
Qed.

Lemma enumerate_lookup {A} (xs : list A) (j : nat) (x : A) :
  (j, x) ∈ enumerate xs -> xs !! j = Some x.
Proof.
  intros Hin. apply enumerate_from_lookup in Hin as [_ Hx].
  by rewrite Nat.sub_0_r in Hx.
Qed.

(** C4. For an input index whose previous output is resolvable, the
    SIGHASH_ALL pre-image is the canonical layout (version, compact-size input
    count, inputs, compact-size output count, outputs, locktime) in which the
    script field of the signing input holds the previous output's script
    source and the script field of every other input holds the empty byte
    string, followed by the little-endian u32 sighash type 1. *)
Theorem signature_preimage (σ : Store) (t : tx_loc) (signing_input : nat)
  (self : Transaction.t) (raw : bytes) (li : in_loc) (inp : Input.t)
  (lo : out_loc) (prev : Output.t) :
  txs σ !! t = Some self ->
  _serialize σ t true false = Ok raw ->
  Transaction._inputs self !! signing_input = Some li ->
  ins σ !! li = Some inp ->
  TXORef.txo (Input.txo_ref inp) = Some lo ->
  outs σ !! lo = Some prev ->
  Z.of_nat (length (OutputScript.source (Output.script prev))) < 2 ^ 64 ->
  exists image,
    canonical_bytes σ self = Some raw
    /\ preimage_bytes σ self signing_input = Some image
    /\ _serialize_for_signature σ t (Z.of_nat signing_input) = Ok image.
Proof.
  intros Hself Hs Hli Hinp Hlo Hprev Hlen.
  destruct (_serialize_Ok σ t false raw Hs)
    as (self' & Hself' & (Hv & Hl & Hnin & Hnout & Hin & Hout) & Hraw).
  rewrite Hself in Hself'. injection Hself' as <-.
  destruct (outputs_fit σ _ Hout) as (encs_out & Hencs_out & Hwr_out).
  destruct (for_each_fits
              (fun '(i, l) stream =>
                 txin ← get_in σ l;
                 if Z.of_nat signing_input =? Z.of_nat i then
                   match TXORef.txo (Input.txo_ref txin) with
                   | None => Err AssertionError
                   | Some lo =>
                       txo ← get_out σ lo;
                       Input_serialize_to txin
                         (Some (OutputScript.source (Output.script txo))) stream
                   end
                 else Input_serialize_to txin (Some []) stream)
              (preimage_input_bytes σ signing_input)
              (enumerate (Transaction._inputs self)))
    as (encs_in & Hencs_in & Hwr_in).
  { intros [j l] Hjl. apply enumerate_lookup in Hjl.
    rewrite Forall_forall in Hin.
    destruct (Hin l) as (i & b & Hi & _ & Hpos & Hseq & _).
    { apply list_elem_of_lookup. eauto. }
    unfold preimage_input_bytes. cbn [fst snd]. rewrite Hi. simpl.
    destruct (decide (j = signing_input)) as [->|Hne].
    - rewrite Hli in Hjl. injection Hjl as <-.
      rewrite Hinp in Hi. injection Hi as <-.
      rewrite Hlo. simpl. rewrite Hprev. simpl.
      eexists. split; [reflexivity|]. intros s Hr.
      rewrite (proj2 (get_in_Ok σ li inp) Hinp). step.
      rewrite Z.eqb_refl, Hlo, (proj2 (get_out_Ok σ lo prev) Hprev). step.
      apply Input_serialize_to_alternate; first [done | lia].
    - eexists. split; [reflexivity|]. intros s Hr.
      rewrite (proj2 (get_in_Ok σ l i) Hi). step.
      destruct (Z.eqb_spec (Z.of_nat signing_input) (Z.of_nat j)) as [Heq|_].
      { apply Nat2Z.inj in Heq. congruence. }
      apply Input_serialize_to_alternate; first [done | simpl; lia]. }
  eexists. split; [done|]. split.
  - unfold preimage_bytes. rewrite Hencs_in. simpl. rewrite Hencs_out. reflexivity.
  - unfold _serialize_for_signature, write_uint32, signature_hash_type.
    rewrite (proj2 (get_tx_Ok σ t self) Hself). step.
    rewrite write_uint_fits by done. step.
    rewrite write_compact_size_fits by done. step.
    rewrite Hwr_in by done. step.
    rewrite write_compact_size_fits by done. step.
    rewrite Hwr_out by done. step.
    rewrite write_uint_fits by done. step.
    rewrite write_uint_fits by done. step.
    unfold get_bytes, Transaction_bytes. cbn [consumed remaining new_stream].
    rewrite <- (length_mapM _ _ _ Hencs_in), <- (length_mapM _ _ _ Hencs_out).
    assert (Hlen_enum : forall (A : Type) (xs : list A) n,
              length (enumerate_from n xs) = length xs).
    { intros A xs. induction xs as [|x xs IH]; intros n; simpl; [done | by rewrite IH]. }
    unfold enumerate. rewrite Hlen_enum.
    by rewrite app_nil_r, <- !app_assoc.
Qed.

(** ** Position consistency *)

Lemma io_attrs_set_tx k σ t x l : io_attrs k (set_tx σ t x) l = io_attrs k σ l.
Proof. by destruct k. Qed.

Lemma io_attrs_attach_store_eq k σ l r p :
  io_attrs k (attach_store k σ l r p) l
  = (fun _ => (Some r, Some p)) <$> io_attrs k σ l.
Proof.
  destruct k; unfold io_attrs, attach_store; cbn [ins outs];
    rewrite list_lookup_alter_eq; by destruct (_ !! l).
Qed.

Lemma io_attrs_attach_store_ne k k' σ l l' r p :
  l' <> l -> io_attrs k' (attach_store k σ l r p) l' = io_attrs k' σ l'.
Proof.
  intros Hne. destruct k, k'; unfold io_attrs, attach_store; cbn [ins outs];
    by rewrite ?list_lookup_alter_ne.
Qed.

Lemma io_attrs_attach_store_other k k' σ l l' r p :
  k' <> k -> io_attrs k' (attach_store k σ l r p) l' = io_attrs k' σ l'.
Proof. intros Hne. by destruct k, k'. Qed.

Lemma attach_all_attrs_notin k k' t base new σ l :
  l ∉ new -> io_attrs k' (attach_all k t base new σ) l = io_attrs k' σ l.
Proof.
  revert base σ. induction new as [|l0 new IH]; intros base σ Hl; [done|].
  apply not_elem_of_cons in Hl as [Hne Hl].
  cbn [attach_all]. rewrite IH by done. by apply io_attrs_attach_store_ne.
Qed.

Lemma attach_all_attrs_other k k' t base new σ l :
  k' <> k -> io_attrs k' (attach_all k t base new σ) l = io_attrs k' σ l.
Proof.
  intros Hne. revert base σ. induction new as [|l0 new IH]; intros base σ; [done|].
  cbn [attach_all]. rewrite IH. by apply io_attrs_attach_store_other.
Qed.

Lemma attach_all_attrs_in k t base new σ j l :
  NoDup new -> new !! j = Some l ->
  io_attrs k (attach_all k t base new σ) l
  = (fun _ => (Some (RefMutable t), Some (Z.of_nat (base + j)))) <$> io_attrs k σ l.
Proof.
  revert base σ j. induction new as [|l0 new IH]; intros base σ j Hnd Hj; [done|].
  apply NoDup_cons in Hnd as [Hl0 Hnd]. cbn [attach_all].
  destruct j as [|j]; simpl in Hj.
  - injection Hj as ->. rewrite attach_all_attrs_notin by done.
    rewrite io_attrs_attach_store_eq. by rewrite Nat.add_0_r.
  - rewrite (IH _ _ j) by done.
    rewrite io_attrs_attach_store_ne.
    + by replace (S base + j)%nat with (base + S j)%nat by lia.
    + intros ->. apply Hl0. apply list_elem_of_lookup. eauto.
Qed.

Lemma io_attrs_allocated k σ l : allocated k σ l -> is_Some (io_attrs k σ l).
Proof.
  destruct k; unfold allocated, io_attrs; intros Hl;
    apply lookup_lt_is_Some in Hl as [x ->]; by eexists.
Qed.

(** The transaction as [_reset] leaves it. *)
Lemma _reset_Ok (σ : Store) (t : tx_loc) (self : Transaction.t) :
  txs σ !! t = Some self ->
  exists self',
    _reset σ t = Ok (set_tx σ t self')
    /\ caches_reset self'
    /\ (forall k, existing_ios k self' = existing_ios k self).
Proof.
  intros Hself. unfold _reset. rewrite (proj2 (get_tx_Ok σ t self) Hself).
  eexists. split; [reflexivity|]. split.
  - by repeat split.
  - by intros [].
Qed.

(** One call of [add_inputs] or [add_outputs] with objects that are
    allocated, pairwise distinct and not yet in the list. *)
Lemma _add_consistent (k : io_list) (t : tx_loc) (new : list nat) (σ : Store)
  (self : Transaction.t) :
  txs σ !! t = Some self ->
  Forall (allocated k σ) new ->
  NoDup (existing_ios k self ++ new) ->
  consistent InputsList σ t -> consistent OutputsList σ t ->
  exists σ' self',
    _add σ t k new true = Ok σ'
    /\ txs σ' !! t = Some self'
    /\ existing_ios k self' = existing_ios k self ++ new
    /\ (forall k', k' <> k -> existing_ios k' self' = existing_ios k' self)
    /\ consistent InputsList σ' t /\ consistent OutputsList σ' t
    /\ caches_reset self'
    /\ (forall k' l, allocated k' σ' l <-> allocated k' σ l).
Proof.
  intros Hself Hall Hnd Hin Hout.
  rewrite (_add_Ok k t new σ self true Hself Hall). cbv zeta.
  set (tx1 := set_existing k (existing_ios k self ++ new) self).
  set (σ1 := set_tx (attach_all k t (length (existing_ios k self)) new σ) t tx1).
  assert (Htx1 : txs σ1 !! t = Some tx1).
  { apply lookup_set_tx with self. by rewrite attach_all_txs. }
  destruct (_reset_Ok σ1 t tx1 Htx1) as (self' & -> & Hcaches & Hsame).
  assert (Hk : existing_ios k self' = existing_ios k self ++ new).
  { rewrite Hsame. subst tx1. by destruct k. }
  assert (Hk' : forall k', k' <> k -> existing_ios k' self' = existing_ios k' self).
  { intros k' Hne. rewrite Hsame. subst tx1. by destruct k, k'. }
  assert (Hcons : forall k', consistent k' σ t ->
            consistent k' (set_tx σ1 t self') t).
  { intros k' Hc self0 i l Hself0 Hi.
    rewrite (lookup_set_tx _ _ _ _ Htx1) in Hself0. injection Hself0 as <-.
    rewrite io_attrs_set_tx. subst σ1. rewrite io_attrs_set_tx.
    destruct (decide (k' = k)) as [->|Hne].
    - rewrite Hk in Hi. apply lookup_app_Some in Hi as [Hi|[Hge Hi]].
      + rewrite attach_all_attrs_notin; [by apply (Hc self)|].
        intros Hl. apply NoDup_app in Hnd as (_ & Hdisj & _).
        apply (Hdisj l); [|done]. apply list_elem_of_lookup. eauto.
      + apply NoDup_app in Hnd as (_ & _ & Hnd).
        rewrite (attach_all_attrs_in _ _ _ _ _ _ _ Hnd Hi).
        destruct (io_attrs_allocated k σ l) as [a ->].
        { rewrite Forall_forall in Hall. apply Hall, list_elem_of_lookup. eauto. }
        simpl. do 3 f_equal. lia.
    - rewrite attach_all_attrs_other by done.
      rewrite (Hk' k' Hne) in Hi. by apply (Hc self). }
  exists (set_tx σ1 t self'), self'.
  split; [done|]. split; [by apply lookup_set_tx with tx1|].
  split; [done|]. split; [done|]. split; [by apply Hcons|]. split; [by apply Hcons|].
  split; [done|].
  intros k' l. subst σ1. by rewrite !set_tx_allocated, attach_all_allocated.
Qed.

Lemma run_call_consistent (t : tx_loc) (c : call) (σ : Store) (self : Transaction.t) :
  txs σ !! t = Some self ->
  consistent InputsList σ t -> consistent OutputsList σ t ->
  NoDup (Transaction._inputs self ++ added InputsList [c]) ->
  NoDup (Transaction._outputs self ++ added OutputsList [c]) ->
  Forall (allocated InputsList σ) (added InputsList [c]) ->
  Forall (allocated OutputsList σ) (added OutputsList [c]) ->
  exists σ' self',
    run_call t c σ = Ok σ'
    /\ txs σ' !! t = Some self'
    /\ Transaction._inputs self' = Transaction._inputs self ++ added InputsList [c]
    /\ Transaction._outputs self' = Transaction._outputs self ++ added OutputsList [c]
    /\ consistent InputsList σ' t /\ consistent OutputsList σ' t
    /\ caches_reset self'
    /\ (forall k l, allocated k σ' l <-> allocated k σ l).
Proof.
  intros Hself Hin Hout Hnd_in Hnd_out Hall_in Hall_out.
  destruct c as [inputs|outputs]; cbn [added] in *; rewrite !app_nil_r in *.
  - destruct (_add_consistent InputsList t inputs σ self Hself Hall_in Hnd_in Hin Hout)
      as (σ' & self' & Hadd & Hself' & Hk & Hk' & Hin' & Hout' & Hcaches & Halloc).
    exists σ', self'. repeat split; try done; try apply Halloc; try apply Hcaches.
    by apply (Hk' OutputsList).
  - destruct (_add_consistent OutputsList t outputs σ self Hself Hall_out Hnd_out Hin Hout)
      as (σ' & self' & Hadd & Hself' & Hk & Hk' & Hin' & Hout' & Hcaches & Halloc).
    exists σ', self'. repeat split; try done; try apply Halloc; try apply Hcaches.
    by apply (Hk' InputsList).
Qed.

Lemma added_cons (k : io_list) (c : call) (cs : list call) :
  added k (c :: cs) = added k [c] ++ added k cs.
Proof. destruct c, k; cbn [added]; by rewrite ?app_nil_r. Qed.

(** C3 (amended). From a transaction whose inputs and outputs are
    consistent, any sequence of [add_inputs] and [add_outputs] calls that
    never adds an object twice (the added objects are allocated, pairwise
    distinct and not already in the list) succeeds, appends the objects in
    order, and leaves every input and output with [position] equal to its
    index and [tx_ref] equal to [tx.ref]; after the last call the cached raw
    bytes and the cached hash and id of the mutable TXRef are reset. *)
Theorem add_position_consistency (σ : Store) (t : tx_loc) (cs : list call)
  (self : Transaction.t) :
  txs σ !! t = Some self ->
  consistent InputsList σ t -> consistent OutputsList σ t ->
  NoDup (Transaction._inputs self ++ added InputsList cs) ->
  NoDup (Transaction._outputs self ++ added OutputsList cs) ->
  Forall (allocated InputsList σ) (added InputsList cs) ->
  Forall (allocated OutputsList σ) (added OutputsList cs) ->
  exists σ' self',
    run_calls σ t cs = Ok σ'
    /\ txs σ' !! t = Some self'
    /\ Transaction._inputs self' = Transaction._inputs self ++ added InputsList cs
    /\ Transaction._outputs self' = Transaction._outputs self ++ added OutputsList cs
    /\ consistent InputsList σ' t /\ consistent OutputsList σ' t
    /\ (cs <> [] -> caches_reset self').
Proof.
  revert σ self. induction cs as [|c cs IH];
    intros σ self Hself Hin Hout Hnd_in Hnd_out Hall_in Hall_out.
  - exists σ, self. cbn [added]. rewrite !app_nil_r. by repeat split.
  - rewrite (added_cons InputsList), (added_cons OutputsList) in *.
    rewrite !app_assoc in Hnd_in, Hnd_out.
    apply Forall_app in Hall_in as [Hall_in Hall_in'].
    apply Forall_app in Hall_out as [Hall_out Hall_out'].
    destruct (run_call_consistent t c σ self Hself Hin Hout) as
      (σ1 & self1 & Hrun & Hself1 & Hins1 & Houts1 & Hin1 & Hout1 & Hcaches1 & Halloc1);
      try done.
    { by apply NoDup_app in Hnd_in as (? & _). }
    { by apply NoDup_app in Hnd_out as (? & _). }
    destruct (IH σ1 self1 Hself1 Hin1 Hout1) as
      (σ' & self' & Hrun' & Hself' & Hins' & Houts' & Hin' & Hout' & Hcaches').
    { by rewrite Hins1. }
    { by rewrite Houts1. }
    { eapply Forall_impl; [exact Hall_in'|]. intros l. apply Halloc1. }
    { eapply Forall_impl; [exact Hall_out'|]. intros l. apply Halloc1. }
    exists σ', self'. unfold run_calls in *. cbn [for_each]. rewrite Hrun.
    split; [done|]. split; [done|].
    split; [by rewrite Hins', Hins1, app_assoc|].
    split; [by rewrite Houts', Houts1, app_assoc|].
    split; [done|]. split; [done|].
    intros _. destruct cs as [|c' cs]; [|by apply Hcaches'].
    injection Hrun' as <-. rewrite Hself1 in Hself'. by injection Hself' as <-.
Qed.

(** ** Raw bytes and the segwit flag *)

(** [_serialize] reads the version, the locktime, the two lists and the
    objects they name, and nothing else of the transaction. *)
Lemma _serialize_set_tx (σ : Store) (t : tx_loc) (self self' : Transaction.t)
  (with_inputs sans_segwit sans_segwit' : bool) :
  txs σ !! t = Some self ->
  Transaction.version self' = Transaction.version self ->
  Transaction.locktime self' = Transaction.locktime self ->
  Transaction._inputs self' = Transaction._inputs self ->
  Transaction._outputs self' = Transaction._outputs self ->
  _serialize (set_tx σ t self') t with_inputs sans_segwit'
  = _serialize σ t with_inputs sans_segwit.
Proof.
  intros Hself Hv Hl Hi Ho. unfold _serialize.
  rewrite get_tx_set_tx by (by apply lookup_lt_Some in Hself).
  rewrite (proj2 (get_tx_Ok σ t self) Hself). step.
  by rewrite Hv, Hl, Hi, Ho.
Qed.

(** ** Claim hashes *)

Section ClaimHash.
Context `{Hashes} `{Codecs}.

(** C5. For an output attached to the transaction at [t], at position [p]:
    a claim-name script gives hash160 of the owning transaction's hash
    followed by the position as a big-endian u32; an update-claim or
    support-claim script gives the [claim_id] entry of the script's value
    map; any other script makes the access fail. *)
Theorem claim_hash_rules (σ : Store) (t : tx_loc) (o : Output.t) (p : Z) :
  Output.tx_ref o = Some (RefMutable t) ->
  Output.position o = Some p ->
  in_range 4 p = true ->
  Output_claim_hash σ o =
    match OutputScript.template (Output.script o) with
    | ClaimName =>
        '(h, σ') ← Transaction_hash σ t;
        Ok (VBytes (hash160 (h ++ be_bytes 4 p)), σ')
    | UpdateClaim | SupportClaim =>
        match OutputScript.values (Output.script o) !! "claim_id" with
        | Some claim_id => Ok (claim_id, σ)
        | None => Err (KeyError "claim_id")
        end
    | _ => Err (ValueError "No claim_id associated.")
    end.
Proof.
  intros Href Hpos Hp. unfold Output_claim_hash.
  unfold OutputScript.is_claim_name, OutputScript.is_update_claim,
    OutputScript.is_support_claim.
  destruct (OutputScript.template (Output.script o)); simpl; try reflexivity.
  - rewrite Href, Hpos. simpl. unfold Transaction_hash.
    destruct (TXRefMutable_hash σ t) as [[h σ']|e]; simpl; [|done].
    unfold pack_be. by rewrite Hp.
  - by destruct (_ !! "claim_id").
  - by destruct (_ !! "claim_id").
Qed.

End ClaimHash.

(** ** Coinbase inputs *)

Lemma is_null_hash (r : TXRefImmutable.t) :
  TXRefImmutable.is_null r = true -> TXRefImmutable.hash r = NULL_HASH32.
Proof. unfold TXRefImmutable.is_null. apply bool_decide_eq_true_1. Qed.

(** C6 (amended). An input the constructor builds on a null reference is a
    coinbase: it has no parsed script, its previous-tx hash is the null
    32-byte hash, and it is serialized as that hash, the previous-output
    index its reference holds, its coinbase bytes as the script field, and
    its sequence.  [create_coinbase] is such an input, with index 0. *)
Theorem coinbase_input_on_the_wire (txo_ref : TXORef.t) (b : bytes) (sequence : Z)
  (s : BCDataStream) :
  TXORef.is_null txo_ref = true ->
  in_range 4 (TXORef.position txo_ref) = true ->
  in_range 4 sequence = true ->
  Z.of_nat (length b) < 2 ^ 64 ->
  remaining s = [] ->
  let i := Input_new txo_ref (Input.Raw b) sequence None None in
  Input_is_coinbase i = true
  /\ Input.script i = None
  /\ TXRefImmutable.hash (TXORef.tx_ref txo_ref) = NULL_HASH32
  /\ length NULL_HASH32 = 32%nat
  /\ Input_serialize_to i None s
     = Ok (mkStream (consumed s ++ NULL_HASH32 ++ le_bytes 4 (TXORef.position txo_ref)
                     ++ string_bytes b ++ le_bytes 4 sequence) [])
  /\ Input_create_coinbase
     = Input_new (TXORef.mk (TXRefImmutable.from_hash NULL_HASH32 0) 0 None)
         (Input.Raw beef) 0xFFFFFFFF None None.
Proof.
  intros Hnull Hpos Hseq Hlen Hr i.
  assert (Hhash : TXRefImmutable.hash (TXORef.tx_ref txo_ref) = NULL_HASH32)
    by (by apply is_null_hash).
  subst i. unfold Input_new, Input_is_coinbase, Input_serialize_to, write_uint32.
  cbn [Input.coinbase Input.script Input.txo_ref Input.sequence].
  rewrite Hnull. cbn [negb].
  repeat split; try done.
  rewrite Hhash. unfold write at 1. rewrite Hr, drop_nil. step.
  rewrite write_uint_fits by done. step.
  rewrite write_string_fits by first [done | split; [lia | done]].
  unfold Input_is_coinbase. cbn [Input.coinbase]. step.
  rewrite write_uint_fits by done. cbn [consumed]. by rewrite <- !app_assoc.
Qed.

(** ** Sums over the inputs *)

Lemma for_each_Err {A S} (f : A -> S -> result S) (xs : list A) (x : A) :
  x ∈ xs -> (forall s, is_ok (f x s) = false) ->
  forall s, is_ok (for_each f xs s) = false.
Proof.
  intros Hx Hf. induction xs as [|y xs IH]; intros s.
  - by apply elem_of_nil in Hx.
  - cbn [for_each]. apply elem_of_cons in Hx as [->|Hx].
    + specialize (Hf s). by destruct (f y s).
    + destruct (f y s) as [s'|e]; [|done]. simpl. by apply IH.
Qed.

Lemma resolved_amounts_cons (σ : Store) (l : in_loc) (ls : list in_loc) :
  resolved_amounts σ (l :: ls)
  = match spent_output σ l with
    | Some o => Output.amount o :: resolved_amounts σ ls
    | None => resolved_amounts σ ls
    end.
Proof. unfold resolved_amounts. cbn [omap list_omap]. by destruct (spent_output σ l). Qed.

Lemma input_sum_loop (σ : Store) (ls : list in_loc) (acc : Z) :
  no_dangling σ ls = true ->
  for_each (fun l acc =>
      i ← get_in σ l;
      match TXORef.txo (Input.txo_ref i) with
      | Some _ => a ← Input_amount σ i; Ok (acc + a)
      | None => Ok acc
      end) ls acc
  = Ok (acc + sum_Z (resolved_amounts σ ls)).
Proof.
  revert acc. induction ls as [|l ls IH]; intros acc Hnd.
  - simpl. f_equal. unfold sum_Z. simpl. lia.
  - cbn [no_dangling forallb] in Hnd. apply andb_true_iff in Hnd as [Hl Hnd].
    cbn [for_each]. rewrite resolved_amounts_cons. unfold spent_output, get_in.
    destruct (ins σ !! l) as [i|] eqn:Hi; [|done]. simpl.
    unfold Input_amount, get_out.
    destruct (TXORef.txo (Input.txo_ref i)) as [lo|] eqn:Hlo; simpl.
    + apply bool_decide_eq_true_1 in Hl as [o Ho]. rewrite Ho. simpl.
      rewrite (IH _ Hnd). f_equal. unfold sum_Z. simpl. lia.
    + by rewrite (IH _ Hnd).
Qed.


(** ** The net account balance *)

Lemma net_balance_input_unresolved (σ : Store) (l : in_loc) (balance : Z) :
  resolves σ l = false -> net_balance_input σ l balance = Ok balance.
Proof.
  unfold resolves, net_balance_input, get_in.
  destruct (ins σ !! l) as [i|]; [|done]. simpl.
  destruct (TXORef.txo (Input.txo_ref i)); [|done].
  intros Hf. apply bool_decide_eq_false in Hf. destruct Hf. by eexists.
Qed.

Lemma net_balance_inputs_filter (σ : Store) (ls : list in_loc) (balance : Z) :
  for_each (net_balance_input σ) (List.filter (resolves σ) ls) balance
  = for_each (net_balance_input σ) ls balance.
Proof.
  revert balance. induction ls as [|l ls IH]; intros balance; [done|].
  cbn [List.filter]. destruct (resolves σ l) eqn:Hl.
  - cbn [for_each]. destruct (net_balance_input σ l balance); simpl; [apply IH | done].
  - cbn [for_each]. rewrite net_balance_input_unresolved by done. simpl. apply IH.
Qed.

Lemma for_each_Err_exact {A S} (f : A -> S -> result S) (e : error)
  (xs : list A) (x : A) :
  x ∈ xs ->
  (forall s, f x s = Err e) ->
  (forall y s, y ∈ xs -> is_ok (f y s) = true \/ f y s = Err e) ->
  forall s, for_each f xs s = Err e.
Proof.
  intros Hx Hf Hothers. induction xs as [|y xs IH]; intros s.
  - by apply elem_of_nil in Hx.
  - cbn [for_each].
    destruct (Hothers y s) as [Hok|Herr]; [left | | by rewrite Herr].
    destruct (f y s) as [s'|e'] eqn:E; [|done]. simpl.
    apply elem_of_cons in Hx as [->|Hx]; [by rewrite Hf in E|].
    apply IH; [done|]. intros z s0 Hz. apply Hothers. by right.
Qed.

Lemma net_balance_input_cases (σ : Store) (ls : list in_loc) (l : in_loc) (balance : Z) :
  no_dangling σ ls = true -> l ∈ ls ->
  is_ok (net_balance_input σ l balance) = true
  \/ net_balance_input σ l balance
     = Err (ValueError
              "Cannot access net_account_balance if inputs do not have is_my_input set properly.").
Proof.
  intros Hnd Hl. unfold no_dangling in Hnd. rewrite forallb_forall in Hnd.
  specialize (Hnd l (proj1 (list_elem_of_In _ _) Hl)).
  unfold net_balance_input, Input_is_my_input, Input_amount, get_in, get_out.
  destruct (ins σ !! l) as [i|]; [|done]. simpl.
  destruct (TXORef.txo (Input.txo_ref i)) as [lo|]; [|by left].
  apply bool_decide_eq_true_1 in Hnd as [o Ho]. rewrite Ho. simpl.
  destruct (Output.is_my_output o) as [[|]|]; simpl; auto.
Qed.

(** ** The block-file query *)





















(** ** Signing and clearing a signature *)

Section Signing.
Context `{Hashes} `{Codecs}.

Lemma lookup_set_out (σ : Store) (l : out_loc) (x o : Output.t) :
  outs σ !! l = Some o -> outs (set_out σ l x) !! l = Some x.
Proof.
  intros Ho. unfold set_out. cbn [outs]. apply list_lookup_insert_eq.
  by apply lookup_lt_Some in Ho.
Qed.

Lemma set_out_kept (σ : Store) (l : out_loc) (x : Output.t) :
  other_outputs_kept l σ (set_out σ l x).
Proof. intros l' Hne. unfold set_out. cbn [outs]. by apply list_lookup_insert_ne. Qed.

Lemma other_outputs_kept_trans (l : out_loc) (σ1 σ2 σ3 : Store) :
  other_outputs_kept l σ1 σ2 -> other_outputs_kept l σ2 σ3 -> other_outputs_kept l σ1 σ3.
Proof. intros H12 H23 l' Hne. by rewrite H23, H12. Qed.

Lemma other_outputs_kept_same (l : out_loc) (σ σ' : Store) :
  outs σ' = outs σ -> other_outputs_kept l σ σ'.
Proof. intros Heq l' _. by rewrite Heq. Qed.

(** Writing a claim back changes the value map of the output and nothing
    else: its script bytes stay as they are. *)
Lemma store_claim_Ok (σ σ' : Store) (l : out_loc) (c : Claim.t) :
  store_claim σ l c = Ok σ' ->
  exists o o',
    outs σ !! l = Some o /\ outs σ' !! l = Some o'
    /\ held_claim o' = Some c
    /\ OutputScript.source (Output.script o') = OutputScript.source (Output.script o)
    /\ OutputScript.template (Output.script o') = OutputScript.template (Output.script o)
    /\ Output.channel o' = Output.channel o
    /\ Output.private_key o' = Output.private_key o
    /\ Output.tx_ref o' = Output.tx_ref o
    /\ other_outputs_kept l σ σ'.
Proof.
  unfold store_claim. intros Hs. inv_bind_as Hs o Ho. apply get_out_Ok in Ho.
  injection Hs as <-. eexists o, _. split; [done|].
  split; [by eapply lookup_set_out|].
  split; [|by repeat split; try apply set_out_kept].
  unfold held_claim. cbn [Output.script Output.set_script OutputScript.values
                          OutputScript.set_values].
  by rewrite lookup_insert_eq.
Qed.

(** Reading the claim decodes it at most, and keeps the script bytes. *)
Lemma Output_claim_Ok (σ σ' : Store) (l : out_loc) (c : Claim.t) :
  Output_claim σ l = Ok (c, σ') ->
  exists o o',
    outs σ !! l = Some o /\ outs σ' !! l = Some o'
    /\ held_claim o' = Some c
    /\ OutputScript.source (Output.script o') = OutputScript.source (Output.script o)
    /\ OutputScript.template (Output.script o') = OutputScript.template (Output.script o)
    /\ Output.channel o' = Output.channel o
    /\ Output.private_key o' = Output.private_key o
    /\ Output.tx_ref o' = Output.tx_ref o
    /\ other_outputs_kept l σ σ'.
Proof.
  unfold Output_claim. intros Hc. inv_bind_as Hc o Ho. apply get_out_Ok in Ho.
  destruct (Output_is_claim o); [|done].
  inv_bind_as Hc v Hv. apply of_option_Ok in Hv.
  destruct v as [b|c0|p]; [| |done].
  - inv_bind_as Hc c1 Hc1. inv_bind_as Hc σ1 Hσ1. injection Hc as <- <-.
    apply store_claim_Ok in Hσ1 as (o0 & o' & Ho0 & Ho' & Hrest).
    rewrite Ho in Ho0. injection Ho0 as <-. by exists o, o'.
  - injection Hc as <- <-. exists o, o. split; [done|]. split; [done|].
    split; [unfold held_claim; by rewrite Hv|].
    by repeat split; try apply other_outputs_kept_same.
Qed.

(** A claim that is already decoded is returned as it is. *)
Lemma Output_claim_held (σ σ' : Store) (l : out_loc) (c c0 : Claim.t) (o : Output.t) :
  Output_claim σ l = Ok (c, σ') -> outs σ !! l = Some o -> held_claim o = Some c0 ->
  c = c0 /\ σ' = σ.
Proof.
  unfold Output_claim, held_claim. intros Hc Ho Hheld.
  rewrite (proj2 (get_out_Ok σ l o) Ho) in Hc. cbn [mbind result_bind] in Hc.
  destruct (Output_is_claim o); [|done].
  destruct (OutputScript.values (Output.script o) !! "claim") as [[b|c1|p]|];
    try discriminate.
  injection Hheld as ->. simpl in Hc. by injection Hc as <- <-.
Qed.

Lemma Transaction_raw_outs (σ σ' : Store) (t : tx_loc) (r : bytes) :
  Transaction_raw σ t = Ok (r, σ') -> outs σ' = outs σ.
Proof.
  unfold Transaction_raw. intros Hr. inv_bind_as Hr self Hself.
  destruct (Transaction._raw self).
  - by injection Hr as _ <-.
  - inv_bind_as Hr r' Hr'. by injection Hr as _ <-.
Qed.

Lemma Transaction_raw_sans_segwit_outs (σ σ' : Store) (t : tx_loc) (r : bytes) :
  Transaction_raw_sans_segwit σ t = Ok (r, σ') -> outs σ' = outs σ.
Proof.
  unfold Transaction_raw_sans_segwit. intros Hr. inv_bind_as Hr self Hself.
  destruct (negb _); [|by eapply Transaction_raw_outs].
  destruct (Transaction._raw_sans_segwit self).
  - by injection Hr as _ <-.
  - inv_bind_as Hr r' Hr'. by injection Hr as _ <-.
Qed.

Lemma TXRef_hash_outs (σ σ' : Store) (r : TXRef) (h : bytes) :
  TXRef_hash σ r = Ok (h, σ') -> outs σ' = outs σ.
Proof.
  destruct r as [r|t]; simpl; [by intros [= _ <-]|].
  unfold TXRefMutable_hash. intros Hh. inv_bind_as Hh self Hself.
  destruct (TXRefMutable._hash (Transaction.ref self)).
  - by injection Hh as _ <-.
  - inv_bind_as Hh rσ Hraw. destruct rσ as [raw σ1].
    inv_bind_as Hh self1 Hself1. injection Hh as _ <-.
    cbn [outs set_tx]. by eapply Transaction_raw_sans_segwit_outs.
Qed.

Lemma Output_claim_hash_outs (σ σ' : Store) (o : Output.t) (v : script_value) :
  Output_claim_hash σ o = Ok (v, σ') -> outs σ' = outs σ.
Proof.
  unfold Output_claim_hash. intros Hh.
  destruct (OutputScript.is_claim_name _).
  - inv_bind_as Hh r Hr. inv_bind_as Hh hσ Hhash. destruct hσ as [h σ1].
    inv_bind_as Hh p Hp. inv_bind_as Hh p' Hp'. injection Hh as _ <-.
    by eapply TXRef_hash_outs.
  - destruct (_ || _); [|done]. inv_bind_as Hh v' Hv'. by injection Hh as _ <-.
Qed.

(** The transition signed -> unsigned clears the signature in the claim
    payload held by the output and drops the channel, and leaves the script
    bytes of the output as they were: they are not regenerated.  No other
    output changes. *)
Lemma clear_signature_keeps_script_bytes (σ σ' : Store) (l : out_loc) (o : Output.t) :
  outs σ !! l = Some o ->
  Output_clear_signature σ l = Ok σ' ->
  exists o' c,
    outs σ' !! l = Some o'
    /\ held_claim o' = Some (Claim.clear_signature c)
    /\ Output.channel o' = None
    /\ OutputScript.source (Output.script o') = OutputScript.source (Output.script o)
    /\ other_outputs_kept l σ σ'.
Proof.
  intros Ho Hclear. unfold Output_clear_signature in Hclear.
  rewrite (proj2 (get_out_Ok σ l o) Ho) in Hclear. cbn [mbind result_bind] in Hclear.
  inv_bind_as Hclear cσ Hclaim. destruct cσ as [c σ1].
  apply Output_claim_Ok in Hclaim
    as (o1 & o2 & Ho1 & Ho2 & _ & Hsrc2 & _ & Hch2 & _ & _ & Hkept2).
  rewrite (lookup_set_out σ l _ o Ho) in Ho1. injection Ho1 as <-.
  apply store_claim_Ok in Hclear
    as (o2' & o3 & Ho2' & Ho3 & Hheld3 & Hsrc3 & _ & Hch3 & _ & _ & Hkept3).
  rewrite Ho2 in Ho2'. injection Ho2' as <-.
  exists o3, c. split; [done|]. split; [done|].
  split; [by rewrite Hch3, Hch2|].
  split; [by rewrite Hsrc3, Hsrc2|].
  eapply other_outputs_kept_trans; [apply set_out_kept|].
  by eapply other_outputs_kept_trans.
Qed.

(** The transition unsigned -> signed writes the channel's claim hash and
    the signature into the claim payload held by the output and regenerates
    the script bytes of that output from its value map; no other output
    changes. *)
Lemma sign_regenerates_script (σ σ' : Store) (l channel : out_loc)
  (first_input_id : option bytes) :
  Output_sign σ l channel first_input_id = Ok σ' ->
  exists o' c,
    outs σ' !! l = Some o'
    /\ script_is_current o'
    /\ held_claim o' = Some c
    /\ is_Some (Claim.signing_channel_hash c)
    /\ is_Some (Claim.signature c)
    /\ Output.channel o' = Some channel
    /\ other_outputs_kept l σ σ'.
Proof.
  unfold Output_sign. intros Hs.
  inv_bind_as Hs o Ho. apply get_out_Ok in Ho.
  set (σ1 := set_out σ l (Output.set_channel (Some channel) o)) in *.
  assert (Ho1 : outs σ1 !! l = Some (Output.set_channel (Some channel) o))
    by (by eapply lookup_set_out).
  assert (K1 : other_outputs_kept l σ σ1) by apply set_out_kept.
  inv_bind_as Hs ch Hch.
  inv_bind_as Hs vσ Hv. destruct vσ as [v σ2].
  apply Output_claim_hash_outs in Hv as Houts2.
  inv_bind_as Hs cσ Hc3. destruct cσ as [c3 σ3].
  apply Output_claim_Ok in Hc3
    as (o2 & o3 & Ho2 & Ho3 & _ & _ & _ & Hch3 & _ & _ & K3).
  rewrite Houts2, Ho1 in Ho2. injection Ho2 as <-.
  inv_bind_as Hs h Hh.
  inv_bind_as Hs σ4 Hσ4.
  apply store_claim_Ok in Hσ4
    as (o3' & o4 & Ho3' & Ho4 & Hheld4 & _ & _ & Hch4 & _ & _ & K4).
  rewrite Ho3 in Ho3'. injection Ho3' as <-.
  inv_bind_as Hs self4 Hself4.
  inv_bind_as Hs first Hfirst.
  inv_bind_as Hs cσ Hc5. destruct cσ as [c5 σ5].
  destruct (Output_claim_held _ _ _ _ _ _ Hc5 Ho4 Hheld4) as [-> ->].
  inv_bind_as Hs sch Hsch.
  inv_bind_as Hs cσ Hc6. destruct cσ as [c6 σ6].
  destruct (Output_claim_held _ _ _ _ _ _ Hc6 Ho4 Hheld4) as [-> ->].
  inv_bind_as Hs ch' Hch'.
  inv_bind_as Hs key Hkey.
  inv_bind_as Hs cσ Hc7. destruct cσ as [c7 σ7].
  destruct (Output_claim_held _ _ _ _ _ _ Hc7 Ho4 Hheld4) as [-> ->].
  inv_bind_as Hs σ8 Hσ8.
  apply store_claim_Ok in Hσ8
    as (o4' & o8 & Ho4' & Ho8 & Hheld8 & _ & _ & Hch8 & _ & _ & K8).
  rewrite Ho4 in Ho4'. injection Ho4' as <-.
  inv_bind_as Hs self8 Hself8. apply get_out_Ok in Hself8.
  rewrite Ho8 in Hself8. injection Hself8 as <-.
  injection Hs as <-.
  eexists _, _. split; [by eapply lookup_set_out|].
  split; [reflexivity|]. split; [exact Hheld8|].
  split; [by eexists|]. split; [by eexists|].
  split.
  - cbn [Output.channel Output.set_script]. by rewrite Hch8, Hch4, Hch3.
  - eapply other_outputs_kept_trans; [exact K1|].
    eapply other_outputs_kept_trans;
      [apply (other_outputs_kept_same l σ1 σ2 Houts2)|].
    eapply other_outputs_kept_trans; [exact K3|].
    eapply other_outputs_kept_trans; [exact K4|].
    eapply other_outputs_kept_trans; [exact K8|].
    apply set_out_kept.
Qed.

End Signing.

(** * The properties on concrete data *)

Lemma roundtrip_with_inputs_witness :
  exists t' σ' fields,
    Transaction_new (H0 := example_codecs) coinbase_store (Some coinbase_raw)
      1 0 false (-2) (-1) None = Ok (t', σ')
    /\ Transaction_wire_fields coinbase_store 0%nat = Some fields
    /\ Transaction_wire_fields σ' t' = Some fields.
Proof.
  apply (roundtrip_with_inputs (H0 := example_codecs) coinbase_store 0%nat coinbase_raw);
    vm_compute; reflexivity.
Defined.

(** Without inputs the bytes read back as a transaction without outputs. *)
Lemma roundtrip_fails_without_inputs :
  exists t' σ',
    _serialize no_input_store 0%nat true false = Ok no_input_raw
    /\ Transaction_new (H0 := example_codecs) no_input_store (Some no_input_raw)
         1 0 false (-2) (-1) None = Ok (t', σ')
    /\ Transaction_wire_fields no_input_store 0%nat = Some (1, 0, [], [(0, [])])
    /\ Transaction_wire_fields σ' t' = Some (1, 0, [], []).
Proof.
  eexists _, _. split; [vm_compute; reflexivity|].
  split; [vm_compute; reflexivity|].
  split; vm_compute; reflexivity.
Qed.

(** A transaction constructed from segwit wire bytes keeps them as [raw],
    while [raw_sans_segwit] is the stripped serialization. *)
Lemma raw_differs_from_raw_sans_segwit :
  exists t σ self,
    Transaction_new (H0 := example_codecs) empty_store (Some segwit_raw)
      1 0 false (-2) (-1) None = Ok (t, σ)
    /\ txs σ !! t = Some self
    /\ Transaction.is_segwit_flag self = 1
    /\ Transaction.witnesses self = [[xaa]]
    /\ Transaction_raw σ t = Ok (segwit_raw, σ)
    /\ raw_equals_raw_sans_segwit σ t = Ok false.
Proof.
  eexists _, _, _. split; [vm_compute; reflexivity|].
  repeat split; vm_compute; reflexivity.
Qed.

Lemma add_position_consistency_witness :
  exists σ' self',
    run_calls detached_store 0%nat [AddInputs [0; 1]%nat; AddOutputs [1]%nat; AddOutputs [0]%nat]
    = Ok σ'
    /\ txs σ' !! 0%nat = Some self'
    /\ Transaction._inputs self' = [0; 1]%nat
    /\ Transaction._outputs self' = [1; 0]%nat
    /\ consistent InputsList σ' 0%nat /\ consistent OutputsList σ' 0%nat
    /\ ([AddInputs [0; 1]%nat; AddOutputs [1]%nat; AddOutputs [0]%nat] <> []
        -> caches_reset self').
Proof.
  apply (add_position_consistency detached_store 0%nat
           [AddInputs [0; 1]%nat; AddOutputs [1]%nat; AddOutputs [0]%nat] fresh_tx).
  - reflexivity.
  - intros self i l [= <-] Hi. by destruct i.
  - intros self i l [= <-] Hi. by destruct i.
  - apply (bool_decide_unpack _). vm_compute. exact I.
  - apply (bool_decide_unpack _). vm_compute. exact I.
  - repeat constructor; simpl; lia.
  - repeat constructor; simpl; lia.
Defined.

(** Adding the same input object twice leaves it with position 1 at index 0. *)
Lemma position_breaks_on_repeated_object :
  exists σ' self i,
    run_calls detached_store 0%nat [AddInputs [0; 0]%nat] = Ok σ'
    /\ txs σ' !! 0%nat = Some self
    /\ Transaction._inputs self !! 0%nat = Some 0%nat
    /\ ins σ' !! 0%nat = Some i
    /\ Input.position i = Some 1
    /\ ~ consistent InputsList σ' 0%nat.
Proof.
  eexists _, _, _. split; [vm_compute; reflexivity|].
  split; [reflexivity|]. split; [reflexivity|]. split; [reflexivity|].
  split; [reflexivity|].
  intros Hc. specialize (Hc _ 0%nat 0%nat eq_refl eq_refl). discriminate Hc.
Qed.

Lemma signature_preimage_witness :
  exists image,
    canonical_bytes spending_store
      (Transaction.set__outputs [1%nat] (Transaction.set__inputs [0%nat; 1%nat] fresh_tx))
    = Some spending_raw
    /\ preimage_bytes spending_store
         (Transaction.set__outputs [1%nat] (Transaction.set__inputs [0%nat; 1%nat] fresh_tx))
         0
       = Some image
    /\ _serialize_for_signature spending_store 0%nat (Z.of_nat 0) = Ok image.
Proof.
  eapply (signature_preimage spending_store 0%nat 0%nat _ spending_raw 0%nat _ 0%nat _);
    [reflexivity | vm_compute; reflexivity | reflexivity | reflexivity
    | reflexivity | reflexivity | vm_compute; reflexivity].
Defined.

Lemma claim_hash_rules_witness :
  Output_claim_hash (H := example_hashes) signing_store claim_name_output
  = '(h, σ') ← Transaction_hash (H := example_hashes) signing_store 0%nat;
    Ok (VBytes (hash160 (Hashes := example_hashes) (h ++ be_bytes 4 0)), σ').
Proof.
  apply (claim_hash_rules (H := example_hashes) signing_store 0%nat claim_name_output 0);
    reflexivity.
Defined.

Lemma coinbase_input_on_the_wire_witness :
  Input_is_coinbase Input_create_coinbase = true
  /\ Input.script Input_create_coinbase = None
  /\ TXRefImmutable.hash (TXORef.tx_ref (Input.txo_ref Input_create_coinbase)) = NULL_HASH32
  /\ length NULL_HASH32 = 32%nat
  /\ Input_serialize_to Input_create_coinbase None (new_stream [])
     = Ok (mkStream ([] ++ NULL_HASH32 ++ le_bytes 4 0 ++ string_bytes beef
                     ++ le_bytes 4 0xFFFFFFFF) [])
  /\ Input_create_coinbase
     = Input_new (TXORef.mk (TXRefImmutable.from_hash NULL_HASH32 0) 0 None)
         (Input.Raw beef) 0xFFFFFFFF None None.
Proof.
  apply (coinbase_input_on_the_wire
           (TXORef.mk (TXRefImmutable.from_hash NULL_HASH32 0) 0 None)
           beef 0xFFFFFFFF (new_stream []));
    [vm_compute; reflexivity | reflexivity | reflexivity | reflexivity | reflexivity].
Defined.

(** The previous-output index of [create_coinbase] is 0, on the object and
    on the wire. *)
Lemma create_coinbase_index_is_zero :
  TXORef.position (Input.txo_ref Input_create_coinbase) <> 0xFFFFFFFF
  /\ Input_serialize_to Input_create_coinbase None (new_stream [])
     = Ok (mkStream (NULL_HASH32 ++ [x00; x00; x00; x00] ++ [x04] ++ beef
                     ++ [xff; xff; xff; xff]) []).
Proof. split; [discriminate | vm_compute; reflexivity]. Qed.



(** C8.  On a signed claim, whose script bytes are current, the transition
    [clear_signature] clears the signature in the claim payload and leaves
    the script bytes of the output as [sign] generated them: the bytes still
    carry the signature and are not the ones the value map assembles to. *)
Theorem clear_signature_leaves_stale_script :
  exists σ1 σ2 signed cleared,
    Output_sign (H := example_hashes) (H0 := example_codecs) signing_store 0%nat 1%nat None
    = Ok σ1
    /\ outs σ1 !! 0%nat = Some signed
    /\ script_is_current (H := example_codecs) signed
    /\ Output_clear_signature (H0 := example_codecs) σ1 0%nat = Ok σ2
    /\ outs σ2 !! 0%nat = Some cleared
    /\ (Claim.signature <$> held_claim signed) = Some (Some [x2a; x00; x00; x00; x00; x00; x00; x00])
    /\ (Claim.signature <$> held_claim cleared) = Some None
    /\ OutputScript.source (Output.script cleared)
       = OutputScript.source (Output.script signed)
    /\ ~ script_is_current (H := example_codecs) cleared.
Proof.
  eexists _, _, _, _. split; [vm_compute; reflexivity|].
  split; [reflexivity|]. split; [vm_compute; reflexivity|].
  split; [vm_compute; reflexivity|]. split; [reflexivity|].
  split; [vm_compute; reflexivity|]. split; [vm_compute; reflexivity|].
  split; [vm_compute; reflexivity|].
  unfold script_is_current. vm_compute. discriminate.
Qed.

(** The query on a small table: all files, and file 1 above height 100;
    and on a table whose counts add up to 2^63. *)
Lemma get_block_files_example :
  sync_get_block_files example_block_info None None
  = Ok [BlockFile.mk 0 1 2 50; BlockFile.mk 1 2 7 101]
  /\ sync_get_block_files example_block_info (Some 1) (Some 100)
     = Ok [BlockFile.mk 1 1 4 101]
  /\ sync_get_block_files example_block_info (Some 1) None
     = Ok [BlockFile.mk 0 1 2 50; BlockFile.mk 1 2 7 101]
  /\ sync_get_block_files overflowing_block_info None None
     = Err (OperationalError "integer overflow").
Proof. repeat split; vm_compute; reflexivity. Qed.


(** * Further properties *)

(** ** Serialization, sizes and fees *)

Section Sizes.
Context `{Hashes} `{Codecs}.

(** X1. [_serialize] returns exactly on the serializable transactions
    (every field fits its wire width and every input holds the bytes its
    coinbase status asks for), and what it returns is the canonical layout;
    on any other transaction it raises. *)
Theorem serialize_iff_serializable (σ : Store) (t : tx_loc) (sans_segwit : bool)
  (raw : bytes) :
  _serialize σ t true sans_segwit = Ok raw
  <-> exists self,
        txs σ !! t = Some self /\ serializable σ self
        /\ canonical_bytes σ self = Some raw.
Proof.
  split.
  - apply _serialize_Ok.
  - intros (self & Hself & Hok & Hraw).
    destruct (_serialize_fits σ t sans_segwit self Hself Hok) as (raw' & Hraw' & ->).
    congruence.
Qed.

Lemma length_compact_size_bytes (size : Z) :
  Z.of_nat (length (compact_size_bytes size)) = compact_size_length size.
Proof.
  unfold compact_size_bytes, compact_size_length.
  repeat case_match; rewrite ?length_app, !length_le_bytes; lia.
Qed.

Lemma Input_serialize_to_fits (i : Input.t) (b : bytes) (s : BCDataStream) :
  Input_script_bytes i = Some b ->
  in_range 4 (TXORef.position (Input.txo_ref i)) = true ->
  in_range 4 (Input.sequence i) = true ->
  0 <= Z.of_nat (length b) < 2 ^ 64 ->
  remaining s = [] ->
  Input_serialize_to i None s = Ok (mkStream (consumed s ++ Input_bytes b i) []).
Proof.
  intros Hb Hpos Hseq Hlen Hr.
  rewrite <- (Input_serialize_to_alternate i b s) by done.
  unfold Input_serialize_to, Input_script_bytes in *.
  destruct (Input_is_coinbase i).
  - destruct (Input.coinbase i) as [[sc|b']|]; try discriminate. by injection Hb as ->.
  - destruct (Input.script i) as [[sc|b']|]; try discriminate. by injection Hb as <-.
Qed.

Lemma Input_size_Ok (i : Input.t) (b : bytes) :
  Input_script_bytes i = Some b ->
  in_range 4 (TXORef.position (Input.txo_ref i)) = true ->
  in_range 4 (Input.sequence i) = true ->
  0 <= Z.of_nat (length b) < 2 ^ 64 ->
  Input_size i = Ok (Z.of_nat (length (Input_bytes b i))).
Proof.
  intros Hb Hpos Hseq Hlen. unfold Input_size, InputOutput_size.
  rewrite (Input_serialize_to_fits i b) by done. step.
  unfold get_bytes. cbn [consumed remaining new_stream]. by rewrite app_nil_r.
Qed.

Lemma Output_size_Ok (o : Output.t) :
  in_range 8 (Output.amount o) = true ->
  0 <= Z.of_nat (length (OutputScript.source (Output.script o))) < 2 ^ 64 ->
  Output_size o = Ok (Z.of_nat (length (Output_bytes o))).
Proof.
  intros Ha Hlen. unfold Output_size, InputOutput_size.
  rewrite Output_serialize_to_fits by done. step.
  unfold get_bytes. cbn [consumed remaining new_stream]. by rewrite app_nil_r.
Qed.

Lemma length_Input_bytes (i : Input.t) (b : bytes) :
  Z.of_nat (length (Input_bytes b i))
  = Z.of_nat (length (TXRefImmutable.hash (TXORef.tx_ref (Input.txo_ref i))))
    + 8 + compact_size_length (Z.of_nat (length b)) + Z.of_nat (length b).
Proof.
  unfold Input_bytes, string_bytes. rewrite !length_app, !length_le_bytes.
  rewrite !Nat2Z.inj_add, length_compact_size_bytes. lia.
Qed.

Lemma length_Output_bytes (o : Output.t) :
  Z.of_nat (length (Output_bytes o))
  = 8 + compact_size_length (Z.of_nat (length (OutputScript.source (Output.script o))))
    + Z.of_nat (length (OutputScript.source (Output.script o))).
Proof.
  unfold Output_bytes, string_bytes. rewrite !length_app, !length_le_bytes.
  rewrite !Nat2Z.inj_add, length_compact_size_bytes. lia.
Qed.

(** X2. The size of an input whose fields fit their wire widths is the
    length of the previous-tx hash plus 8 (position and sequence) plus the
    compact-size prefix of the script plus the script: 41 bytes plus the
    script for a 32-byte hash and a script shorter than 253 bytes; its fee
    is that size times the ledger's fee per byte. *)
Theorem Input_size_formula (ledger : Ledger) (i : Input.t) (b : bytes) :
  Input_script_bytes i = Some b ->
  in_range 4 (TXORef.position (Input.txo_ref i)) = true ->
  in_range 4 (Input.sequence i) = true ->
  Z.of_nat (length b) < 2 ^ 64 ->
  let size :=
    Z.of_nat (length (TXRefImmutable.hash (TXORef.tx_ref (Input.txo_ref i))))
    + 8 + compact_size_length (Z.of_nat (length b)) + Z.of_nat (length b) in
  Input_size i = Ok size
  /\ Input_get_fee ledger i = Ok (size * fee_per_byte ledger)
  /\ (length (TXRefImmutable.hash (TXORef.tx_ref (Input.txo_ref i))) = 32%nat ->
      Z.of_nat (length b) < 253 ->
      size = 41 + Z.of_nat (length b)).
Proof.
  intros Hb Hpos Hseq Hlen size.
  assert (Hsize : Input_size i = Ok size).
  { rewrite (Input_size_Ok i b) by (done || lia). by rewrite length_Input_bytes. }
  split; [done|]. split.
  - unfold Input_get_fee. by rewrite Hsize.
  - intros H32 Hshort. subst size. rewrite H32. unfold compact_size_length.
    destruct (Z.ltb_spec (Z.of_nat (length b)) 253); lia.
Qed.

(** X3. The fee of an output whose fields fit their wire widths: the larger
    of the name fee and the size fee, where the size is 8 bytes of amount
    plus the length-prefixed script, and the name fee is the length of the
    [claim_name] entry times the fee per name character for a claim-name
    script and 0 for any other script; a claim-name script without a
    [claim_name] entry raises KeyError. *)
Theorem Output_get_fee_formula (ledger : Ledger) (o : Output.t) :
  in_range 8 (Output.amount o) = true ->
  Z.of_nat (length (OutputScript.source (Output.script o))) < 2 ^ 64 ->
  let size :=
    8 + compact_size_length (Z.of_nat (length (OutputScript.source (Output.script o))))
    + Z.of_nat (length (OutputScript.source (Output.script o))) in
  Output_size o = Ok size
  /\ Output_get_fee ledger o =
       if OutputScript.is_claim_name (Output.script o) then
         match OutputScript.values (Output.script o) !! "claim_name" with
         | Some (VBytes name) =>
             Ok (Z.max (Z.of_nat (length name) * fee_per_name_char ledger)
                   (size * fee_per_byte ledger))
         | Some _ => Err TypeError
         | None => Err (KeyError "claim_name")
         end
       else Ok (Z.max 0 (size * fee_per_byte ledger)).
Proof.
  intros Ha Hlen size.
  assert (Hsize : Output_size o = Ok size).
  { rewrite Output_size_Ok by (done || lia). by rewrite length_Output_bytes. }
  split; [done|]. unfold Output_get_fee. rewrite Hsize.
  destruct (OutputScript.is_claim_name (Output.script o)); [|done].
  destruct (OutputScript.values (Output.script o) !! "claim_name") as [[name|c|p]|]; done.
Qed.

End Sizes.

Section BaseSize.
Context `{Hashes} `{Codecs}.

Lemma input_sizes_loop (σ : Store) (ls : list in_loc) (encs : list bytes) :
  Forall (input_ok σ) ls ->
  mapM (canonical_input_bytes σ) ls = Some encs ->
  forall acc,
    for_each (fun l acc => txi ← get_in σ l; s ← Input_size txi; Ok (acc + s)) ls acc
    = Ok (acc + Z.of_nat (length (concat encs))).
Proof.
  intros Hok Hencs. apply mapM_Some in Hencs.
  induction Hencs as [|l enc ls encs Henc _ IH]; intros acc.
  - simpl. f_equal. lia.
  - apply Forall_cons in Hok as [(i & b & Hi & Hb & Hpos & Hseq & Hlen) Hok].
    unfold canonical_input_bytes in Henc. rewrite Hi in Henc. simpl in Henc.
    rewrite Hb in Henc. injection Henc as <-.
    cbn [for_each]. rewrite (proj2 (get_in_Ok σ l i) Hi). step.
    rewrite (Input_size_Ok i b) by done. step.
    rewrite IH by done. f_equal. simpl. rewrite length_app. lia.
Qed.

Lemma output_sizes_loop (σ : Store) (ls : list out_loc) (encs : list bytes) :
  Forall (output_ok σ) ls ->
  mapM (output_bytes_at σ) ls = Some encs ->
  forall acc,
    for_each (fun l acc => txo ← get_out σ l; s ← Output_size txo; Ok (acc + s)) ls acc
    = Ok (acc + Z.of_nat (length (concat encs))).
Proof.
  intros Hok Hencs. apply mapM_Some in Hencs.
  induction Hencs as [|l enc ls encs Henc _ IH]; intros acc.
  - simpl. f_equal. lia.
  - apply Forall_cons in Hok as [(o & Ho & Ha & Hlen) Hok].
    unfold output_bytes_at in Henc. rewrite Ho in Henc. injection Henc as <-.
    cbn [for_each]. rewrite (proj2 (get_out_Ok σ l o) Ho). step.
    rewrite (Output_size_Ok o) by done. step.
    rewrite IH by done. f_equal. simpl. rewrite length_app. lia.
Qed.

Lemma input_ok_ins (σ σ' : Store) (l : in_loc) :
  ins σ' = ins σ -> input_ok σ l -> input_ok σ' l.
Proof. intros Hins. unfold input_ok. by rewrite Hins. Qed.

Lemma output_ok_outs (σ σ' : Store) (l : out_loc) :
  outs σ' = outs σ -> output_ok σ l -> output_ok σ' l.
Proof. intros Houts. unfold output_ok. by rewrite Houts. Qed.

(** X4. For a serializable transaction whose raw bytes are not cached,
    [size] is the length of the canonical serialization and [base_size] is
    what remains of it without the inputs and outputs: the version and the
    locktime (8 bytes) and the two compact-size counts, whatever the inputs
    and outputs hold; [get_base_fee] is that number times the fee per
    byte.  The only effect on the store is that the raw bytes are cached. *)
Theorem base_size_counts_only (ledger : Ledger) (σ : Store) (t : tx_loc)
  (self : Transaction.t) :
  txs σ !! t = Some self ->
  Transaction._raw self = None ->
  serializable σ self ->
  exists raw,
    canonical_bytes σ self = Some raw
    /\ let σ' := set_tx σ t (Transaction.set__raw (Some raw) self) in
       let base :=
         8 + compact_size_length (Z.of_nat (length (Transaction._inputs self)))
         + compact_size_length (Z.of_nat (length (Transaction._outputs self))) in
       Transaction_size σ t = Ok (Z.of_nat (length raw), σ')
       /\ Transaction_base_size σ t = Ok (base, σ')
       /\ Transaction_get_base_fee ledger σ t = Ok (base * fee_per_byte ledger, σ').
Proof.
  intros Hself Hraw Hok.
  destruct (_serialize_fits σ t false self Hself Hok) as (raw & Hcanon & Hser).
  exists raw. split; [done|]. intros σ' base.
  assert (Hsize : Transaction_size σ t = Ok (Z.of_nat (length raw), σ')).
  { unfold Transaction_size, Transaction_raw.
    rewrite (proj2 (get_tx_Ok σ t self) Hself). step. rewrite Hraw, Hser. done. }
  assert (Hbase : Transaction_base_size σ t = Ok (base, σ')).
  { unfold Transaction_base_size. rewrite Hsize. step.
    assert (Hget : get_tx σ' t = Ok (Transaction.set__raw (Some raw) self)).
    { apply get_tx_set_tx. by apply lookup_lt_Some in Hself. }
    rewrite Hget. step. cbn [Transaction._inputs Transaction._outputs Transaction.set__raw].
    destruct Hok as (Hv & Hl & Hnin & Hnout & Hin & Hout).
    unfold canonical_bytes in Hcanon.
    destruct (mapM (canonical_input_bytes σ) _) as [encs_in|] eqn:Hencs_in; [|done].
    destruct (mapM (output_bytes_at σ) _) as [encs_out|] eqn:Hencs_out; [|done].
    injection Hcanon as <-.
    rewrite (input_sizes_loop σ' _ encs_in).
    2:{ eapply Forall_impl; [exact Hin|]. intros l. by apply input_ok_ins. }
    2:{ exact Hencs_in. }
    step.
    rewrite (output_sizes_loop σ' _ encs_out).
    2:{ eapply Forall_impl; [exact Hout|]. intros l. by apply output_ok_outs. }
    2:{ exact Hencs_out. }
    step. f_equal. f_equal. subst base.
    unfold Transaction_bytes. rewrite !length_app, !length_le_bytes.
    rewrite !Nat2Z.inj_add, !length_compact_size_bytes.
    rewrite (length_mapM _ _ _ Hencs_in), (length_mapM _ _ _ Hencs_out). lia. }
  split; [done|]. split; [done|].
  unfold Transaction_get_base_fee. by rewrite Hbase.
Qed.

End BaseSize.

Section EffectiveSum.
Context `{Hashes} `{Codecs}.

Lemma effective_input_sum_loop (ledger : Ledger) (σ : Store) (ls : list in_loc)
  (encs : list bytes) :
  Forall (input_ok σ) ls ->
  no_dangling σ ls = true ->
  forallb (resolves σ) ls = true ->
  mapM (canonical_input_bytes σ) ls = Some encs ->
  forall acc,
    for_each (fun l acc =>
        txi ← get_in σ l;
        amount ← Input_amount σ txi;
        fee ← Input_get_fee ledger txi;
        Ok (acc + (amount - fee))) ls acc
    = Ok (acc + sum_Z (resolved_amounts σ ls)
          - Z.of_nat (length (concat encs)) * fee_per_byte ledger).
Proof.
  intros Hok Hnd Hres Hencs. apply mapM_Some in Hencs.
  induction Hencs as [|l enc ls encs Henc _ IH]; intros acc.
  - simpl. f_equal. lia.
  - apply Forall_cons in Hok as [(i & b & Hi & Hb & Hpos & Hseq & Hlen) Hok].
    cbn [no_dangling forallb] in Hnd, Hres.
    apply andb_true_iff in Hnd as [Hnd1 Hnd]. apply andb_true_iff in Hres as [Hres1 Hres].
    unfold resolves in Hres1. rewrite Hi in Hnd1, Hres1.
    apply bool_decide_eq_true in Hres1 as [lo Hlo]. rewrite Hlo in Hnd1.
    apply bool_decide_eq_true in Hnd1 as [o Ho].
    unfold canonical_input_bytes in Henc. rewrite Hi in Henc. simpl in Henc.
    rewrite Hb in Henc. injection Henc as <-.
    cbn [for_each]. rewrite (proj2 (get_in_Ok σ l i) Hi). step.
    unfold Input_amount. rewrite Hlo, (proj2 (get_out_Ok σ lo o) Ho). step.
    unfold Input_get_fee. rewrite (Input_size_Ok i b) by done. step.
    rewrite IH by done. f_equal.
    rewrite resolved_amounts_cons. unfold spent_output. rewrite Hi. simpl.
    rewrite Hlo. simpl. rewrite Ho. simpl. rewrite length_app. lia.
Qed.

(** X5. [get_effective_input_sum] reads the amount of every input: on a
    transaction with an input whose reference does not resolve it raises
    (where [input_sum] skips that input); when every input resolves and
    serializes, it is the sum of the amounts of the spent outputs minus the
    fee per byte times the number of bytes the inputs take on the wire. *)
Theorem effective_input_sum_spec (ledger : Ledger) (σ : Store) (t : tx_loc)
  (self : Transaction.t) :
  txs σ !! t = Some self ->
  (forall l, l ∈ Transaction._inputs self -> resolves σ l = false ->
     is_ok (Transaction_get_effective_input_sum ledger σ t) = false)
  /\ (forall encs,
        Forall (input_ok σ) (Transaction._inputs self) ->
        no_dangling σ (Transaction._inputs self) = true ->
        forallb (resolves σ) (Transaction._inputs self) = true ->
        mapM (canonical_input_bytes σ) (Transaction._inputs self) = Some encs ->
        Transaction_get_effective_input_sum ledger σ t
        = Ok (sum_Z (resolved_amounts σ (Transaction._inputs self))
              - Z.of_nat (length (concat encs)) * fee_per_byte ledger)
        /\ Transaction_input_sum σ t
           = Ok (sum_Z (resolved_amounts σ (Transaction._inputs self)))).
Proof.
  intros Hself. split.
  - intros l Hl Hres. unfold Transaction_get_effective_input_sum.
    rewrite (proj2 (get_tx_Ok σ t self) Hself). step.
    apply (for_each_Err _ _ l Hl). intros acc.
    unfold resolves in Hres. destruct (ins σ !! l) as [i|] eqn:Hi; [|done].
    rewrite (proj2 (get_in_Ok σ l i) Hi). step.
    unfold Input_amount. destruct (TXORef.txo (Input.txo_ref i)); [|done].
    by rewrite bool_decide_eq_false in Hres; destruct Hres.
  - intros encs Hok Hnd Hres Hencs. split.
    + unfold Transaction_get_effective_input_sum.
      rewrite (proj2 (get_tx_Ok σ t self) Hself). step.
      by rewrite (effective_input_sum_loop ledger σ _ encs).
    + unfold Transaction_input_sum.
      rewrite (proj2 (get_tx_Ok σ t self) Hself). step.
      by rewrite input_sum_loop.
Qed.

End EffectiveSum.

(** ** Caches of a transaction *)

Lemma caches_filled_refl (x : Transaction.t) : caches_filled x x.
Proof. by repeat split. Qed.

Lemma caches_filled_trans (x y z : Transaction.t) :
  caches_filled x y -> caches_filled y z -> caches_filled x z.
Proof.
  intros (E1 & A1 & B1 & C1 & D1) (E2 & A2 & B2 & C2 & D2).
  repeat split; [congruence|auto..].
Qed.

Lemma only_caches_filled_refl (σ : Store) : only_caches_filled σ σ.
Proof.
  repeat split. apply Forall_Forall2_diag, Forall_forall. intros. apply caches_filled_refl.
Qed.

Lemma only_caches_filled_trans (σ1 σ2 σ3 : Store) :
  only_caches_filled σ1 σ2 -> only_caches_filled σ2 σ3 -> only_caches_filled σ1 σ3.
Proof.
  intros (I1 & O1 & T1) (I2 & O2 & T2). repeat split; [congruence..|].
  eapply Forall2_trans; [|exact T1|exact T2]. apply caches_filled_trans.
Qed.

Lemma only_caches_filled_set_tx (σ : Store) (t : tx_loc) (x y : Transaction.t) :
  txs σ !! t = Some x -> caches_filled x y -> only_caches_filled σ (set_tx σ t y).
Proof.
  intros Hx Hxy. repeat split. cbn [txs set_tx].
  rewrite <- (list_insert_id (txs σ) t x Hx) at 1.
  apply Forall2_insert; [|done].
  apply Forall_Forall2_diag, Forall_forall. intros. apply caches_filled_refl.
Qed.

Lemma only_caches_filled_lookup (σ σ' : Store) (t : tx_loc) (x : Transaction.t) :
  only_caches_filled σ σ' -> txs σ !! t = Some x ->
  exists y, txs σ' !! t = Some y /\ caches_filled x y.
Proof.
  intros (_ & _ & HT) Hx. by apply (Forall2_lookup_l _ _ _ _ _ HT Hx).
Qed.

Lemma caches_filled_lists (x y : Transaction.t) :
  caches_filled x y ->
  Transaction._inputs y = Transaction._inputs x
  /\ Transaction._outputs y = Transaction._outputs x
  /\ Transaction.version y = Transaction.version x
  /\ Transaction.locktime y = Transaction.locktime x
  /\ Transaction.is_segwit_flag y = Transaction.is_segwit_flag x
  /\ Transaction.witnesses y = Transaction.witnesses x
  /\ Transaction.height y = Transaction.height x.
Proof.
  intros (E & _). destruct x, y. unfold uncached in E. simpl in *.
  by simplify_eq.
Qed.

Lemma get_tx_None (σ : Store) (t : tx_loc) :
  txs σ !! t = None -> get_tx σ t = Err InvalidLocation.
Proof. intros Hs. unfold get_tx. by rewrite Hs. Qed.

Section Caches.
Context `{Hashes} `{Codecs}.

(** [_serialize] does not read the caches. *)
Lemma _serialize_only_caches (σ σ' : Store) (t : tx_loc) (with_inputs sans_segwit : bool) :
  only_caches_filled σ σ' ->
  _serialize σ' t with_inputs sans_segwit = _serialize σ t with_inputs sans_segwit.
Proof.
  intros Hf. pose proof Hf as (Hins & Houts & HT).
  unfold _serialize, get_in, get_out.
  destruct (txs σ !! t) as [x|] eqn:Hx.
  - destruct (only_caches_filled_lookup σ σ' t x Hf Hx) as (y & Hy & Hxy).
    apply caches_filled_lists in Hxy as (Hi & Ho & Hv & Hl & _).
    rewrite (proj2 (get_tx_Ok σ t x) Hx), (proj2 (get_tx_Ok σ' t y) Hy).
    step. by rewrite Hi, Ho, Hv, Hl, Hins, Houts.
  - apply Forall2_length in HT.
    assert (Hy : txs σ' !! t = None).
    { apply lookup_ge_None_1 in Hx. rewrite HT in Hx. by apply lookup_ge_None_2 in Hx. }
    by rewrite !get_tx_None.
Qed.

Lemma Transaction_raw_cached (σ σ' : Store) (t : tx_loc) (r : bytes) :
  Transaction_raw σ t = Ok (r, σ') ->
  only_caches_filled σ σ' /\ Transaction_raw σ' t = Ok (r, σ').
Proof.
  unfold Transaction_raw. intros Hr. inv_bind_as Hr self Hself.
  apply get_tx_Ok in Hself as Hself'.
  destruct (Transaction._raw self) as [r0|] eqn:Hraw.
  - injection Hr as -> ->. split; [apply only_caches_filled_refl|].
    rewrite Hself. step. by rewrite Hraw.
  - inv_bind_as Hr r1 Hser. injection Hr as -> <-. split.
    + apply (only_caches_filled_set_tx σ t self); [done|].
      destruct self. simpl in Hraw. subst. by repeat split.
    + rewrite get_tx_set_tx by (by apply lookup_lt_Some in Hself'). step.
      done.
Qed.

Lemma Transaction_raw_sans_segwit_cached (σ σ' : Store) (t : tx_loc) (r : bytes) :
  Transaction_raw_sans_segwit σ t = Ok (r, σ') ->
  only_caches_filled σ σ' /\ Transaction_raw_sans_segwit σ' t = Ok (r, σ').
Proof.
  unfold Transaction_raw_sans_segwit. intros Hr. inv_bind_as Hr self Hself.
  apply get_tx_Ok in Hself as Hself'.
  destruct (negb (Transaction.is_segwit_flag self =? 0)) eqn:Hflag.
  - destruct (Transaction._raw_sans_segwit self) as [r0|] eqn:Hraw.
    + injection Hr as -> ->. split; [apply only_caches_filled_refl|].
      rewrite Hself. step. by rewrite Hflag, Hraw.
    + inv_bind_as Hr r1 Hser. injection Hr as -> <-. split.
      * apply (only_caches_filled_set_tx σ t self); [done|].
        destruct self. simpl in Hraw. subst. by repeat split.
      * rewrite get_tx_set_tx by (by apply lookup_lt_Some in Hself'). step.
        cbn [Transaction.is_segwit_flag Transaction.set__raw_sans_segwit].
        by rewrite Hflag.
  - destruct (Transaction_raw_cached σ σ' t r Hr) as [Hf Hagain]. split; [done|].
    destruct (only_caches_filled_lookup σ σ' t self Hf Hself') as (y & Hy & Hxy).
    apply caches_filled_lists in Hxy as (_ & _ & _ & _ & Hfl & _).
    rewrite (proj2 (get_tx_Ok σ' t y) Hy). step. by rewrite Hfl, Hflag.
Qed.

Lemma Transaction_raw_ref (σ σ' : Store) (t : tx_loc) (r : bytes) :
  Transaction_raw σ t = Ok (r, σ') ->
  Transaction.ref <$> txs σ' = Transaction.ref <$> txs σ.
Proof.
  unfold Transaction_raw. intros Hr. inv_bind_as Hr self Hself.
  apply get_tx_Ok in Hself.
  destruct (Transaction._raw self); [by injection Hr as _ <-|].
  inv_bind_as Hr r1 Hser. injection Hr as _ <-. cbn [txs set_tx].
  rewrite list_fmap_insert. apply list_insert_id.
  rewrite list_lookup_fmap. unfold tx_loc in *. by rewrite Hself.
Qed.

Lemma Transaction_raw_sans_segwit_ref (σ σ' : Store) (t : tx_loc) (r : bytes) :
  Transaction_raw_sans_segwit σ t = Ok (r, σ') ->
  Transaction.ref <$> txs σ' = Transaction.ref <$> txs σ.
Proof.
  unfold Transaction_raw_sans_segwit. intros Hr. inv_bind_as Hr self Hself.
  apply get_tx_Ok in Hself.
  destruct (negb (Transaction.is_segwit_flag self =? 0)).
  - destruct (Transaction._raw_sans_segwit self); [by injection Hr as _ <-|].
    inv_bind_as Hr r1 Hser. injection Hr as _ <-. cbn [txs set_tx].
    rewrite list_fmap_insert. apply list_insert_id.
    rewrite list_lookup_fmap. unfold tx_loc in *. by rewrite Hself.
  - by apply Transaction_raw_ref in Hr.
Qed.

Lemma TXRefMutable_hash_cached (σ σ' : Store) (t : tx_loc) (h : bytes) :
  TXRefMutable_hash σ t = Ok (h, σ') ->
  only_caches_filled σ σ' /\ TXRefMutable_hash σ' t = Ok (h, σ').
Proof.
  unfold TXRefMutable_hash. intros Hh. inv_bind_as Hh self Hself.
  destruct (TXRefMutable._hash (Transaction.ref self)) as [h0|] eqn:Hhash.
  - injection Hh as -> ->. split; [apply only_caches_filled_refl|].
    rewrite Hself. step. by rewrite Hhash.
  - inv_bind_as Hh rs Hrs. destruct rs as [r σ1].
    inv_bind_as Hh self1 Hself1. injection Hh as <- <-.
    destruct (Transaction_raw_sans_segwit_cached σ σ1 t r Hrs) as [Hf _].
    apply Transaction_raw_sans_segwit_ref in Hrs as Href.
    apply get_tx_Ok in Hself as Hself'. apply get_tx_Ok in Hself1 as Hself1'.
    assert (Hsame : Transaction.ref self1 = Transaction.ref self).
    { apply (f_equal (fun l => l !! t)) in Href.
      rewrite !list_lookup_fmap in Href. unfold tx_loc in *.
      rewrite Hself', Hself1' in Href. by injection Href. }
    split.
    + eapply only_caches_filled_trans; [exact Hf|].
      apply (only_caches_filled_set_tx σ1 t self1); [done|].
      rewrite <- Hsame in Hhash.
      destruct self1 as [? ? ? ? [i1 h1] ? ? ? ? ? ? ? ?]. simpl in *. subst h1.
      by repeat split.
    + rewrite get_tx_set_tx by (by apply lookup_lt_Some in Hself1'). step. done.
Qed.

Lemma TXRefMutable_hash_id (σ σ' : Store) (t : tx_loc) (h : bytes) :
  TXRefMutable_hash σ t = Ok (h, σ') ->
  (fun x => TXRefMutable._id (Transaction.ref x)) <$> txs σ'
  = (fun x => TXRefMutable._id (Transaction.ref x)) <$> txs σ.
Proof.
  unfold TXRefMutable_hash. intros Hh. inv_bind_as Hh self Hself.
  destruct (TXRefMutable._hash (Transaction.ref self)); [by injection Hh as _ <-|].
  inv_bind_as Hh rs Hrs. destruct rs as [r σ0].
  inv_bind_as Hh self0 Hself0. injection Hh as _ <-.
  apply Transaction_raw_sans_segwit_ref in Hrs as Href.
  apply get_tx_Ok in Hself0. cbn [txs set_tx].
  rewrite list_fmap_insert. cbn [Transaction.ref Transaction.set_ref TXRefMutable._id].
  rewrite list_insert_id.
  - change (fun x : Transaction.t => TXRefMutable._id (Transaction.ref x))
      with (TXRefMutable._id ∘ Transaction.ref).
    by rewrite !list_fmap_compose, Href.
  - rewrite list_lookup_fmap. unfold tx_loc in *. by rewrite Hself0.
Qed.

Lemma TXRefMutable_id_cached (σ σ' : Store) (t : tx_loc) (i : string) :
  TXRefMutable_id σ t = Ok (i, σ') ->
  only_caches_filled σ σ' /\ TXRefMutable_id σ' t = Ok (i, σ').
Proof.
  unfold TXRefMutable_id. intros Hi. inv_bind_as Hi self Hself.
  destruct (TXRefMutable._id (Transaction.ref self)) as [i0|] eqn:Hid.
  - injection Hi as -> ->. split; [apply only_caches_filled_refl|].
    rewrite Hself. step. by rewrite Hid.
  - inv_bind_as Hi hs Hhs. destruct hs as [h σ1].
    inv_bind_as Hi self1 Hself1. injection Hi as <- <-.
    destruct (TXRefMutable_hash_cached σ σ1 t h Hhs) as [Hf _].
    apply TXRefMutable_hash_id in Hhs as Hids.
    apply get_tx_Ok in Hself as Hself'. apply get_tx_Ok in Hself1 as Hself1'.
    assert (Hsame : TXRefMutable._id (Transaction.ref self1) = None).
    { apply (f_equal (fun l => l !! t)) in Hids.
      rewrite !list_lookup_fmap in Hids. unfold tx_loc in *.
      rewrite Hself', Hself1' in Hids. simpl in Hids. congruence. }
    split.
    + eapply only_caches_filled_trans; [exact Hf|].
      apply (only_caches_filled_set_tx σ1 t self1); [done|].
      destruct self1 as [? ? ? ? [i1 h1] ? ? ? ? ? ? ? ?]. simpl in *. subst i1.
      by repeat split.
    + rewrite get_tx_set_tx by (by apply lookup_lt_Some in Hself1'). step. done.
Qed.

End Caches.

Section Txid.
Context `{Hashes} `{Codecs}.

(** X6. Reading [raw], [raw_sans_segwit], [hash] or [id] changes nothing of
    the store but caches that were empty, and a second read returns the same
    value and changes nothing at all. *)
Theorem reads_only_fill_caches (σ : Store) (t : tx_loc) :
  (forall r σ', Transaction_raw σ t = Ok (r, σ') ->
     only_caches_filled σ σ' /\ Transaction_raw σ' t = Ok (r, σ'))
  /\ (forall r σ', Transaction_raw_sans_segwit σ t = Ok (r, σ') ->
        only_caches_filled σ σ' /\ Transaction_raw_sans_segwit σ' t = Ok (r, σ'))
  /\ (forall h σ', Transaction_hash σ t = Ok (h, σ') ->
        only_caches_filled σ σ' /\ Transaction_hash σ' t = Ok (h, σ'))
  /\ (forall i σ', Transaction_id σ t = Ok (i, σ') ->
        only_caches_filled σ σ' /\ Transaction_id σ' t = Ok (i, σ')).
Proof.
  split; [|split; [|split]].
  - intros r σ'. apply Transaction_raw_cached.
  - intros r σ'. apply Transaction_raw_sans_segwit_cached.
  - intros h σ'. apply TXRefMutable_hash_cached.
  - intros i σ'. apply TXRefMutable_id_cached.
Qed.

Lemma Transaction_raw_sans_segwit_field (σ σ' : Store) (t : tx_loc) (r : bytes) :
  Transaction_raw_sans_segwit σ t = Ok (r, σ') ->
  exists y, txs σ' !! t = Some y
            /\ (if negb (Transaction.is_segwit_flag y =? 0)
                then Transaction._raw_sans_segwit y = Some r
                else Transaction._raw y = Some r).
Proof.
  unfold Transaction_raw_sans_segwit, Transaction_raw. intros Hr.
  inv_bind_as Hr self Hself. apply get_tx_Ok in Hself as Hself'.
  apply lookup_lt_Some in Hself' as Hlt.
  destruct (negb (Transaction.is_segwit_flag self =? 0)) eqn:Hflag.
  - destruct (Transaction._raw_sans_segwit self) as [r0|] eqn:Hraw.
    + injection Hr as -> ->. exists self. by rewrite Hflag.
    + inv_bind_as Hr r1 Hser. injection Hr as -> <-. eexists. split.
      * cbn [txs set_tx]. by apply list_lookup_insert_eq.
      * cbn [Transaction.is_segwit_flag Transaction.set__raw_sans_segwit]. by rewrite Hflag.
  - rewrite Hself in Hr. cbn [mbind result_bind] in Hr.
    destruct (Transaction._raw self) as [r0|] eqn:Hraw.
    + injection Hr as -> ->. exists self. by rewrite Hflag.
    + inv_bind_as Hr r1 Hser. injection Hr as -> <-. eexists. split.
      * cbn [txs set_tx]. by apply list_lookup_insert_eq.
      * cbn [Transaction.is_segwit_flag Transaction.set__raw]. by rewrite Hflag.
Qed.

Lemma Transaction_raw_sans_segwit_of_field (σ : Store) (t : tx_loc)
  (y : Transaction.t) (r : bytes) :
  txs σ !! t = Some y ->
  (if negb (Transaction.is_segwit_flag y =? 0)
   then Transaction._raw_sans_segwit y = Some r
   else Transaction._raw y = Some r) ->
  Transaction_raw_sans_segwit σ t = Ok (r, σ).
Proof.
  intros Hy Hf. unfold Transaction_raw_sans_segwit, Transaction_raw.
  rewrite (proj2 (get_tx_Ok σ t y) Hy). step.
  destruct (negb (Transaction.is_segwit_flag y =? 0)); by rewrite Hf.
Qed.

Lemma caches_filled_rss_field (x y : Transaction.t) (r : bytes) :
  caches_filled x y ->
  (if negb (Transaction.is_segwit_flag x =? 0)
   then Transaction._raw_sans_segwit x = Some r
   else Transaction._raw x = Some r) ->
  (if negb (Transaction.is_segwit_flag y =? 0)
   then Transaction._raw_sans_segwit y = Some r
   else Transaction._raw y = Some r).
Proof.
  intros Hxy. pose proof (caches_filled_lists x y Hxy) as (_ & _ & _ & _ & -> & _).
  destruct Hxy as (_ & Hraw & Hrss & _). destruct (negb _); auto.
Qed.

(** With empty caches, the hash is the double SHA-256 of the canonical
    serialization. *)
Lemma hash_uncached (σ : Store) (t : tx_loc) (self : Transaction.t) (r : bytes) :
  txs σ !! t = Some self ->
  caches_reset self ->
  _serialize σ t true false = Ok r ->
  exists σ' y,
    TXRefMutable_hash σ t = Ok (sha256 (sha256 r), σ')
    /\ only_caches_filled σ σ'
    /\ txs σ' !! t = Some y
    /\ TXRefMutable._hash (Transaction.ref y) = Some (sha256 (sha256 r))
    /\ TXRefMutable._id (Transaction.ref y) = None
    /\ (if negb (Transaction.is_segwit_flag y =? 0)
        then Transaction._raw_sans_segwit y = Some r
        else Transaction._raw y = Some r).
Proof.
  intros Hself (Hraw & Hrss & Hid & Hhash) Hser.
  assert (Hrs : exists σ1, Transaction_raw_sans_segwit σ t = Ok (r, σ1)).
  { unfold Transaction_raw_sans_segwit, Transaction_raw.
    rewrite (proj2 (get_tx_Ok σ t self) Hself). step.
    destruct (negb (Transaction.is_segwit_flag self =? 0)).
    - rewrite Hrss. change (_serialize σ t true true) with (_serialize σ t true false).
      rewrite Hser. by eexists.
    - rewrite Hraw, Hser. by eexists. }
  destruct Hrs as (σ1 & Hrs).
  destruct (Transaction_raw_sans_segwit_cached σ σ1 t r Hrs) as [Hf _].
  destruct (Transaction_raw_sans_segwit_field σ σ1 t r Hrs) as (y & Hy & Hfield).
  apply Transaction_raw_sans_segwit_ref in Hrs as Href.
  assert (Hsame : Transaction.ref y = Transaction.ref self).
  { apply (f_equal (fun l => l !! t)) in Href.
    rewrite !list_lookup_fmap in Href. unfold tx_loc in *.
    rewrite Hself, Hy in Href. by injection Href. }
  assert (Hres : TXRefMutable_hash σ t
                 = Ok (sha256 (sha256 r),
                       set_tx σ1 t
                         (Transaction.set_ref
                            (TXRefMutable.mk (TXRefMutable._id (Transaction.ref y))
                               (Some (sha256 (sha256 r)))) y))).
  { unfold TXRefMutable_hash. rewrite (proj2 (get_tx_Ok σ t self) Hself). step.
    rewrite Hhash, Hrs. step. by rewrite (proj2 (get_tx_Ok σ1 t y) Hy). }
  eexists _, _. split; [exact Hres|]. split.
  - by apply TXRefMutable_hash_cached in Hres as [? _].
  - split.
    + cbn [txs set_tx]. apply list_lookup_insert_eq. by apply lookup_lt_Some in Hy.
    + cbn [Transaction.ref Transaction.set_ref TXRefMutable._hash TXRefMutable._id
           Transaction.is_segwit_flag Transaction._raw Transaction._raw_sans_segwit].
      rewrite Hsame, Hid. by destruct y.
Qed.

Lemma id_uncached (σ : Store) (t : tx_loc) (self : Transaction.t) (r : bytes) :
  txs σ !! t = Some self ->
  caches_reset self ->
  _serialize σ t true false = Ok r ->
  let h := sha256 (sha256 r) in
  exists σ',
    Transaction_id σ t = Ok (hexlify (rev h), σ')
    /\ Transaction_hash σ' t = Ok (h, σ')
    /\ Transaction_raw_sans_segwit σ' t = Ok (r, σ')
    /\ _serialize σ' t true false = Ok r
    /\ only_caches_filled σ σ'.
Proof.
  intros Hself Hreset Hser h.
  destruct (hash_uncached σ t self r Hself Hreset Hser)
    as (σ1 & y & Hh & Hf & Hy & Hhy & Hiy & Hfield).
  pose proof Hreset as (_ & _ & Hid & _).
  set (y' := Transaction.set_ref
               (TXRefMutable.mk (Some (hexlify (rev h)))
                  (TXRefMutable._hash (Transaction.ref y))) y).
  assert (Hres : Transaction_id σ t = Ok (hexlify (rev h), set_tx σ1 t y')).
  { unfold Transaction_id, TXRefMutable_id.
    rewrite (proj2 (get_tx_Ok σ t self) Hself). step.
    rewrite Hid, Hh. step. by rewrite (proj2 (get_tx_Ok σ1 t y) Hy). }
  assert (Hy' : txs (set_tx σ1 t y') !! t = Some y').
  { cbn [txs set_tx]. apply list_lookup_insert_eq. by apply lookup_lt_Some in Hy. }
  assert (Hf' : only_caches_filled σ (set_tx σ1 t y')).
  { by apply TXRefMutable_id_cached in Hres as [? _]. }
  exists (set_tx σ1 t y'). split; [exact Hres|]. split; [|split; [|split]].
  - unfold Transaction_hash, TXRefMutable_hash.
    rewrite (proj2 (get_tx_Ok _ t y') Hy'). step.
    subst y'. cbn [Transaction.ref Transaction.set_ref TXRefMutable._hash].
    by rewrite Hhy.
  - apply (Transaction_raw_sans_segwit_of_field _ t y'); [done|].
    subst y'. by destruct y.
  - by rewrite (_serialize_only_caches σ _ t true false Hf').
  - done.
Qed.

(** X7. With empty caches, the id of a transaction that serializes to [r]
    is the hex of the reversed hash and the hash is sha256(sha256(r)),
    whether or not the segwit flag is set; once read they are cached,
    together with the bytes they were computed from. *)
Theorem txid_of_uncached (σ : Store) (t : tx_loc) (self : Transaction.t) (r : bytes) :
  txs σ !! t = Some self ->
  caches_reset self ->
  _serialize σ t true false = Ok r ->
  let h := sha256 (sha256 r) in
  exists σ',
    Transaction_id σ t = Ok (hexlify (rev h), σ')
    /\ Transaction_hash σ' t = Ok (h, σ')
    /\ Transaction_raw_sans_segwit σ' t = Ok (r, σ')
    /\ only_caches_filled σ σ'.
Proof.
  intros Hself Hreset Hser h.
  destruct (id_uncached σ t self r Hself Hreset Hser) as (σ' & ? & ? & ? & ? & ?).
  by exists σ'.
Qed.

Lemma _add_reset (σ σ' : Store) (t : tx_loc) (k : io_list) (new : list nat) :
  _add σ t k new true = Ok σ' ->
  exists self', txs σ' !! t = Some self' /\ caches_reset self'.
Proof.
  unfold _add, _reset. intros Ha. inv_bind_as Ha σ1 Hloop.
  inv_bind_as Ha self1 Hself1. injection Ha as <-.
  apply get_tx_Ok, lookup_lt_Some in Hself1.
  eexists. split.
  - cbn [txs set_tx]. by apply list_lookup_insert_eq.
  - by repeat split.
Qed.

(** X8. After [add_inputs] or [add_outputs] the id and the hash are those of
    the new content: whatever hash or id was cached before the call, the
    next read gives the double SHA-256 of the serialization of the
    transaction as it is after the call. *)
Theorem add_refreshes_txid (σ σ1 : Store) (t : tx_loc) (c : call) (r : bytes) :
  run_call t c σ = Ok σ1 ->
  _serialize σ1 t true false = Ok r ->
  let h := sha256 (sha256 r) in
  exists σ2,
    Transaction_id σ1 t = Ok (hexlify (rev h), σ2)
    /\ Transaction_hash σ2 t = Ok (h, σ2)
    /\ only_caches_filled σ1 σ2.
Proof.
  intros Hcall Hser h.
  assert (Hreset : exists self', txs σ1 !! t = Some self' /\ caches_reset self').
  { destruct c; simpl in Hcall; by eapply _add_reset. }
  destruct Hreset as (self' & Hself' & Hreset).
  destruct (id_uncached σ1 t self' r Hself' Hreset Hser) as (σ2 & ? & ? & ? & ? & ?).
  by exists σ2.
Qed.

End Txid.

(** ** The claim payload and its signature *)

Section ClaimPayload.
Context `{Hashes} `{Codecs} `{Base58}.

Lemma store_claim_eq (σ σ' : Store) (l : out_loc) (c : Claim.t) :
  store_claim σ l c = Ok σ' ->
  exists o,
    outs σ !! l = Some o
    /\ σ' = set_out σ l
              (Output.set_script
                 (OutputScript.set_values
                    (<["claim" := VClaim c]> (OutputScript.values (Output.script o)))
                    (Output.script o)) o).
Proof.
  unfold store_claim. intros Hs. inv_bind_as Hs o Ho. apply get_out_Ok in Ho.
  injection Hs as <-. by exists o.
Qed.

Lemma store_claim_frame (σ σ' : Store) (l : out_loc) (c : Claim.t) :
  store_claim σ l c = Ok σ' -> txs σ' = txs σ /\ ins σ' = ins σ.
Proof. intros (o & _ & ->)%store_claim_eq. done. Qed.

Lemma Output_claim_frame (σ σ' : Store) (l : out_loc) (c : Claim.t) :
  Output_claim σ l = Ok (c, σ') -> txs σ' = txs σ /\ ins σ' = ins σ.
Proof.
  unfold Output_claim. intros Hc. inv_bind_as Hc o Ho.
  destruct (Output_is_claim o); [|done].
  inv_bind_as Hc v Hv. destruct v as [b|c0|p]; [| |done].
  - inv_bind_as Hc c1 Hc1. inv_bind_as Hc σ1 Hσ1. injection Hc as _ <-.
    by apply store_claim_frame in Hσ1.
  - by injection Hc as _ <-.
Qed.

Lemma Output_claim_is_claim (σ σ' : Store) (l : out_loc) (c : Claim.t) :
  Output_claim σ l = Ok (c, σ') ->
  exists o, outs σ !! l = Some o /\ Output_is_claim o = true.
Proof.
  unfold Output_claim. intros Hc. inv_bind_as Hc o Ho. apply get_out_Ok in Ho.
  exists o. split; [done|]. by destruct (Output_is_claim o).
Qed.

Lemma Output_claim_of_held (σ : Store) (l : out_loc) (o : Output.t) (c : Claim.t) :
  outs σ !! l = Some o -> Output_is_claim o = true -> held_claim o = Some c ->
  Output_claim σ l = Ok (c, σ).
Proof.
  intros Ho Hclaim Hheld. unfold Output_claim, held_claim in *.
  rewrite (proj2 (get_out_Ok σ l o) Ho). step. rewrite Hclaim.
  destruct (OutputScript.values (Output.script o) !! "claim") as [[b|c1|p]|];
    try discriminate.
  by injection Hheld as ->.
Qed.

Lemma Output_is_claim_template (o o' : Output.t) :
  OutputScript.template (Output.script o') = OutputScript.template (Output.script o) ->
  Output_is_claim o' = Output_is_claim o.
Proof.
  intros Ht. unfold Output_is_claim, OutputScript.is_claim_name,
    OutputScript.is_update_claim. by rewrite Ht.
Qed.

(** X9. The claim payload is decoded at most once: after a first successful
    read of [claim], a second read returns the same claim and changes
    nothing; the first read leaves the script bytes, every other output and
    all transactions and inputs as they were. *)
Theorem claim_decoded_once (σ σ' : Store) (l : out_loc) (c : Claim.t) :
  Output_claim σ l = Ok (c, σ') ->
  Output_claim σ' l = Ok (c, σ')
  /\ txs σ' = txs σ /\ ins σ' = ins σ
  /\ other_outputs_kept l σ σ'
  /\ exists o o',
       outs σ !! l = Some o /\ outs σ' !! l = Some o'
       /\ Output_wire_fields o' = Output_wire_fields o
       /\ held_claim o' = Some c.
Proof.
  intros Hc.
  destruct (Output_claim_frame σ σ' l c Hc) as [Htxs Hins].
  destruct (Output_claim_is_claim σ σ' l c Hc) as (o0 & Ho0 & Hclaim).
  pose proof Hc as Hc'.
  apply Output_claim_Ok in Hc' as (o & o' & Ho & Ho' & Hheld & Hsrc & Htpl & _ & _ & _ & K).
  assert (o0 = o) as -> by congruence.
  split.
  { apply (Output_claim_of_held σ' l o'); [done| |done].
    by rewrite (Output_is_claim_template o o'). }
  split; [done|]. split; [done|]. split; [done|].
  exists o, o'. split; [done|]. split; [done|]. split; [|done].
  unfold Output_wire_fields. rewrite Hsrc. f_equal.
  (* the amount *)
  clear -Hc Ho Ho'. unfold Output_claim in Hc.
  rewrite (proj2 (get_out_Ok σ l o) Ho) in Hc. cbn [mbind result_bind] in Hc.
  destruct (Output_is_claim o); [|done].
  inv_bind_as Hc v Hv. destruct v as [b|c0|p]; [| |done].
  - inv_bind_as Hc c1 Hc1. inv_bind_as Hc σ1 Hσ1. injection Hc as _ <-.
    apply store_claim_eq in Hσ1 as (o1 & Ho1 & ->).
    assert (o1 = o) as -> by congruence.
    cbn [outs set_out] in Ho'.
    rewrite list_lookup_insert_eq in Ho' by (by apply lookup_lt_Some in Ho).
    by injection Ho' as <-.
  - injection Hc as _ <-. congruence.
Qed.

Lemma TXRef_hash_filled (σ σ' : Store) (r : TXRef) (h : bytes) :
  TXRef_hash σ r = Ok (h, σ') -> only_caches_filled σ σ'.
Proof.
  destruct r as [r|t]; simpl.
  - intros [= _ <-]. apply only_caches_filled_refl.
  - by intros [? _]%TXRefMutable_hash_cached.
Qed.

Lemma Output_claim_hash_filled (σ σ' : Store) (o : Output.t) (v : script_value) :
  Output_claim_hash σ o = Ok (v, σ') -> only_caches_filled σ σ'.
Proof.
  unfold Output_claim_hash. intros Hh.
  destruct (OutputScript.is_claim_name (Output.script o)).
  - inv_bind_as Hh r Hr. inv_bind_as Hh hs Hhs. destruct hs as [h σ1].
    inv_bind_as Hh p Hp. inv_bind_as Hh p' Hp'. injection Hh as _ <-.
    by apply TXRef_hash_filled in Hhs.
  - destruct (_ || _); [|done].
    inv_bind_as Hh v' Hv. injection Hh as _ <-. apply only_caches_filled_refl.
Qed.

Lemma Output_claim_id_filled (σ σ' : Store) (o : Output.t) (i : string) :
  Output_claim_id σ o = Ok (i, σ') -> only_caches_filled σ σ'.
Proof.
  unfold Output_claim_id. intros Hi. inv_bind_as Hi vs Hvs. destruct vs as [v σ1].
  destruct v; try done. injection Hi as _ <-. by apply Output_claim_hash_filled in Hvs.
Qed.

Lemma first_input_hash_ext (σ σ' : Store) (o o' : Output.t) :
  Output.tx_ref o' = Output.tx_ref o ->
  Forall2 caches_filled (txs σ) (txs σ') -> ins σ' = ins σ ->
  first_input_hash σ' o' = first_input_hash σ o.
Proof.
  intros Href HT Hins. unfold first_input_hash. rewrite Href.
  destruct (Output.tx_ref o) as [[r|t]|]; try done. cbn [of_option]. step.
  destruct (txs σ !! t) as [x|] eqn:Hx.
  - destruct (Forall2_lookup_l _ _ _ _ _ HT Hx) as (y & Hy & Hxy).
    apply caches_filled_lists in Hxy as (Hi & _).
    rewrite (proj2 (get_tx_Ok σ t x) Hx), (proj2 (get_tx_Ok σ' t y) Hy). step.
    unfold get_in. by rewrite Hi, Hins.
  - apply Forall2_length in HT.
    assert (Hy : txs σ' !! t = None).
    { apply lookup_ge_None_1 in Hx. rewrite HT in Hx. by apply lookup_ge_None_2 in Hx. }
    by rewrite !get_tx_None.
Qed.

End ClaimPayload.

Section Sign.
Context `{Hashes} `{Codecs} `{Base58}.

(** What [sign] computes, step by step. *)
Lemma Output_sign_Ok (σ σ' : Store) (l channel : out_loc)
  (first_input_id : option bytes) :
  Output_sign σ l channel first_input_id = Ok σ' ->
  exists (o o4 o' ch : Output.t) (σ4 : Store) (c : Claim.t) (h first key : bytes),
    outs σ !! l = Some o
    /\ outs σ4 !! l = Some o4
    /\ outs σ' !! l = Some o'
    /\ outs σ' !! channel = Some ch
    /\ Output.private_key ch = Some key
    /\ Output.tx_ref o4 = Output.tx_ref o
    /\ Output.tx_ref o' = Output.tx_ref o
    /\ Output_is_claim o' = true
    /\ first = match first_input_id with
               | Some (b :: bs) => b :: bs
               | _ => first
               end
    /\ (truthy_bytes first_input_id = false -> first_input_hash σ4 o4 = Ok first)
    /\ held_claim o'
       = Some (Claim.set_signature
                 (sign_digest_deterministic key
                    (sha256 (first ++ h ++ Claim.to_message_bytes c)))
                 (Claim.set_signing_channel_hash h c))
    /\ Forall2 caches_filled (txs σ) (txs σ4)
    /\ txs σ' = txs σ4
    /\ ins σ' = ins σ /\ ins σ4 = ins σ.
Proof.
  unfold Output_sign. intros Hs.
  inv_bind_as Hs o Ho. apply get_out_Ok in Ho.
  set (σ1 := set_out σ l (Output.set_channel (Some channel) o)) in *.
  assert (Ho1 : outs σ1 !! l = Some (Output.set_channel (Some channel) o))
    by (by eapply lookup_set_out).
  inv_bind_as Hs ch Hch.
  inv_bind_as Hs vσ Hv. destruct vσ as [v σ2].
  apply Output_claim_hash_filled in Hv as (Hins2 & Houts2 & Htxs2).
  inv_bind_as Hs cσ Hc3. destruct cσ as [c3 σ3].
  destruct (Output_claim_frame _ _ _ _ Hc3) as [Htxs3 Hins3].
  destruct (Output_claim_is_claim _ _ _ _ Hc3) as (o2' & Ho2' & Hclaim2).
  apply Output_claim_Ok in Hc3
    as (o2 & o3 & Ho2 & Ho3 & _ & _ & Htpl3 & _ & Hkey3 & Href3 & K3).
  rewrite Houts2, Ho1 in Ho2. injection Ho2 as <-.
  rewrite Houts2, Ho1 in Ho2'. injection Ho2' as <-.
  inv_bind_as Hs h Hh.
  inv_bind_as Hs σ4 Hσ4.
  destruct (store_claim_frame _ _ _ _ Hσ4) as [Htxs4 Hins4].
  apply store_claim_Ok in Hσ4
    as (o3' & o4 & Ho3' & Ho4 & Hheld4 & _ & Htpl4 & _ & Hkey4 & Href4 & K4).
  rewrite Ho3 in Ho3'. injection Ho3' as <-.
  inv_bind_as Hs self4 Hself4. apply get_out_Ok in Hself4.
  rewrite Ho4 in Hself4. injection Hself4 as <-.
  inv_bind_as Hs first Hfirst.
  inv_bind_as Hs cσ Hc5. destruct cσ as [c5 σ5].
  destruct (Output_claim_held _ _ _ _ _ _ Hc5 Ho4 Hheld4) as [-> ->].
  inv_bind_as Hs sch Hsch. apply of_option_Ok in Hsch. simpl in Hsch.
  injection Hsch as <-.
  inv_bind_as Hs cσ Hc6. destruct cσ as [c6 σ6].
  destruct (Output_claim_held _ _ _ _ _ _ Hc6 Ho4 Hheld4) as [-> ->].
  inv_bind_as Hs ch' Hch'. apply get_out_Ok in Hch'.
  inv_bind_as Hs key Hkey. apply of_option_Ok in Hkey.
  inv_bind_as Hs cσ Hc7. destruct cσ as [c7 σ7].
  destruct (Output_claim_held _ _ _ _ _ _ Hc7 Ho4 Hheld4) as [-> ->].
  inv_bind_as Hs σ8 Hσ8.
  destruct (store_claim_frame _ _ _ _ Hσ8) as [Htxs8 Hins8].
  apply store_claim_Ok in Hσ8
    as (o4' & o8 & Ho4' & Ho8 & Hheld8 & _ & Htpl8 & _ & Hkey8 & Href8 & K8).
  rewrite Ho4 in Ho4'. injection Ho4' as <-.
  inv_bind_as Hs self8 Hself8. apply get_out_Ok in Hself8.
  rewrite Ho8 in Hself8. injection Hself8 as <-.
  injection Hs as <-.
  set (o' := Output.set_script (OutputScript.generate (Output.script o8)) o8).
  assert (Ho' : outs (set_out σ8 l o') !! l = Some o') by (by eapply lookup_set_out).
  assert (Hch_final : exists ch2, outs (set_out σ8 l o') !! channel = Some ch2
                                  /\ Output.private_key ch2 = Some key).
  { destruct (decide (channel = l)) as [->|Hne].
    - exists o'. split; [done|]. subst o'. cbn [Output.private_key Output.set_script].
      rewrite Hkey8. rewrite Ho4 in Hch'. by injection Hch' as <-.
    - exists ch'. split; [|done].
      rewrite (set_out_kept σ8 l o' channel Hne), (K8 channel Hne). done. }
  destruct Hch_final as (ch2 & Hch2 & Hkey2).
  exists o, o4, o', ch2, σ4, c3, h, first, key.
  split; [done|]. split; [done|]. split; [done|]. split; [done|]. split; [done|].
  split; [by rewrite Href4, Href3|].
  split; [subst o'; cbn [Output.tx_ref Output.set_script]; by rewrite Href8, Href4, Href3|].
  split.
  { rewrite <- Hclaim2. apply Output_is_claim_template. subst o'.
    cbn [Output.script Output.set_script OutputScript.template OutputScript.generate].
    by rewrite Htpl8, Htpl4, Htpl3. }
  split.
  { destruct first_input_id as [[|b bs]|]; try done.
    by injection Hfirst as <-. }
  split.
  { intros Hfalsy. by destruct first_input_id as [[|b bs]|]. }
  split.
  { subst o'. unfold held_claim in *.
    cbn [Output.script Output.set_script OutputScript.values OutputScript.generate].
    exact Hheld8. }
  split; [by rewrite Htxs4, Htxs3|].
  split; [cbn [txs set_out]; by rewrite Htxs8|].
  split; [cbn [ins set_out]; by rewrite Hins8, Hins4, Hins3, Hins2|].
  by rewrite Hins4, Hins3, Hins2.
Qed.

(** X10. [sign] never resets the caches of a transaction: raw bytes and a
    hash that were cached before the call are what [raw] and [hash] return
    after it, although the signed output now holds script bytes rebuilt
    from its value map; the signature reaches the bytes of the owning
    transaction only after a reset. *)
Theorem sign_keeps_cached_raw (σ σ' : Store) (l channel : out_loc)
  (first_input_id : option bytes) (t : tx_loc) (self : Transaction.t) :
  Output_sign σ l channel first_input_id = Ok σ' ->
  txs σ !! t = Some self ->
  (forall r, Transaction._raw self = Some r -> Transaction_raw σ' t = Ok (r, σ'))
  /\ (forall h, TXRefMutable._hash (Transaction.ref self) = Some h ->
        Transaction_hash σ' t = Ok (h, σ'))
  /\ exists o', outs σ' !! l = Some o' /\ script_is_current o'.
Proof.
  intros Hs Hself.
  destruct (sign_regenerates_script σ σ' l channel first_input_id Hs)
    as (o' & c & Ho' & Hcur & _).
  destruct (Output_sign_Ok σ σ' l channel first_input_id Hs)
    as (o & o4 & o'' & ch & σ4 & c0 & h0 & first & key & _ & _ & _ & _ & _ & _ & _ & _ & _
        & _ & _ & HT & Htxs & _).
  destruct (Forall2_lookup_l _ _ _ _ _ HT Hself) as (y & Hy & _ & Hraw & _ & Hhash & _).
  rewrite <- Htxs in Hy.
  split; [|split; [|by exists o']].
  - intros r Hr. unfold Transaction_raw.
    rewrite (proj2 (get_tx_Ok σ' t y) Hy). step. by rewrite (Hraw r Hr).
  - intros h Hh. unfold Transaction_hash, TXRefMutable_hash.
    rewrite (proj2 (get_tx_Ok σ' t y) Hy). step. by rewrite (Hhash h Hh).
Qed.

(** X11. The signature [sign] stores is the signature, under the channel's
    private key, of the digest a verifier recomputes: when no
    [first_input_id] is passed and the claim has no [unsigned_payload],
    [get_signature_digest] on the signed output returns
    sha256(first input's outpoint hash ++ signing channel hash ++ message),
    and the claim's signature is [sign_digest_deterministic] of exactly that
    digest. *)
Theorem sign_digest_agrees (ledger : Ledger) (σ σ' : Store) (l channel : out_loc)
  (first_input_id : option bytes) :
  Output_sign σ l channel first_input_id = Ok σ' ->
  truthy_bytes first_input_id = false ->
  exists (o' ch : Output.t) (c' : Claim.t) (key first sch : bytes),
    outs σ' !! l = Some o'
    /\ held_claim o' = Some c'
    /\ outs σ' !! channel = Some ch
    /\ Output.private_key ch = Some key
    /\ first_input_hash σ' o' = Ok first
    /\ Claim.signing_channel_hash c' = Some sch
    /\ let digest := sha256 (first ++ sch ++ Claim.to_message_bytes c') in
       Claim.signature c' = Some (sign_digest_deterministic key digest)
       /\ (truthy_bytes (Claim.unsigned_payload c') = false ->
           Output_get_signature_digest ledger σ' l = Ok (digest, σ')).
Proof.
  intros Hs Hfalsy.
  destruct (Output_sign_Ok σ σ' l channel first_input_id Hs)
    as (o & o4 & o' & ch & σ4 & c & h & first & key & Ho & Ho4 & Ho' & Hch & Hkey
        & Href4 & Href' & Hclaim & _ & Hfirst & Hheld & HT & Htxs & Hins' & Hins4).
  specialize (Hfirst Hfalsy).
  assert (Hfirst' : first_input_hash σ' o' = Ok first).
  { rewrite <- Hfirst. apply first_input_hash_ext.
    - congruence.
    - rewrite Htxs. apply Forall_Forall2_diag, Forall_forall. intros.
      apply caches_filled_refl.
    - congruence. }
  eexists o', ch, _, key, first, h.
  split; [done|]. split; [exact Hheld|]. split; [done|]. split; [done|].
  split; [done|]. split; [done|]. cbv zeta. split; [done|].
  intros Hpayload. unfold Output_get_signature_digest.
  rewrite !(Output_claim_of_held σ' l o' _ Ho' Hclaim Hheld). step.
  rewrite Hpayload. rewrite (proj2 (get_out_Ok σ' l o') Ho'). step.
  rewrite Hfirst'. step.
  rewrite (Output_claim_of_held σ' l o' _ Ho' Hclaim Hheld). step.
  cbn [Claim.signing_channel_hash Claim.set_signature Claim.set_signing_channel_hash
       of_option]. step.
  rewrite (Output_claim_of_held σ' l o' _ Ho' Hclaim Hheld). step.
  done.
Qed.

End Sign.

(** ** Annotations, status and balance *)

Lemma for_each_ext {A S} (f g : A -> S -> result S) (xs : list A) :
  (forall x s, x ∈ xs -> f x s = g x s) ->
  forall s, for_each f xs s = for_each g xs s.
Proof.
  induction xs as [|x xs IH]; intros Hfg s; [done|].
  cbn [for_each]. rewrite Hfg by left.
  destruct (g x s) as [s'|e]; [|done]. step. apply IH.
  intros y s'' Hy. apply Hfg. by right.
Qed.

Section Annotations.
Context `{Hashes} `{Codecs}.

(** [_serialize] reads of the outputs only the amounts and the script
    bytes. *)
Lemma _serialize_outs_wire (σ σ' : Store) (t : tx_loc) (with_inputs sans_segwit : bool) :
  txs σ' = txs σ -> ins σ' = ins σ ->
  (forall l, Output_wire_fields <$> outs σ' !! l = Output_wire_fields <$> outs σ !! l) ->
  _serialize σ' t with_inputs sans_segwit = _serialize σ t with_inputs sans_segwit.
Proof.
  intros Htxs Hins Houts. unfold _serialize, get_tx, get_in. rewrite Htxs, Hins.
  destruct (of_option InvalidLocation (txs σ !! t)) as [self|e]; [|done]. step.
  destruct (write_uint32 _ _) as [s1|e]; [|done]. step.
  destruct (if with_inputs then _ else _) as [s2|e]; [|done]. step.
  destruct (write_compact_size _ s2) as [s3|e]; [|done]. step.
  rewrite (for_each_ext _
    (fun l stream => txout ← get_out σ l; Output_serialize_to txout None stream)); [done|].
  intros l s _. unfold get_out. specialize (Houts l). unfold out_loc in *.
  destruct (outs σ' !! l) as [o'|], (outs σ !! l) as [o|]; try done.
  cbn [fmap option_fmap option_map] in Houts. unfold Output_wire_fields in Houts.
  injection Houts as Ha Hs. cbn [of_option]. step.
  unfold Output_serialize_to. by rewrite Ha, Hs.
Qed.

(** X12. [update_annotations] writes the seven annotations, [channel] and
    [private_key] of one output, all [None] when called with [None] and
    copied from the annotated output otherwise, and nothing else: owner,
    position, amount, script and the links of the output, every other
    output, the inputs and the transactions are as before, so that no
    serialization changes; annotating an output from itself changes
    nothing. *)
Theorem update_annotations_spec (σ σ' : Store) (l : out_loc) (annotated : option out_loc) :
  Output_update_annotations σ l annotated = Ok σ' ->
  txs σ' = txs σ /\ ins σ' = ins σ /\ other_outputs_kept l σ σ'
  /\ (exists o o',
        outs σ !! l = Some o /\ outs σ' !! l = Some o'
        /\ unannotated o' = unannotated o
        /\ match annotated with
           | None =>
               annotations o' = (None, None, None, None, None, None, None, None, None)
           | Some la => exists a, outs σ !! la = Some a /\ annotations o' = annotations a
           end)
  /\ (forall t with_inputs sans_segwit,
        _serialize σ' t with_inputs sans_segwit = _serialize σ t with_inputs sans_segwit)
  /\ (annotated = Some l -> σ' = σ).
Proof.
  unfold Output_update_annotations. intros Hu.
  inv_bind_as Hu o Ho. apply get_out_Ok in Ho.
  assert (Hmain : exists o',
    σ' = set_out σ l o' /\ unannotated o' = unannotated o
    /\ match annotated with
       | None => annotations o' = (None, None, None, None, None, None, None, None, None)
       | Some la => exists a, outs σ !! la = Some a /\ annotations o' = annotations a
       end).
  { destruct annotated as [la|].
    - inv_bind_as Hu a Ha. apply get_out_Ok in Ha. injection Hu as <-.
      eexists. split; [reflexivity|]. split; [done|]. by exists a.
    - injection Hu as <-. eexists. split; [reflexivity|]. by split. }
  destruct Hmain as (o' & -> & Hun & Hann).
  split; [done|]. split; [done|]. split; [apply set_out_kept|].
  split; [|split].
  - exists o, o'. split; [done|]. split; [by eapply lookup_set_out|]. by split.
  - intros t w s. apply _serialize_outs_wire; [done..|].
    intros l'. cbn [outs set_out]. unfold out_loc in *.
    destruct (decide (l' = l)) as [->|Hne].
    + rewrite list_lookup_insert_eq by (by apply lookup_lt_Some in Ho). rewrite Ho. simpl.
      f_equal. unfold Output_wire_fields. unfold unannotated in Hun.
      by injection Hun as _ _ -> -> _ _ _ _ _ _.
    + by rewrite list_lookup_insert_ne.
  - intros ->. destruct Hann as (a & Ha & Hann).
    assert (a = o) as -> by congruence.
    assert (o' = o) as ->.
    { destruct o, o'. unfold unannotated, annotations in *. simpl in *. by simplify_eq. }
    destruct σ. unfold set_out. simpl in *. f_equal. by apply list_insert_id.
Qed.

End Annotations.

(** X13. The three status flags follow the height progression: a
    transaction is broadcast exactly when it is in the mempool or
    confirmed, never both; in the mempool means height -1 or 0, confirmed
    means a positive height, and below -1 it is none of the three. *)
Theorem height_status (self : Transaction.t) :
  Transaction_is_broadcast self
  = Transaction_is_mempool self || Transaction_is_confirmed self
  /\ Transaction_is_mempool self && Transaction_is_confirmed self = false
  /\ (Transaction_is_mempool self = true <-> -1 <= Transaction.height self <= 0)
  /\ (Transaction_is_confirmed self = true <-> 1 <= Transaction.height self)
  /\ (Transaction_is_broadcast self = false <-> Transaction.height self <= -2).
Proof.
  unfold Transaction_is_broadcast, Transaction_is_mempool, Transaction_is_confirmed.
  destruct (Z.ltb_spec (-2) (Transaction.height self)),
    (Z.eqb_spec (Transaction.height self) (-1)),
    (Z.eqb_spec (Transaction.height self) 0),
    (Z.ltb_spec 0 (Transaction.height self));
    simpl; repeat split; intros; try done; try lia.
Qed.

Section Balance.
Context `{Hashes} `{Codecs}.

Lemma net_balance_input_value (σ : Store) (l : in_loc) (balance : Z) :
  annotated_input σ l = true ->
  net_balance_input σ l balance = Ok (balance - sum_Z (own_input_amounts σ [l])).
Proof.
  unfold annotated_input, net_balance_input, own_input_amounts, spent_output.
  cbn [omap list_omap]. intros Hl.
  destruct (ins σ !! l) as [i|] eqn:Hi; [|done].
  rewrite (proj2 (get_in_Ok σ l i) Hi). step. simpl.
  destruct (TXORef.txo (Input.txo_ref i)) as [lo|] eqn:Hlo.
  - unfold annotated_output in Hl. simpl.
    destruct (outs σ !! lo) as [o|] eqn:Ho; [|done].
    apply bool_decide_eq_true in Hl as [b Hb].
    unfold Input_is_my_input, Input_amount. rewrite Hlo.
    rewrite (proj2 (get_out_Ok σ lo o) Ho). step. simpl. rewrite Hb.
    destruct b; simpl; f_equal; lia.
  - simpl. f_equal. lia.
Qed.

Lemma net_balance_output_value (σ : Store) (l : out_loc) (balance : Z) :
  annotated_output σ l = true ->
  net_balance_output σ l balance = Ok (balance + sum_Z (own_output_amounts σ [l])).
Proof.
  unfold annotated_output, net_balance_output, own_output_amounts.
  cbn [omap list_omap]. intros Hl.
  destruct (outs σ !! l) as [o|] eqn:Ho; [|done].
  rewrite (proj2 (get_out_Ok σ l o) Ho). step. simpl.
  apply bool_decide_eq_true in Hl as [b Hb]. rewrite Hb.
  destruct b; simpl; f_equal; lia.
Qed.

Lemma sum_Z_app (xs ys : list Z) : sum_Z (xs ++ ys) = sum_Z xs + sum_Z ys.
Proof. induction xs as [|x xs IH]; simpl; [done|]. unfold sum_Z in *. simpl. lia. Qed.

Lemma own_input_amounts_cons (σ : Store) (l : in_loc) (ls : list in_loc) :
  own_input_amounts σ (l :: ls) = own_input_amounts σ [l] ++ own_input_amounts σ ls.
Proof. unfold own_input_amounts. cbn [omap list_omap]. by destruct (_ ≫= _). Qed.

Lemma own_output_amounts_cons (σ : Store) (l : out_loc) (ls : list out_loc) :
  own_output_amounts σ (l :: ls) = own_output_amounts σ [l] ++ own_output_amounts σ ls.
Proof. unfold own_output_amounts. cbn [omap list_omap]. by destruct (_ ≫= _). Qed.

Lemma net_balance_inputs_value (σ : Store) (ls : list in_loc) :
  forallb (annotated_input σ) ls = true ->
  forall balance,
    for_each (net_balance_input σ) ls balance
    = Ok (balance - sum_Z (own_input_amounts σ ls)).
Proof.
  induction ls as [|l ls IH]; intros Hann balance.
  - simpl. f_equal. lia.
  - cbn [forallb] in Hann. apply andb_true_iff in Hann as [Hl Hann].
    cbn [for_each]. rewrite net_balance_input_value by done. step.
    rewrite IH by done. rewrite (own_input_amounts_cons σ l ls), sum_Z_app.
    f_equal. lia.
Qed.

Lemma net_balance_outputs_value (σ : Store) (ls : list out_loc) :
  forallb (annotated_output σ) ls = true ->
  forall balance,
    for_each (net_balance_output σ) ls balance
    = Ok (balance + sum_Z (own_output_amounts σ ls)).
Proof.
  induction ls as [|l ls IH]; intros Hann balance.
  - simpl. f_equal. lia.
  - cbn [forallb] in Hann. apply andb_true_iff in Hann as [Hl Hann].
    cbn [for_each]. rewrite net_balance_output_value by done. step.
    rewrite IH by done. rewrite (own_output_amounts_cons σ l ls), sum_Z_app.
    f_equal. lia.
Qed.

Lemma my_inputs_loop (σ : Store) (ls : list in_loc) :
  forallb (annotated_input σ) ls = true ->
  exists mine,
    filterM (fun l : in_loc =>
        txi ← get_in σ l;
        match TXORef.txo (Input.txo_ref txi) with
        | None => Ok false
        | Some lo => txo ← get_out σ lo; Ok (truthy (Output.is_my_output txo))
        end) ls = Ok mine
    /\ resolved_amounts σ mine = own_input_amounts σ ls.
Proof.
  induction ls as [|l ls IH]; intros Hann; [by exists []|].
  cbn [forallb] in Hann. apply andb_true_iff in Hann as [Hl Hann].
  destruct (IH Hann) as (mine & Hmine & Hsum).
  cbn [filterM]. rewrite Hmine. rewrite own_input_amounts_cons, <- Hsum.
  unfold annotated_input in Hl. unfold own_input_amounts, spent_output.
  cbn [omap list_omap].
  destruct (ins σ !! l) as [i|] eqn:Hi; [|done].
  rewrite (proj2 (get_in_Ok σ l i) Hi). step. simpl.
  destruct (TXORef.txo (Input.txo_ref i)) as [lo|] eqn:Hlo; simpl.
  - unfold annotated_output in Hl.
    destruct (outs σ !! lo) as [o|] eqn:Ho; [|done].
    rewrite (proj2 (get_out_Ok σ lo o) Ho). step. simpl.
    destruct (truthy (Output.is_my_output o)).
    + eexists. split; [reflexivity|]. rewrite resolved_amounts_cons.
      unfold spent_output. rewrite Hi. simpl. rewrite Hlo. simpl. by rewrite Ho.
    + by eexists.
  - by eexists.
Qed.

(** X14. When [is_my_output] is set on every output of the transaction and
    on every output its resolved inputs spend, [net_account_balance] is the
    sum of the amounts of the transaction's own outputs minus the sum of
    the amounts of the own outputs its inputs spend; inputs that do not
    resolve count for nothing, and the inputs that count are the ones
    [my_inputs] yields. *)
Theorem net_account_balance_value (σ : Store) (t : tx_loc) (self : Transaction.t) :
  txs σ !! t = Some self ->
  forallb (annotated_input σ) (Transaction._inputs self) = true ->
  forallb (annotated_output σ) (Transaction._outputs self) = true ->
  Transaction_net_account_balance σ t
  = Ok (sum_Z (own_output_amounts σ (Transaction._outputs self))
        - sum_Z (own_input_amounts σ (Transaction._inputs self)))
  /\ exists mine,
       Transaction_my_inputs σ t = Ok mine
       /\ resolved_amounts σ mine = own_input_amounts σ (Transaction._inputs self).
Proof.
  intros Hself Hin Hout. split.
  - unfold Transaction_net_account_balance.
    rewrite (proj2 (get_tx_Ok σ t self) Hself). step.
    rewrite net_balance_inputs_value by done. step.
    rewrite net_balance_outputs_value by done. f_equal. lia.
  - unfold Transaction_my_inputs, Transaction_inputs.
    rewrite (proj2 (get_tx_Ok σ t self) Hself). step.
    by apply my_inputs_loop.
Qed.

End Balance.

(** ** The outputs of the wallet *)

Section Filters.
Context `{Hashes} `{Codecs} `{Base58}.

Lemma filterM_pure {A} (p : A -> result bool) (q : A -> bool) (xs : list A) :
  (forall x, x ∈ xs -> p x = Ok (q x)) -> filterM p xs = Ok (List.filter q xs).
Proof.
  induction xs as [|x xs IH]; intros Hp; [done|].
  cbn [filterM List.filter]. rewrite Hp by left. step.
  rewrite IH by (intros y Hy; apply Hp; by right). done.
Qed.

Lemma filterM_Ok {A} (p : A -> result bool) (xs ys : list A) :
  filterM p xs = Ok ys ->
  Forall (fun x => is_ok (p x) = true) xs
  /\ forall x, x ∈ ys <-> x ∈ xs /\ p x = Ok true.
Proof.
  revert ys. induction xs as [|x xs IH]; intros ys Hf.
  - injection Hf as <-. split; [done|]. intros x. split; [by intros ?%elem_of_nil|].
    by intros [?%elem_of_nil _].
  - cbn [filterM] in Hf. inv_bind_as Hf b Hb. inv_bind_as Hf zs Hzs.
    injection Hf as <-. destruct (IH zs Hzs) as [Hall Hmem]. split.
    + constructor; [by rewrite Hb|done].
    + intros y. destruct b.
      * rewrite !elem_of_cons, Hmem. split.
        -- intros [->|[? ?]]; [by split; [left|]|by split; [right|]].
        -- intros [[->|?] ?]; [by left|by right].
      * rewrite elem_of_cons, Hmem. split.
        -- intros [? ?]. by split; [right|].
        -- intros [[->|?] ?]; [congruence|done].
Qed.

Lemma filter_partition_length {A} (p q r : A -> bool) (xs : list A) :
  (forall x, r x = p x || q x) -> (forall x, p x && q x = false) ->
  (length (List.filter p xs) + length (List.filter q xs))%nat
  = length (List.filter r xs).
Proof.
  intros Hr Hpq. induction xs as [|x xs IH]; [done|].
  cbn [List.filter]. rewrite Hr. specialize (Hpq x).
  destruct (p x), (q x); simpl in *; try done; lia.
Qed.

Lemma all_allocated_lookup (σ : Store) (ls : list out_loc) (l : out_loc) :
  all_allocated σ ls = true -> l ∈ ls -> exists o, outs σ !! l = Some o.
Proof.
  unfold all_allocated. rewrite forallb_forall. intros Hall Hl.
  apply list_elem_of_In, Hall, bool_decide_eq_true in Hl. exact Hl.
Qed.

(** X15. The supports among the outputs of a transaction are split between
    [my_support_outputs] and [other_support_outputs]: each generator yields,
    in order, the supports whose [is_my_output] is [True], respectively is
    not [True] ([False] or never set); no output is yielded by both and
    together they yield every support once. *)
Theorem support_outputs_partition (σ : Store) (t : tx_loc) (self : Transaction.t) :
  txs σ !! t = Some self ->
  all_allocated σ (Transaction._outputs self) = true ->
  Transaction_my_support_outputs σ t
  = Ok (List.filter (own_support σ) (Transaction._outputs self))
  /\ Transaction_other_support_outputs σ t
     = Ok (List.filter (other_support σ) (Transaction._outputs self))
  /\ (forall l, own_support σ l && other_support σ l = false)
  /\ (length (List.filter (own_support σ) (Transaction._outputs self))
      + length (List.filter (other_support σ) (Transaction._outputs self)))%nat
     = length (List.filter (support_at σ) (Transaction._outputs self)).
Proof.
  intros Hself Hall.
  assert (Hdisj : forall l, own_support σ l && other_support σ l = false).
  { intros l. unfold own_support, other_support. destruct (outs σ !! l) as [o|]; [|done].
    destruct (truthy _), (OutputScript.is_support_claim _); done. }
  split; [|split; [|split; [done|]]].
  - unfold Transaction_my_support_outputs, _filter_my_outputs, Transaction_outputs.
    rewrite (proj2 (get_tx_Ok σ t self) Hself). step.
    apply filterM_pure. intros l Hl.
    destruct (all_allocated_lookup σ _ l Hall Hl) as (o & Ho).
    rewrite (proj2 (get_out_Ok σ l o) Ho). step. unfold own_support. by rewrite Ho.
  - unfold Transaction_other_support_outputs, _filter_other_outputs, Transaction_outputs.
    rewrite (proj2 (get_tx_Ok σ t self) Hself). step.
    apply filterM_pure. intros l Hl.
    destruct (all_allocated_lookup σ _ l Hall Hl) as (o & Ho).
    rewrite (proj2 (get_out_Ok σ l o) Ho). step. unfold other_support. by rewrite Ho.
  - apply filter_partition_length; [|done].
    intros l. unfold own_support, other_support, support_at.
    destruct (outs σ !! l) as [o|]; [|done].
    destruct (truthy _), (OutputScript.is_support_claim _); done.
Qed.

End Filters.

(** ** What the reads of cached properties return *)

Lemma get_tx_set_tx_ne (σ : Store) (t t' : tx_loc) (y : Transaction.t) :
  t <> t' -> get_tx (set_tx σ t' y) t = get_tx σ t.
Proof.
  intros Hne. unfold get_tx, set_tx. cbn [txs].
  by rewrite list_lookup_insert_ne.
Qed.

Section Values.
Context `{Hashes} `{Codecs}.

Lemma same_values_refl (σ : Store) : same_values σ σ.
Proof. by intros t. Qed.

Lemma same_values_trans (σ1 σ2 σ3 : Store) :
  same_values σ1 σ2 -> same_values σ2 σ3 -> same_values σ1 σ3.
Proof.
  intros H12 H23 t. destruct (H12 t) as (A1 & B1 & C1), (H23 t) as (A2 & B2 & C2).
  repeat split; congruence.
Qed.

(** Filling caches of one transaction with the values that reads return
    changes no value that a read returns. *)
Lemma same_values_set_tx (σ : Store) (t' : tx_loc) (x y : Transaction.t) :
  txs σ !! t' = Some x ->
  uncached y = uncached x ->
  filled_by_read (raw_value σ t') (Transaction._raw x) (Transaction._raw y) ->
  filled_by_read (raw_sans_segwit_value σ t')
    (Transaction._raw_sans_segwit x) (Transaction._raw_sans_segwit y) ->
  filled_by_read (hash_value σ t')
    (TXRefMutable._hash (Transaction.ref x)) (TXRefMutable._hash (Transaction.ref y)) ->
  (forall i, TXRefMutable._id (Transaction.ref x) = Some i ->
     TXRefMutable._id (Transaction.ref y) = Some i) ->
  only_caches_filled σ (set_tx σ t' y) /\ same_values σ (set_tx σ t' y).
Proof.
  intros Hx Hu Hraw Hrss Hhash Hid.
  assert (Hxy : caches_filled x y).
  { split; [done|]. split; [|split; [|split]]; [| | |done].
    - intros r Hr. destruct Hraw as [->|[Hn _]]; [done|congruence].
    - intros r Hr. destruct Hrss as [->|[Hn _]]; [done|congruence].
    - intros h Hh. destruct Hhash as [->|[Hn _]]; [done|congruence]. }
  pose proof (only_caches_filled_set_tx σ t' x y Hx Hxy) as Hf.
  split; [done|].
  pose proof (caches_filled_lists x y Hxy) as (_ & _ & _ & _ & Hflag & _).
  assert (Hlt : (t' < length (txs σ))%nat) by (by apply lookup_lt_Some in Hx).
  assert (Hs : forall t wi ss, _serialize (set_tx σ t' y) t wi ss = _serialize σ t wi ss)
    by (intros; by apply _serialize_only_caches).
  assert (A : forall t, raw_value (set_tx σ t' y) t = raw_value σ t).
  { intros t. unfold raw_value. destruct (decide (t = t')) as [->|Hne].
    - rewrite get_tx_set_tx by done. rewrite (proj2 (get_tx_Ok σ t' x) Hx). step.
      rewrite Hs. destruct Hraw as [->|(Hn & r & Hv & ->)]; [done|].
      unfold raw_value in Hv. rewrite (proj2 (get_tx_Ok σ t' x) Hx) in Hv.
      cbn [mbind result_bind] in Hv. rewrite Hn in Hv |- *. by rewrite Hv.
    - rewrite get_tx_set_tx_ne by done. destruct (get_tx σ t); [|done]. step.
      by rewrite Hs. }
  assert (B : forall t, raw_sans_segwit_value (set_tx σ t' y) t
                        = raw_sans_segwit_value σ t).
  { intros t. unfold raw_sans_segwit_value. rewrite A.
    destruct (decide (t = t')) as [->|Hne].
    - rewrite get_tx_set_tx by done. rewrite (proj2 (get_tx_Ok σ t' x) Hx). step.
      rewrite Hs, Hflag. destruct (negb (Transaction.is_segwit_flag x =? 0)) eqn:Hfl; [|done].
      destruct Hrss as [->|(Hn & r & Hv & ->)]; [done|].
      unfold raw_sans_segwit_value in Hv. rewrite (proj2 (get_tx_Ok σ t' x) Hx) in Hv.
      cbn [mbind result_bind] in Hv. rewrite Hfl, Hn in Hv. rewrite Hn. by rewrite Hv.
    - rewrite get_tx_set_tx_ne by done. destruct (get_tx σ t); [|done]. step.
      by rewrite Hs. }
  intros t. split; [done|]. split; [done|].
  unfold hash_value. rewrite B. destruct (decide (t = t')) as [->|Hne].
  - rewrite get_tx_set_tx by done. rewrite (proj2 (get_tx_Ok σ t' x) Hx). step.
    destruct Hhash as [->|(Hn & h & Hv & ->)]; [done|].
    unfold hash_value in Hv. rewrite (proj2 (get_tx_Ok σ t' x) Hx) in Hv.
    cbn [mbind result_bind] in Hv. rewrite Hn in Hv |- *. by rewrite Hv.
  - by rewrite get_tx_set_tx_ne by done.
Qed.

(** *** The reads return the values, and change none *)

Lemma Transaction_raw_value (σ σ' : Store) (t : tx_loc) (r : bytes) :
  Transaction_raw σ t = Ok (r, σ') ->
  raw_value σ t = Ok r /\ only_caches_filled σ σ' /\ same_values σ σ'.
Proof.
  unfold Transaction_raw, raw_value. intros Hr. inv_bind_as Hr self Hself.
  rewrite Hself. step. apply get_tx_Ok in Hself.
  destruct (Transaction._raw self) as [r0|] eqn:Hraw.
  - injection Hr as <- <-.
    split; [done|]. split; [apply only_caches_filled_refl | apply same_values_refl].
  - inv_bind_as Hr r1 Hs. injection Hr as <- <-. split; [done|].
    apply (same_values_set_tx σ t self); try done.
    + right. split; [done|]. exists r1. split; [|done].
      unfold raw_value. rewrite (proj2 (get_tx_Ok σ t self) Hself). step.
      by rewrite Hraw.
    + by left.
    + by left.
Qed.

Lemma raw_value_read (σ : Store) (t : tx_loc) (r : bytes) :
  raw_value σ t = Ok r -> exists σ', Transaction_raw σ t = Ok (r, σ').
Proof.
  unfold Transaction_raw, raw_value. intros Hr. inv_bind_as Hr self Hself.
  rewrite Hself. step. destruct (Transaction._raw self).
  - injection Hr as <-. by eexists.
  - rewrite Hr. step. by eexists.
Qed.

Lemma Transaction_raw_sans_segwit_value (σ σ' : Store) (t : tx_loc) (r : bytes) :
  Transaction_raw_sans_segwit σ t = Ok (r, σ') ->
  raw_sans_segwit_value σ t = Ok r /\ only_caches_filled σ σ' /\ same_values σ σ'.
Proof.
  unfold Transaction_raw_sans_segwit, raw_sans_segwit_value. intros Hr.
  inv_bind_as Hr self Hself. rewrite Hself. step. apply get_tx_Ok in Hself.
  destruct (negb (Transaction.is_segwit_flag self =? 0)) eqn:Hfl.
  2:{ by apply Transaction_raw_value. }
  destruct (Transaction._raw_sans_segwit self) as [r0|] eqn:Hrss.
  - injection Hr as <- <-.
    split; [done|]. split; [apply only_caches_filled_refl | apply same_values_refl].
  - inv_bind_as Hr r1 Hs. injection Hr as <- <-. split; [done|].
    apply (same_values_set_tx σ t self); try done.
    + by left.
    + right. split; [done|]. exists r1. split; [|done].
      unfold raw_sans_segwit_value. rewrite (proj2 (get_tx_Ok σ t self) Hself). step.
      by rewrite Hfl, Hrss.
    + by left.
Qed.

Lemma raw_sans_segwit_value_read (σ : Store) (t : tx_loc) (r : bytes) :
  raw_sans_segwit_value σ t = Ok r ->
  exists σ', Transaction_raw_sans_segwit σ t = Ok (r, σ').
Proof.
  unfold Transaction_raw_sans_segwit, raw_sans_segwit_value. intros Hr.
  inv_bind_as Hr self Hself. rewrite Hself. step.
  destruct (negb (Transaction.is_segwit_flag self =? 0)).
  2:{ by apply raw_value_read. }
  destruct (Transaction._raw_sans_segwit self).
  - injection Hr as <-. by eexists.
  - rewrite Hr. step. by eexists.
Qed.

Lemma TXRefMutable_hash_value (σ σ' : Store) (t : tx_loc) (h : bytes) :
  TXRefMutable_hash σ t = Ok (h, σ') ->
  hash_value σ t = Ok h /\ only_caches_filled σ σ' /\ same_values σ σ'.
Proof.
  unfold TXRefMutable_hash, hash_value. intros Hh. inv_bind_as Hh self Hself.
  rewrite Hself. step. apply get_tx_Ok in Hself.
  destruct (TXRefMutable._hash (Transaction.ref self)) as [h0|] eqn:Hhash.
  - injection Hh as <- <-.
    split; [done|]. split; [apply only_caches_filled_refl | apply same_values_refl].
  - inv_bind_as Hh rs Hrs. destruct rs as [r σ1].
    inv_bind_as Hh self1 Hself1. injection Hh as <- <-.
    apply Transaction_raw_sans_segwit_ref in Hrs as Href.
    destruct (Transaction_raw_sans_segwit_value σ σ1 t r Hrs) as (Hv & Hf & Hsame).
    rewrite Hv. step. split; [done|].
    apply get_tx_Ok in Hself1.
    assert (Hrefs : Transaction.ref self1 = Transaction.ref self).
    { apply (f_equal (fun l => l !! t)) in Href.
      rewrite !list_lookup_fmap in Href. unfold tx_loc in *.
      rewrite Hself, Hself1 in Href. by injection Href. }
    destruct (same_values_set_tx σ1 t self1
                (Transaction.set_ref
                   (TXRefMutable.mk (TXRefMutable._id (Transaction.ref self1))
                      (Some (sha256 (sha256 r)))) self1)) as [Hf1 Hsame1]; try done.
    + by left.
    + by left.
    + right. rewrite Hrefs. split; [done|]. eexists. split; [|done].
      destruct (Hsame t) as (_ & _ & ->). unfold hash_value.
      rewrite (proj2 (get_tx_Ok σ t self) Hself). step. rewrite Hhash, Hv. done.
    + split; [by eapply only_caches_filled_trans | by eapply same_values_trans].
Qed.

Lemma hash_value_read (σ : Store) (t : tx_loc) (h : bytes) :
  hash_value σ t = Ok h -> exists σ', TXRefMutable_hash σ t = Ok (h, σ').
Proof.
  unfold TXRefMutable_hash, hash_value. intros Hh. inv_bind_as Hh self Hself.
  rewrite Hself. step. destruct (TXRefMutable._hash (Transaction.ref self)).
  - injection Hh as <-. by eexists.
  - inv_bind_as Hh r Hr. injection Hh as <-.
    destruct (raw_sans_segwit_value_read σ t r Hr) as (σ1 & Hrs). rewrite Hrs. step.
    destruct (Transaction_raw_sans_segwit_cached σ σ1 t r Hrs) as [Hf _].
    apply get_tx_Ok in Hself.
    destruct (only_caches_filled_lookup σ σ1 t self Hf Hself) as (y & Hy & _).
    rewrite (proj2 (get_tx_Ok σ1 t y) Hy). step. by eexists.
Qed.

Lemma TXRefMutable_id_value (σ σ' : Store) (t : tx_loc) (i : string) :
  TXRefMutable_id σ t = Ok (i, σ') -> only_caches_filled σ σ' /\ same_values σ σ'.
Proof.
  unfold TXRefMutable_id. intros Hi. inv_bind_as Hi self Hself.
  destruct (TXRefMutable._id (Transaction.ref self)) as [i0|] eqn:Hnoid.
  - injection Hi as _ <-.
    split; [apply only_caches_filled_refl | apply same_values_refl].
  - inv_bind_as Hi hs Hhs. destruct hs as [h σ1].
    inv_bind_as Hi self1 Hself1. injection Hi as _ <-.
    destruct (TXRefMutable_hash_value σ σ1 t h Hhs) as (_ & Hf & Hsame).
    apply get_tx_Ok in Hself1.
    destruct (same_values_set_tx σ1 t self1
                (Transaction.set_ref
                   (TXRefMutable.mk (Some (hexlify (rev h)))
                      (TXRefMutable._hash (Transaction.ref self1))) self1))
      as [Hf1 Hsame1]; try done; try (by left).
    + apply get_tx_Ok in Hself.
      apply TXRefMutable_hash_id in Hhs.
      apply (f_equal (fun l => l !! t)) in Hhs.
      rewrite !list_lookup_fmap in Hhs. unfold tx_loc in *.
      rewrite Hself, Hself1 in Hhs. simpl in Hhs. injection Hhs as Hhs.
      intros i0 Hi0. congruence.
    + split; [by eapply only_caches_filled_trans | by eapply same_values_trans].
Qed.

Lemma TXRef_hash_value (σ σ' : Store) (r : TXRef) (h : bytes) :
  TXRef_hash σ r = Ok (h, σ') -> only_caches_filled σ σ' /\ same_values σ σ'.
Proof.
  destruct r as [r|t]; simpl.
  - intros [= _ <-]. split; [apply only_caches_filled_refl | apply same_values_refl].
  - intros Hh. by apply TXRefMutable_hash_value in Hh as (_ & ? & ?).
Qed.

(** The hash of a reference is read as the same bytes in every store in
    which the reads return the same. *)
Lemma TXRef_hash_same (σ σ1 σ2 : Store) (r : TXRef) (h : bytes) :
  TXRef_hash σ r = Ok (h, σ1) -> same_values σ σ2 ->
  exists σ3, TXRef_hash σ2 r = Ok (h, σ3).
Proof.
  destruct r as [r|t]; simpl.
  - intros [= <- _] _. by eexists.
  - intros Hh Hsame. apply TXRefMutable_hash_value in Hh as (Hv & _).
    apply hash_value_read. destruct (Hsame t) as (_ & _ & ->). done.
Qed.

Lemma Output_claim_id_value (σ σ' : Store) (o : Output.t) (i : string) :
  Output_claim_id σ o = Ok (i, σ') -> only_caches_filled σ σ' /\ same_values σ σ'.
Proof.
  unfold Output_claim_id, Output_claim_hash. intros Hi.
  inv_bind_as Hi vs Hvs. destruct vs as [v σ1].
  assert (Hσ : σ' = σ1) by (destruct v; try done; by injection Hi as _ <-).
  subst σ1. clear Hi.
  destruct (OutputScript.is_claim_name (Output.script o)).
  - inv_bind_as Hvs r Hr. inv_bind_as Hvs hs Hhs. destruct hs as [h σ2].
    inv_bind_as Hvs p Hp. inv_bind_as Hvs p' Hp'. injection Hvs as _ <-.
    by apply TXRef_hash_value in Hhs.
  - destruct (_ || _); [|done].
    inv_bind_as Hvs v' Hv. injection Hvs as _ <-.
    split; [apply only_caches_filled_refl | apply same_values_refl].
Qed.

(** A claim id is read as the same string in every store in which the
    reads return the same. *)
Lemma Output_claim_id_same (σ σ1 σ2 : Store) (o : Output.t) (i : string) :
  Output_claim_id σ o = Ok (i, σ1) -> same_values σ σ2 ->
  exists σ3, Output_claim_id σ2 o = Ok (i, σ3).
Proof.
  unfold Output_claim_id, Output_claim_hash. intros Hi Hsame.
  destruct (OutputScript.is_claim_name (Output.script o)).
  - inv_bind_as Hi vs Hvs. destruct vs as [v σ0].
    inv_bind_as Hvs r Hr. rewrite Hr. step.
    inv_bind_as Hvs hs Hhs. destruct hs as [h σ4].
    inv_bind_as Hvs p Hp. inv_bind_as Hvs p' Hp'. injection Hvs as <- <-.
    injection Hi as <- _.
    destruct (TXRef_hash_same σ σ4 σ2 r h Hhs Hsame) as (σ3 & ->). step.
    rewrite Hp. step. rewrite Hp'. step. by eexists.
  - destruct (_ || _); [|done].
    inv_bind_as Hi vs Hvs. destruct vs as [v σ0].
    inv_bind_as Hvs v' Hv. rewrite Hv. step. injection Hvs as <- <-.
    destruct v'; try done. injection Hi as <- _. by eexists.
Qed.

End Values.

(** ** Abandoned claims *)

Section Abandon.
Context `{Hashes} `{Codecs} `{Base58}.

Lemma is_update_of_filled (updates : list out_loc) :
  forall (σ σ' : Store) (abandon : out_loc) (b : bool),
    is_update_of σ abandon updates = Ok (b, σ') -> only_caches_filled σ σ'.
Proof.
  induction updates as [|l updates IH]; intros σ σ' abandon b Hu.
  - injection Hu as _ <-. apply only_caches_filled_refl.
  - cbn [is_update_of] in Hu. inv_bind_as Hu a Ha.
    inv_bind_as Hu is1 His1. destruct is1 as [i1 σ1].
    inv_bind_as Hu u Hu0.
    inv_bind_as Hu is2 His2. destruct is2 as [i2 σ2].
    apply Output_claim_id_filled in His1, His2.
    assert (Hf : only_caches_filled σ σ2) by (by eapply only_caches_filled_trans).
    destruct (String.eqb i1 i2).
    + by injection Hu as _ <-.
    + eapply only_caches_filled_trans; [exact Hf|]. by eapply IH.
Qed.

Lemma is_update_of_values (updates : list out_loc) :
  forall (σ σ' : Store) (abandon : out_loc) (b : bool),
    is_update_of σ abandon updates = Ok (b, σ') -> same_values σ σ'.
Proof.
  induction updates as [|l updates IH]; intros σ σ' abandon b Hu.
  - injection Hu as _ <-. apply same_values_refl.
  - cbn [is_update_of] in Hu. inv_bind_as Hu a Ha.
    inv_bind_as Hu is1 His1. destruct is1 as [i1 σ1].
    inv_bind_as Hu u Hu0.
    inv_bind_as Hu is2 His2. destruct is2 as [i2 σ2].
    apply Output_claim_id_value in His1 as [_ His1], His2 as [_ His2].
    assert (Hf : same_values σ σ2) by (by eapply same_values_trans).
    destruct (String.eqb i1 i2).
    + by injection Hu as _ <-.
    + eapply same_values_trans; [exact Hf|]. by eapply IH.
Qed.

(** The inner loop finds an update that has the claim id of the abandoned
    output, whichever caches the reads before it filled. *)
Lemma is_update_of_true (updates : list out_loc) :
  forall (σ0 σa σu σ σ' : Store) (abandon lu : out_loc) (oa ou : Output.t)
         (i : string) (b : bool),
    only_caches_filled σ0 σ -> same_values σ0 σ ->
    outs σ0 !! abandon = Some oa -> Output_claim_id σ0 oa = Ok (i, σa) ->
    lu ∈ updates ->
    outs σ0 !! lu = Some ou -> Output_claim_id σ0 ou = Ok (i, σu) ->
    is_update_of σ abandon updates = Ok (b, σ') -> b = true.
Proof.
  induction updates as [|l updates IH];
    intros σ0 σa σu σ σ' abandon lu oa ou i b Hf Hv Hoa Hia Hlu Hou Hiu Hu.
  - by apply elem_of_nil in Hlu.
  - cbn [is_update_of] in Hu. pose proof Hf as (_ & Houts & _).
    inv_bind_as Hu a Ha. apply get_out_Ok in Ha. rewrite Houts, Hoa in Ha.
    injection Ha as <-.
    inv_bind_as Hu is1 His1. destruct is1 as [i1 σ1].
    destruct (Output_claim_id_same σ0 σa σ oa i Hia Hv) as (σ3 & Hi3).
    rewrite Hi3 in His1. injection His1 as <- <-.
    destruct (Output_claim_id_value σ σ3 oa i Hi3) as [Hf3 Hv3].
    assert (Hf03 : only_caches_filled σ0 σ3) by (by eapply only_caches_filled_trans).
    assert (Hv03 : same_values σ0 σ3) by (by eapply same_values_trans).
    pose proof Hf03 as (_ & Houts3 & _).
    inv_bind_as Hu u Hu0. apply get_out_Ok in Hu0. rewrite Houts3 in Hu0.
    inv_bind_as Hu is2 His2. destruct is2 as [i2 σ2].
    apply elem_of_cons in Hlu as [->|Hlu].
    + assert (u = ou) as -> by congruence.
      destruct (Output_claim_id_same σ0 σu σ3 ou i Hiu Hv03) as (σ4 & Hi4).
      rewrite Hi4 in His2. injection His2 as <- <-.
      rewrite String.eqb_refl in Hu. by injection Hu as <-.
    + destruct (Output_claim_id_value σ3 σ2 u i2 His2) as [Hf2 Hv2].
      destruct (String.eqb i i2); [by injection Hu as <-|].
      eapply (IH σ0 σa σu σ2);
        [| |exact Hoa|exact Hia|exact Hlu|exact Hou|exact Hiu|exact Hu].
      * by eapply only_caches_filled_trans.
      * by eapply same_values_trans.
Qed.

Lemma spent_own_claim_filled (σ σ' : Store) (l : in_loc) :
  only_caches_filled σ σ' -> spent_own_claim σ' l = spent_own_claim σ l.
Proof. intros (Hins & Houts & _). unfold spent_own_claim. by rewrite Hins, Houts. Qed.

Lemma my_update_outputs_filled (σ σ' : Store) (t : tx_loc) :
  only_caches_filled σ σ' ->
  Transaction_my_update_outputs σ' t = Transaction_my_update_outputs σ t.
Proof.
  intros Hf. pose proof Hf as (_ & Houts & HT).
  unfold Transaction_my_update_outputs, _filter_my_outputs, Transaction_outputs, get_out.
  rewrite Houts.
  destruct (txs σ !! t) as [x|] eqn:Hx.
  - destruct (only_caches_filled_lookup σ σ' t x Hf Hx) as (y & Hy & Hxy).
    apply caches_filled_lists in Hxy as (_ & Ho & _).
    rewrite (proj2 (get_tx_Ok σ t x) Hx), (proj2 (get_tx_Ok σ' t y) Hy).
    step. by rewrite Ho.
  - apply Forall2_length in HT.
    assert (Hy : txs σ' !! t = None).
    { apply lookup_ge_None_1 in Hx. rewrite HT in Hx. by apply lookup_ge_None_2 in Hx. }
    by rewrite !get_tx_None.
Qed.

(** One iteration of the outer loop. *)
Lemma my_abandon_step_Ok (t : tx_loc) (l : in_loc) (ys ys' : list out_loc)
  (σ σ' : Store) :
  my_abandon_step t l (ys, σ) = Ok (ys', σ') ->
  only_caches_filled σ σ'
  /\ match spent_own_claim σ l with
     | None => ys' = ys
     | Some la =>
         exists o, outs σ !! la = Some o
         /\ if OutputScript.is_claim_name (Output.script o)
               || OutputScript.is_update_claim (Output.script o)
            then exists us b,
                   Transaction_my_update_outputs σ t = Ok us
                   /\ is_update_of σ la us = Ok (b, σ')
                   /\ ys' = if b then ys else ys ++ [la]
            else ys' = ys ++ [la]
     end.
Proof.
  unfold my_abandon_step, spent_own_claim. intros Hs.
  inv_bind_as Hs i Hi. apply get_in_Ok in Hi. rewrite Hi. simpl.
  destruct (TXORef.txo (Input.txo_ref i)) as [la|]; simpl.
  2:{ injection Hs as <- <-. split; [apply only_caches_filled_refl|done]. }
  inv_bind_as Hs o Ho. apply get_out_Ok in Ho. rewrite Ho. simpl.
  destruct (truthy (Output.is_my_output o)
            && OutputScript.is_claim_involved (Output.script o)).
  2:{ injection Hs as <- <-. split; [apply only_caches_filled_refl|done]. }
  inv_bind_as Hs bs Hbs. destruct bs as [b σ1].
  destruct (OutputScript.is_claim_name (Output.script o)
            || OutputScript.is_update_claim (Output.script o)) eqn:Hcl.
  - inv_bind_as Hbs us Hus. split.
    + apply is_update_of_filled in Hbs. by destruct b; injection Hs as _ <-.
    + exists o. split; [done|]. rewrite Hcl. exists us, b. split; [done|].
      by destruct b; injection Hs as <- <-.
  - injection Hbs as <- <-. injection Hs as <- <-.
    split; [apply only_caches_filled_refl|]. exists o. by rewrite Hcl.
Qed.

Lemma my_abandon_step_values (t : tx_loc) (l : in_loc) (ys ys' : list out_loc)
  (σ σ' : Store) :
  my_abandon_step t l (ys, σ) = Ok (ys', σ') -> same_values σ σ'.
Proof.
  unfold my_abandon_step. intros Hs.
  inv_bind_as Hs i Hi.
  destruct (TXORef.txo (Input.txo_ref i)) as [la|].
  2:{ injection Hs as _ <-. apply same_values_refl. }
  inv_bind_as Hs o Ho.
  destruct (truthy (Output.is_my_output o)
            && OutputScript.is_claim_involved (Output.script o)).
  2:{ injection Hs as _ <-. apply same_values_refl. }
  inv_bind_as Hs bs Hbs. destruct bs as [b σ1].
  assert (Hσ : σ' = σ1) by (destruct b; by injection Hs as _ <-). subst σ1.
  destruct (OutputScript.is_claim_name (Output.script o)
            || OutputScript.is_update_claim (Output.script o)).
  - inv_bind_as Hbs us Hus. by apply is_update_of_values in Hbs.
  - injection Hbs as _ <-. apply same_values_refl.
Qed.

Lemma my_abandon_loop_sublist (t : tx_loc) (ls : list in_loc) :
  forall (σ0 σ σ' : Store) (ys ys' : list out_loc),
    only_caches_filled σ0 σ ->
    for_each (my_abandon_step t) ls (ys, σ) = Ok (ys', σ') ->
    only_caches_filled σ0 σ'
    /\ exists zs, ys' = ys ++ zs /\ sublist zs (omap (spent_own_claim σ0) ls).
Proof.
  induction ls as [|l ls IH]; intros σ0 σ σ' ys ys' Hf Hloop.
  - injection Hloop as <- <-. split; [done|]. exists []. by rewrite app_nil_r.
  - cbn [for_each] in Hloop. inv_bind_as Hloop acc Hstep. destruct acc as [ys1 σ1].
    apply my_abandon_step_Ok in Hstep as [Hf1 Hstep].
    rewrite (spent_own_claim_filled σ0 σ l Hf) in Hstep.
    assert (Hf01 : only_caches_filled σ0 σ1) by (by eapply only_caches_filled_trans).
    destruct (IH σ0 σ1 σ' ys1 ys' Hf01 Hloop) as (Hf' & zs & -> & Hsub).
    split; [done|]. cbn [omap list_omap].
    destruct (spent_own_claim σ0 l) as [la|].
    + destruct Hstep as (o & Ho & Hstep).
      assert (Hcases : ys1 = ys \/ ys1 = ys ++ [la]).
      { destruct (_ || _); [|by right].
        destruct Hstep as (us & b & _ & _ & ->). destruct b; [by left|by right]. }
      destruct Hcases as [->| ->].
      * exists zs. split; [done|]. by apply sublist_cons.
      * exists (la :: zs). split; [by rewrite <- app_assoc|]. by apply sublist_skip.
    + subst ys1. by exists zs.
Qed.

(** X16. [my_abandon_outputs] yields only outputs that an input of the
    transaction spends, that are marked as the wallet's own and whose script
    involves a claim, in the order of the inputs and each at most once per
    input spending it; computing it changes nothing of the store but caches
    that were empty. *)
Theorem abandon_outputs_sound (σ σ' : Store) (t : tx_loc) (self : Transaction.t)
  (ys : list out_loc) :
  txs σ !! t = Some self ->
  Transaction_my_abandon_outputs σ t = Ok (ys, σ') ->
  sublist ys (omap (spent_own_claim σ) (Transaction._inputs self))
  /\ only_caches_filled σ σ'.
Proof.
  intros Hself. unfold Transaction_my_abandon_outputs, Transaction_inputs.
  rewrite (proj2 (get_tx_Ok σ t self) Hself). step. intros Hloop.
  destruct (my_abandon_loop_sublist t _ σ σ σ' [] ys (only_caches_filled_refl σ) Hloop)
    as (Hf & zs & -> & Hsub).
  done.
Qed.

Lemma my_abandon_step_no_update (t : tx_loc) (σ : Store) (l : in_loc)
  (ys : list out_loc) :
  Transaction_my_update_outputs σ t = Ok [] ->
  no_dangling σ [l] = true ->
  my_abandon_step t l (ys, σ)
  = Ok (ys ++ omap (spent_own_claim σ) [l], σ).
Proof.
  intros Hus Hl. cbn [no_dangling forallb] in Hl. rewrite andb_true_r in Hl.
  cbn [omap list_omap]. unfold my_abandon_step, spent_own_claim.
  destruct (ins σ !! l) as [i|] eqn:Hi; [|done].
  rewrite (proj2 (get_in_Ok σ l i) Hi). step. simpl.
  destruct (TXORef.txo (Input.txo_ref i)) as [la|]; simpl.
  2:{ by rewrite app_nil_r. }
  apply bool_decide_eq_true in Hl as [o Ho].
  rewrite (proj2 (get_out_Ok σ la o) Ho). step. unfold out_loc in *. rewrite Ho. simpl.
  destruct (truthy (Output.is_my_output o)
            && OutputScript.is_claim_involved (Output.script o)).
  2:{ by rewrite app_nil_r. }
  destruct (OutputScript.is_claim_name (Output.script o)
            || OutputScript.is_update_claim (Output.script o)).
  - rewrite Hus. step. cbn [is_update_of]. step. done.
  - step. done.
Qed.

Lemma my_abandon_loop_no_update (t : tx_loc) (σ : Store) (ls : list in_loc) :
  Transaction_my_update_outputs σ t = Ok [] ->
  no_dangling σ ls = true ->
  forall ys,
    for_each (my_abandon_step t) ls (ys, σ)
    = Ok (ys ++ omap (spent_own_claim σ) ls, σ).
Proof.
  intros Hus. induction ls as [|l ls IH]; intros Hnd ys.
  - simpl. by rewrite app_nil_r.
  - cbn [no_dangling forallb] in Hnd. apply andb_true_iff in Hnd as [Hl Hnd].
    cbn [for_each]. rewrite my_abandon_step_no_update; [|done|].
    2:{ cbn [no_dangling forallb]. by rewrite Hl. }
    step. rewrite IH by done. rewrite <- app_assoc. do 2 f_equal.
    cbn [omap list_omap]. by destruct (spent_own_claim σ l).
Qed.

(** X17. When the transaction has no update output of the wallet's own,
    [my_abandon_outputs] yields every output that an input spends, that is
    marked as the wallet's own and whose script involves a claim: claims,
    updates and supports alike, once per input, in the order of the inputs,
    without reading any claim id. *)
Theorem abandon_without_updates (σ : Store) (t : tx_loc) (self : Transaction.t) :
  txs σ !! t = Some self ->
  Transaction_my_update_outputs σ t = Ok [] ->
  no_dangling σ (Transaction._inputs self) = true ->
  Transaction_my_abandon_outputs σ t
  = Ok (omap (spent_own_claim σ) (Transaction._inputs self), σ).
Proof.
  intros Hself Hus Hnd. unfold Transaction_my_abandon_outputs, Transaction_inputs.
  rewrite (proj2 (get_tx_Ok σ t self) Hself). step.
  by rewrite my_abandon_loop_no_update.
Qed.

Lemma my_abandon_loop_cases (t : tx_loc) (la lu : out_loc) (oa ou : Output.t)
  (i : string) (σa σu : Store) (ls : list in_loc) :
  forall (σ0 σ σ' : Store) (ys ys' : list out_loc),
    only_caches_filled σ0 σ -> same_values σ0 σ ->
    outs σ0 !! la = Some oa ->
    for_each (my_abandon_step t) ls (ys, σ) = Ok (ys', σ') ->
    (* a support is yielded *)
    (OutputScript.is_claim_name (Output.script oa)
     || OutputScript.is_update_claim (Output.script oa) = false ->
     (exists l, l ∈ ls /\ spent_own_claim σ0 l = Some la) -> la ∈ ys')
    (* a claim or update that an own update continues is not *)
    /\ (OutputScript.is_claim_name (Output.script oa)
        || OutputScript.is_update_claim (Output.script oa) = true ->
        Output_claim_id σ0 oa = Ok (i, σa) ->
        (forall us, Transaction_my_update_outputs σ0 t = Ok us -> lu ∈ us) ->
        outs σ0 !! lu = Some ou -> Output_claim_id σ0 ou = Ok (i, σu) ->
        la ∉ ys -> la ∉ ys')
    /\ (forall x, x ∈ ys -> x ∈ ys').
Proof.
  induction ls as [|l ls IH]; intros σ0 σ σ' ys ys' Hf Hv Hoa Hloop.
  - injection Hloop as <- <-. split; [|done].
    intros _ (l & Hl & _). by apply elem_of_nil in Hl.
  - cbn [for_each] in Hloop. inv_bind_as Hloop acc Hstep. destruct acc as [ys1 σ1].
    pose proof (my_abandon_step_values t l ys ys1 σ σ1 Hstep) as Hv1.
    apply my_abandon_step_Ok in Hstep as [Hf1 Hstep].
    rewrite (spent_own_claim_filled σ0 σ l Hf) in Hstep.
    assert (Hf01 : only_caches_filled σ0 σ1) by (by eapply only_caches_filled_trans).
    assert (Hv01 : same_values σ0 σ1) by (by eapply same_values_trans).
    destruct (IH σ0 σ1 σ' ys1 ys' Hf01 Hv01 Hoa Hloop) as (IHa & IHb & IHmono).
    pose proof Hf as (_ & Houts & _).
    assert (Hmono1 : forall x, x ∈ ys -> x ∈ ys1).
    { intros x Hx. destruct (spent_own_claim σ0 l) as [la'|]; [|by subst].
      destruct Hstep as (o & _ & Hstep). destruct (OutputScript.is_claim_name (Output.script o) || _).
      - destruct Hstep as (us & b & _ & _ & ->). destruct b; [done|].
        apply elem_of_app. by left.
      - subst ys1. apply elem_of_app. by left. }
    split; [|split].
    + intros Hsup (l' & Hl' & Hspent). apply elem_of_cons in Hl' as [->|Hl'].
      * apply IHmono. rewrite Hspent in Hstep.
        destruct Hstep as (o & Ho & Hstep). rewrite Houts, Hoa in Ho.
        injection Ho as <-. rewrite Hsup in Hstep. subst ys1.
        apply elem_of_app. right. by left.
      * apply IHa; [done|]. by exists l'.
    + intros Hcl Hia Hus Hou Hiu Hnot. apply IHb; try done.
      destruct (spent_own_claim σ0 l) as [la'|]; [|by subst].
      destruct Hstep as (o & Ho & Hstep).
      destruct (decide (la' = la)) as [->|Hne].
      * rewrite Houts, Hoa in Ho. injection Ho as <-. rewrite Hcl in Hstep.
        destruct Hstep as (us & b & Hus' & Hb & ->).
        rewrite (my_update_outputs_filled σ0 σ t Hf) in Hus'.
        pose proof (Hus us Hus') as Hlu.
        by rewrite (is_update_of_true us σ0 σa σu σ σ1 la lu oa ou i b
                      Hf Hv Hoa Hia Hlu Hou Hiu Hb).
      * assert (Hcases : ys1 = ys \/ ys1 = ys ++ [la']).
        { destruct (OutputScript.is_claim_name (Output.script o) || _); [|by right].
          destruct Hstep as (us & b & _ & _ & ->). destruct b; [by left|by right]. }
        destruct Hcases as [->| ->]; [done|].
        rewrite elem_of_app, list_elem_of_singleton. intros [?|?]; [done|congruence].
    + intros x Hx. by apply IHmono, Hmono1.
Qed.

(** X18. What an update does to the abandoned outputs: a spent claim or
    update of the wallet's own whose claim id is that of one of the
    wallet's own update outputs of the transaction is not yielded (the
    claim goes on), whereas a spent support of the wallet's own is always
    yielded, whatever updates the transaction has.  The claim ids are the
    ones read before the call, whether or not reading them fills the hash
    cache of a transaction (as the id of a claim-name output does when the
    hash of its transaction was not read before). *)
Theorem abandon_updates_and_supports (σ σ' : Store) (t : tx_loc) (self : Transaction.t)
  (ys : list out_loc) (la : out_loc) (oa : Output.t) :
  txs σ !! t = Some self ->
  Transaction_my_abandon_outputs σ t = Ok (ys, σ') ->
  outs σ !! la = Some oa ->
  (OutputScript.is_support_claim (Output.script oa) = true ->
   (exists l, l ∈ Transaction._inputs self /\ spent_own_claim σ l = Some la) ->
   la ∈ ys)
  /\ (forall lu ou i σa σu,
        Output_is_claim oa = true ->
        Output_claim_id σ oa = Ok (i, σa) ->
        lu ∈ Transaction._outputs self -> own_update σ lu = true ->
        outs σ !! lu = Some ou -> Output_claim_id σ ou = Ok (i, σu) ->
        la ∉ ys).
Proof.
  intros Hself. unfold Transaction_my_abandon_outputs, Transaction_inputs.
  rewrite (proj2 (get_tx_Ok σ t self) Hself). step. intros Hloop Hoa. split.
  - intros Hsup Hspent.
    destruct (my_abandon_loop_cases t la la oa oa "" σ σ _ σ σ σ' [] ys
                (only_caches_filled_refl σ) (same_values_refl σ) Hoa Hloop)
      as (Ha & _ & _).
    apply Ha; [|done].
    unfold OutputScript.is_support_claim, OutputScript.is_claim_name,
      OutputScript.is_update_claim in *.
    apply bool_decide_eq_true in Hsup. rewrite Hsup. done.
  - intros lu ou i σa σu Hcl Hia Hlu Hown Hou Hiu.
    destruct (my_abandon_loop_cases t la lu oa ou i σa σu _ σ σ σ' [] ys
                (only_caches_filled_refl σ) (same_values_refl σ) Hoa Hloop)
      as (_ & Hb & _).
    apply Hb; try done; [|by intros ?%elem_of_nil].
    intros us Hus.
    unfold Transaction_my_update_outputs, _filter_my_outputs, Transaction_outputs in Hus.
    rewrite (proj2 (get_tx_Ok σ t self) Hself) in Hus. cbn [mbind result_bind] in Hus.
    apply filterM_Ok in Hus as [_ Hmem]. apply Hmem. split; [done|].
    rewrite (proj2 (get_out_Ok σ lu ou) Hou). step.
    unfold own_update in Hown. unfold out_loc in *. rewrite Hou in Hown. by rewrite Hown.
Qed.

End Abandon.

(** ** Deserialization: the reads and the store *)

Lemma attach_all_ins_fresh (t : tx_loc) (xs : list Input.t) :
  forall (base : nat) (h : list Input.t) (σ : Store),
    ins σ = h ++ xs ->
    attach_all InputsList t base (seq (length h) (length xs)) σ
    = {| txs := txs σ;
         ins := h ++ imap (fun j => Input.attach (RefMutable t) (Z.of_nat (base + j))) xs;
         outs := outs σ |}.
Proof.
  induction xs as [|x xs IH]; intros base h σ Hins.
  - destruct σ. simpl in *. subst. by rewrite app_nil_r.
  - cbn [length seq attach_all].
    assert (Hlen : S (length h)
                   = length (h ++ [Input.attach (RefMutable t) (Z.of_nat base) x])).
    { rewrite length_app. simpl. lia. }
    rewrite Hlen.
    rewrite (IH (S base) (h ++ [Input.attach (RefMutable t) (Z.of_nat base) x])).
    + cbn [txs outs ins attach_store]. f_equal.
      rewrite <- app_assoc. cbn [app imap]. rewrite Nat.add_0_r. do 2 f_equal.
      apply imap_ext. intros j y _. simpl. do 2 f_equal. lia.
    + cbn [ins attach_store]. rewrite Hins.
      rewrite <- (Nat.add_0_r (length h)), alter_app_r. simpl.
      by rewrite <- app_assoc.
Qed.

Lemma attach_all_outs_fresh (t : tx_loc) (xs : list Output.t) :
  forall (base : nat) (h : list Output.t) (σ : Store),
    outs σ = h ++ xs ->
    attach_all OutputsList t base (seq (length h) (length xs)) σ
    = {| txs := txs σ;
         ins := ins σ;
         outs := h ++ imap (fun j => Output.attach (RefMutable t) (Z.of_nat (base + j))) xs |}.
Proof.
  induction xs as [|x xs IH]; intros base h σ Houts.
  - destruct σ. simpl in *. subst. by rewrite app_nil_r.
  - cbn [length seq attach_all].
    assert (Hlen : S (length h)
                   = length (h ++ [Output.attach (RefMutable t) (Z.of_nat base) x])).
    { rewrite length_app. simpl. lia. }
    rewrite Hlen.
    rewrite (IH (S base) (h ++ [Output.attach (RefMutable t) (Z.of_nat base) x])).
    + cbn [txs outs ins attach_store]. f_equal.
      rewrite <- app_assoc. cbn [app imap]. rewrite Nat.add_0_r. do 2 f_equal.
      apply imap_ext. intros j y _. simpl. do 2 f_equal. lia.
    + cbn [outs attach_store]. rewrite Houts.
      rewrite <- (Nat.add_0_r (length h)), alter_app_r. simpl.
      by rewrite <- app_assoc.
Qed.

Section TwoPhases.
Context `{Hashes} `{Codecs}.

(** The store part of [deserialize], after the inputs and outputs were
    read. *)
Lemma add_parsed (σ : Store) (t : tx_loc) (x : Transaction.t)
  (inputs : list Input.t) (outputs : list Output.t) :
  txs σ !! t = Some x ->
  let ls_in := seq (length (ins σ)) (length inputs) in
  let ls_out := seq (length (outs σ)) (length outputs) in
  let σa := {| txs := txs σ; ins := ins σ ++ inputs; outs := outs σ |} in
  let σb :=
    {| txs := <[t := Transaction.set__inputs (Transaction._inputs x ++ ls_in) x]> (txs σ);
       ins := ins σ ++ imap (fun j => Input.attach (RefMutable t)
                                       (Z.of_nat (length (Transaction._inputs x) + j)))
                         inputs;
       outs := outs σ |} in
  _add σa t InputsList ls_in false = Ok σb
  /\ _add {| txs := txs σb; ins := ins σb; outs := outs σb ++ outputs |}
       t OutputsList ls_out false
     = Ok {| txs := <[t := Transaction.set__outputs (Transaction._outputs x ++ ls_out)
                             (Transaction.set__inputs (Transaction._inputs x ++ ls_in) x)]>
                      (txs σ);
             ins := ins σb;
             outs := outs σ ++ imap (fun j => Output.attach (RefMutable t)
                                        (Z.of_nat (length (Transaction._outputs x) + j)))
                               outputs |}.
Proof.
  intros Hx ls_in ls_out σa σb.
  apply lookup_lt_Some in Hx as Hlt.
  split.
  - rewrite (_add_Ok InputsList t ls_in σa x false Hx).
    2:{ apply Forall_forall. intros l Hl%elem_of_seq. unfold allocated. subst σa.
        cbn [ins]. rewrite length_app. lia. }
    cbv zeta. cbn [existing_ios set_existing]. f_equal.
    rewrite (attach_all_ins_fresh t inputs _ (ins σ) σa eq_refl). done.
  - assert (Hxb : txs σb !! t
                  = Some (Transaction.set__inputs (Transaction._inputs x ++ ls_in) x)).
    { subst σb. cbn [txs]. by apply list_lookup_insert_eq. }
    match goal with |- _add ?s _ _ _ _ = _ => set (σc := s) end.
    rewrite (_add_Ok OutputsList t ls_out σc _ false Hxb).
    2:{ apply Forall_forall. intros l Hl%elem_of_seq. unfold allocated. subst σc σb.
        cbn [outs]. rewrite length_app. lia. }
    cbv zeta. cbn [existing_ios set_existing Transaction._outputs Transaction.set__inputs].
    rewrite (attach_all_outs_fresh t outputs _ (outs σ) σc eq_refl).
    unfold set_tx. subst σc σb. cbn [txs ins outs]. f_equal.
    by rewrite list_insert_insert_eq.
Qed.

Lemma installed_eq (x : Transaction.t) (version locktime : Z) (flag : option Z)
  (witnesses : option (list bytes)) (inputs : list Input.t) (outputs : list Output.t)
  (ls_in : list in_loc) (ls_out : list out_loc) :
  let tx2 :=
    match flag with
    | Some f => Transaction.set_is_segwit_flag f (Transaction.set_version version x)
    | None => Transaction.set_version version x
    end in
  let tx4 :=
    Transaction.set__outputs (Transaction._outputs tx2 ++ ls_out)
      (Transaction.set__inputs (Transaction._inputs tx2 ++ ls_in) tx2) in
  let tx5 :=
    match witnesses with
    | Some ws => Transaction.set_witnesses ws tx4
    | None => tx4
    end in
  Transaction.set_locktime locktime tx5
  = installed_tx x (mkParsed version flag inputs outputs witnesses locktime) ls_in ls_out.
Proof. by destruct x, flag, witnesses. Qed.

Lemma deserialize_tail (σ : Store) (t : tx_loc) (x tx2 : Transaction.t)
  (flag : option Z) (version start input_count : Z) (stream : BCDataStream) :
  txs σ !! t = Some x ->
  tx2 = match flag with
        | Some f => Transaction.set_is_segwit_flag f (Transaction.set_version version x)
        | None => Transaction.set_version version x
        end ->
  ('(inputs, stream) ← read_many Input_deserialize_from (Z.to_nat input_count) stream;
   let '(ls, σ) := alloc_ins (set_tx σ t tx2) inputs in
   σ ← _add σ t InputsList ls false;
   '(output_count, stream) ← read_compact_size stream;
   '(outputs, stream) ←
     read_many (Output_deserialize_from start) (Z.to_nat output_count) stream;
   let '(ls, σ) := alloc_outs σ outputs in
   σ ← _add σ t OutputsList ls false;
   self ← get_tx σ t;
   '(σ, stream) ←
     (if negb (Transaction.is_segwit_flag self =? 0) then
        '(stacks, stream) ← read_many read_witness_stack (Z.to_nat input_count) stream;
        Ok (set_tx σ t (Transaction.set_witnesses (concat stacks) self), stream)
      else Ok (σ, stream));
   '(locktime, stream) ← read_uint32 stream;
   self ← get_tx σ t;
   Ok (set_tx σ t (Transaction.set_locktime locktime self), Some stream))
  = ('(p, stream) ←
       ('(inputs, stream) ←
          read_many Input_deserialize_from (Z.to_nat input_count) stream;
        '(output_count, stream) ← read_compact_size stream;
        '(outputs, stream) ←
          read_many (Output_deserialize_from start) (Z.to_nat output_count) stream;
        '(witnesses, stream) ←
          (if negb (default (Transaction.is_segwit_flag x) flag =? 0) then
             '(stacks, stream) ←
               read_many read_witness_stack (Z.to_nat input_count) stream;
             Ok (Some (concat stacks), stream)
           else Ok (None, stream));
        '(locktime, stream) ← read_uint32 stream;
        Ok (mkParsed version flag inputs outputs witnesses locktime, stream));
     Ok (install σ t x p, Some stream)).
Proof.
  intros Hx Htx2.
  apply lookup_lt_Some in Hx as Hlt.
  destruct (read_many Input_deserialize_from _ stream) as [[inputs s1]|e]; [|done]. step.
  rewrite alloc_ins_eq.
  assert (Hx2 : txs (set_tx σ t tx2) !! t = Some tx2).
  { cbn [txs set_tx]. by apply list_lookup_insert_eq. }
  destruct (add_parsed (set_tx σ t tx2) t tx2 inputs [] Hx2) as [Hadd_in _].
  cbv zeta in Hadd_in. rewrite Hadd_in. step. clear Hadd_in.
  destruct (read_compact_size s1) as [[output_count s2]|e]; [|done]. step.
  destruct (read_many (Output_deserialize_from start) _ s2) as [[outputs s3]|e]; [|done].
  step. rewrite alloc_outs_eq.
  destruct (add_parsed (set_tx σ t tx2) t tx2 inputs outputs Hx2) as [_ Hadd_out].
  cbv zeta in Hadd_out. cbn [txs ins outs] in *. rewrite Hadd_out. step. clear Hadd_out.
  cbn [txs ins outs set_tx].
  set (ls_in := seq (length (ins σ)) (length inputs)).
  set (ls_out := seq (length (outs σ)) (length outputs)).
  set (tx4 := Transaction.set__outputs (Transaction._outputs tx2 ++ ls_out)
                (Transaction.set__inputs (Transaction._inputs tx2 ++ ls_in) tx2)).
  rewrite list_insert_insert_eq.
  match goal with |- context [get_tx ?s t] => set (σd := s) end.
  assert (Hget : get_tx σd t = Ok tx4).
  { apply get_tx_Ok. subst σd. cbn [txs]. by apply list_lookup_insert_eq. }
  rewrite Hget. step.
  assert (Hflag : Transaction.is_segwit_flag tx4
                  = default (Transaction.is_segwit_flag x) flag).
  { subst tx4 tx2. by destruct flag. }
  rewrite Hflag.
  assert (Hins2 : Transaction._inputs tx2 = Transaction._inputs x)
    by (subst tx2; by destruct flag).
  assert (Houts2 : Transaction._outputs tx2 = Transaction._outputs x)
    by (subst tx2; by destruct flag).
  destruct (negb (default (Transaction.is_segwit_flag x) flag =? 0)).
  - destruct (read_many read_witness_stack _ s3) as [[stacks s4]|e]; [|done]. step.
    destruct (read_uint32 s4) as [[locktime s5]|e]; [|done]. step.
    rewrite get_tx_set_tx by (subst σd; cbn [txs]; by rewrite length_insert).
    step. do 2 f_equal. unfold set_tx, install. subst σd. cbn [txs ins outs p_inputs p_outputs].
    rewrite !list_insert_insert_eq. rewrite Hins2, Houts2. f_equal. f_equal.
    subst tx4 ls_in ls_out. rewrite Htx2.
    apply (installed_eq x version locktime flag (Some (concat stacks)) inputs outputs).
  - step. destruct (read_uint32 s3) as [[locktime s5]|e]; [|done]. step.
    rewrite Hget. step. do 2 f_equal. unfold set_tx, install. subst σd.
    cbn [txs ins outs p_inputs p_outputs].
    rewrite !list_insert_insert_eq. rewrite Hins2, Houts2. f_equal. f_equal.
    subst tx4 ls_in ls_out. rewrite Htx2.
    apply (installed_eq x version locktime flag None inputs outputs).
Qed.

(** [deserialize] from a stream is the reads of [parse_transaction]
    followed by the installation of what was read. *)
Lemma Transaction_deserialize_parse (σ : Store) (t : tx_loc) (x : Transaction.t)
  (stream : BCDataStream) :
  txs σ !! t = Some x ->
  Transaction_deserialize σ t (Some stream)
  = ('(p, stream) ← parse_transaction (Transaction.is_segwit_flag x) stream;
     Ok (install σ t x p, Some stream)).
Proof.
  intros Hx. apply lookup_lt_Some in Hx as Hlt.
  unfold Transaction_deserialize, parse_transaction.
  rewrite (proj2 (get_tx_Ok σ t x) Hx). step.
  destruct (read_uint32 stream) as [[version s1]|e]; [|done]. step.
  destruct (read_compact_size s1) as [[input_count s2]|e]; [|done]. step.
  destruct (input_count =? 0).
  - destruct (read_uint8 s2) as [[flag s3]|e]; [|done]. step.
    rewrite get_tx_set_tx by done. step.
    destruct (read_compact_size s3) as [[input_count' s4]|e]; [|done]. step.
    rewrite set_tx_set_tx.
    by apply (deserialize_tail σ t x _ (Some flag) version).
  - step. by apply (deserialize_tail σ t x _ None version).
Qed.

End TwoPhases.

(** ** The installed transaction *)

Lemma install_lookup (σ : Store) (t : tx_loc) (x : Transaction.t) (p : parsed) :
  txs σ !! t = Some x ->
  txs (install σ t x p) !! t
  = Some (installed_tx x p (seq (length (ins σ)) (length (p_inputs p)))
            (seq (length (outs σ)) (length (p_outputs p)))).
Proof.
  intros Hx. unfold install. cbn [txs]. apply list_lookup_insert_eq.
  by apply lookup_lt_Some in Hx.
Qed.

Lemma fmap_imap_attach_in (t : tx_loc) (base : nat) (xs : list Input.t) :
  Input_wire_fields
    <$> imap (fun j => Input.attach (RefMutable t) (Z.of_nat (base + j))) xs
  = Input_wire_fields <$> xs.
Proof.
  rewrite fmap_imap. rewrite <- imap_const. apply imap_ext. intros j x _. simpl.
  apply Input_attach_wire_fields.
Qed.

Lemma fmap_imap_attach_out (t : tx_loc) (base : nat) (xs : list Output.t) :
  Output_wire_fields
    <$> imap (fun j => Output.attach (RefMutable t) (Z.of_nat (base + j))) xs
  = Output_wire_fields <$> xs.
Proof.
  rewrite fmap_imap. rewrite <- imap_const. apply imap_ext. intros j x _. simpl.
  apply Output_attach_wire_fields.
Qed.

Lemma install_wire_fields (σ : Store) (t : tx_loc) (x : Transaction.t) (p : parsed) :
  txs σ !! t = Some x ->
  Transaction._inputs x = [] -> Transaction._outputs x = [] ->
  Transaction_wire_fields (install σ t x p) t
  = Some (p_version p, p_locktime p,
          Input_wire_fields <$> p_inputs p, Output_wire_fields <$> p_outputs p).
Proof.
  intros Hx Hin Hout. unfold Transaction_wire_fields.
  rewrite (install_lookup σ t x p Hx). simpl. rewrite Hin, Hout. simpl.
  set (xs := imap (fun j => Input.attach (RefMutable t) (Z.of_nat (0 + j))) (p_inputs p)).
  set (ys := imap (fun j => Output.attach (RefMutable t) (Z.of_nat (0 + j))) (p_outputs p)).
  assert (Hxs : length (p_inputs p) = length xs) by (subst xs; by rewrite length_imap).
  assert (Hys : length (p_outputs p) = length ys) by (subst ys; by rewrite length_imap).
  rewrite Hxs, Hys.
  rewrite (mapM_lookup_seq Input_wire_fields xs (ins σ)) by done. simpl.
  rewrite (mapM_lookup_seq Output_wire_fields ys (outs σ)) by done. simpl.
  subst xs ys. by rewrite fmap_imap_attach_in, fmap_imap_attach_out.
Qed.

Lemma install_consistent (σ : Store) (t : tx_loc) (x : Transaction.t) (p : parsed) :
  txs σ !! t = Some x ->
  Transaction._inputs x = [] -> Transaction._outputs x = [] ->
  consistent InputsList (install σ t x p) t
  /\ consistent OutputsList (install σ t x p) t.
Proof.
  intros Hx Hin Hout. split.
  - intros self i l Hself Hl. rewrite (install_lookup σ t x p Hx) in Hself.
    injection Hself as <-. cbn [existing_ios installed_tx Transaction._inputs] in Hl.
    rewrite Hin in Hl. simpl in Hl. apply lookup_seq in Hl as [-> Hi].
    unfold io_attrs, install. cbn [ins]. rewrite Hin. simpl.
    rewrite lookup_app_r by lia.
    replace (length (ins σ) + i - length (ins σ))%nat with i by lia.
    rewrite list_lookup_imap.
    destruct (lookup_lt_is_Some_2 (p_inputs p) i Hi) as [y ->]. done.
  - intros self i l Hself Hl. rewrite (install_lookup σ t x p Hx) in Hself.
    injection Hself as <-. cbn [existing_ios installed_tx Transaction._outputs] in Hl.
    rewrite Hout in Hl. simpl in Hl. apply lookup_seq in Hl as [-> Hi].
    unfold io_attrs, install. cbn [outs]. rewrite Hout. simpl.
    rewrite lookup_app_r by lia.
    replace (length (outs σ) + i - length (outs σ))%nat with i by lia.
    rewrite list_lookup_imap.
    destruct (lookup_lt_is_Some_2 (p_outputs p) i Hi) as [y ->]. done.
Qed.

(** ** Bytes and wire fields *)

Section WireFields.
Context `{Hashes} `{Codecs}.

Lemma input_fields_canonical (σ : Store) (l : in_loc) (f : bytes * Z * bytes * Z) :
  Input_wire_fields <$> ins σ !! l = Some (with_script f) ->
  input_fields_writable f ->
  input_ok σ l /\ canonical_input_bytes σ l = Some (input_fields_bytes f).
Proof.
  destruct f as [[[h p] b] s]. intros Hf (Hp & Hs & Hlen).
  destruct (ins σ !! l) as [i|] eqn:Hi; [|done].
  injection Hf as Hh Hpos Hb Hseq. split.
  - exists i, b. rewrite Hpos, Hseq. repeat split; try done. lia.
  - unfold canonical_input_bytes. rewrite Hi. simpl. rewrite Hb. simpl.
    unfold Input_bytes. by rewrite Hh, Hpos, Hseq.
Qed.

Lemma output_fields_canonical (σ : Store) (l : out_loc) (f : Z * bytes) :
  Output_wire_fields <$> outs σ !! l = Some f ->
  output_fields_fit f ->
  output_ok σ l /\ output_bytes_at σ l = Some (output_fields_bytes f).
Proof.
  destruct f as [a b]. intros Hf (Ha & Hlen).
  destruct (outs σ !! l) as [o|] eqn:Ho; [|done].
  injection Hf as Hamount Hsrc. split.
  - exists o. rewrite Hamount, Hsrc. repeat split; try done. lia.
  - unfold output_bytes_at. rewrite Ho. simpl.
    unfold Output_bytes. by rewrite Hamount, Hsrc.
Qed.

(** The bytes [_serialize] returns are a function of the wire fields. *)
Lemma wire_fields_serialize (σ : Store) (t : tx_loc) (version locktime : Z)
  (ifs : list (bytes * Z * bytes * Z)) (ofs : list (Z * bytes)) (sans_segwit : bool) :
  Transaction_wire_fields σ t = Some (version, locktime, with_script <$> ifs, ofs) ->
  in_range 4 version = true -> in_range 4 locktime = true ->
  Z.of_nat (length ifs) < 2 ^ 64 -> Z.of_nat (length ofs) < 2 ^ 64 ->
  Forall input_fields_writable ifs -> Forall output_fields_fit ofs ->
  _serialize σ t true sans_segwit = Ok (fields_bytes version locktime ifs ofs).
Proof.
  unfold Transaction_wire_fields. intros Hw Hv Hlt Hnin Hnout Hin Hout.
  destruct (txs σ !! t) as [self|] eqn:Hself; [|done]. simpl in Hw.
  destruct (mapM _ (Transaction._inputs self)) as [fin|] eqn:Hfin; [|done].
  simpl in Hw.
  destruct (mapM _ (Transaction._outputs self)) as [fout|] eqn:Hfout; [|done].
  simpl in Hw. injection Hw as <- <- -> ->.
  apply mapM_Some in Hfin, Hfout. apply Forall2_fmap_r in Hfin.
  assert (Hin2 : Forall2 (fun l f => input_ok σ l
                            /\ canonical_input_bytes σ l = Some (input_fields_bytes f))
                   (Transaction._inputs self) ifs).
  { clear -Hfin Hin. induction Hfin as [|l f ls fs Hl _ IH]; [constructor|].
    apply Forall_cons in Hin as [Hf Hin]. constructor; [|by apply IH].
    by apply input_fields_canonical. }
  assert (Hout2 : Forall2 (fun l f => output_ok σ l
                             /\ output_bytes_at σ l = Some (output_fields_bytes f))
                    (Transaction._outputs self) ofs).
  { clear -Hfout Hout. induction Hfout as [|l f ls fs Hl _ IH]; [constructor|].
    apply Forall_cons in Hout as [Hf Hout]. constructor; [|by apply IH].
    by apply output_fields_canonical. }
  assert (Hser : serializable σ self).
  { repeat split; try done; try lia.
    - apply Forall2_length in Hfin. rewrite Hfin. done.
    - apply Forall2_length in Hfout. rewrite Hfout. done.
    - eapply Forall2_Forall_l; [exact Hin2|]. apply Forall_forall. by intros f _ l [? _].
    - eapply Forall2_Forall_l; [exact Hout2|]. apply Forall_forall. by intros f _ l [? _]. }
  destruct (_serialize_fits σ t sans_segwit self Hself Hser) as (raw & Hraw & ->).
  f_equal. unfold canonical_bytes in Hraw.
  rewrite (mapM_Some_2 (canonical_input_bytes σ) _ (input_fields_bytes <$> ifs)) in Hraw.
  2:{ apply Forall2_fmap_r. apply (Forall2_impl _ _ _ _ Hin2). simpl. by intros l f [_ ?]. }
  simpl in Hraw.
  rewrite (mapM_Some_2 (output_bytes_at σ) _ (output_fields_bytes <$> ofs)) in Hraw.
  2:{ apply Forall2_fmap_r. apply (Forall2_impl _ _ _ _ Hout2). simpl. by intros l f [_ ?]. }
  simpl in Hraw. by injection Hraw as <-.
Qed.

(** Conversely, what [_serialize] returns is the layout of the wire
    fields, which all fit. *)
Lemma serialize_wire_fields (σ : Store) (t : tx_loc) (sans_segwit : bool) (raw : bytes) :
  _serialize σ t true sans_segwit = Ok raw ->
  exists version locktime ifs ofs,
    Transaction_wire_fields σ t = Some (version, locktime, with_script <$> ifs, ofs)
    /\ raw = fields_bytes version locktime ifs ofs
    /\ in_range 4 version = true /\ in_range 4 locktime = true
    /\ Z.of_nat (length ifs) < 2 ^ 64 /\ Z.of_nat (length ofs) < 2 ^ 64
    /\ Forall input_fields_writable ifs /\ Forall output_fields_fit ofs.
Proof.
  intros Hs.
  destruct (_serialize_Ok σ t sans_segwit raw Hs)
    as (self & Hself & (Hv & Hl & Hnin & Hnout & Hin & Hout) & Hraw).
  assert (Hifs : exists ifs,
    Forall2 (fun l f => Input_wire_fields <$> ins σ !! l = Some (with_script f)
                        /\ canonical_input_bytes σ l = Some (input_fields_bytes f)
                        /\ input_fields_writable f)
      (Transaction._inputs self) ifs).
  { clear -Hin. induction Hin as [|l ls (i & b & Hi & Hb & Hp & Hs & Hlen) _ (ifs & IH)].
    - exists []. constructor.
    - exists ((TXRefImmutable.hash (TXORef.tx_ref (Input.txo_ref i)),
               TXORef.position (Input.txo_ref i), b, Input.sequence i) :: ifs).
      constructor; [|done]. rewrite Hi. simpl. split; [|split].
      + unfold Input_wire_fields. by rewrite Hb.
      + unfold canonical_input_bytes. rewrite Hi. simpl. by rewrite Hb.
      + repeat split; try done. lia. }
  assert (Hofs : exists ofs,
    Forall2 (fun l f => Output_wire_fields <$> outs σ !! l = Some f
                        /\ output_bytes_at σ l = Some (output_fields_bytes f)
                        /\ output_fields_fit f)
      (Transaction._outputs self) ofs).
  { clear -Hout. induction Hout as [|l ls (o & Ho & Ha & Hlen) _ (ofs & IH)].
    - exists []. constructor.
    - exists (Output_wire_fields o :: ofs).
      constructor; [|done]. rewrite Ho. simpl. split; [done|]. split.
      + unfold output_bytes_at. by rewrite Ho.
      + repeat split; try done. simpl. lia. }
  destruct Hifs as (ifs & Hifs). destruct Hofs as (ofs & Hofs).
  exists (Transaction.version self), (Transaction.locktime self), ifs, ofs.
  apply Forall2_length in Hifs as Hlen_in. apply Forall2_length in Hofs as Hlen_out.
  split; [|split; [|split; [done|split; [done|split; [lia|split; [lia|split]]]]]].
  - unfold Transaction_wire_fields. rewrite Hself. simpl.
    rewrite (mapM_Some_2 (fun l => Input_wire_fields <$> ins σ !! l) _ (with_script <$> ifs)).
    2:{ apply Forall2_fmap_r. apply (Forall2_impl _ _ _ _ Hifs). simpl. by intros l f (? & _). }
    simpl.
    rewrite (mapM_Some_2 (fun l => Output_wire_fields <$> outs σ !! l) _ ofs).
    2:{ apply (Forall2_impl _ _ _ _ Hofs). by intros l f (? & _). }
    done.
  - unfold canonical_bytes in Hraw.
    rewrite (mapM_Some_2 (canonical_input_bytes σ) _ (input_fields_bytes <$> ifs)) in Hraw.
    2:{ apply Forall2_fmap_r. apply (Forall2_impl _ _ _ _ Hifs). simpl. by intros l f (_ & ? & _). }
    simpl in Hraw.
    rewrite (mapM_Some_2 (output_bytes_at σ) _ (output_fields_bytes <$> ofs)) in Hraw.
    2:{ apply Forall2_fmap_r. apply (Forall2_impl _ _ _ _ Hofs). simpl. by intros l f (_ & ? & _). }
    simpl in Hraw. by injection Hraw as <-.
  - eapply Forall2_Forall_r; [exact Hifs|]. apply Forall_forall. by intros l _ f (_ & _ & ?).
  - eapply Forall2_Forall_r; [exact Hofs|]. apply Forall_forall. by intros l _ f (_ & _ & ?).
Qed.

End WireFields.

(** ** Reading a layout *)

Section ReadLayout.
Context `{Hashes} `{Codecs}.

Lemma input_fields_decodes (f : bytes * Z * bytes * Z) :
  input_fields_fit f ->
  decodes Input_deserialize_from (input_fields_bytes f)
    (fun i' => Input_wire_fields i' = with_script f).
Proof.
  destruct f as [[[h p] b] s]. intros (H32 & Hp & Hs & Hlen).
  exact (Input_bytes_decodes
           (Input.mk None None (TXORef.mk (TXRefImmutable.from_hash h 0) p None) s None None)
           b H32 Hp Hs (conj (Nat2Z.is_nonneg _) Hlen)).
Qed.

Lemma output_fields_decodes (start : Z) (f : Z * bytes) :
  output_fields_fit f ->
  decodes (Output_deserialize_from start) (output_fields_bytes f)
    (fun o' => Output_wire_fields o' = f).
Proof.
  destruct f as [a b]. intros (Ha & Hlen).
  exact (Output_bytes_decodes (Output_new a (OutputScript.mk b 0 OtherScript ∅)) start
           Ha (conj (Nat2Z.is_nonneg _) Hlen)).
Qed.

Lemma Forall2_eq_fmap {A B} (f : A -> B) (xs : list A) (ys : list B) :
  Forall2 (fun x y => f x = y) xs ys <-> f <$> xs = ys.
Proof.
  split.
  - apply Forall2_fmap_eq.
  - intros <-. apply Forall2_fmap_r, Forall_Forall2_diag, Forall_forall. done.
Qed.

Lemma Forall2_fmap_both {A B C} (f : A -> C) (g : B -> C) (xs : list A) (ys : list B) :
  Forall2 (fun x y => f x = g y) xs ys -> f <$> xs = g <$> ys.
Proof.
  induction 1 as [|x y xs ys Hxy _ IH]; [done|].
  rewrite !fmap_cons. by f_equal.
Qed.

Lemma inputs_fields_decode (ifs : list (bytes * Z * bytes * Z)) :
  Forall input_fields_fit ifs ->
  decodes (read_many Input_deserialize_from (length ifs))
    (concat (input_fields_bytes <$> ifs))
    (fun is' => Input_wire_fields <$> is' = with_script <$> ifs).
Proof.
  intros Hfit c rest.
  destruct (read_many_decodes Input_deserialize_from
              (fun i' f => Input_wire_fields i' = with_script f)
              (input_fields_bytes <$> ifs) ifs) with (c := c) (rest := rest)
    as (is' & Hread & His').
  { apply Forall2_fmap_l, Forall_Forall2_diag.
    eapply Forall_impl; [exact Hfit|]. intros f. apply input_fields_decodes. }
  exists is'. split; [done|].
  by apply Forall2_fmap_both in His'.
Qed.

Lemma outputs_fields_decode (start : Z) (ofs : list (Z * bytes)) :
  Forall output_fields_fit ofs ->
  decodes (read_many (Output_deserialize_from start) (length ofs))
    (concat (output_fields_bytes <$> ofs))
    (fun os' => Output_wire_fields <$> os' = ofs).
Proof.
  intros Hfit c rest.
  destruct (read_many_decodes (Output_deserialize_from start)
              (fun o' f => Output_wire_fields o' = f)
              (output_fields_bytes <$> ofs) ofs) with (c := c) (rest := rest)
    as (os' & Hread & Hos').
  { apply Forall2_fmap_l, Forall_Forall2_diag.
    eapply Forall_impl; [exact Hfit|]. intros f. apply output_fields_decodes. }
  exists os'. split; [done|]. by apply Forall2_eq_fmap in Hos'.
Qed.

Lemma witness_stack_decodes (stack : list bytes) :
  witness_stack_fits stack ->
  decodes read_witness_stack (witness_stack_bytes stack) (fun stack' => stack' = stack).
Proof.
  intros [Hn Hitems] c rest. unfold read_witness_stack, witness_stack_bytes.
  rewrite <- app_assoc. rewrite read_compact_size_bytes by lia. step. rewrite Nat2Z.id.
  destruct (read_many_decodes read_witness_item (fun x' x => x' = x)
              (string_bytes <$> stack) stack) with
    (c := c ++ compact_size_bytes (Z.of_nat (length stack))) (rest := rest)
    as (items & Hread & Hitems').
  { apply Forall2_fmap_l, Forall_Forall2_diag.
    eapply Forall_impl; [exact Hitems|]. intros item Hlen c' rest'.
    exists item. split; [|done].
    apply (read_string_bytes item (conj (Nat2Z.is_nonneg _) Hlen)). }
  exists items. rewrite Hread. split; [by rewrite <- app_assoc|].
  apply Forall2_eq_fmap in Hitems'. by rewrite list_fmap_id in Hitems'.
Qed.

Lemma witness_stacks_decode (stacks : list (list bytes)) :
  Forall witness_stack_fits stacks ->
  decodes (read_many read_witness_stack (length stacks))
    (concat (witness_stack_bytes <$> stacks)) (fun stacks' => stacks' = stacks).
Proof.
  intros Hfit c rest.
  destruct (read_many_decodes read_witness_stack (fun x' x => x' = x)
              (witness_stack_bytes <$> stacks) stacks) with (c := c) (rest := rest)
    as (stacks' & Hread & Hstacks').
  { apply Forall2_fmap_l, Forall_Forall2_diag.
    eapply Forall_impl; [exact Hfit|]. intros stack. apply witness_stack_decodes. }
  exists stacks'. split; [done|].
  apply Forall2_eq_fmap in Hstacks'. by rewrite list_fmap_id in Hstacks'.
Qed.

(** The layout without witness data is read back field by field, up to the
    end of the layout. *)
Lemma parse_fields (version locktime : Z) (ifs : list (bytes * Z * bytes * Z))
  (ofs : list (Z * bytes)) (c rest : bytes) :
  in_range 4 version = true -> in_range 4 locktime = true ->
  ifs <> [] ->
  Z.of_nat (length ifs) < 2 ^ 64 -> Z.of_nat (length ofs) < 2 ^ 64 ->
  Forall input_fields_fit ifs -> Forall output_fields_fit ofs ->
  exists is' os',
    parse_transaction 0 (mkStream c (fields_bytes version locktime ifs ofs ++ rest))
    = Ok (mkParsed version None is' os' None locktime,
          mkStream (c ++ fields_bytes version locktime ifs ofs) rest)
    /\ Input_wire_fields <$> is' = with_script <$> ifs
    /\ Output_wire_fields <$> os' = ofs.
Proof.
  intros Hv Hlt Hne Hnin Hnout Hin Hout.
  unfold parse_transaction, fields_bytes, Transaction_bytes, tell.
  rewrite !length_fmap. cbn [consumed].
  unfold read_uint32. rewrite <- !app_assoc.
  rewrite read_uint_le_bytes by done. step.
  rewrite read_compact_size_bytes by lia. step.
  destruct (Z.eqb_spec (Z.of_nat (length ifs)) 0) as [Hz|_].
  { destruct ifs; [done|simpl in Hz; lia]. }
  step. rewrite Nat2Z.id.
  match goal with |- context [read_many _ _ (mkStream ?c0 (_ ++ ?r))] =>
    destruct (inputs_fields_decode ifs Hin c0 r) as (is' & -> & His') end.
  step. rewrite read_compact_size_bytes by lia. step. rewrite Nat2Z.id.
  match goal with |- context [read_many _ _ (mkStream ?c0 (_ ++ ?r))] =>
    destruct (outputs_fields_decode (Z.of_nat (length c)) ofs Hout c0 r)
      as (os' & -> & Hos') end.
  step. cbn [default negb Z.eqb]. step.
  rewrite read_uint_le_bytes by done. step.
  exists is', os'. split; [|done]. by rewrite <- !app_assoc.
Qed.

(** The layout with witness data: the marker and the flag are recognised,
    the witness stacks are read, one per input, and the fields are those of
    the layout without them. *)
Lemma parse_segwit_fields (flag0 version flag locktime : Z)
  (ifs : list (bytes * Z * bytes * Z)) (ofs : list (Z * bytes))
  (stacks : list (list bytes)) (c rest : bytes) :
  in_range 4 version = true -> in_range 4 locktime = true ->
  0 < flag < 256 ->
  Z.of_nat (length ifs) < 2 ^ 64 -> Z.of_nat (length ofs) < 2 ^ 64 ->
  Forall input_fields_fit ifs -> Forall output_fields_fit ofs ->
  length stacks = length ifs -> Forall witness_stack_fits stacks ->
  exists is' os',
    parse_transaction flag0
      (mkStream c (segwit_fields_bytes version flag locktime ifs ofs stacks ++ rest))
    = Ok (mkParsed version (Some flag) is' os' (Some (concat stacks)) locktime,
          mkStream (c ++ segwit_fields_bytes version flag locktime ifs ofs stacks) rest)
    /\ Input_wire_fields <$> is' = with_script <$> ifs
    /\ Output_wire_fields <$> os' = ofs.
Proof.
  intros Hv Hlt Hflag Hnin Hnout Hin Hout Hlen Hstacks.
  unfold parse_transaction, segwit_fields_bytes, tell. cbn [consumed].
  unfold read_uint32, read_uint8. rewrite <- !app_assoc.
  rewrite read_uint_le_bytes by done. step.
  change (le_bytes 1 0) with (compact_size_bytes 0).
  rewrite read_compact_size_bytes by lia. step. cbn [Z.eqb]. step.
  rewrite read_uint_le_bytes by (apply in_range_spec; lia). step.
  rewrite read_compact_size_bytes by lia. step. rewrite Nat2Z.id.
  match goal with |- context [read_many _ _ (mkStream ?c0 (_ ++ ?r))] =>
    destruct (inputs_fields_decode ifs Hin c0 r) as (is' & -> & His') end.
  step. rewrite read_compact_size_bytes by lia. step. rewrite Nat2Z.id.
  match goal with |- context [read_many _ _ (mkStream ?c0 (_ ++ ?r))] =>
    destruct (outputs_fields_decode (Z.of_nat (length c)) ofs Hout c0 r)
      as (os' & -> & Hos') end.
  step. change (default flag0 (Some flag)) with flag.
  destruct (Z.eqb_spec flag 0) as [?|_]; [lia|]. cbn [negb].
  pose proof (witness_stacks_decode stacks Hstacks) as Hrd. rewrite Hlen in Hrd.
  match goal with |- context [read_many _ _ (mkStream ?c0 (_ ++ ?r))] =>
    destruct (Hrd c0 r) as (stacks' & -> & ->) end.
  step. rewrite read_uint_le_bytes by done. step.
  exists is', os'. split; [|done]. by rewrite <- !app_assoc.
Qed.

End ReadLayout.

(** ** What a successful read tells *)

Lemma Z_of_byte_range (b : byte) : 0 <= Z_of_byte b < 256.
Proof.
  unfold Z_of_byte. pose proof (Byte.to_N_bounded b). lia.
Qed.

Lemma le_value_range (bs : bytes) : 0 <= le_value bs < 256 ^ Z.of_nat (length bs).
Proof.
  induction bs as [|b bs IH]; [simpl; lia|].
  cbn [le_value length]. rewrite Nat2Z.inj_succ, Z.pow_succ_r by lia.
  pose proof (Z_of_byte_range b). lia.
Qed.

Lemma advanced_refl (s : BCDataStream) : advanced s s.
Proof. exists []. by rewrite app_nil_r. Qed.

Lemma advanced_trans (s1 s2 s3 : BCDataStream) :
  advanced s1 s2 -> advanced s2 s3 -> advanced s1 s3.
Proof.
  intros (b1 & Hc1 & Hr1) (b2 & Hc2 & Hr2). exists (b1 ++ b2).
  rewrite Hc2, Hc1, Hr1, Hr2. by rewrite !app_assoc.
Qed.

Lemma read_inv (n : nat) (s s' : BCDataStream) (bs : bytes) :
  read n s = Ok (bs, s') ->
  length bs = n /\ consumed s' = consumed s ++ bs /\ remaining s = bs ++ remaining s'.
Proof.
  unfold read. destruct (Nat.leb_spec n (length (remaining s))) as [Hn|]; [|done].
  intros [= <- <-]. cbn [consumed remaining]. split; [|split; [done|]].
  - rewrite length_take. lia.
  - by rewrite take_drop.
Qed.

Lemma read_advanced (n : nat) (s s' : BCDataStream) (bs : bytes) :
  read n s = Ok (bs, s') -> advanced s s'.
Proof. intros (_ & ? & ?)%read_inv. by exists bs. Qed.

Lemma read_uint_inv (n : nat) (s s' : BCDataStream) (v : Z) :
  read_uint n s = Ok (v, s') -> in_range n v = true /\ advanced s s'.
Proof.
  unfold read_uint. intros Hr. inv_bind_as Hr bs Hbs. destruct bs as [bs s1].
  injection Hr as <- <-. apply read_inv in Hbs as Hinv. destruct Hinv as (Hlen & _).
  split; [|by eapply read_advanced].
  apply in_range_spec. rewrite <- Hlen. apply le_value_range.
Qed.

Lemma read_compact_size_inv (s s' : BCDataStream) (v : Z) :
  read_compact_size s = Ok (v, s') -> 0 <= v < 2 ^ 64 /\ advanced s s'.
Proof.
  unfold read_compact_size, read_uint8, read_uint16, read_uint32, read_uint64.
  intros Hr. inv_bind_as Hr vs Hvs. destruct vs as [v1 s1].
  apply read_uint_inv in Hvs as [Hv1 Ha1]. apply in_range_spec in Hv1.
  destruct (v1 <? 253) eqn:Hlt.
  - injection Hr as <- <-. split; [|done]. apply Z.ltb_lt in Hlt. lia.
  - destruct (v1 =? 253); [|destruct (v1 =? 254)];
      apply read_uint_inv in Hr as [Hv Ha]; apply in_range_spec in Hv;
      (split; [|by eapply advanced_trans]).
    + change (256 ^ Z.of_nat 2) with 65536 in Hv. lia.
    + change (256 ^ Z.of_nat 4) with 4294967296 in Hv. lia.
    + change (256 ^ Z.of_nat 8) with (2 ^ 64) in Hv. lia.
Qed.

Lemma read_string_inv (s s' : BCDataStream) (b : bytes) :
  read_string s = Ok (b, s') -> Z.of_nat (length b) < 2 ^ 64 /\ advanced s s'.
Proof.
  unfold read_string. intros Hr. inv_bind_as Hr vs Hvs. destruct vs as [size s1].
  apply read_compact_size_inv in Hvs as [Hsize Ha1].
  apply read_inv in Hr as Hinv. destruct Hinv as (Hlen & _).
  split; [rewrite Hlen; lia|].
  eapply advanced_trans; [exact Ha1|]. by eapply read_advanced.
Qed.

Lemma read_many_inv {A} (rd : BCDataStream -> result (A * BCDataStream))
  (I : BCDataStream -> Prop) (P : A -> Prop) :
  (forall s x s', I s -> rd s = Ok (x, s') -> advanced s s' /\ I s' /\ P x) ->
  forall n s xs s',
    I s -> read_many rd n s = Ok (xs, s') ->
    advanced s s' /\ I s' /\ Forall P xs /\ length xs = n.
Proof.
  intros Hrd. induction n as [|n IH]; intros s xs s' Hs Hr.
  - injection Hr as <- <-. split; [apply advanced_refl|]. by split.
  - cbn [read_many] in Hr. inv_bind_as Hr xs1 Hx. destruct xs1 as [x s1].
    inv_bind_as Hr xs2 Hxs. destruct xs2 as [xs2 s2]. injection Hr as <- <-.
    destruct (Hrd s x s1 Hs Hx) as (Ha1 & Hs1 & Hx').
    destruct (IH s1 xs2 s2 Hs1 Hxs) as (Ha2 & Hs2 & Hxs' & Hlen).
    split; [by eapply advanced_trans|]. split; [done|].
    split; [by constructor|]. simpl. by rewrite Hlen.
Qed.

Section Inversion.
Context `{Hashes} `{Codecs}.

Lemma Input_deserialize_from_inv (s s' : BCDataStream) (i : Input.t) :
  Input_deserialize_from s = Ok (i, s') ->
  advanced s s'
  /\ exists f, Input_wire_fields i = with_script f /\ input_fields_fit f.
Proof.
  unfold Input_deserialize_from, read_uint32. intros Hr.
  inv_bind_as Hr hs Hh. destruct hs as [h s1].
  inv_bind_as Hr ps Hp. destruct ps as [p s2].
  inv_bind_as Hr bs Hb. destruct bs as [b s3].
  inv_bind_as Hr qs Hq. destruct qs as [q s4]. injection Hr as <- <-.
  apply read_inv in Hh as Hinv. destruct Hinv as (Hlen & _).
  apply read_advanced in Hh.
  apply read_uint_inv in Hp as [Hp Ha2]. apply read_string_inv in Hb as [Hb Ha3].
  apply read_uint_inv in Hq as [Hq Ha4].
  split.
  - eapply advanced_trans; [exact Hh|]. eapply advanced_trans; [exact Ha2|].
    by eapply advanced_trans.
  - exists (h, p, b, q). split; [|done]. apply Input_new_wire_fields.
Qed.

Lemma Output_deserialize_from_inv (s0 s s' : BCDataStream) (o : Output.t) :
  advanced s0 s ->
  Output_deserialize_from (tell s0) s = Ok (o, s') ->
  advanced s s' /\ advanced s0 s'
  /\ output_fields_fit (Output_wire_fields o) /\ script_at (remaining s0) o.
Proof.
  unfold Output_deserialize_from, read_uint64. intros Ha0 Hr.
  inv_bind_as Hr as1 Ha. destruct as1 as [a s1].
  inv_bind_as Hr ls Hl. destruct ls as [len s2].
  inv_bind_as Hr bs Hb. destruct bs as [src s3]. injection Hr as <- <-.
  apply read_uint_inv in Ha as [Ha Ha1]. apply read_compact_size_inv in Hl as [Hl Ha2].
  apply read_inv in Hb as Hinv. destruct Hinv as (Hlen & Hc3 & Hr3).
  apply read_advanced in Hb.
  assert (Ha02 : advanced s0 s2).
  { eapply advanced_trans; [exact Ha0|]. by eapply advanced_trans. }
  assert (Hss' : advanced s s3).
  { eapply advanced_trans; [exact Ha1|]. by eapply advanced_trans. }
  split; [done|]. split; [by eapply advanced_trans|]. split.
  - unfold Output_wire_fields, Output_new, OutputScript.parse. simpl.
    split; [done|]. rewrite Hlen. lia.
  - destruct Ha02 as (pre & Hpre & Hrem).
    unfold script_at, Output_new, OutputScript.parse, tell. simpl.
    rewrite Hpre, length_app. split; [lia|].
    replace (Z.to_nat (Z.of_nat (length (consumed s0) + length pre)%nat
                       - Z.of_nat (length (consumed s0)))) with (length pre) by lia.
    rewrite Hrem, drop_app_length, Hr3. by rewrite take_app_length.
Qed.

(** A successful parse: every field that was read fits the width it was
    read from, the previous-tx hashes have 32 bytes, without the marker
    there is at least one input, and each output script sits in the bytes
    at the offset it records. *)
Lemma parse_transaction_inv (flag0 : Z) (s s' : BCDataStream) (p : parsed) :
  parse_transaction flag0 s = Ok (p, s') ->
  advanced s s'
  /\ in_range 4 (p_version p) = true /\ in_range 4 (p_locktime p) = true
  /\ Z.of_nat (length (p_inputs p)) < 2 ^ 64
  /\ Z.of_nat (length (p_outputs p)) < 2 ^ 64
  /\ (p_flag p = None -> p_inputs p <> [])
  /\ Forall (fun i => exists f, Input_wire_fields i = with_script f /\ input_fields_fit f)
       (p_inputs p)
  /\ Forall (fun o => output_fields_fit (Output_wire_fields o)
                      /\ script_at (remaining s) o) (p_outputs p).
Proof.
  unfold parse_transaction, read_uint32, read_uint8. intros Hr.
  inv_bind_as Hr vs Hv. destruct vs as [version s1].
  apply read_uint_inv in Hv as [Hv Ha1].
  inv_bind_as Hr cs Hc. destruct cs as [ic s2].
  apply read_compact_size_inv in Hc as [Hic Ha2].
  inv_bind_as Hr fs Hf. destruct fs as [[flag ic'] s3].
  assert (Hmark : advanced s2 s3 /\ 0 <= ic' < 2 ^ 64 /\ (flag = None -> ic' <> 0)).
  { destruct (Z.eqb_spec ic 0) as [_|Hne].
    - inv_bind_as Hf fl Hfl. destruct fl as [fl s2'].
      inv_bind_as Hf cs Hc'. destruct cs as [ic2 s2'']. injection Hf as <- <- <-.
      apply read_uint_inv in Hfl as [_ Hfl]. apply read_compact_size_inv in Hc' as [? ?].
      split; [by eapply advanced_trans|]. by split.
    - injection Hf as <- <- <-. split; [apply advanced_refl|]. by split. }
  destruct Hmark as (Ha3 & Hic' & Hnone).
  assert (Ha03 : advanced s s3).
  { eapply advanced_trans; [exact Ha1|]. by eapply advanced_trans. }
  inv_bind_as Hr is1 Hi. destruct is1 as [inputs s4].
  apply (read_many_inv Input_deserialize_from (fun _ => True)
           (fun i => exists f, Input_wire_fields i = with_script f /\ input_fields_fit f))
    in Hi as (Ha4 & _ & Hinputs & Hlen_in); [|clear|done].
  2:{ intros sa x sb _ Hx. apply Input_deserialize_from_inv in Hx as [? ?]. by split. }
  inv_bind_as Hr cs Hc'. destruct cs as [oc s5].
  apply read_compact_size_inv in Hc' as [Hoc Ha5].
  assert (Ha05 : advanced s s5).
  { eapply advanced_trans; [exact Ha03|]. by eapply advanced_trans. }
  inv_bind_as Hr os1 Ho. destruct os1 as [outputs s6].
  apply (read_many_inv (Output_deserialize_from (tell s)) (advanced s)
           (fun o => output_fields_fit (Output_wire_fields o)
                     /\ script_at (remaining s) o))
    in Ho as (Ha6 & Ha06 & Houtputs & Hlen_out); [|clear|done].
  2:{ intros sa x sb Hsa Hx.
      apply (Output_deserialize_from_inv s sa sb x Hsa) in Hx as (? & ? & ? & ?).
      split; [done|]. split; [done|]. by split. }
  inv_bind_as Hr ws Hw. destruct ws as [witnesses s7].
  assert (Ha67 : advanced s6 s7).
  { destruct (negb _).
    - inv_bind_as Hw st Hst. destruct st as [stacks s6']. injection Hw as _ <-.
      apply (read_many_inv read_witness_stack (fun _ => True) (fun _ => True))
        in Hst as (? & _); [done| |done].
      intros sa x sb _ Hx. split; [|done].
      unfold read_witness_stack in Hx. inv_bind_as Hx cs Hcs. destruct cs as [n sa'].
      apply read_compact_size_inv in Hcs as [_ Hcs].
      apply (read_many_inv read_witness_item (fun _ => True) (fun _ => True))
        in Hx as (? & _); [by eapply advanced_trans| |done].
      intros sc y sd _ Hy. split; [|done].
      by apply (read_string_inv sc sd y) in Hy as [_ ?].
    - injection Hw as _ <-. apply advanced_refl. }
  inv_bind_as Hr ls Hl. destruct ls as [locktime s8]. injection Hr as <- <-.
  apply read_uint_inv in Hl as [Hl Ha8]. cbn [p_version p_locktime p_inputs p_outputs p_flag].
  split.
  { eapply advanced_trans; [exact Ha06|]. by eapply advanced_trans. }
  split; [done|]. split; [done|]. split; [rewrite Hlen_in; lia|].
  split; [rewrite Hlen_out; lia|]. split; [|by split].
  intros Hflag Hnil. apply Hnone in Hflag.
  rewrite Hnil in Hlen_in. simpl in Hlen_in. lia.
Qed.

End Inversion.

(** ** Deserialization *)

Section Deserialization.
Context `{Hashes} `{Codecs}.

(** [Transaction(raw=...)]: the new object, then the reads, then the
    installation. *)
Lemma Transaction_new_parse (σ : Store) (raw : bytes) (version locktime : Z)
  (is_verified : bool) (height position : Z) (julian_day : option Z) :
  let init :=
    Transaction_init (Some raw) version locktime is_verified height position julian_day in
  let σ1 := {| txs := txs σ ++ [init]; ins := ins σ; outs := outs σ |} in
  Transaction_new σ (Some raw) version locktime is_verified height position julian_day
  = ('(p, stream) ← parse_transaction 0 (new_stream raw);
     Ok (length (txs σ), install σ1 (length (txs σ)) init p)).
Proof.
  intros init σ1. unfold Transaction_new, alloc_tx. fold init. fold σ1.
  assert (Hinit : txs σ1 !! length (txs σ) = Some init).
  { subst σ1. cbn [txs]. by apply list_lookup_middle. }
  assert (Hnone : Transaction_deserialize σ1 (length (txs σ)) None
                  = Transaction_deserialize σ1 (length (txs σ)) (Some (new_stream raw))).
  { unfold Transaction_deserialize. by rewrite (proj2 (get_tx_Ok σ1 _ init) Hinit). }
  rewrite Hnone, (Transaction_deserialize_parse σ1 _ init _ Hinit).
  change (Transaction.is_segwit_flag init) with 0.
  by destruct (parse_transaction 0 (new_stream raw)) as [[p s]|e].
Qed.

Lemma wire_fields_hashes_32 (σ : Store) (t : tx_loc) (version locktime : Z)
  (ifs : list (bytes * Z * bytes * Z)) (ofs : list (Z * bytes)) :
  Transaction_wire_fields σ t = Some (version, locktime, with_script <$> ifs, ofs) ->
  has_inputs σ t = true -> hashes_32 σ t = true ->
  ifs <> [] /\ Forall (fun f => length f.1.1.1 = 32%nat) ifs.
Proof.
  unfold Transaction_wire_fields, has_inputs. intros Hw Hne H32.
  destruct (txs σ !! t) as [self|] eqn:Hself; [|done].
  pose proof (hashes_32_Forall σ t self Hself H32) as H32'.
  simpl in Hw.
  destruct (mapM _ (Transaction._inputs self)) as [fin|] eqn:Hfin; [|done].
  simpl in Hw.
  destruct (mapM _ (Transaction._outputs self)) as [fout|] eqn:Hfout; [|done].
  simpl in Hw. injection Hw as _ _ -> _.
  apply mapM_Some in Hfin. apply Forall2_fmap_r in Hfin.
  apply negb_true_iff, bool_decide_eq_false in Hne. split.
  - intros ->. apply Forall2_nil_inv_r in Hfin. done.
  - clear -Hfin H32'. induction Hfin as [|l f ls fs Hl _ IH]; [constructor|].
    apply Forall_cons in H32' as [Hlen H32']. constructor; [|by apply IH].
    unfold length_is_32 in Hlen. simpl in Hl.
    destruct (ins σ !! l) as [i|]; [|done]. destruct f as [[[h p] b] s].
    injection Hl as Hh _ _ _. simpl. by rewrite <- Hh.
Qed.

Lemma fit_of_writable (ifs : list (bytes * Z * bytes * Z)) :
  Forall input_fields_writable ifs ->
  Forall (fun f => length f.1.1.1 = 32%nat) ifs ->
  Forall input_fields_fit ifs.
Proof.
  intros Hw H32. induction Hw as [|[[[h p] b] s] fs Hf _ IH]; [constructor|].
  apply Forall_cons in H32 as [Hlen H32]. constructor; [|by apply IH].
  destruct Hf as (? & ? & ?). by repeat split.
Qed.

Lemma writable_of_fit (ifs : list (bytes * Z * bytes * Z)) :
  Forall input_fields_fit ifs -> Forall input_fields_writable ifs.
Proof.
  intros Hf. eapply Forall_impl; [exact Hf|].
  intros [[[h p] b] s] (? & ? & ? & ?). by repeat split.
Qed.

(** X19. Transactions are read one after the other from a stream: when the
    stream holds, from its cursor on, the serialization of a transaction
    with at least one input followed by anything, [deserialize] on a new
    transaction object reads exactly those bytes, leaves the cursor at the
    first byte after them, and gives the new object the serialized fields
    of the transaction. *)
Theorem deserialize_from_stream (σ : Store) (t t' : tx_loc) (x : Transaction.t)
  (raw c rest : bytes) :
  _serialize σ t true false = Ok raw ->
  has_inputs σ t = true -> hashes_32 σ t = true ->
  txs σ !! t' = Some x ->
  Transaction._inputs x = [] -> Transaction._outputs x = [] ->
  Transaction.is_segwit_flag x = 0 ->
  exists σ' fields,
    Transaction_deserialize σ t' (Some (mkStream c (raw ++ rest)))
    = Ok (σ', Some (mkStream (c ++ raw) rest))
    /\ Transaction_wire_fields σ t = Some fields
    /\ Transaction_wire_fields σ' t' = Some fields.
Proof.
  intros Hs Hne H32 Hx Hin Hout Hflag.
  destruct (serialize_wire_fields σ t false raw Hs)
    as (v & lt & ifs & ofs & Hw & -> & Hv & Hlt & Hnin & Hnout & Hifs & Hofs).
  destruct (wire_fields_hashes_32 σ t v lt ifs ofs Hw Hne H32) as [Hnil Hlen].
  pose proof (fit_of_writable ifs Hifs Hlen) as Hfit.
  destruct (parse_fields v lt ifs ofs c rest Hv Hlt Hnil Hnin Hnout Hfit Hofs)
    as (is' & os' & Hparse & His' & Hos').
  rewrite (Transaction_deserialize_parse σ t' x _ Hx), Hflag, Hparse. step.
  eexists _, _. split; [reflexivity|]. split; [exact Hw|].
  rewrite (install_wire_fields σ t' x _ Hx Hin Hout). cbn [p_version p_locktime p_inputs
    p_outputs]. by rewrite His', Hos'.
Qed.

(** X20. Witness data is read and set aside: from bytes in the segwit
    layout (marker 0, a non-zero flag, inputs, outputs, one witness stack
    per input, locktime) the constructor builds a transaction with the
    fields of the layout without witness data, the flag, and the witness
    items of all stacks in order; its [raw] is the bytes it was given and
    its [raw_sans_segwit] is the layout without marker, flag and witness
    data. *)
Theorem segwit_bytes_are_stripped (σ : Store) (version flag locktime : Z)
  (ifs : list (bytes * Z * bytes * Z)) (ofs : list (Z * bytes))
  (stacks : list (list bytes))
  (version0 locktime0 : Z) (is_verified : bool) (height position : Z)
  (julian_day : option Z) :
  in_range 4 version = true -> in_range 4 locktime = true ->
  0 < flag < 256 ->
  Z.of_nat (length ifs) < 2 ^ 64 -> Z.of_nat (length ofs) < 2 ^ 64 ->
  Forall input_fields_fit ifs -> Forall output_fields_fit ofs ->
  length stacks = length ifs -> Forall witness_stack_fits stacks ->
  let raw := segwit_fields_bytes version flag locktime ifs ofs stacks in
  exists t' σ' x' σ'',
    Transaction_new σ (Some raw) version0 locktime0 is_verified height position julian_day
    = Ok (t', σ')
    /\ Transaction_wire_fields σ' t'
       = Some (version, locktime, with_script <$> ifs, ofs)
    /\ txs σ' !! t' = Some x'
    /\ Transaction.is_segwit_flag x' = flag
    /\ Transaction.witnesses x' = concat stacks
    /\ Transaction_raw σ' t' = Ok (raw, σ')
    /\ Transaction_raw_sans_segwit σ' t'
       = Ok (fields_bytes version locktime ifs ofs, σ'').
Proof.
  intros Hv Hlt Hflag Hnin Hnout Hifs Hofs Hlen Hstacks raw.
  destruct (parse_segwit_fields 0 version flag locktime ifs ofs stacks [] []
              Hv Hlt Hflag Hnin Hnout Hifs Hofs Hlen Hstacks)
    as (is' & os' & Hparse & His' & Hos').
  rewrite app_nil_r in Hparse. fold raw in Hparse.
  rewrite Transaction_new_parse. unfold new_stream. rewrite Hparse. step.
  set (init := Transaction_init (Some raw) version0 locktime0 is_verified height position
                 julian_day).
  set (σ1 := {| txs := txs σ ++ [init]; ins := ins σ; outs := outs σ |}).
  set (t' := length (txs σ)).
  set (p := mkParsed version (Some flag) is' os' (Some (concat stacks)) locktime).
  assert (Hinit : txs σ1 !! t' = Some init).
  { subst σ1 t'. cbn [txs]. by apply list_lookup_middle. }
  assert (Hw : Transaction_wire_fields (install σ1 t' init p) t'
               = Some (version, locktime, with_script <$> ifs, ofs)).
  { rewrite (install_wire_fields σ1 t' init p Hinit eq_refl eq_refl).
    subst p. cbn [p_version p_locktime p_inputs p_outputs]. by rewrite His', Hos'. }
  pose proof (install_lookup σ1 t' init p Hinit) as Hx'.
  eexists t', _, _, _. split; [reflexivity|]. split; [exact Hw|].
  split; [exact Hx'|]. split; [done|]. split; [done|]. split.
  - unfold Transaction_raw. rewrite (proj2 (get_tx_Ok _ _ _) Hx'). step. done.
  - unfold Transaction_raw_sans_segwit. rewrite (proj2 (get_tx_Ok _ _ _) Hx'). step.
    cbn [Transaction.is_segwit_flag installed_tx p_flag p default
         Transaction._raw_sans_segwit init Transaction_init].
    unfold id. destruct (Z.eqb_spec flag 0) as [?|_]; [lia|]. cbn [negb].
    rewrite (wire_fields_serialize _ t' version locktime ifs ofs true Hw Hv Hlt Hnin Hnout
               (writable_of_fit ifs Hifs) Hofs).
    step. reflexivity.
Qed.

(** What the constructor builds from bytes it can read. *)
Lemma Transaction_new_Ok (σ σ' : Store) (t : tx_loc) (raw : bytes) (version locktime : Z)
  (is_verified : bool) (height position : Z) (julian_day : option Z) :
  Transaction_new σ (Some raw) version locktime is_verified height position julian_day
  = Ok (t, σ') ->
  let init :=
    Transaction_init (Some raw) version locktime is_verified height position julian_day in
  let σ1 := {| txs := txs σ ++ [init]; ins := ins σ; outs := outs σ |} in
  exists p s',
    parse_transaction 0 (new_stream raw) = Ok (p, s')
    /\ t = length (txs σ) /\ σ' = install σ1 t init p
    /\ txs σ1 !! t = Some init.
Proof.
  intros Hnew init σ1. rewrite Transaction_new_parse in Hnew.
  inv_bind_as Hnew ps Hp. destruct ps as [p s']. injection Hnew as <- <-.
  exists p, s'. split; [done|]. split; [done|]. split; [done|].
  subst σ1. cbn [txs]. by apply list_lookup_middle.
Qed.

Lemma parsed_fields (p : parsed) :
  Forall (fun i => exists f, Input_wire_fields i = with_script f /\ input_fields_fit f)
    (p_inputs p) ->
  exists ifs, Input_wire_fields <$> p_inputs p = with_script <$> ifs
              /\ Forall input_fields_fit ifs /\ length ifs = length (p_inputs p).
Proof.
  induction 1 as [|i is' (f & Hf & Hfit) _ (ifs & IH & Hfits & Hlen)].
  - by exists [].
  - exists (f :: ifs). rewrite !fmap_cons, Hf, IH. split; [done|].
    split; [by constructor|]. simpl. by rewrite Hlen.
Qed.

(** What the constructor built serializes, and the serialization is read
    back as the same fields. *)
Lemma parsed_serializes (σ σ1 : Store) (t : tx_loc) (raw : bytes)
  (version locktime : Z) (is_verified : bool) (height position : Z)
  (julian_day : option Z) :
  Transaction_new σ (Some raw) version locktime is_verified height position julian_day
  = Ok (t, σ1) ->
  exists raw' fields,
    _serialize σ1 t true false = Ok raw'
    /\ Transaction_wire_fields σ1 t = Some fields
    /\ (has_inputs σ1 t = true ->
        exists t2 σ2,
          Transaction_new σ1 (Some raw') version locktime is_verified height position
            julian_day = Ok (t2, σ2)
          /\ Transaction_wire_fields σ2 t2 = Some fields
          /\ _serialize σ2 t2 true false = Ok raw').
Proof.
  intros Hnew.
  destruct (Transaction_new_Ok _ _ _ _ _ _ _ _ _ _ Hnew) as (p & s' & Hp & -> & -> & Hinit).
  destruct (parse_transaction_inv 0 _ _ _ Hp)
    as (_ & Hv & Hlt & Hnin & Hnout & _ & Hins & Houts).
  destruct (parsed_fields p Hins) as (ifs & Hifs & Hfit & Hlen).
  set (init := Transaction_init (Some raw) version locktime is_verified height position
                 julian_day) in *.
  set (σ0 := {| txs := txs σ ++ [init]; ins := ins σ; outs := outs σ |}) in *.
  set (t := length (txs σ)) in *.
  assert (Hofit : Forall output_fields_fit (Output_wire_fields <$> p_outputs p)).
  { apply Forall_fmap. eapply Forall_impl; [exact Houts|]. by intros o [? _]. }
  assert (Hw : Transaction_wire_fields (install σ0 t init p) t
               = Some (p_version p, p_locktime p, with_script <$> ifs,
                       Output_wire_fields <$> p_outputs p)).
  { rewrite (install_wire_fields σ0 t init p Hinit eq_refl eq_refl). by rewrite Hifs. }
  assert (Hnin' : Z.of_nat (length ifs) < 2 ^ 64) by (rewrite Hlen; done).
  assert (Hnout' : Z.of_nat (length (Output_wire_fields <$> p_outputs p)) < 2 ^ 64)
    by (rewrite length_fmap; done).
  pose proof (wire_fields_serialize _ t _ _ ifs _ false Hw Hv Hlt Hnin' Hnout'
                (writable_of_fit ifs Hfit) Hofit) as Hser.
  eexists _, _. split; [exact Hser|]. split; [exact Hw|].
  intros Hne.
  assert (Hnil : ifs <> []).
  { unfold has_inputs in Hne. rewrite (install_lookup σ0 t init p Hinit) in Hne.
    apply negb_true_iff, bool_decide_eq_false in Hne.
    cbn [Transaction._inputs installed_tx init Transaction_init app] in Hne.
    intros ->. simpl in Hlen. apply Hne. by destruct (p_inputs p). }
  destruct (parse_fields (p_version p) (p_locktime p) ifs _ [] [] Hv Hlt Hnil Hnin' Hnout'
              Hfit Hofit) as (is2 & os2 & Hparse2 & His2 & Hos2).
  rewrite app_nil_r in Hparse2.
  rewrite Transaction_new_parse. unfold new_stream. rewrite Hparse2. step.
  set (raw' := fields_bytes (p_version p) (p_locktime p) ifs
                 (Output_wire_fields <$> p_outputs p)) in *.
  set (init2 := Transaction_init (Some raw') version locktime is_verified height position
                  julian_day).
  set (σ1 := install σ0 t init p) in *.
  set (σ1' := {| txs := txs σ1 ++ [init2]; ins := ins σ1; outs := outs σ1 |}).
  set (t2 := length (txs σ1)).
  set (p2 := mkParsed (p_version p) None is2 os2 None (p_locktime p)).
  assert (Hinit2 : txs σ1' !! t2 = Some init2).
  { subst σ1' t2. cbn [txs]. by apply list_lookup_middle. }
  assert (Hw2 : Transaction_wire_fields (install σ1' t2 init2 p2) t2
                = Some (p_version p, p_locktime p, with_script <$> ifs,
                        Output_wire_fields <$> p_outputs p)).
  { rewrite (install_wire_fields σ1' t2 init2 p2 Hinit2 eq_refl eq_refl).
    subst p2. cbn [p_version p_locktime p_inputs p_outputs]. by rewrite His2, Hos2. }
  eexists t2, _. split; [reflexivity|]. split; [exact Hw2|].
  exact (wire_fields_serialize _ t2 _ _ ifs _ false Hw2 Hv Hlt Hnin' Hnout'
           (writable_of_fit ifs Hfit) Hofit).
Qed.

(** X21. From bytes that hold a whole transaction (every read of the
    constructor finds all the bytes it asks for) the constructor builds a
    transaction that can be serialized, and serializing it gives a normal
    form: when it has at least one input, the serialized bytes hold a whole
    transaction again, the constructor reads them back as the same fields,
    and serializing what it read gives the same bytes again. *)
Theorem parsed_serializes_to_normal_form (σ : Store) (raw : bytes)
  (version locktime : Z) (is_verified : bool) (height position : Z)
  (julian_day : option Z) :
  complete_bytes raw ->
  exists t σ1 raw' fields,
    Transaction_new σ (Some raw) version locktime is_verified height position julian_day
    = Ok (t, σ1)
    /\ _serialize σ1 t true false = Ok raw'
    /\ Transaction_wire_fields σ1 t = Some fields
    /\ (has_inputs σ1 t = true ->
        complete_bytes raw'
        /\ exists t2 σ2,
             Transaction_new σ1 (Some raw') version locktime is_verified height position
               julian_day = Ok (t2, σ2)
             /\ Transaction_wire_fields σ2 t2 = Some fields
             /\ _serialize σ2 t2 true false = Ok raw').
Proof.
  intros (p & s & Hp).
  pose proof (Transaction_new_parse σ raw version locktime is_verified height position
                julian_day) as Hnew.
  cbv zeta in Hnew. rewrite Hp in Hnew. cbn [mbind result_bind] in Hnew.
  destruct (parsed_serializes _ _ _ _ _ _ _ _ _ _ Hnew) as (raw' & fields & Hser & Hw & Hagain).
  eexists _, _, raw', fields. split; [exact Hnew|]. split; [exact Hser|].
  split; [exact Hw|]. intros Hne.
  destruct (Hagain Hne) as (t2 & σ2 & Hnew2 & Hw2 & Hser2).
  split; [|by exists t2, σ2].
  destruct (Transaction_new_Ok _ _ _ _ _ _ _ _ _ _ Hnew2) as (p2 & s2 & Hp2 & _).
  by exists p2, s2.
Qed.

(** X22. The offset recorded in each output script of a transaction built
    from bytes is the position of the script within those bytes: the bytes
    from that offset on start with the script source. *)
Theorem output_script_offsets (σ σ' : Store) (t : tx_loc) (raw : bytes)
  (version locktime : Z) (is_verified : bool) (height position : Z)
  (julian_day : option Z) :
  Transaction_new σ (Some raw) version locktime is_verified height position julian_day
  = Ok (t, σ') ->
  exists x',
    txs σ' !! t = Some x'
    /\ Forall (fun l => exists o, outs σ' !! l = Some o /\ script_at raw o)
         (Transaction._outputs x').
Proof.
  intros Hnew.
  destruct (Transaction_new_Ok _ _ _ _ _ _ _ _ _ _ Hnew) as (p & s' & Hp & -> & -> & Hinit).
  destruct (parse_transaction_inv 0 _ _ _ Hp) as (_ & _ & _ & _ & _ & _ & _ & Houts).
  eexists. split; [by apply install_lookup|].
  cbn [Transaction._outputs installed_tx Transaction_init app outs].
  apply Forall_forall. intros l Hl%elem_of_seq.
  destruct (lookup_lt_is_Some_2 (p_outputs p) (l - length (outs σ))) as [o Ho]; [lia|].
  exists (Output.attach (RefMutable (length (txs σ))) (Z.of_nat (0 + (l - length (outs σ)))) o).
  split.
  - unfold install. cbn [outs Transaction._outputs Transaction_init length].
    rewrite lookup_app_r by lia. rewrite list_lookup_imap, Ho. done.
  - rewrite Forall_forall in Houts. destruct (Houts o) as [_ Hat].
    { by eapply list_elem_of_lookup_2. }
    exact Hat.
Qed.

(** X23. The constructor keeps the bytes it was given and attaches what it
    read in order: for every bytes it can read, [raw] of the new
    transaction is those very bytes (canonical or not), every input and
    output it read is a new object whose owner is the new transaction and
    whose position is its index, and the objects that were there before
    are untouched. *)
Theorem constructor_keeps_raw (σ σ' : Store) (t : tx_loc) (raw : bytes)
  (version locktime : Z) (is_verified : bool) (height position : Z)
  (julian_day : option Z) :
  Transaction_new σ (Some raw) version locktime is_verified height position julian_day
  = Ok (t, σ') ->
  t = length (txs σ)
  /\ Transaction_raw σ' t = Ok (raw, σ')
  /\ consistent InputsList σ' t /\ consistent OutputsList σ' t
  /\ (exists x', txs σ' = txs σ ++ [x'])
  /\ (exists is', ins σ' = ins σ ++ is')
  /\ (exists os', outs σ' = outs σ ++ os').
Proof.
  intros Hnew.
  destruct (Transaction_new_Ok _ _ _ _ _ _ _ _ _ _ Hnew) as (p & s' & Hp & -> & -> & Hinit).
  split; [done|].
  pose proof (install_lookup _ _ _ p Hinit) as Hx'.
  destruct (install_consistent _ _ _ p Hinit eq_refl eq_refl) as [Hcin Hcout].
  split; [|split; [done|split; [done|split; [|split]]]].
  - unfold Transaction_raw. rewrite (proj2 (get_tx_Ok _ _ _) Hx'). step. done.
  - eexists. unfold install. cbn [txs].
    rewrite insert_app_r_alt by lia. rewrite Nat.sub_diag. done.
  - eexists. unfold install. cbn [ins]. done.
  - eexists. unfold install. cbn [outs]. done.
Qed.

(** X24. The serialized bytes, and with them the id, are a function of the
    serialized fields only: two transactions with the same version,
    locktime, input fields and output fields serialize to the same bytes
    and, read with empty caches, have the same hash and id, whatever
    their annotations, heights, flags and owners of the objects are. *)
Theorem same_fields_same_txid (σ1 σ2 : Store) (t1 t2 : tx_loc)
  (self1 self2 : Transaction.t) (r : bytes) :
  Transaction_wire_fields σ1 t1 = Transaction_wire_fields σ2 t2 ->
  _serialize σ1 t1 true false = Ok r ->
  txs σ1 !! t1 = Some self1 -> txs σ2 !! t2 = Some self2 ->
  caches_reset self1 -> caches_reset self2 ->
  _serialize σ2 t2 true false = Ok r
  /\ exists i σ1' σ2',
       Transaction_id σ1 t1 = Ok (i, σ1') /\ Transaction_id σ2 t2 = Ok (i, σ2').
Proof.
  intros Hw Hs Hself1 Hself2 Hr1 Hr2.
  destruct (serialize_wire_fields σ1 t1 false r Hs)
    as (v & lt & ifs & ofs & Hw1 & -> & Hv & Hlt & Hnin & Hnout & Hifs & Hofs).
  rewrite Hw in Hw1.
  pose proof (wire_fields_serialize σ2 t2 v lt ifs ofs false Hw1 Hv Hlt Hnin Hnout
                Hifs Hofs) as Hs2.
  split; [done|].
  destruct (id_uncached σ1 t1 self1 _ Hself1 Hr1 Hs) as (σ1' & Hid1 & _).
  destruct (id_uncached σ2 t2 self2 _ Hself2 Hr2 Hs2) as (σ2' & Hid2 & _).
  by eexists _, σ1', σ2'.
Qed.

End Deserialization.

(** ** The blocks of a file *)















(** ** Opening and closing *)

Lemma db_run_invariant (c : db_call) (self : BlockchainDB.t) :
  db_invariant self -> db_invariant (db_run c self).
Proof.
  unfold db_invariant. destruct self as [conn ex], c as [[| |]|], ex, conn; simpl;
    intros Hinv; try done; auto.
Qed.

(** X27. Opening and closing the database: [open] on a database that
    already has an executor raises the assertion and changes nothing, also
    when the earlier [open] failed inside sqlite3 (the executor it created
    stays until [close]); [close] is idempotent; and after any sequence of
    [open] and [close] calls a connection is held only while there is an
    executor, so that [close] always brings the database back to its
    initial state, from which [open] is accepted. *)
Theorem db_open_close (calls : list db_call) :
  let self := foldl (fun s c => db_run c s) BlockchainDB_init calls in
  db_invariant self
  /\ BlockchainDB_close self = BlockchainDB_init
  /\ BlockchainDB_close (BlockchainDB_close self) = BlockchainDB_close self
  /\ (forall outcome,
        BlockchainDB.executor self <> None ->
        BlockchainDB_open outcome self = (self, Some AlreadyOpen))
  /\ (forall outcome,
        BlockchainDB.executor (fst (BlockchainDB_open outcome self)) <> None)
  /\ BlockchainDB_open Connects (BlockchainDB_close self)
     = ({| BlockchainDB.connection := Some SqliteConnection;
           BlockchainDB.executor := Some (Executor 1) |}, None).
Proof.
  cbv zeta.
  assert (Hinv : db_invariant (foldl (fun s c => db_run c s) BlockchainDB_init calls)).
  { induction calls as [|c calls IH] using rev_ind; [done|].
    rewrite foldl_app. simpl. by apply db_run_invariant. }
  set (self := foldl _ _ calls) in *. clearbody self.
  assert (Hclose : BlockchainDB_close self = BlockchainDB_init).
  { unfold db_invariant in Hinv. destruct self as [conn [ex|]]; simpl in *.
    - by destruct conn.
    - by rewrite Hinv. }
  split; [done|]. split; [done|]. split; [by rewrite Hclose|]. split; [|split].
  - intros outcome Hex. unfold BlockchainDB_open.
    by destruct (BlockchainDB.executor self).
  - intros outcome. unfold BlockchainDB_open.
    destruct (BlockchainDB.executor self) eqn:Hex; simpl; [by rewrite Hex|].
    by destruct outcome.
  - by rewrite Hclose.
Qed.

(** * The further properties on concrete data *)

(** The coinbase input of [create_coinbase] takes 45 bytes. *)
Lemma Input_size_formula_witness :
  Input_size Input_create_coinbase = Ok 45
  /\ Input_get_fee example_ledger Input_create_coinbase = Ok 2250.
Proof.
  destruct (Input_size_formula example_ledger Input_create_coinbase beef)
    as (Hsize & Hfee & _); [reflexivity..|].
  split; [exact Hsize|exact Hfee].
Defined.

(** A claim-name output with a one-byte script and the name "ab". *)
Lemma Output_get_fee_formula_witness :
  Output_get_fee example_ledger
    (Output_new 1 (OutputScript.mk [x01] 0 ClaimName {["claim_name" := VBytes [x61; x62]]}))
  = Ok 400000.
Proof.
  destruct (Output_get_fee_formula example_ledger
              (Output_new 1 (OutputScript.mk [x01] 0 ClaimName
                               {["claim_name" := VBytes [x61; x62]]})))
    as (_ & Hfee); [reflexivity..|].
  exact Hfee.
Defined.

Lemma base_size_counts_only_witness :
  exists σ',
    Transaction_base_size coinbase_store 0%nat = Ok (10, σ')
    /\ Transaction_get_base_fee example_ledger coinbase_store 0%nat = Ok (500, σ').
Proof.
  destruct (_serialize_Ok coinbase_store 0%nat false coinbase_raw eq_refl)
    as (self & Hself & Hok & _).
  destruct (base_size_counts_only example_ledger coinbase_store 0%nat self Hself)
    as (raw & _ & _ & Hbase & Hfee).
  - by injection Hself as <-.
  - exact Hok.
  - injection Hself as <-. eexists. split; [exact Hbase|exact Hfee].
Defined.

(** The second input of the spending transaction does not resolve. *)
Lemma effective_input_sum_spec_witness :
  is_ok (Transaction_get_effective_input_sum example_ledger spending_store 0%nat) = false
  /\ Transaction_input_sum spending_store 0%nat = Ok 10.
Proof.
  split; [|reflexivity].
  apply (proj1 (effective_input_sum_spec example_ledger spending_store 0%nat _ eq_refl)
           1%nat); [|reflexivity].
  apply list_elem_of_In. simpl. auto.
Defined.

Lemma txid_of_uncached_witness :
  exists σ',
    Transaction_id (H := example_hashes) coinbase_store 0%nat
    = Ok (hexlify (rev (sha256 (Hashes := example_hashes)
                          (sha256 (Hashes := example_hashes) coinbase_raw))), σ')
    /\ Transaction_hash (H := example_hashes) σ' 0%nat
       = Ok (sha256 (Hashes := example_hashes)
               (sha256 (Hashes := example_hashes) coinbase_raw), σ').
Proof.
  destruct (txid_of_uncached (H := example_hashes) coinbase_store 0%nat _ coinbase_raw
              eq_refl) as (σ' & Hid & Hhash & _).
  - by repeat split.
  - reflexivity.
  - by exists σ'.
Defined.

(** Adding the two outputs to the coinbase transaction of the detached
    store: the id read afterwards is that of the new content. *)
Lemma add_refreshes_txid_witness :
  exists σ1 r σ2,
    run_call 0%nat (AddOutputs [0; 1]%nat) detached_store = Ok σ1
    /\ _serialize σ1 0%nat true false = Ok r
    /\ Transaction_id (H := example_hashes) σ1 0%nat
       = Ok (hexlify (rev (sha256 (Hashes := example_hashes)
                             (sha256 (Hashes := example_hashes) r))), σ2).
Proof.
  destruct (run_call 0%nat (AddOutputs [0; 1]%nat) detached_store) as [σ1|e] eqn:Hcall;
    [|vm_compute in Hcall; discriminate].
  destruct (_serialize σ1 0%nat true false) as [r|e] eqn:Hser.
  2:{ vm_compute in Hcall. injection Hcall as <-. vm_compute in Hser. discriminate. }
  destruct (add_refreshes_txid (H := example_hashes) detached_store σ1 0%nat
              (AddOutputs [0; 1]%nat) r Hcall Hser) as (σ2 & Hid & _).
  by exists σ1, r, σ2.
Defined.

Lemma claim_decoded_once_witness :
  exists c σ',
    Output_claim (H0 := example_codecs) undecoded_store 0%nat = Ok (c, σ')
    /\ Output_claim (H0 := example_codecs) σ' 0%nat = Ok (c, σ')
    /\ σ' <> undecoded_store.
Proof.
  destruct (Output_claim (H0 := example_codecs) undecoded_store 0%nat)
    as [[c σ']|e] eqn:Hc; [|vm_compute in Hc; discriminate].
  destruct (claim_decoded_once (H0 := example_codecs) undecoded_store σ' 0%nat c Hc)
    as (Hagain & _).
  exists c, σ'. split; [done|]. split; [done|].
  vm_compute in Hc. injection Hc as _ <-. intros Heq.
  apply (f_equal (fun s => held_claim <$> outs s !! 0%nat)) in Heq.
  vm_compute in Heq. discriminate.
Defined.

(** After [sign] the cached raw bytes of the claim's transaction are still
    returned. *)
Lemma sign_keeps_cached_raw_witness :
  exists σ',
    Output_sign (H := example_hashes) (H0 := example_codecs)
      cached_signing_store 0%nat 1%nat None = Ok σ'
    /\ Transaction_raw σ' 0%nat = Ok (signing_raw, σ')
    /\ _serialize σ' 0%nat true false <> Ok signing_raw.
Proof.
  destruct (Output_sign (H := example_hashes) (H0 := example_codecs)
              cached_signing_store 0%nat 1%nat None) as [σ'|e] eqn:Hs;
    [|vm_compute in Hs; discriminate].
  destruct (sign_keeps_cached_raw (H := example_hashes) (H0 := example_codecs)
              cached_signing_store σ' 0%nat 1%nat None 0%nat _ Hs eq_refl)
    as (Hraw & _ & _).
  exists σ'. split; [done|]. split; [by apply Hraw|].
  vm_compute in Hs. injection Hs as <-. vm_compute. discriminate.
Defined.

Lemma sign_digest_agrees_witness :
  exists σ' o' c' digest,
    Output_sign (H := example_hashes) (H0 := example_codecs)
      signing_store 0%nat 1%nat None = Ok σ'
    /\ outs σ' !! 0%nat = Some o' /\ held_claim o' = Some c'
    /\ Output_get_signature_digest (H := example_hashes) (H0 := example_codecs)
         (H1 := example_base58) example_ledger σ' 0%nat = Ok (digest, σ')
    /\ Claim.signature c'
       = Some (sign_digest_deterministic (Codecs := example_codecs) [x2a] digest).
Proof.
  destruct (Output_sign (H := example_hashes) (H0 := example_codecs)
              signing_store 0%nat 1%nat None) as [σ'|e] eqn:Hs;
    [|vm_compute in Hs; discriminate].
  destruct (sign_digest_agrees (H := example_hashes) (H0 := example_codecs)
              (H1 := example_base58) example_ledger signing_store σ' 0%nat 1%nat None
              Hs eq_refl)
    as (o' & ch & c' & key & first & sch & Ho' & Hheld & Hch & Hkey & _ & _ & Hsig & Hdig).
  exists σ', o', c', (sha256 (Hashes := example_hashes)
                       (first ++ sch ++ Claim.to_message_bytes c')).
  split; [done|]. split; [done|]. split; [done|].
  assert (Hkey' : key = [x2a]).
  { vm_compute in Hs. injection Hs as <-. vm_compute in Hch. injection Hch as <-.
    vm_compute in Hkey. by injection Hkey as <-. }
  assert (Hpayload : truthy_bytes (Claim.unsigned_payload c') = false).
  { vm_compute in Hs. injection Hs as <-. vm_compute in Ho'. injection Ho' as <-.
    vm_compute in Hheld. by injection Hheld as <-. }
  split; [by apply Hdig|]. by rewrite <- Hkey'.
Defined.

(** Output 0 of the spending store annotated from output 1. *)
Lemma update_annotations_spec_witness :
  exists σ',
    Output_update_annotations spending_store 0%nat (Some 1%nat) = Ok σ'
    /\ _serialize σ' 0%nat true false = _serialize spending_store 0%nat true false.
Proof.
  destruct (Output_update_annotations spending_store 0%nat (Some 1%nat))
    as [σ'|e] eqn:Hu; [|vm_compute in Hu; discriminate].
  destruct (update_annotations_spec spending_store σ' 0%nat (Some 1%nat) Hu)
    as (_ & _ & _ & _ & Hser & _).
  exists σ'. split; [done|]. apply Hser.
Defined.

Lemma net_account_balance_value_witness :
  Transaction_net_account_balance annotated_store 0%nat = Ok (-4)
  /\ Transaction_my_inputs annotated_store 0%nat = Ok [0%nat].
Proof.
  destruct (net_account_balance_value annotated_store 0%nat _ eq_refl)
    as (Hbalance & _); [reflexivity..|].
  split; [exact Hbalance|reflexivity].
Defined.

Lemma support_outputs_partition_witness :
  Transaction_my_support_outputs support_store 0%nat = Ok [0%nat]
  /\ Transaction_other_support_outputs support_store 0%nat = Ok [1%nat].
Proof.
  destruct (support_outputs_partition support_store 0%nat _ eq_refl)
    as (Hmine & Hother & _); [reflexivity|].
  split; [exact Hmine|exact Hother].
Defined.

(** With an update of the wallet's own for the claim 0a, only the spent
    support is abandoned. *)
Lemma abandon_outputs_sound_witness :
  exists ys σ',
    Transaction_my_abandon_outputs (H := example_hashes) (abandon_store (Some true)) 0%nat
    = Ok (ys, σ')
    /\ sublist ys [0%nat; 1%nat].
Proof.
  destruct (Transaction_my_abandon_outputs (H := example_hashes)
              (abandon_store (Some true)) 0%nat) as [[ys σ']|e] eqn:Ha;
    [|vm_compute in Ha; discriminate].
  destruct (abandon_outputs_sound (H := example_hashes) (abandon_store (Some true)) σ'
              0%nat _ ys eq_refl Ha) as (Hsub & _).
  exists ys, σ'. split; [done|]. exact Hsub.
Defined.

(** When the update among the outputs is not the wallet's, the spent update
    and the spent support are both abandoned. *)
Lemma abandon_without_updates_witness :
  Transaction_my_abandon_outputs (H := example_hashes) (abandon_store (Some false)) 0%nat
  = Ok ([0%nat; 1%nat], abandon_store (Some false)).
Proof.
  apply (abandon_without_updates (H := example_hashes) (abandon_store (Some false)) 0%nat _
           eq_refl); reflexivity.
Defined.

(** An update and a support are spent, with an update among the outputs;
    and a claim whose transaction hash was not read before is spent, with
    the update that carries it on among the outputs. *)
Lemma abandon_updates_and_supports_witness :
  (exists ys σ',
     Transaction_my_abandon_outputs (H := example_hashes) (abandon_store (Some true)) 0%nat
     = Ok (ys, σ')
     /\ 1%nat ∈ ys /\ 0%nat ∉ ys)
  /\ (exists ys σ',
        Transaction_my_abandon_outputs (H := example_hashes) continued_claim_store 1%nat
        = Ok (ys, σ')
        /\ 0%nat ∉ ys).
Proof.
  split.
  - destruct (Transaction_my_abandon_outputs (H := example_hashes)
                (abandon_store (Some true)) 0%nat) as [[ys σ']|e] eqn:Ha;
      [|vm_compute in Ha; discriminate].
    exists ys, σ'. split; [reflexivity|]. split.
    + destruct (abandon_updates_and_supports (H := example_hashes)
                  (abandon_store (Some true)) σ' 0%nat _ ys 1%nat _ eq_refl Ha eq_refl)
        as (Hsup & _).
      apply Hsup; [reflexivity|]. exists 1%nat. split; [|reflexivity].
      apply list_elem_of_In. simpl. auto.
    + destruct (abandon_updates_and_supports (H := example_hashes)
                  (abandon_store (Some true)) σ' 0%nat _ ys 0%nat _ eq_refl Ha eq_refl)
        as (_ & Hupd).
      eapply (Hupd 2%nat _ (hexlify [x0a])); try reflexivity.
      apply list_elem_of_In. simpl. auto.
  - destruct (Transaction_my_abandon_outputs (H := example_hashes)
                continued_claim_store 1%nat) as [[ys σ']|e] eqn:Ha;
      [|vm_compute in Ha; discriminate].
    exists ys, σ'. split; [reflexivity|].
    destruct (abandon_updates_and_supports (H := example_hashes)
                continued_claim_store σ' 1%nat _ ys 0%nat _ eq_refl Ha eq_refl)
      as (_ & Hupd).
    eapply (Hupd 1%nat _ (hexlify (rev claim_output_hash))).
    + reflexivity.
    + vm_compute. reflexivity.
    + apply list_elem_of_In. simpl. auto.
    + reflexivity.
    + reflexivity.
    + vm_compute. reflexivity.
Defined.

(** The coinbase transaction read from a stream that holds two bytes
    before it and one byte after it. *)
Lemma deserialize_from_stream_witness :
  exists σ' fields,
    Transaction_deserialize (H0 := example_codecs) stream_store 1%nat
      (Some (mkStream [xaa; xbb] (coinbase_raw ++ [xcc])))
    = Ok (σ', Some (mkStream ([xaa; xbb] ++ coinbase_raw) [xcc]))
    /\ Transaction_wire_fields stream_store 0%nat = Some fields
    /\ Transaction_wire_fields σ' 1%nat = Some fields.
Proof.
  apply (deserialize_from_stream (H0 := example_codecs) stream_store 0%nat 1%nat fresh_tx
           coinbase_raw [xaa; xbb] [xcc]); reflexivity.
Defined.

Lemma segwit_bytes_are_stripped_witness :
  exists t' σ' x' σ'',
    Transaction_new (H0 := example_codecs) empty_store (Some segwit_raw)
      1 0 false (-2) (-1) None = Ok (t', σ')
    /\ Transaction_wire_fields σ' t'
       = Some (1, 0, with_script <$> segwit_inputs, segwit_outputs)
    /\ txs σ' !! t' = Some x'
    /\ Transaction.is_segwit_flag x' = 1
    /\ Transaction.witnesses x' = concat [[[xaa]]]
    /\ Transaction_raw σ' t' = Ok (segwit_raw, σ')
    /\ Transaction_raw_sans_segwit σ' t'
       = Ok (fields_bytes 1 0 segwit_inputs segwit_outputs, σ'').
Proof.
  apply (segwit_bytes_are_stripped (H0 := example_codecs) empty_store 1 1 0
           segwit_inputs segwit_outputs [[[xaa]]] 1 0 false (-2) (-1) None);
    try reflexivity; try lia.
  - repeat constructor.
  - repeat constructor.
  - repeat constructor.
Defined.

Lemma parsed_serializes_to_normal_form_witness :
  exists t σ1 raw' fields t2 σ2,
    Transaction_new (H0 := example_codecs) empty_store (Some segwit_raw)
      1 0 false (-2) (-1) None = Ok (t, σ1)
    /\ _serialize σ1 t true false = Ok raw'
    /\ Transaction_wire_fields σ1 t = Some fields
    /\ Transaction_new (H0 := example_codecs) σ1 (Some raw') 1 0 false (-2) (-1) None
       = Ok (t2, σ2)
    /\ Transaction_wire_fields σ2 t2 = Some fields
    /\ raw' <> segwit_raw.
Proof.
  destruct (parsed_serializes_to_normal_form (H0 := example_codecs) empty_store
              segwit_raw 1 0 false (-2) (-1) None)
    as (t & σ1 & raw' & fields & Hnew & Hser & Hw & Hagain).
  { eexists _, _. vm_compute. reflexivity. }
  destruct Hagain as (_ & t2 & σ2 & Hnew2 & Hw2 & _).
  { vm_compute in Hnew. injection Hnew as <- <-. reflexivity. }
  exists t, σ1, raw', fields, t2, σ2.
  split; [exact Hnew|]. split; [exact Hser|]. split; [exact Hw|].
  split; [exact Hnew2|]. split; [exact Hw2|].
  vm_compute in Hnew. injection Hnew as <- <-. vm_compute in Hser.
  injection Hser as <-. discriminate.
Defined.

(** The script of the output read from the coinbase bytes sits at offset
    60 of those bytes. *)
Lemma output_script_offsets_witness :
  exists t σ' o,
    Transaction_new (H0 := example_codecs) empty_store (Some coinbase_raw)
      1 0 false (-2) (-1) None = Ok (t, σ')
    /\ outs σ' !! 0%nat = Some o
    /\ OutputScript.offset (Output.script o) = 60
    /\ script_at coinbase_raw o.
Proof.
  destruct (Transaction_new (H0 := example_codecs) empty_store (Some coinbase_raw)
              1 0 false (-2) (-1) None) as [[t σ']|e] eqn:Hnew;
    [|vm_compute in Hnew; discriminate].
  destruct (output_script_offsets (H0 := example_codecs) empty_store σ' t coinbase_raw
              1 0 false (-2) (-1) None Hnew) as (x' & Hx' & Hall).
  vm_compute in Hnew. injection Hnew as <- <-.
  injection Hx' as <-. apply Forall_cons in Hall as [(o & Ho & Hat) _].
  eexists 0%nat, _, o. split; [reflexivity|]. split; [exact Ho|]. split; [|exact Hat].
  vm_compute in Ho. by injection Ho as <-.
Defined.

Lemma constructor_keeps_raw_witness :
  exists t σ',
    Transaction_new (H0 := example_codecs) coinbase_store (Some segwit_raw)
      1 0 false (-2) (-1) None = Ok (t, σ')
    /\ t = 1%nat
    /\ Transaction_raw σ' t = Ok (segwit_raw, σ')
    /\ consistent InputsList σ' t /\ consistent OutputsList σ' t.
Proof.
  destruct (Transaction_new (H0 := example_codecs) coinbase_store (Some segwit_raw)
              1 0 false (-2) (-1) None) as [[t σ']|e] eqn:Hnew;
    [|vm_compute in Hnew; discriminate].
  destruct (constructor_keeps_raw (H0 := example_codecs) coinbase_store σ' t segwit_raw
              1 0 false (-2) (-1) None Hnew) as (Ht & Hraw & Hin & Hout & _).
  exists t, σ'.
  split; [reflexivity|].
  split; [exact Ht|].
  split; [exact Hraw|].
  split; [exact Hin | exact Hout].
Defined.

(** The coinbase transaction with and without the segwit flag. *)
Lemma same_fields_same_txid_witness :
  _serialize flagged_store 0%nat true false = Ok coinbase_raw
  /\ exists i σ1' σ2',
       Transaction_id (H := example_hashes) coinbase_store 0%nat = Ok (i, σ1')
       /\ Transaction_id (H := example_hashes) flagged_store 0%nat = Ok (i, σ2').
Proof.
  eapply (same_fields_same_txid (H := example_hashes) coinbase_store flagged_store
            0%nat 0%nat _ _ coinbase_raw);
    [reflexivity | reflexivity | reflexivity | reflexivity
    | repeat split | repeat split].
Defined.


(** ** Raw bytes and the segwit flag *)

Section RawAndSansSegwit.
Context `{Hashes} `{Codecs}.

(** [tx.raw == tx.raw_sans_segwit] holds exactly when the two reads return
    the same bytes, each from its cache or from the serialization. *)
Lemma raw_equals_raw_sans_segwit_iff (σ : Store) (t : tx_loc) :
  raw_equals_raw_sans_segwit σ t = Ok true
  <-> exists r, raw_value σ t = Ok r /\ raw_sans_segwit_value σ t = Ok r.
Proof.
  unfold raw_equals_raw_sans_segwit. split.
  - intros He. inv_bind_as He rs1 Hr1. destruct rs1 as [r1 σ1].
    inv_bind_as He rs2 Hr2. destruct rs2 as [r2 σ2].
    injection He as He. apply bool_decide_eq_true in He as <-.
    destruct (Transaction_raw_value σ σ1 t r1 Hr1) as (Hv1 & _ & Hsame).
    destruct (Transaction_raw_sans_segwit_value σ1 σ2 t r1 Hr2) as (Hv2 & _).
    exists r1. split; [done|]. destruct (Hsame t) as (_ & <- & _). done.
  - intros (r & Hv1 & Hv2).
    destruct (raw_value_read σ t r Hv1) as (σ1 & Hr1). rewrite Hr1. step.
    destruct (Transaction_raw_value σ σ1 t r Hr1) as (_ & _ & Hsame).
    destruct (Hsame t) as (_ & Hrss & _). rewrite <- Hrss in Hv2.
    destruct (raw_sans_segwit_value_read σ1 t r Hv2) as (σ2 & Hr2). rewrite Hr2. step.
    by rewrite bool_decide_eq_true_2.
Qed.

Lemma read_property_values (σ σ' : Store) (read : tx_loc * cached_property) :
  read_property σ read = Ok σ' -> only_caches_filled σ σ' /\ same_values σ σ'.
Proof.
  destruct read as [t [| | |]]; cbn [read_property]; intros Hr;
    inv_bind_as Hr vs Hvs; destruct vs as [v σ1]; injection Hr as <-.
  - by apply Transaction_raw_value in Hvs as (_ & ? & ?).
  - by apply Transaction_raw_sans_segwit_value in Hvs as (_ & ? & ?).
  - by apply TXRefMutable_hash_value in Hvs as (_ & ? & ?).
  - by apply TXRefMutable_id_value in Hvs.
Qed.

Lemma read_properties_values (reads : list (tx_loc * cached_property)) :
  forall σ σ', read_properties reads σ = Ok σ' ->
    only_caches_filled σ σ' /\ same_values σ σ'.
Proof.
  unfold read_properties. induction reads as [|read reads IH]; intros σ σ' Hr.
  - injection Hr as <-. split; [apply only_caches_filled_refl | apply same_values_refl].
  - cbn [for_each] in Hr. inv_bind_as Hr σ1 Hr1.
    apply read_property_values in Hr1 as [Hf1 Hv1]. apply IH in Hr as [Hf Hv].
    split; [by eapply only_caches_filled_trans | by eapply same_values_trans].
Qed.

(** With caches that are current, both reads return the serialization. *)
Lemma caches_current_values (σ : Store) (t : tx_loc) (self : Transaction.t) (r : bytes) :
  txs σ !! t = Some self -> caches_current σ t ->
  _serialize σ t true false = Ok r ->
  raw_value σ t = Ok r /\ raw_sans_segwit_value σ t = Ok r.
Proof.
  intros Hself Hcur Hs. destruct (Hcur self Hself) as [Hraw Hrss].
  assert (Hv : raw_value σ t = Ok r).
  { unfold raw_value. rewrite (proj2 (get_tx_Ok σ t self) Hself). step.
    destruct (Transaction._raw self) as [r0|]; [|done].
    specialize (Hraw r0 eq_refl). congruence. }
  split; [done|]. unfold raw_sans_segwit_value.
  rewrite (proj2 (get_tx_Ok σ t self) Hself). step.
  destruct (negb (Transaction.is_segwit_flag self =? 0)); [|done].
  destruct (Transaction._raw_sans_segwit self) as [r0|]; [|done].
  specialize (Hrss r0 eq_refl). change (_serialize σ t true true) with
    (_serialize σ t true false) in Hrss. congruence.
Qed.

Lemma caches_current_kept (σ σ' : Store) (t : tx_loc) (x : Transaction.t) :
  txs σ !! t = Some x -> Transaction.is_segwit_flag x <> 0 ->
  only_caches_filled σ σ' -> same_values σ σ' -> caches_current σ t ->
  caches_current σ' t.
Proof.
  intros Hx Hfl Hf Hsame Hcur y Hy.
  assert (Hs : forall ss, _serialize σ' t true ss = _serialize σ t true false)
    by (intros ss; by rewrite (_serialize_only_caches σ σ')).
  destruct (only_caches_filled_lookup σ σ' t x Hf Hx) as (y' & Hy' & Hxy).
  assert (y' = y) as -> by congruence.
  pose proof (caches_filled_lists x y Hxy) as (_ & _ & _ & _ & Hflag & _).
  destruct (Hcur x Hx) as [Hraw Hrss]. destruct (Hsame t) as (Hv1 & Hv2 & _).
  unfold raw_sans_segwit_value, raw_value in Hv1, Hv2.
  rewrite (proj2 (get_tx_Ok σ t x) Hx), (proj2 (get_tx_Ok σ' t y) Hy) in Hv1, Hv2.
  cbn [mbind result_bind] in Hv1, Hv2. rewrite Hflag in Hv2.
  destruct (Z.eqb_spec (Transaction.is_segwit_flag x) 0) as [|_]; [done|].
  cbn [negb] in Hv2. split.
  - intros r Hr. rewrite Hr in Hv1. rewrite Hs.
    destruct (Transaction._raw x) as [r0|]; [|done].
    rewrite (Hraw r0 eq_refl). congruence.
  - intros r Hr. rewrite Hr in Hv2. rewrite Hs.
    destruct (Transaction._raw_sans_segwit x) as [r0|]; [|done].
    change (_serialize σ t true true) with (_serialize σ t true false) in Hrss.
    rewrite (Hrss r0 eq_refl). congruence.
Qed.

(** C2 (amended). For a transaction whose [is_segwit_flag] is set:
    [raw] equals [raw_sans_segwit] exactly when the two reads return the
    same bytes, each its cached bytes or, with an empty cache, the
    serialization of the current content.  They do whenever every cached
    serialization is the serialization of the current content: with empty
    caches (after [_reset], or deserialized from a stream rather than
    constructed from raw bytes), and after any reads of [raw],
    [raw_sans_segwit], [hash] and [id] of any transaction that follow, which
    keep the caches current.  And [_serialize] emits the same bytes
    whatever the flag and the witness items are, with or without
    [sans_segwit]. *)
Theorem raw_equals_raw_sans_segwit_current (σ : Store) (t : tx_loc)
  (self : Transaction.t) :
  txs σ !! t = Some self ->
  Transaction.is_segwit_flag self <> 0 ->
  (raw_equals_raw_sans_segwit σ t = Ok true
   <-> exists r, raw_value σ t = Ok r /\ raw_sans_segwit_value σ t = Ok r)
  /\ (Transaction._raw self = None -> Transaction._raw_sans_segwit self = None ->
      caches_current σ t)
  /\ (caches_current σ t ->
      forall r reads σ',
        _serialize σ t true false = Ok r ->
        read_properties reads σ = Ok σ' ->
        raw_equals_raw_sans_segwit σ' t = Ok true
        /\ raw_value σ' t = Ok r
        /\ caches_current σ' t)
  /\ (forall flag ws,
        _serialize
          (set_tx σ t (Transaction.set_is_segwit_flag flag (Transaction.set_witnesses ws self)))
          t true true
        = _serialize σ t true false).
Proof.
  intros Hself Hflag. split; [apply raw_equals_raw_sans_segwit_iff|].
  split; [|split].
  - intros Hraw Hrss self' Hself'. assert (self' = self) as -> by congruence.
    split; intros r Hr; congruence.
  - intros Hcur r reads σ' Hs Hreads.
    destruct (read_properties_values reads σ σ' Hreads) as [Hf Hsame].
    destruct (caches_current_values σ t self r Hself Hcur Hs) as [Hv1 Hv2].
    destruct (Hsame t) as (Hr1 & Hr2 & _). rewrite <- Hr1 in Hv1. rewrite <- Hr2 in Hv2.
    split; [|split].
    + apply raw_equals_raw_sans_segwit_iff. by exists r.
    + done.
    + by eapply caches_current_kept.
  - intros flag ws. by rewrite (_serialize_set_tx σ t self _ true false true).
Qed.

End RawAndSansSegwit.

(** ** The net account balance *)

(** C10. An input whose reference does not resolve reports [is_my_input]
    as [False]; [net_account_balance] skips such inputs: it is the same
    with and without them, and when [is_my_output] is set on every output
    of the transaction and on the output every resolved input spends, it
    returns the amounts of the own outputs minus the amounts of the own
    outputs that the resolved inputs spend, however many inputs do not
    resolve; and a resolved input whose spent output has no [is_my_output]
    annotation makes [net_account_balance] fail, with the error about
    [is_my_input] when no reference of the transaction dangles. *)
Theorem net_account_balance_unresolved (σ : Store) (t : tx_loc) (self : Transaction.t) :
  txs σ !! t = Some self ->
  (forall i, TXORef.txo (Input.txo_ref i) = None ->
     Input_is_my_input σ i = Ok (Some false))
  /\ Transaction_net_account_balance
       (set_tx σ t
          (Transaction.set__inputs (List.filter (resolves σ) (Transaction._inputs self)) self))
       t
     = Transaction_net_account_balance σ t
  /\ (forallb (annotated_input σ) (Transaction._inputs self) = true ->
      forallb (annotated_output σ) (Transaction._outputs self) = true ->
      Transaction_net_account_balance σ t
      = Ok (sum_Z (own_output_amounts σ (Transaction._outputs self))
            - sum_Z (own_input_amounts σ
                       (List.filter (resolves σ) (Transaction._inputs self)))))
  /\ (forall l i lo o,
        l ∈ Transaction._inputs self -> ins σ !! l = Some i ->
        TXORef.txo (Input.txo_ref i) = Some lo -> outs σ !! lo = Some o ->
        Output.is_my_output o = None ->
        is_ok (Transaction_net_account_balance σ t) = false
        /\ (no_dangling σ (Transaction._inputs self) = true ->
            Transaction_net_account_balance σ t
            = Err (ValueError
                     "Cannot access net_account_balance if inputs do not have is_my_input set properly."))).
Proof.
  intros Hself. split; [|split; [|split]].
  - intros i Hi. unfold Input_is_my_input. by rewrite Hi.
  - unfold Transaction_net_account_balance.
    rewrite get_tx_set_tx by (by apply lookup_lt_Some in Hself).
    rewrite (proj2 (get_tx_Ok σ t self) Hself). step.
    cbn [Transaction._inputs Transaction._outputs Transaction.set__inputs].
    change (net_balance_input (set_tx σ t _)) with (net_balance_input σ).
    change (net_balance_output (set_tx σ t _)) with (net_balance_output σ).
    by rewrite net_balance_inputs_filter.
  - intros Hins Houts. unfold Transaction_net_account_balance.
    rewrite (proj2 (get_tx_Ok σ t self) Hself). step.
    rewrite <- net_balance_inputs_filter.
    rewrite net_balance_inputs_value.
    2:{ apply forallb_forall. intros l Hl. apply filter_In in Hl as [Hl _].
        rewrite forallb_forall in Hins. by apply Hins. }
    step. rewrite net_balance_outputs_value by done. f_equal. lia.
  - intros l i lo o Hl Hi Hlo Ho Hmine.
    unfold Transaction_net_account_balance.
    rewrite (proj2 (get_tx_Ok σ t self) Hself). step.
    assert (Hfail : forall balance,
              net_balance_input σ l balance
              = Err (ValueError
                       "Cannot access net_account_balance if inputs do not have is_my_input set properly.")).
    { intros balance. unfold net_balance_input, Input_is_my_input, get_in, get_out.
      rewrite Hi. simpl. rewrite Hlo, Ho. simpl. by rewrite Hmine. }
    split.
    + assert (Hfail' : forall balance, is_ok (net_balance_input σ l balance) = false)
        by (intros balance; by rewrite Hfail).
      pose proof (for_each_Err (net_balance_input σ) (Transaction._inputs self) l
                    Hl Hfail' 0) as Herr.
      by destruct (for_each (net_balance_input σ) (Transaction._inputs self) 0).
    + intros Hnd.
      rewrite (for_each_Err_exact (net_balance_input σ) _ (Transaction._inputs self) l
                 Hl Hfail); [done|].
      intros y s Hy. by eapply net_balance_input_cases.
Qed.

(** The flagged coinbase transaction after its id and its raw bytes were
    read: the caches are filled, and [raw] still equals
    [raw_sans_segwit]. *)
Lemma raw_equals_raw_sans_segwit_current_witness :
  exists σ',
    read_properties (H := example_hashes) [(0%nat, TxId); (0%nat, RawBytes)]
      flagged_store = Ok σ'
    /\ raw_equals_raw_sans_segwit σ' 0%nat = Ok true
    /\ raw_value σ' 0%nat = Ok coinbase_raw
    /\ σ' <> flagged_store.
Proof.
  destruct (read_properties (H := example_hashes) [(0%nat, TxId); (0%nat, RawBytes)]
              flagged_store) as [σ'|e] eqn:Hreads;
    [|vm_compute in Hreads; discriminate].
  destruct (raw_equals_raw_sans_segwit_current (H := example_hashes) flagged_store 0%nat
              _ eq_refl) as (_ & Hempty & Hcurrent & _); [discriminate|].
  destruct (Hcurrent (Hempty eq_refl eq_refl) coinbase_raw _ σ' eq_refl Hreads)
    as (Hequal & Hraw & _).
  exists σ'. split; [reflexivity|]. split; [exact Hequal|]. split; [exact Hraw|].
  vm_compute in Hreads. injection Hreads as <-. discriminate.
Defined.

(** The balance is returned although the second input of the transaction
    does not resolve; and it is refused when the first input spends an
    output without annotation. *)
Lemma net_account_balance_unresolved_witness :
  resolves annotated_store 1%nat = false
  /\ Transaction_net_account_balance annotated_store 0%nat = Ok (-4)
  /\ Transaction_net_account_balance
       (set_tx annotated_store 0%nat
          (Transaction.set__inputs
             (List.filter (resolves annotated_store) [0; 1]%nat)
             (Transaction.set__outputs [1%nat; 2%nat]
                (Transaction.set__inputs [0%nat; 1%nat] fresh_tx))))
       0%nat
     = Transaction_net_account_balance annotated_store 0%nat
  /\ is_ok (Transaction_net_account_balance spending_store 0%nat) = false.
Proof.
  destruct (net_account_balance_unresolved annotated_store 0%nat _ eq_refl)
    as (_ & Hskip & Hvalue & _).
  destruct (net_account_balance_unresolved spending_store 0%nat _ eq_refl)
    as (_ & _ & _ & Hfail).
  split; [reflexivity|]. split; [|split].
  - rewrite (Hvalue eq_refl eq_refl). reflexivity.
  - exact Hskip.
  - refine (proj1 (Hfail 0%nat _ 0%nat _ _ eq_refl eq_refl eq_refl eq_refl)).
    apply list_elem_of_In. simpl. auto.
Defined.
